(** * BabylonNative shader AST rewriting passes

    A shallow embedding of
    [Plugins/NativeEngine/Source/ShaderCompilerTraversers.cpp]: the symbol
    replacement helper [makeReplacements], the linker-object test
    [isLinkerObject] and the five traversers built on glslang's
    [TIntermTraverser].

    glslang nodes are heap objects compared by address, shared between several
    parents and mutated in place, so the tree lives in a pool of nodes addressed
    by natural numbers; a pointer is an optional address. *)

From Stdlib Require Import String Ascii List NArith Arith Lia Bool Sorted OrdersEx.
From stdpp Require Import base tactics option list.

Import ListNotations.
Local Open Scope string_scope.
Local Open Scope N_scope.
Local Open Scope nat_scope.
Local Open Scope list_scope.

(** ** glslang types, as far as the traversers read or write them *)

Inductive TBasicType :=
| EbtVoid | EbtFloat | EbtDouble | EbtInt | EbtUint | EbtBool
| EbtAtomicUint | EbtSampler | EbtStruct | EbtBlock | EbtString.

Inductive TStorageQualifier :=
| EvqTemporary | EvqGlobal | EvqConst | EvqVaryingIn | EvqVaryingOut
| EvqUniform | EvqBuffer | EvqShared | EvqIn | EvqOut | EvqInOut.

Inductive TPrecisionQualifier := EpqNone | EpqLow | EpqMedium | EpqHigh.
Inductive TLayoutMatrix := ElmNone | ElmRowMajor | ElmColumnMajor.
Inductive TLayoutPacking := ElpNone | ElpShared | ElpStd140 | ElpStd430 | ElpPacked | ElpScalar.

Global Instance TBasicType_eq_dec : EqDecision TBasicType.
Proof. solve_decision. Defined.
Global Instance TStorageQualifier_eq_dec : EqDecision TStorageQualifier.
Proof. solve_decision. Defined.

(** [layoutLocation] is a 12-bit and [layoutBinding] a 16-bit bit-field; the
    all-ones value of each means "not set". *)
Definition layoutLocationEnd : N := 0xFFF%N.
Definition layoutBindingEnd : N := 0xFFFF%N.

Record TQualifier := mkTQualifier {
  storage : TStorageQualifier;
  precision : TPrecisionQualifier;
  layoutMatrix : TLayoutMatrix;
  layoutPacking : TLayoutPacking;
  layoutLocation : N;
  layoutBinding : N }.

(** Assignment to the two bit-fields keeps the low 12, resp. 16, bits. *)
Definition set_storage (s : TStorageQualifier) (q : TQualifier) : TQualifier :=
  mkTQualifier s (precision q) (layoutMatrix q) (layoutPacking q) (layoutLocation q) (layoutBinding q).
Definition set_precision (p : TPrecisionQualifier) (q : TQualifier) : TQualifier :=
  mkTQualifier (storage q) p (layoutMatrix q) (layoutPacking q) (layoutLocation q) (layoutBinding q).
Definition set_layoutMatrix (m : TLayoutMatrix) (q : TQualifier) : TQualifier :=
  mkTQualifier (storage q) (precision q) m (layoutPacking q) (layoutLocation q) (layoutBinding q).
Definition set_layoutPacking (p : TLayoutPacking) (q : TQualifier) : TQualifier :=
  mkTQualifier (storage q) (precision q) (layoutMatrix q) p (layoutLocation q) (layoutBinding q).
Definition set_layoutLocation (l : N) (q : TQualifier) : TQualifier :=
  mkTQualifier (storage q) (precision q) (layoutMatrix q) (layoutPacking q) (l mod 4096)%N (layoutBinding q).
Definition set_layoutBinding (b : N) (q : TQualifier) : TQualifier :=
  mkTQualifier (storage q) (precision q) (layoutMatrix q) (layoutPacking q) (layoutLocation q) (b mod 65536)%N.

(** [TQualifier::clearLayout]. *)
Definition clearLayout (q : TQualifier) : TQualifier :=
  mkTQualifier (storage q) (precision q) ElmNone ElpNone layoutLocationEnd layoutBindingEnd.

(** A value-initialised [TQualifier{}]: every field zero. *)
Definition TQualifier_zero : TQualifier :=
  mkTQualifier EvqTemporary EpqNone ElmNone ElpNone 0%N 0%N.

Definition isUniformOrBuffer (q : TQualifier) : bool :=
  match storage q with
  | EvqUniform | EvqBuffer => true
  | _ => false
  end.

Inductive TSamplerDim := EsdNone | Esd1D | Esd2D | Esd3D | EsdCube | EsdRect | EsdBuffer.

Record TSampler := mkTSampler {
  sampledType : TBasicType;
  dim : TSamplerDim;
  arrayed : bool;
  shadow : bool;
  ms : bool;
  image : bool;
  combined : bool;
  samplerOnly : bool }.

Definition TSampler_zero : TSampler :=
  mkTSampler EbtVoid EsdNone false false false false false false.
Definition set_combined (b : bool) (s : TSampler) : TSampler :=
  mkTSampler (sampledType s) (dim s) (arrayed s) (shadow s) (ms s) (image s) b (samplerOnly s).
Definition set_samplerOnly (b : bool) (s : TSampler) : TSampler :=
  mkTSampler (sampledType s) (dim s) (arrayed s) (shadow s) (ms s) (image s) (combined s) b.

Definition TArraySizes := list N.

(** [TType].  A block type carries its member list ([structure]); the
    member list of the struct built by the uniform packer is owned by the
    pass's allocation scope and is copied here by value. *)
#[warnings="-register-all"]
Inductive TType := mkTType {
  basicType : TBasicType;
  vectorSize : nat;
  matrixCols : nat;
  matrixRows : nat;
  qualifier : TQualifier;
  arraySizes : option TArraySizes;
  sampler : TSampler;
  fieldName : option string;
  typeName : option string;
  structure : option (list TType) }.

Definition isMatrix (t : TType) : bool := 0 <? matrixCols t.
Definition isVector (t : TType) : bool := 1 <? vectorSize t.
Definition isArray (t : TType) : bool := bool_decide (is_Some (arraySizes t)).

Definition setFieldName (n : string) (t : TType) : TType :=
  mkTType (basicType t) (vectorSize t) (matrixCols t) (matrixRows t) (qualifier t)
          (arraySizes t) (sampler t) (Some n) (typeName t) (structure t).
Definition setBasicType (b : TBasicType) (t : TType) : TType :=
  mkTType b (vectorSize t) (matrixCols t) (matrixRows t) (qualifier t)
          (arraySizes t) (sampler t) (fieldName t) (typeName t) (structure t).
Definition clearArraySizes (t : TType) : TType :=
  mkTType (basicType t) (vectorSize t) (matrixCols t) (matrixRows t) (qualifier t)
          None (sampler t) (fieldName t) (typeName t) (structure t).

(** [TPublicType], the parser's precursor of a [TType]. *)
Record TPublicType := mkTPublicType {
  p_basicType : TBasicType;
  p_sampler : TSampler;
  p_qualifier : TQualifier;
  p_vectorSize : nat;
  p_matrixCols : nat;
  p_matrixRows : nat;
  p_arraySizes : option TArraySizes }.

(** [TPublicType publicType{}]. *)
Definition TPublicType_zero : TPublicType :=
  mkTPublicType EbtVoid TSampler_zero TQualifier_zero 0 0 0 None.

Definition p_set_basicType (b : TBasicType) (p : TPublicType) : TPublicType :=
  mkTPublicType b (p_sampler p) (p_qualifier p) (p_vectorSize p) (p_matrixCols p) (p_matrixRows p) (p_arraySizes p).
Definition p_set_sampler (s : TSampler) (p : TPublicType) : TPublicType :=
  mkTPublicType (p_basicType p) s (p_qualifier p) (p_vectorSize p) (p_matrixCols p) (p_matrixRows p) (p_arraySizes p).
Definition p_set_qualifier (q : TQualifier) (p : TPublicType) : TPublicType :=
  mkTPublicType (p_basicType p) (p_sampler p) q (p_vectorSize p) (p_matrixCols p) (p_matrixRows p) (p_arraySizes p).
Definition p_set_arraySizes (a : option TArraySizes) (p : TPublicType) : TPublicType :=
  mkTPublicType (p_basicType p) (p_sampler p) (p_qualifier p) (p_vectorSize p) (p_matrixCols p) (p_matrixRows p) a.
(** [TPublicType::setVector] and [TPublicType::setMatrix]. *)
Definition setVector (s : nat) (p : TPublicType) : TPublicType :=
  mkTPublicType (p_basicType p) (p_sampler p) (p_qualifier p) s 0 0 (p_arraySizes p).
Definition setMatrix (c r : nat) (p : TPublicType) : TPublicType :=
  mkTPublicType (p_basicType p) (p_sampler p) (p_qualifier p) 0 c r (p_arraySizes p).

(** [TType(const TPublicType&)]: the sampler is kept only for a sampler type. *)
Definition TType_of_public (p : TPublicType) : TType :=
  mkTType (p_basicType p) (p_vectorSize p) (p_matrixCols p) (p_matrixRows p) (p_qualifier p)
          (p_arraySizes p)
          (if decide (p_basicType p = EbtSampler) then p_sampler p else TSampler_zero)
          None None None.

(** [TType(TTypeList* userDef, const TString& n, const TQualifier& q)]: a
    block type. *)
Definition TType_block (userDef : list TType) (n : string) (q : TQualifier) : TType :=
  mkTType EbtBlock 1 0 0 q None TSampler_zero None (Some n) (Some userDef).

(** ** Nodes *)

Inductive TOperator :=
| EOpNull | EOpSequence | EOpLinkerObjects | EOpFunction | EOpFunctionCall | EOpParameters
| EOpNegative | EOpLogicalNot
| EOpDPdx | EOpDPdy | EOpFwidth
| EOpDPdxFine | EOpDPdyFine | EOpFwidthFine
| EOpDPdxCoarse | EOpDPdyCoarse | EOpFwidthCoarse
| EOpAdd | EOpSub | EOpMul | EOpDiv | EOpEqual | EOpAssign
| EOpIndexDirect | EOpIndexIndirect | EOpIndexDirectStruct | EOpVectorSwizzle
| EOpConstructFloat | EOpConstructVec2 | EOpConstructVec3 | EOpConstructVec4
| EOpConstructInt | EOpConstructUint | EOpConstructBool | EOpConstructStruct
| EOpConstructTextureSampler | EOpTexture
| EOpReturn | EOpKill | EOpBreak | EOpContinue.

Global Instance TOperator_eq_dec : EqDecision TOperator.
Proof. solve_decision. Defined.

(** A pointer to a node: [None] is [nullptr]. *)
Abbreviation ptr := (option nat) (only parsing).
Abbreviation nullptr := (@None nat) (only parsing).

Inductive TIntermNode :=
| TIntermSymbol (id : N) (name : string) (type : TType)
| TIntermConstantUnion (value : N) (type : TType)
| TIntermAggregate (op : TOperator) (sequence : list ptr) (type : TType)
| TIntermBinary (op : TOperator) (left right : ptr) (type : TType)
| TIntermUnary (op : TOperator) (operand : ptr) (type : TType)
| TIntermSelection (condition trueBlock falseBlock : ptr) (type : TType)
| TIntermLoop (body test terminal : ptr)
| TIntermBranch (flowOp : TOperator) (expression : ptr)
| TIntermSwitch (condition body : ptr).

(** The node pool.  glslang allocates nodes from a pool whose [delete] gives
    no storage back, so [RemoveAllTreeNodes] is modelled by [removed], the log
    of the subtree roots handed to it, newest first. *)
Record Pool := mkPool {
  cells : list TIntermNode;
  removed : list nat }.

(** ** Outcomes of running a piece of the C++ code *)

Inductive outcome (A : Type) :=
| Ok (a : A)
| Throw (what : string)     (* std::runtime_error *)
| Fault                     (* undefined behaviour: null or dangling dereference,
                               out-of-range index, failed assert *)
| OutOfFuel.                (* the bound of the model's recursion was reached *)
Arguments Ok {A} a.
Arguments Throw {A} what.
Arguments Fault {A}.
Arguments OutOfFuel {A}.

Definition M (A : Type) : Type := Pool -> outcome (A * Pool).

Definition ret {A} (a : A) : M A := fun h => Ok (a, h).
Definition bind {A B} (m : M A) (k : A -> M B) : M B :=
  fun h => match m h with
           | Ok (a, h') => k a h'
           | Throw w => Throw w
           | Fault => Fault
           | OutOfFuel => OutOfFuel
           end.
Definition throw {A} (what : string) : M A := fun _ => Throw what.
Definition fault {A} : M A := fun _ => Fault.

Declare Scope pass_scope.
Delimit Scope pass_scope with pass.
Notation "x <- c1 ;; c2" := (bind c1 (fun x => c2))
  (at level 100, c1 at next level, right associativity) : pass_scope.
Notation "c1 ;;; c2" := (bind c1 (fun _ => c2))
  (at level 100, right associativity) : pass_scope.
Local Open Scope pass_scope.

(** [*p]: reading through a null or dangling pointer is a fault. *)
Definition deref (p : ptr) : M TIntermNode :=
  fun h => match p with
           | None => Fault
           | Some a => match cells h !! a with
                       | Some n => Ok (n, h)
                       | None => Fault
                       end
           end.

(** [*p = n]. *)
Definition store (p : ptr) (n : TIntermNode) : M unit :=
  fun h => match p with
           | None => Fault
           | Some a => if decide (a < length (cells h))
                       then Ok (tt, mkPool (<[a := n]> (cells h)) (removed h))
                       else Fault
           end.

(** A new node of the pool. *)
Definition alloc (n : TIntermNode) : M ptr :=
  fun h => Ok (Some (length (cells h)), mkPool (cells h ++ [n]) (removed h)).

(** [RemoveAllTreeNodes(root)]. *)
Definition RemoveAllTreeNodes (root : ptr) : M unit :=
  fun h => match root with
           | None => Fault
           | Some a => if decide (a < length (cells h))
                       then Ok (tt, mkPool (cells h) (a :: removed h))
                       else Fault
           end.

(** ** [std::map<std::string, V>]

    The maps of the traversers are ordered maps: iteration visits the keys in
    ascending [std::string] order (bytewise lexicographic), whatever the order
    of insertion.  The model keeps the bindings as a list in that order. *)
Module StdMap.

Definition t (V : Type) : Type := list (string * V).

Definition empty {V} : t V := [].

(** [m.find(k)], [None] standing for [m.end()]. *)
Fixpoint find {V} (k : string) (m : t V) : option V :=
  match m with
  | [] => None
  | (k', v) :: m' => if String.eqb k k' then Some v else find k m'
  end.

(** [m[k] = v]. *)
Fixpoint insert {V} (k : string) (v : V) (m : t V) : t V :=
  match m with
  | [] => [(k, v)]
  | (k', v') :: m' =>
      match String.compare k k' with
      | Lt => (k, v) :: (k', v') :: m'
      | Eq => (k, v) :: m'
      | Gt => (k', v') :: insert k v m'
      end
  end.

(** Reading [m[k]]: a missing key is first bound to the value-initialised
    [dflt]. *)
Definition subscript {V} (dflt : V) (k : string) (m : t V) : V * t V :=
  match find k m with
  | Some v => (v, m)
  | None => (dflt, insert k dflt m)
  end.

Definition keys {V} (m : t V) : list string := map fst m.

End StdMap.

(** ** Node accessors *)

Definition getAsAggregate (n : TIntermNode) : bool :=
  match n with TIntermAggregate _ _ _ => true | _ => false end.
Definition getAsBinaryNode (n : TIntermNode) : bool :=
  match n with TIntermBinary _ _ _ _ => true | _ => false end.
Definition getAsUnaryNode (n : TIntermNode) : bool :=
  match n with TIntermUnary _ _ _ => true | _ => false end.
Definition getAsSymbolNode (n : TIntermNode) : bool :=
  match n with TIntermSymbol _ _ _ => true | _ => false end.

(** [symbol->getName()] and [symbol->getType()] through a [TIntermSymbol*]. *)
Definition getName (symbol : ptr) : M string :=
  n <- deref symbol ;;
  match n with
  | TIntermSymbol _ name _ => ret name
  | _ => fault
  end.

Definition getSymbolType (symbol : ptr) : M TType :=
  n <- deref symbol ;;
  match n with
  | TIntermSymbol _ _ type => ret type
  | _ => fault
  end.

(** ** [makeReplacements] *)

Definition unimplemented_node_handler : string :=
  "Cannot replace symbol: node type handler unimplemented".

(** The loop over [sequence] of the aggregate case; [idxs] are the indices
    still to visit. *)
Fixpoint replaceInSequence (aggregate symbol replacement : ptr) (idxs : list nat) : M unit :=
  match idxs with
  | [] => ret tt
  | idx :: rest =>
      n <- deref aggregate ;;
      match n with
      | TIntermAggregate op sequence type =>
          match sequence !! idx with
          | Some cur =>
              if decide (cur = symbol)
              then RemoveAllTreeNodes cur ;;;
                   store aggregate (TIntermAggregate op (<[idx := replacement]> sequence) type) ;;;
                   replaceInSequence aggregate symbol replacement rest
              else replaceInSequence aggregate symbol replacement rest
          | None => fault
          end
      | _ => fault
      end
  end.

(** The body of the loop of [makeReplacements] once [replacement] is known. *)
Definition replaceSymbol (symbol parent replacement : ptr) : M unit :=
  p <- deref parent ;;
  match p with
  | TIntermAggregate _ sequence _ =>
      replaceInSequence parent symbol replacement (seq 0 (length sequence))
  | TIntermBinary op l r type =>
      if decide (l = symbol)
      then RemoveAllTreeNodes l ;;;
           store parent (TIntermBinary op replacement r type)
      else RemoveAllTreeNodes r ;;;
           store parent (TIntermBinary op l replacement type)
  | TIntermUnary op operand type =>
      RemoveAllTreeNodes operand ;;;
      store parent (TIntermUnary op replacement type)
  | _ => throw unimplemented_node_handler
  end.

(** [nameToReplacement] is passed by value, so the bindings that reading
    [nameToReplacement[name]] adds stay local to the call. *)
Fixpoint makeReplacements (nameToReplacement : StdMap.t ptr)
    (symbolToParent : list (ptr * ptr)) : M unit :=
  match symbolToParent with
  | [] => ret tt
  | (symbol, parent) :: rest =>
      name <- getName symbol ;;
      let '(replacement, nameToReplacement) := StdMap.subscript nullptr name nameToReplacement in
      replaceSymbol symbol parent replacement ;;;
      makeReplacements nameToReplacement rest
  end.

(** ** [isLinkerObject] *)

Definition isLinkerObject (path : list ptr) : M bool :=
  match path !! 1 with
  | None => ret false
  | Some p =>
      n <- deref p ;;
      match n with
      | TIntermAggregate op _ _ => ret (bool_decide (op = EOpLinkerObjects))
      | _ => ret false
      end
  end.

(** ** glslang's traversal

    [TIntermNode::traverse] with a [TIntermTraverser] built by its default
    constructor: pre-order visits only, children left to right.  The
    traversers of this file override [visitSymbol] and [visitUnary]; the
    other visit methods keep the default, which returns [true].  [path] holds
    the ancestors of the node being visited, the root first.  Node fields are
    read again after each child returns, since a visitor may have changed
    them; no visitor changes the length of a sequence during the traversal. *)
Record TIntermTraverser (S : Type) := mkTraverser {
  visitSymbol : list ptr -> ptr -> S -> M S;
  visitUnary : ptr -> S -> M (bool * S) }.
Arguments mkTraverser {S}.
Arguments visitSymbol {S}.
Arguments visitUnary {S}.

Definition getParentNode (path : list ptr) : ptr :=
  match last path with
  | Some p => p
  | None => nullptr
  end.

(** The child slots of a node. *)
Inductive slot :=
| SeqAt (idx : nat) | Left | Right | Operand
| Condition | TrueBlock | FalseBlock | Test | Body | Terminal | Expression.

Definition readSlot (node : ptr) (s : slot) : M ptr :=
  n <- deref node ;;
  match n, s with
  | TIntermAggregate _ sequence _, SeqAt idx =>
      match sequence !! idx with Some c => ret c | None => fault end
  | TIntermBinary _ l _ _, Left => ret l
  | TIntermBinary _ _ r _, Right => ret r
  | TIntermUnary _ o _, Operand => ret o
  | TIntermSelection c _ _ _, Condition => ret c
  | TIntermSelection _ t _ _, TrueBlock => ret t
  | TIntermSelection _ _ f _, FalseBlock => ret f
  | TIntermLoop b _ _, Body => ret b
  | TIntermLoop _ t _, Test => ret t
  | TIntermLoop _ _ t, Terminal => ret t
  | TIntermBranch _ e, Expression => ret e
  | TIntermSwitch c _, Condition => ret c
  | TIntermSwitch _ b, Body => ret b
  | _, _ => fault
  end.

Section Traverse.
Context {S : Type} (it : TIntermTraverser S).

(** [if (child) child->traverse(it)] when [guarded], else
    [child->traverse(it)]. *)
Definition traverseSlot (rec : list ptr -> ptr -> S -> M S)
    (path : list ptr) (node : ptr) (guarded : bool) (s : slot) (st : S) : M S :=
  child <- readSlot node s ;;
  match child with
  | None => if guarded then ret st else fault
  | Some _ => rec (path ++ [node]) child st
  end.

Fixpoint traverseSlots (rec : list ptr -> ptr -> S -> M S)
    (path : list ptr) (node : ptr) (slots : list (bool * slot)) (st : S) : M S :=
  match slots with
  | [] => ret st
  | (guarded, s) :: rest =>
      st <- traverseSlot rec path node guarded s st ;;
      traverseSlots rec path node rest st
  end.

(** The children that [traverse] of a node of each class descends into, in
    order, and whether the call is guarded by a null test. *)
Definition childSlots (n : TIntermNode) : list (bool * slot) :=
  match n with
  | TIntermSymbol _ _ _ | TIntermConstantUnion _ _ => []
  | TIntermAggregate _ sequence _ => map (fun idx => (false, SeqAt idx)) (seq 0 (length sequence))
  | TIntermBinary _ _ _ _ => [(true, Left); (true, Right)]
  | TIntermUnary _ _ _ => [(false, Operand)]
  | TIntermSelection _ _ _ _ => [(false, Condition); (true, TrueBlock); (true, FalseBlock)]
  | TIntermLoop _ _ _ => [(true, Test); (true, Body); (true, Terminal)]
  | TIntermBranch _ _ => [(true, Expression)]
  | TIntermSwitch _ _ => [(false, Condition); (false, Body)]
  end.

Fixpoint traverse (fuel : nat) (path : list ptr) (node : ptr) (st : S) : M S :=
  match fuel with
  | 0 => fun _ => OutOfFuel
  | Datatypes.S fuel =>
      n <- deref node ;;
      match n with
      | TIntermSymbol _ _ _ => visitSymbol it path node st
      | TIntermConstantUnion _ _ => ret st
      | TIntermUnary _ _ _ =>
          r <- visitUnary it node st ;;
          let '(visit, st) := r in
          if (visit : bool)
          then traverseSlots (traverse fuel) path node (childSlots n) st
          else ret st
      | _ => traverseSlots (traverse fuel) path node (childSlots n) st
      end
  end.

End Traverse.

(** ** Node construction ([TIntermediate::add...]) *)

(** [TType(TBasicType t, TStorageQualifier q)]: a scalar of basic type [t]. *)
Definition TType_basic (t : TBasicType) (q : TStorageQualifier) : TType :=
  mkTType t 1 0 0 (mkTQualifier q EpqNone ElmNone ElpNone layoutLocationEnd layoutBindingEnd)
          None TSampler_zero None None None.

Definition addSymbol (id : N) (name : string) (type : TType) : M ptr :=
  alloc (TIntermSymbol id name type).

(** [addConstantUnion(unsigned int, loc)]. *)
Definition addConstantUnion (u : N) : M ptr :=
  alloc (TIntermConstantUnion u (TType_basic EbtUint EvqConst)).

(** [addBinaryNode(op, left, right, loc)] followed by [setType(type)]. *)
Definition addBinaryNode (op : TOperator) (l r : ptr) (type : TType) : M ptr :=
  alloc (TIntermBinary op l r type).

(** [addUnaryNode(op, child, {})]: the node takes its source location from
    [child], and its type stays the default scalar float. *)
Definition addUnaryNode (op : TOperator) (child : ptr) : M ptr :=
  deref child ;;;
  alloc (TIntermUnary op child (TType_basic EbtFloat EvqTemporary)).

(** [growAggregate(left, right)] on two symbols, then [setOperator(op)] and
    [setType(type)]. *)
Definition growAggregate (l r : ptr) (op : TOperator) (type : TType) : M ptr :=
  alloc (TIntermAggregate op [l; r] type).

Definition mapTypeToConstructorOp (type : TType) : TOperator :=
  match basicType type, vectorSize type with
  | EbtFloat, 2 => EOpConstructVec2
  | EbtFloat, 3 => EOpConstructVec3
  | EbtFloat, 4 => EOpConstructVec4
  | EbtFloat, _ => EOpConstructFloat
  | EbtInt, _ => EOpConstructInt
  | EbtUint, _ => EOpConstructUint
  | EbtBool, _ => EOpConstructBool
  | _, _ => EOpConstructStruct
  end.

(** Modelled from the spec: glslang's [TIntermediate::addShapeConversion] is
    not among the sources.  A shape conversion is a synthetic node that
    reshapes the value of [node] to [type]: a constructor aggregate of type
    [type] over [node]. *)
Definition addShapeConversion (type : TType) (node : ptr) : M ptr :=
  alloc (TIntermAggregate (mapTypeToConstructorOp type) [node] type).

(** Modelled from the spec: [IdGenerator] is declared in
    ShaderCompilerTraversers.h, which is not among the sources.  Identifiers
    increase monotonically within one compilation and are never reused. *)
Definition IdGenerator := N.
Definition Next (ids : IdGenerator) : N * IdGenerator := (ids, (ids + 1)%N).

(** The allocation scope returned by a pass. *)
Record AllocationsScope := mkScope {
  Types : list TType;
  TypeLists : list (list TType);
  ArraySizes : list TArraySizes }.
Definition emptyScope : AllocationsScope := mkScope [] [] [].

(** The two caches of the collecting traversers: [m_uniformNameToSymbol],
    [m_varyingNameToSymbol] or [m_samplerNameToSymbol], and
    [m_symbolsToParents]. *)
Record SymbolCaches := mkCaches {
  m_nameToSymbol : StdMap.t ptr;
  m_symbolsToParents : list (ptr * ptr) }.
Definition emptyCaches : SymbolCaches := mkCaches StdMap.empty [].

(** [unsigned int] arithmetic. *)
Definition uint (n : N) : N := (n mod 2 ^ 32)%N.

(** The linker-object aggregate:
    [getTreeRoot()->getAsAggregate()->getSequence().back()->getAsAggregate()]
    and the assertion on its operator. *)
Definition linkerObjectAggregate (root : ptr) : M ptr :=
  r <- deref root ;;
  match r with
  | TIntermAggregate _ sequence _ =>
      match last sequence with
      | Some l =>
          n <- deref l ;;
          match n with
          | TIntermAggregate op _ _ =>
              if decide (op = EOpLinkerObjects) then ret l else fault
          | _ => fault
          end
      | None => fault
      end
  | _ => fault
  end.

(** ** The uniform struct packer *)
Module NonSamplerUniformToStructTraverser.

Definition visitSymbol (path : list ptr) (symbol : ptr) (st : SymbolCaches) : M SymbolCaches :=
  type <- getSymbolType symbol ;;
  if isUniformOrBuffer (qualifier type) && negb (bool_decide (basicType type = EbtSampler))
  then
    linker <- isLinkerObject path ;;
    if (linker : bool)
    then name <- getName symbol ;;
         ret (mkCaches (StdMap.insert name symbol (m_nameToSymbol st)) (m_symbolsToParents st))
    else ret (mkCaches (m_nameToSymbol st) (m_symbolsToParents st ++ [(symbol, getParentNode path)]))
  else ret st.

Definition traverser : TIntermTraverser SymbolCaches :=
  mkTraverser visitSymbol (fun _ st => ret (true, st)).

(** The type of the struct member made for one uniform. *)
Definition memberType (publicType : TPublicType) (name : string) (type : TType)
    : TPublicType * TType :=
  let publicType :=
    if isMatrix type then setMatrix (matrixCols type) (matrixRows type) publicType
    else if isVector type then setVector (vectorSize type) publicType
    else setVector 1 publicType in
  let publicType := p_set_arraySizes (arraySizes type) publicType in
  (publicType, setBasicType (basicType type) (setFieldName name (TType_of_public publicType))).

(** The loop creating the member types, over the bindings of
    [m_uniformNameToSymbol] in map order. *)
Fixpoint createMembers (uniforms : list (string * ptr)) (publicType : TPublicType)
    (scope : AllocationsScope) (structMembers : list TType)
    : M (AllocationsScope * list TType) :=
  match uniforms with
  | [] => ret (scope, structMembers)
  | (name, symbol) :: rest =>
      type <- getSymbolType symbol ;;
      let '(publicType, newType) := memberType publicType name type in
      let scope := mkScope (Types scope ++ [newType]) (TypeLists scope)
                     (match arraySizes type with
                      | Some a => ArraySizes scope ++ [a]
                      | None => ArraySizes scope
                      end) in
      createMembers rest publicType scope (structMembers ++ [newType])
  end.

(** The loop creating one indexing operation per struct member. *)
Fixpoint createReplacements (structSymbol : ptr) (idx : N) (members : list TType)
    (originalNameToReplacement : StdMap.t ptr) : M (StdMap.t ptr) :=
  match members with
  | [] => ret originalNameToReplacement
  | memberType :: rest =>
      r <- addConstantUnion idx ;;
      binary <- addBinaryNode EOpIndexDirectStruct structSymbol r memberType ;;
      match fieldName memberType with
      | Some name =>
          createReplacements structSymbol (uint (idx + 1)) rest
            (StdMap.insert name binary originalNameToReplacement)
      | None => fault
      end
  end.

(** The backward loop erasing the packed uniforms from the linker objects. *)
Fixpoint eraseLinkerObjects (aggregate : ptr) (uniforms : StdMap.t ptr) (idxs : list nat) : M unit :=
  match idxs with
  | [] => ret tt
  | idx :: rest =>
      n <- deref aggregate ;;
      match n with
      | TIntermAggregate op sequence type =>
          match sequence !! idx with
          | Some entry =>
              e <- deref entry ;;
              match e with
              | TIntermSymbol _ name _ =>
                  match StdMap.find name uniforms with
                  | Some _ =>
                      RemoveAllTreeNodes entry ;;;
                      store aggregate (TIntermAggregate op (delete idx sequence) type) ;;;
                      eraseLinkerObjects aggregate uniforms rest
                  | None => eraseLinkerObjects aggregate uniforms rest
                  end
              | _ => eraseLinkerObjects aggregate uniforms rest
              end
          | None => fault
          end
      | _ => fault
      end
  end.

Definition structQualifier : TQualifier :=
  set_layoutBinding 0
    (set_layoutPacking ElpStd140
       (set_layoutMatrix ElmColumnMajor
          (set_storage EvqUniform (clearLayout TQualifier_zero)))).

Definition initialPublicType : TPublicType :=
  p_set_qualifier
    (set_layoutPacking ElpStd140
       (set_layoutMatrix ElmColumnMajor
          (set_precision EpqHigh
             (set_storage EvqUniform (clearLayout TQualifier_zero)))))
    TPublicType_zero.

(** [Traverse(intermediate, ids, scope)]; [root] is the tree root of the
    intermediate. *)
Definition Traverse (fuel : nat) (root : ptr) (ids : IdGenerator) (scope : AllocationsScope)
    : M (IdGenerator * AllocationsScope) :=
  st <- traverse traverser fuel [] root emptyCaches ;;
  r <- createMembers (m_nameToSymbol st) initialPublicType scope [] ;;
  let '(scope, structMembers) := r in
  let scope := mkScope (Types scope) (TypeLists scope ++ [structMembers]) (ArraySizes scope) in
  let structType := TType_block structMembers "Frame" structQualifier in
  let '(id, ids) := Next ids in
  structSymbol <- addSymbol id "anon@0" structType ;;
  originalNameToReplacement <- createReplacements structSymbol 0 structMembers StdMap.empty ;;
  linker <- linkerObjectAggregate root ;;
  l <- deref linker ;;
  match l with
  | TIntermAggregate _ sequence _ =>
      eraseLinkerObjects linker (m_nameToSymbol st) (rev (seq 0 (length sequence))) ;;;
      l <- deref linker ;;
      match l with
      | TIntermAggregate op sequence type =>
          store linker (TIntermAggregate op (structSymbol :: sequence) type) ;;;
          makeReplacements originalNameToReplacement (m_symbolsToParents st) ;;;
          ret (ids, scope)
      | _ => fault
      end
  | _ => fault
  end.

End NonSamplerUniformToStructTraverser.

(** ** The uniform vector promoter *)
Module UniformTypeChangeTraverser.

Definition unimplemented_array_handler : string :=
  "Cannot replace symbol: array indexing handler unimplemented".

(** The lambda [injectShapeConversion]. *)
Definition injectShapeConversion (node parent shapeConversion : ptr) : M unit :=
  p <- deref parent ;;
  match p with
  | TIntermAggregate op sequence type =>
      store parent
        (TIntermAggregate op
           (map (fun c => if decide (c = node) then shapeConversion else c) sequence) type)
  | TIntermBinary op l r type =>
      if decide (l = node)
      then store parent (TIntermBinary op shapeConversion r type)
      else store parent (TIntermBinary op l shapeConversion type)
  | TIntermUnary op operand type =>
      store parent (TIntermUnary op shapeConversion type)
  | _ => throw unimplemented_node_handler
  end.

(** The new type of a promoted uniform: qualifier and array sizes kept,
    basic type float, vector size 4. *)
Definition promotedType (type : TType) : TType :=
  TType_of_public
    (p_set_arraySizes (arraySizes type)
       (setVector 4
          (p_set_basicType EbtFloat
             (p_set_qualifier (qualifier type) TPublicType_zero)))).

Definition visitSymbol (path : list ptr) (symbol : ptr) (scope : AllocationsScope)
    : M AllocationsScope :=
  s <- deref symbol ;;
  match s with
  | TIntermSymbol id name type =>
      if isUniformOrBuffer (qualifier type)
         && negb (bool_decide (basicType type = EbtSampler))
         && negb (isMatrix type)
      then
        let oldType := type in
        let scope := mkScope (Types scope) (TypeLists scope)
                       (match arraySizes type with
                        | Some a => ArraySizes scope ++ [a]
                        | None => ArraySizes scope
                        end) in
        let newType := promotedType type in
        store symbol (TIntermSymbol id name newType) ;;;
        linker <- isLinkerObject path ;;
        if (linker : bool) then ret scope
        else
          let parent := getParentNode path in
          if isArray newType
          then
            p <- deref parent ;;
            match p with
            | TIntermBinary op l r binaryType =>
                let oldType := binaryType in
                let binType := clearArraySizes newType in
                store parent (TIntermBinary op l r binType) ;;;
                shapeConversion <- addShapeConversion oldType parent ;;
                match path !! (length path - 2) with
                | Some grandparent =>
                    if decide (1 < length path)
                    then injectShapeConversion parent grandparent shapeConversion ;;;
                         ret scope
                    else fault
                | None => fault
                end
            | _ => throw unimplemented_array_handler
            end
          else
            shapeConversion <- addShapeConversion oldType symbol ;;
            injectShapeConversion symbol parent shapeConversion ;;;
            ret scope
      else ret scope
  | _ => fault
  end.

Definition traverser : TIntermTraverser AllocationsScope :=
  mkTraverser visitSymbol (fun _ st => ret (true, st)).

Definition Traverse (fuel : nat) (root : ptr) (scope : AllocationsScope) : M AllocationsScope :=
  traverse traverser fuel [] root scope.

End UniformTypeChangeTraverser.

(** ** The vertex attribute binder *)
Module VertexVaryingInTraverser.

Definition visitSymbol (path : list ptr) (symbol : ptr) (st : SymbolCaches) : M SymbolCaches :=
  type <- getSymbolType symbol ;;
  if bool_decide (storage (qualifier type) = EvqVaryingIn)
  then
    linker <- isLinkerObject path ;;
    name <- getName symbol ;;
    let names := if (linker : bool) then StdMap.insert name symbol (m_nameToSymbol st)
                 else m_nameToSymbol st in
    ret (mkCaches names (m_symbolsToParents st ++ [(symbol, getParentNode path)]))
  else ret st.

Definition traverser : TIntermTraverser SymbolCaches :=
  mkTraverser visitSymbol (fun _ st => ret (true, st)).

Definition s_attribName : list string :=
  [ "a_position"; "a_normal"; "a_tangent"; "a_bitangent";
    "a_color0"; "a_color1"; "a_color2"; "a_color3";
    "a_indices"; "a_weight";
    "a_texcoord0"; "a_texcoord1"; "a_texcoord2"; "a_texcoord3";
    "a_texcoord4"; "a_texcoord5"; "a_texcoord6"; "a_texcoord7" ].

(** The values of [bgfx::Attrib::Enum] the fixed table uses; the enumeration
    is bgfx's and follows the order of [s_attribName]. *)
Module Attrib.
Definition Position : N := 0.
Definition Normal : N := 1.
Definition Tangent : N := 2.
Definition Color0 : N := 4.
Definition Indices : N := 8.
Definition Weight : N := 9.
Definition TexCoord0 : N := 10.
Definition TexCoord1 : N := 11.
Definition TexCoord2 : N := 12.
Definition TexCoord3 : N := 13.
End Attrib.

Definition FIRST_GENERIC_ATTRIBUTE_LOCATION : N := 10.

(** [GetVaryingLocationAndNewNameForName]; [apple_or_opengl] is the value
    of the preprocessor condition [__APPLE__ | APIOpenGL], and the running
    count [m_genericAttributesRunningCount] is passed and returned.  An
    index past the end of [s_attribName] has no defined result. *)
Definition GetVaryingLocationAndNewNameForName (apple_or_opengl : bool)
    (m_genericAttributesRunningCount : N) (name : string) : option (N * string * N) :=
  if apple_or_opengl
  then
    match s_attribName !! N.to_nat m_genericAttributesRunningCount with
    | Some newName =>
        Some (m_genericAttributesRunningCount, newName, uint (m_genericAttributesRunningCount + 1))
    | None => None
    end
  else
    if String.eqb name "position" then Some (Attrib.Position, "a_position", m_genericAttributesRunningCount)
    else if String.eqb name "normal" then Some (Attrib.Normal, "a_normal", m_genericAttributesRunningCount)
    else if String.eqb name "tangent" then Some (Attrib.Tangent, "a_tangent", m_genericAttributesRunningCount)
    else if String.eqb name "uv" then Some (Attrib.TexCoord0, "a_texcoord0", m_genericAttributesRunningCount)
    else if String.eqb name "uv2" then Some (Attrib.TexCoord1, "a_texcoord1", m_genericAttributesRunningCount)
    else if String.eqb name "uv3" then Some (Attrib.TexCoord2, "a_texcoord2", m_genericAttributesRunningCount)
    else if String.eqb name "uv4" then Some (Attrib.TexCoord3, "a_texcoord3", m_genericAttributesRunningCount)
    else if String.eqb name "color" then Some (Attrib.Color0, "a_color0", m_genericAttributesRunningCount)
    else if String.eqb name "matricesIndices" then Some (Attrib.Indices, "a_indices", m_genericAttributesRunningCount)
    else if String.eqb name "matricesWeights" then Some (Attrib.Weight, "a_weight", m_genericAttributesRunningCount)
    else Some (uint (FIRST_GENERIC_ATTRIBUTE_LOCATION + m_genericAttributesRunningCount), name,
               uint (m_genericAttributesRunningCount + 1)).

(** [name.size() >= 2 && name[0] == 'u' && name[1] == 'v']. *)
Definition isUVName (name : string) : bool :=
  match name with
  | String c0 (String c1 _) => Ascii.eqb c0 "u" && Ascii.eqb c1 "v"
  | _ => false
  end.

(** The pre-count of the UV names, compiled in only when
    [__APPLE__ | APIOpenGL] is false. *)
Fixpoint precountUVs (varyings : list (string * ptr)) (m_genericAttributesRunningCount : N) : N :=
  match varyings with
  | [] => m_genericAttributesRunningCount
  | (name, _) :: rest =>
      precountUVs rest
        (if isUVName name then uint (m_genericAttributesRunningCount + 1)
         else m_genericAttributesRunningCount)
  end.

(** The state the symbol-creating loop carries from one varying to the
    next. *)
Record LoopState := mkLoop {
  publicType : TPublicType;
  count : N;
  ids : IdGenerator;
  originalNameToReplacement : StdMap.t ptr;
  replacementToOriginalName : list (string * string) }.

(** [replacementToOriginalName[newName] = name] on the unordered map, kept
    as an association list with one binding per key. *)
Fixpoint assign (k v : string) (m : list (string * string)) : list (string * string) :=
  match m with
  | [] => [(k, v)]
  | (k', v') :: m' => if String.eqb k k' then (k, v) :: m' else (k', v') :: assign k v m'
  end.

Fixpoint createSymbols (apple_or_opengl : bool) (varyings : list (string * ptr))
    (ls : LoopState) : M LoopState :=
  match varyings with
  | [] => ret ls
  | (name, symbol) :: rest =>
      type <- getSymbolType symbol ;;
      let publicType := p_set_qualifier (qualifier type) (publicType ls) in
      match GetVaryingLocationAndNewNameForName apple_or_opengl (count ls) name with
      | None => fault
      | Some (location, newName, count) =>
          let publicType :=
            p_set_qualifier (set_layoutLocation location (p_qualifier publicType)) publicType in
          let publicType :=
            if isMatrix type then setMatrix (matrixCols type) (matrixRows type) publicType
            else if isVector type then setVector (vectorSize type) publicType
            else publicType in
          let newType := setBasicType (basicType type) (TType_of_public publicType) in
          let '(id, ids) := Next (ids ls) in
          newSymbol <- addSymbol id newName newType ;;
          createSymbols apple_or_opengl rest
            (mkLoop publicType count ids
               (StdMap.insert name newSymbol (originalNameToReplacement ls))
               (assign newName name (replacementToOriginalName ls)))
      end
  end.

Definition Traverse (apple_or_opengl : bool) (fuel : nat) (root : ptr) (ids : IdGenerator)
    (replacementToOriginalName : list (string * string))
    : M (IdGenerator * list (string * string)) :=
  st <- traverse traverser fuel [] root emptyCaches ;;
  let publicType := p_set_qualifier (clearLayout TQualifier_zero) TPublicType_zero in
  let count := if apple_or_opengl then 0%N else precountUVs (m_nameToSymbol st) 0%N in
  ls <- createSymbols apple_or_opengl (m_nameToSymbol st)
          (mkLoop publicType count ids StdMap.empty replacementToOriginalName) ;;
  makeReplacements (originalNameToReplacement ls) (m_symbolsToParents st) ;;;
  ret (VertexVaryingInTraverser.ids ls, VertexVaryingInTraverser.replacementToOriginalName ls).

End VertexVaryingInTraverser.

(** ** The sampler splitter *)
Module SamplerSplitterTraverser.

Definition visitSymbol (path : list ptr) (symbol : ptr) (st : SymbolCaches) : M SymbolCaches :=
  type <- getSymbolType symbol ;;
  if bool_decide (storage (qualifier type) = EvqUniform)
     && bool_decide (basicType type = EbtSampler)
  then
    linker <- isLinkerObject path ;;
    if (linker : bool)
    then name <- getName symbol ;;
         ret (mkCaches (StdMap.insert name symbol (m_nameToSymbol st)) (m_symbolsToParents st))
    else ret (mkCaches (m_nameToSymbol st) (m_symbolsToParents st ++ [(symbol, getParentNode path)]))
  else ret st.

Definition traverser : TIntermTraverser SymbolCaches :=
  mkTraverser visitSymbol (fun _ st => ret (true, st)).

(** The types of the new texture symbol, the new sampler symbol and the
    aggregate that puts them together again. *)
Definition textureType (type : TType) (layoutBinding : N) : TType :=
  TType_of_public
    (p_set_sampler (set_combined false (sampler type))
       (p_set_qualifier
          (set_layoutBinding layoutBinding (set_precision EpqHigh (qualifier type)))
          (p_set_basicType (basicType type) TPublicType_zero))).

Definition samplerType (type : TType) (layoutBinding : N) : TType :=
  TType_of_public
    (p_set_sampler (set_samplerOnly true TSampler_zero)
       (p_set_qualifier
          (set_layoutBinding layoutBinding (set_precision EpqHigh (qualifier type)))
          (p_set_basicType (basicType type) TPublicType_zero))).

Definition aggregateType (type : TType) : TType :=
  TType_of_public
    (p_set_sampler (set_combined true (sampler type))
       (p_set_qualifier (set_storage EvqTemporary (clearLayout TQualifier_zero))
          (p_set_basicType (basicType type) TPublicType_zero))).

Record LoopState := mkLoop {
  layoutBinding : N;
  ids : IdGenerator;
  nameToReplacement : StdMap.t ptr;
  nameToNewTextureAndSampler : StdMap.t (ptr * ptr) }.

(** The loop creating the replacers, over the bindings of
    [m_samplerNameToSymbol] in map order. *)
Fixpoint createReplacers (samplers : list (string * ptr)) (ls : LoopState) : M LoopState :=
  match samplers with
  | [] => ret ls
  | (name, symbol) :: rest =>
      type <- getSymbolType symbol ;;
      let '(id, ids) := Next (ids ls) in
      newTexture <- addSymbol id (name ++ "Texture")%string (textureType type (layoutBinding ls)) ;;
      let '(id, ids) := Next ids in
      newSampler <- addSymbol id name (samplerType type (layoutBinding ls)) ;;
      aggregate <- growAggregate newTexture newSampler EOpConstructTextureSampler (aggregateType type) ;;
      createReplacers rest
        (mkLoop (uint (layoutBinding ls + 1)) ids
           (StdMap.insert name aggregate (nameToReplacement ls))
           (StdMap.insert name (newTexture, newSampler) (nameToNewTextureAndSampler ls)))
  end.

(** [sequence.insert(sequence.begin() + idx, x)]. *)
Definition insertAt {A} (idx : nat) (x : A) (l : list A) : list A :=
  take idx l ++ x :: drop idx l.

(** The backward loop over the linker objects. *)
Fixpoint replaceLinkerObjects (aggregate : ptr) (pairs : StdMap.t (ptr * ptr)) (idxs : list nat)
    : M unit :=
  match idxs with
  | [] => ret tt
  | idx :: rest =>
      n <- deref aggregate ;;
      match n with
      | TIntermAggregate op sequence type =>
          match sequence !! idx with
          | Some entry =>
              e <- deref entry ;;
              match e with
              | TIntermSymbol _ name _ =>
                  match StdMap.find name pairs with
                  | Some (newTexture, newSampler) =>
                      RemoveAllTreeNodes entry ;;;
                      store aggregate
                        (TIntermAggregate op
                           (insertAt (idx + 1) newSampler (<[idx := newTexture]> sequence)) type) ;;;
                      replaceLinkerObjects aggregate pairs rest
                  | None => replaceLinkerObjects aggregate pairs rest
                  end
              | _ => replaceLinkerObjects aggregate pairs rest
              end
          | None => fault
          end
      | _ => fault
      end
  end.

Definition Traverse (fuel : nat) (root : ptr) (ids : IdGenerator) : M IdGenerator :=
  st <- traverse traverser fuel [] root emptyCaches ;;
  ls <- createReplacers (m_nameToSymbol st) (mkLoop 0 ids StdMap.empty StdMap.empty) ;;
  linker <- linkerObjectAggregate root ;;
  l <- deref linker ;;
  match l with
  | TIntermAggregate _ sequence _ =>
      replaceLinkerObjects linker (nameToNewTextureAndSampler ls) (rev (seq 0 (length sequence))) ;;;
      makeReplacements (nameToReplacement ls) (m_symbolsToParents st) ;;;
      ret (SamplerSplitterTraverser.ids ls)
  | _ => fault
  end.

End SamplerSplitterTraverser.

(** ** The derivative sign inverter *)
Module InvertYDerivativeOperandsTraverser.

Definition isDPdy (op : TOperator) : bool :=
  match op with
  | EOpDPdy | EOpDPdyFine | EOpDPdyCoarse => true
  | _ => false
  end.

(** [visitUnary(EvPreVisit, unary)]; the traverser has no state. *)
Definition visitUnary (unary : ptr) (st : unit) : M (bool * unit) :=
  u <- deref unary ;;
  match u with
  | TIntermUnary op operand type =>
      if isDPdy op
      then negation <- addUnaryNode EOpNegative operand ;;
           store unary (TIntermUnary op negation type) ;;;
           ret (false, st)
      else ret (true, st)
  | _ => fault
  end.

Definition traverser : TIntermTraverser unit :=
  mkTraverser (fun _ _ st => ret st) visitUnary.

Definition Traverse (fuel : nat) (fragmentRoot : ptr) : M unit :=
  traverse traverser fuel [] fragmentRoot tt.

End InvertYDerivativeOperandsTraverser.

(** ** The entry points of the namespace *)

Record TProgram := mkProgram {
  vertexRoot : ptr;       (* getIntermediate(EShLangVertex)->getTreeRoot() *)
  fragmentRoot : ptr }.   (* getIntermediate(EShLangFragment)->getTreeRoot() *)

Definition MoveNonSamplerUniformsIntoStruct (fuel : nat) (program : TProgram) (ids : IdGenerator)
    : M (IdGenerator * AllocationsScope) :=
  r <- NonSamplerUniformToStructTraverser.Traverse fuel (vertexRoot program) ids emptyScope ;;
  let '(ids, scope) := r in
  NonSamplerUniformToStructTraverser.Traverse fuel (fragmentRoot program) ids scope.

Definition ChangeUniformTypes (fuel : nat) (program : TProgram) : M AllocationsScope :=
  scope <- UniformTypeChangeTraverser.Traverse fuel (vertexRoot program) emptyScope ;;
  UniformTypeChangeTraverser.Traverse fuel (fragmentRoot program) scope.

Definition AssignLocationsAndNamesToVertexVaryings (apple_or_opengl : bool) (fuel : nat)
    (program : TProgram) (ids : IdGenerator) (replacementToOriginalName : list (string * string))
    : M (IdGenerator * list (string * string)) :=
  VertexVaryingInTraverser.Traverse apple_or_opengl fuel (vertexRoot program) ids
    replacementToOriginalName.

Definition SplitSamplersIntoSamplersAndTextures (fuel : nat) (program : TProgram) (ids : IdGenerator)
    : M IdGenerator :=
  ids <- SamplerSplitterTraverser.Traverse fuel (vertexRoot program) ids ;;
  SamplerSplitterTraverser.Traverse fuel (fragmentRoot program) ids.

Definition InvertYDerivativeOperands (fuel : nat) (program : TProgram) : M unit :=
  InvertYDerivativeOperandsTraverser.Traverse fuel (fragmentRoot program).

(** ** Vocabulary of the statements *)

(** The kinds of parent [makeReplacements] and [injectShapeConversion] know
    how to edit. *)
Definition replaceable (n : TIntermNode) : bool :=
  getAsAggregate n || getAsBinaryNode n || getAsUnaryNode n.

(** Every child pointer of a node, in traversal order. *)
Definition children (n : TIntermNode) : list ptr :=
  match n with
  | TIntermSymbol _ _ _ | TIntermConstantUnion _ _ => []
  | TIntermAggregate _ sequence _ => sequence
  | TIntermBinary _ l r _ => [l; r]
  | TIntermUnary _ operand _ => [operand]
  | TIntermSelection c t f _ => [c; t; f]
  | TIntermLoop body test terminal => [test; body; terminal]
  | TIntermBranch _ e => [e]
  | TIntermSwitch c b => [c; b]
  end.

(** The class of a node, which no assignment to a child slot changes. *)
Inductive nodeClass :=
| CSymbol | CConstantUnion | CAggregate | CBinary | CUnary
| CSelection | CLoop | CBranch | CSwitch.

Global Instance nodeClass_eq_dec : EqDecision nodeClass.
Proof. solve_decision. Defined.

Definition classOf (n : TIntermNode) : nodeClass :=
  match n with
  | TIntermSymbol _ _ _ => CSymbol
  | TIntermConstantUnion _ _ => CConstantUnion
  | TIntermAggregate _ _ _ => CAggregate
  | TIntermBinary _ _ _ _ => CBinary
  | TIntermUnary _ _ _ => CUnary
  | TIntermSelection _ _ _ _ => CSelection
  | TIntermLoop _ _ _ => CLoop
  | TIntermBranch _ _ => CBranch
  | TIntermSwitch _ _ => CSwitch
  end.

(** What [makeReplacements] leaves of a parent whose child [symbol] is
    replaced by [replacement]: every matching element of a sequence, the left
    child of a binary node if it matches and its right child otherwise, the operand
    of a unary node. *)
Definition replaceChild (symbol replacement : ptr) (n : TIntermNode) : TIntermNode :=
  match n with
  | TIntermAggregate op sequence type =>
      TIntermAggregate op (map (fun c => if decide (c = symbol) then replacement else c) sequence) type
  | TIntermBinary op l r type =>
      if decide (l = symbol) then TIntermBinary op replacement r type
      else TIntermBinary op l replacement type
  | TIntermUnary op _ type => TIntermUnary op replacement type
  | _ => n
  end.

Definition substPtr (symbol replacement : ptr) (c : ptr) : ptr :=
  if decide (c = symbol) then replacement else c.

(** The pool after one record with a parent [makeReplacements] can edit. *)
Definition afterReplace (h : Pool) (p : nat) (n : TIntermNode) (s : nat) (replacement : ptr) : outcome (unit * Pool) :=
  match n with
  | TIntermAggregate op sequence type =>
      Ok (tt, mkPool (<[p := replaceChild (Some s) replacement n]> (cells h))
                     (replicate (length (filter (fun c => c = Some s) sequence)) s ++ removed h))
  | TIntermBinary op l r type =>
      if decide (l = Some s)
      then Ok (tt, mkPool (<[p := replaceChild (Some s) replacement n]> (cells h)) (s :: removed h))
      else match r with
           | Some ra =>
               if decide (ra < length (cells h))
               then Ok (tt, mkPool (<[p := replaceChild (Some s) replacement n]> (cells h))
                                   (ra :: removed h))
               else Fault
           | None => Fault
           end
  | TIntermUnary op operand type =>
      match operand with
      | Some oa =>
          if decide (oa < length (cells h))
          then Ok (tt, mkPool (<[p := replaceChild (Some s) replacement n]> (cells h))
                              (oa :: removed h))
          else Fault
      | None => Fault
      end
  | _ => Throw unimplemented_node_handler
  end.

(** A small pool for the examples: an addition over the symbols [x] and [y],
    and a third symbol [z] that is no child of it. *)
Definition exampleFloat (q : TStorageQualifier) (size : nat) : TType :=
  mkTType EbtFloat size 0 0
    (mkTQualifier q EpqHigh ElmNone ElpNone layoutLocationEnd layoutBindingEnd)
    None TSampler_zero None None None.

Definition binaryPool : Pool :=
  mkPool [ TIntermBinary EOpAdd (Some 1) (Some 2) (exampleFloat EvqTemporary 1);
           TIntermSymbol 1 "x" (exampleFloat EvqTemporary 1);
           TIntermSymbol 2 "y" (exampleFloat EvqTemporary 1);
           TIntermSymbol 3 "z" (exampleFloat EvqTemporary 1);
           TIntermSymbol 4 "w" (exampleFloat EvqTemporary 1) ] [].

(** The symbols the uniform vector promoter retypes. *)
Definition isPromoted (type : TType) : bool :=
  isUniformOrBuffer (qualifier type)
  && negb (bool_decide (basicType type = EbtSampler))
  && negb (isMatrix type).

(** A pool whose only use of the uniform [u] is the condition of a
    selection. *)
Definition selectionPool : Pool :=
  mkPool [ TIntermAggregate EOpSequence [Some 1; Some 3] (TType_basic EbtVoid EvqTemporary);
           TIntermSelection (Some 2) nullptr nullptr (TType_basic EbtVoid EvqTemporary);
           TIntermSymbol 7 "u" (exampleFloat EvqUniform 1);
           TIntermAggregate EOpLinkerObjects [Some 4] (TType_basic EbtVoid EvqTemporary);
           TIntermSymbol 7 "u" (exampleFloat EvqUniform 1) ] [].

(** The locations and names [GetVaryingLocationAndNewNameForName] hands out
    to a list of names in turn, starting from a running count. *)
Fixpoint assignments (apple_or_opengl : bool) (count : N) (names : list string)
    : option (list (N * string)) :=
  match names with
  | [] => Some []
  | name :: rest =>
      match VertexVaryingInTraverser.GetVaryingLocationAndNewNameForName apple_or_opengl count name with
      | Some (location, newName, count) =>
          match assignments apple_or_opengl count rest with
          | Some l => Some ((location, newName) :: l)
          | None => None
          end
      | None => None
      end
  end.

(** The names the fixed table maps to a [bgfx::Attrib] constant. *)
Definition inFixedTable (name : string) : bool :=
  existsb (String.eqb name)
    ["position"; "normal"; "tangent"; "uv"; "uv2"; "uv3"; "uv4"; "color";
     "matricesIndices"; "matricesWeights"].

(** A vertex stage whose only input is [uv]. *)
Definition uvPool : Pool :=
  mkPool [ TIntermAggregate EOpSequence [Some 1; Some 3] (TType_basic EbtVoid EvqTemporary);
           TIntermUnary EOpNegative (Some 2) (exampleFloat EvqTemporary 2);
           TIntermSymbol 7 "uv" (exampleFloat EvqVaryingIn 2);
           TIntermAggregate EOpLinkerObjects [Some 4] (TType_basic EbtVoid EvqTemporary);
           TIntermSymbol 7 "uv" (exampleFloat EvqVaryingIn 2) ] [].

(** The order of [std::string], and the maps whose keys ascend in it. *)
Definition string_lt (a b : string) : Prop := String.compare a b = Lt.
Definition sortedKeys {V} (m : StdMap.t V) : Prop :=
  StronglySorted string_lt (StdMap.keys m).

(** A binding of a name cache is sound when it maps the name of a live symbol
    node to that node. *)
Definition symbolNamed (cs : list TIntermNode) (b : string * ptr) : Prop :=
  exists a id type, snd b = Some a /\ cs !! a = Some (TIntermSymbol id (fst b) type).

(** The three collecting visitors differ in the symbols they select and in
    whether a linker object is also recorded as a use site. *)
Definition collectSymbol (candidate : TType -> bool) (alsoLinkerObjects : bool)
    (path : list ptr) (symbol : ptr) (st : SymbolCaches) : M SymbolCaches :=
  type <- getSymbolType symbol ;;
  if candidate type
  then
    linker <- isLinkerObject path ;;
    name <- getName symbol ;;
    ret (mkCaches
           (if (linker : bool) then StdMap.insert name symbol (m_nameToSymbol st)
            else m_nameToSymbol st)
           (if linker && negb alsoLinkerObjects then m_symbolsToParents st
            else m_symbolsToParents st ++ [(symbol, getParentNode path)]))
  else ret st.

Definition isPacked (type : TType) : bool :=
  isUniformOrBuffer (qualifier type) && negb (bool_decide (basicType type = EbtSampler)).
Definition isVaryingIn (type : TType) : bool :=
  bool_decide (storage (qualifier type) = EvqVaryingIn).
Definition isSplit (type : TType) : bool :=
  bool_decide (storage (qualifier type) = EvqUniform)
  && bool_decide (basicType type = EbtSampler).

(** What holds of the caches of a collecting traverser over the pool [h0]:
    the pool is untouched, the names ascend, every name is bound to a live
    symbol of that name, and every record starts with a live symbol. *)
Definition cachesSound (h0 : Pool) (st : SymbolCaches) (h : Pool) : Prop :=
  h = h0
  /\ sortedKeys (m_nameToSymbol st)
  /\ Forall (symbolNamed (cells h0)) (m_nameToSymbol st)
  /\ Forall (fun r => exists s id name type,
                 fst r = Some s /\ cells h0 !! s = Some (TIntermSymbol id name type))
            (m_symbolsToParents st).

(** The name and binding location of a symbol node. *)
Definition symbolLocation (n : TIntermNode) : option (string * N) :=
  match n with
  | TIntermSymbol _ name type => Some (name, layoutLocation (qualifier type))
  | _ => None
  end.

(** The names that are given a location from the running count because the
    fixed table does not know them. *)
Definition sequentialNames (names : list string) : list string :=
  filter (fun name => inFixedTable name = false) names.

Definition uvNames (names : list string) : list string :=
  filter (fun name => VertexVaryingInTraverser.isUVName name = true) names.

(** The type of a symbol node of the pool. *)
Definition symbolTypeAt (cs : list TIntermNode) (symbol : ptr) : option TType :=
  match symbol with
  | Some a => match cs !! a with
              | Some (TIntermSymbol _ _ type) => Some type
              | _ => None
              end
  | None => None
  end.

(** The member types [createMembers] builds for the bindings of a name
    cache. *)
Fixpoint memberTypes (cs : list TIntermNode) (uniforms : list (string * ptr))
    (publicType : TPublicType) : list TType :=
  match uniforms with
  | [] => []
  | (name, symbol) :: rest =>
      match symbolTypeAt cs symbol with
      | Some type =>
          let '(publicType, newType) :=
            NonSamplerUniformToStructTraverser.memberType publicType name type in
          newType :: memberTypes cs rest publicType
      | None => []
      end
  end.

(** The nodes [createReplacements] allocates for the members from index
    [idx] on: a constant and an indexing operation each. *)
Fixpoint replacementNodes (structSymbol : ptr) (base : nat) (idx : N) (members : list TType)
    : list TIntermNode :=
  match members with
  | [] => []
  | memberType :: rest =>
      TIntermConstantUnion idx (TType_basic EbtUint EvqConst)
      :: TIntermBinary EOpIndexDirectStruct structSymbol (Some base) memberType
      :: replacementNodes structSymbol (base + 2) (uint (idx + 1)) rest
  end.

(** The discovery order the specification speaks of: the names of the packed
    uniforms among the linker objects, in the order in which the traversal
    first meets them. *)
Definition discoveryVisitSymbol (path : list ptr) (symbol : ptr) (seen : list string)
    : M (list string) :=
  type <- getSymbolType symbol ;;
  if isPacked type
  then
    linker <- isLinkerObject path ;;
    name <- getName symbol ;;
    ret (if (linker : bool) && negb (existsb (String.eqb name) seen)
         then seen ++ [name] else seen)
  else ret seen.

Definition discoveryOrder (fuel : nat) (root : ptr) : M (list string) :=
  traverse (mkTraverser discoveryVisitSymbol (fun _ st => ret (true, st))) fuel [] root [].

(** A stage that declares the uniform [b] before the uniform [a] and adds
    them. *)
Definition packPool : Pool :=
  mkPool [ TIntermAggregate EOpSequence [Some 1; Some 2] (TType_basic EbtVoid EvqTemporary);
           TIntermBinary EOpAdd (Some 3) (Some 4) (exampleFloat EvqTemporary 1);
           TIntermAggregate EOpLinkerObjects [Some 5; Some 6] (TType_basic EbtVoid EvqTemporary);
           TIntermSymbol 10 "b" (exampleFloat EvqUniform 1);
           TIntermSymbol 11 "a" (exampleFloat EvqUniform 1);
           TIntermSymbol 10 "b" (exampleFloat EvqUniform 1);
           TIntermSymbol 11 "a" (exampleFloat EvqUniform 1) ] [].

(** The field names of the block type of a symbol node. *)
Definition fieldNamesOf (n : TIntermNode) : option (list (option string)) :=
  match n with
  | TIntermSymbol _ _ type => map fieldName <$> structure type
  | _ => None
  end.

(** The symbol nodes of [h] are still there, unchanged, in [h']. *)
Definition preservesSymbols (h h' : Pool) : Prop :=
  forall a id name type,
    cells h !! a = Some (TIntermSymbol id name type) ->
    cells h' !! a = Some (TIntermSymbol id name type).

(** Whether the backward loop of the packer erases a linker object. *)
Definition isErased {V} (cs : list TIntermNode) (names : StdMap.t V) (entry : ptr) : bool :=
  match entry with
  | Some a => match cs !! a with
              | Some (TIntermSymbol _ name _) =>
                  match StdMap.find name names with Some _ => true | None => false end
              | _ => false
              end
  | None => false
  end.

Definition isLive (cs : list TIntermNode) (p : ptr) : Prop :=
  exists a n, p = Some a /\ cs !! a = Some n.

(** A fragment that reads element 1 of the uniform array [arr] and negates
    it. *)
Definition exampleArray (q : TStorageQualifier) (size : nat) (n : N) : TType :=
  mkTType EbtFloat size 0 0
    (mkTQualifier q EpqHigh ElmNone ElpNone layoutLocationEnd layoutBindingEnd)
    (Some [n]) TSampler_zero None None None.

Definition arrayPool : Pool :=
  mkPool [ TIntermAggregate EOpSequence [Some 1; Some 5] (TType_basic EbtVoid EvqTemporary);
           TIntermUnary EOpNegative (Some 2) (exampleFloat EvqTemporary 2);
           TIntermBinary EOpIndexDirect (Some 3) (Some 4) (exampleFloat EvqTemporary 2);
           TIntermSymbol 7 "arr" (exampleArray EvqUniform 2 3);
           TIntermConstantUnion 1 (TType_basic EbtInt EvqConst);
           TIntermAggregate EOpLinkerObjects [Some 6] (TType_basic EbtVoid EvqTemporary);
           TIntermSymbol 7 "arr" (exampleArray EvqUniform 2 3) ] [].

(** ** Trees in the pool

    glslang hands the passes a tree: every node has one parent and sits in one
    child slot.  [tree] records the addresses of such a tree, and [shape]
    says that the pool holds it. *)
#[warnings="-register-all"]
Inductive tree := Node (a : nat) (kids : list tree).

Definition rootOf (t : tree) : nat := match t with Node a _ => a end.

Fixpoint addresses (t : tree) : list nat :=
  match t with Node a kids => a :: flat_map addresses kids end.

Fixpoint height (t : tree) : nat :=
  match t with Node _ kids => S (list_max (map height kids)) end.

(** The pointer in a child slot, if the node has that slot. *)
Definition slotPtr (n : TIntermNode) (s : slot) : option ptr :=
  match n, s with
  | TIntermAggregate _ sequence _, SeqAt idx => sequence !! idx
  | TIntermBinary _ l _ _, Left => Some l
  | TIntermBinary _ _ r _, Right => Some r
  | TIntermUnary _ o _, Operand => Some o
  | TIntermSelection c _ _ _, Condition => Some c
  | TIntermSelection _ t _ _, TrueBlock => Some t
  | TIntermSelection _ _ f _, FalseBlock => Some f
  | TIntermLoop b _ _, Body => Some b
  | TIntermLoop _ t _, Test => Some t
  | TIntermLoop _ _ t, Terminal => Some t
  | TIntermBranch _ e, Expression => Some e
  | TIntermSwitch c _, Condition => Some c
  | TIntermSwitch _ b, Body => Some b
  | _, _ => None
  end.

(** The addresses the traversal of a node descends into, in order; there are
    none when a slot that is traversed without a null test holds a null
    pointer. *)
Fixpoint kidsOfSlots (n : TIntermNode) (slots : list (bool * slot)) : option (list nat) :=
  match slots with
  | [] => Some []
  | (guarded, s) :: rest =>
      match slotPtr n s with
      | Some (Some c) => cons c <$> kidsOfSlots n rest
      | Some None => if (guarded : bool) then kidsOfSlots n rest else None
      | None => None
      end
  end.

Definition kidsOf (n : TIntermNode) : option (list nat) := kidsOfSlots n (childSlots n).

#[warnings="-register-all"]
Inductive shape (cs : list TIntermNode) : tree -> Prop :=
| shape_Node a n kids :
    cs !! a = Some n ->
    kidsOf n = Some (map rootOf kids) ->
    Forall (shape cs) kids ->
    shape cs (Node a kids).

(** The symbol nodes of a tree in traversal order, each with the path of its
    ancestors. *)
Fixpoint occurrences (cs : list TIntermNode) (path : list ptr) (t : tree)
    : list (list ptr * nat) :=
  match t with
  | Node a kids =>
      match cs !! a with
      | Some (TIntermSymbol _ _ _) => [(path, a)]
      | _ => flat_map (occurrences cs (path ++ [Some a])) kids
      end
  end.

(** [isLinkerObject] as a function of the cells. *)
Definition linkerPath (cs : list TIntermNode) (path : list ptr) : bool :=
  match path !! 1 with
  | Some (Some p) =>
      match cs !! p with
      | Some (TIntermAggregate op _ _) => bool_decide (op = EOpLinkerObjects)
      | _ => false
      end
  | _ => false
  end.

(** What a collecting visitor does to its caches at one symbol. *)
Definition collectAt (cs : list TIntermNode) (candidate : TType -> bool)
    (alsoLinkerObjects : bool) (st : SymbolCaches) (path : list ptr) (s : nat) : SymbolCaches :=
  match cs !! s with
  | Some (TIntermSymbol _ name type) =>
      if candidate type
      then mkCaches
             (if linkerPath cs path then StdMap.insert name (Some s) (m_nameToSymbol st)
              else m_nameToSymbol st)
             (if linkerPath cs path && negb alsoLinkerObjects then m_symbolsToParents st
              else m_symbolsToParents st ++ [(Some s, getParentNode path)])
      else st
  | _ => st
  end.

(** The traversal of the kids of a node one after the other. *)
Fixpoint traverseKids {S} (rec : list ptr -> ptr -> S -> M S) (path : list ptr)
    (kids : list nat) (st : S) : M S :=
  match kids with
  | [] => ret st
  | k :: rest => st <- rec path (Some k) st ;; traverseKids rec path rest st
  end.

(** The caches a collecting traversal ends with. *)
Definition collected (cs : list TIntermNode) (candidate : TType -> bool)
    (alsoLinkerObjects : bool) (t : tree) : SymbolCaches :=
  fold_left (fun st o => collectAt cs candidate alsoLinkerObjects st (fst o) (snd o))
            (occurrences cs [] t) emptyCaches.

(** The name and type of a symbol node of the pool. *)
Definition symbolAt (cs : list TIntermNode) (s : nat) : option (string * TType) :=
  match cs !! s with
  | Some (TIntermSymbol _ name type) => Some (name, type)
  | _ => None
  end.

(** Which occurrences a collecting traversal records as use sites, and which
    it caches by name. *)
Definition isUseSite (cs : list TIntermNode) (candidate : TType -> bool)
    (alsoLinkerObjects : bool) (o : list ptr * nat) : bool :=
  match symbolAt cs (snd o) with
  | Some (_, type) => candidate type && (alsoLinkerObjects || negb (linkerPath cs (fst o)))
  | None => false
  end.

Definition isDeclaration (cs : list TIntermNode) (candidate : TType -> bool)
    (o : list ptr * nat) : bool :=
  match symbolAt cs (snd o) with
  | Some (_, type) => candidate type && linkerPath cs (fst o)
  | None => false
  end.

Definition useSitesOf (cs : list TIntermNode) (candidate : TType -> bool)
    (alsoLinkerObjects : bool) (occs : list (list ptr * nat)) : list (ptr * ptr) :=
  map (fun o => (Some (snd o), getParentNode (fst o)))
      (filter (fun o => isUseSite cs candidate alsoLinkerObjects o = true) occs).

Definition cacheName (cs : list TIntermNode) (m : StdMap.t ptr) (o : list ptr * nat)
    : StdMap.t ptr :=
  match symbolAt cs (snd o) with
  | Some (name, _) => StdMap.insert name (Some (snd o)) m
  | None => m
  end.

Definition declaredOf (cs : list TIntermNode) (candidate : TType -> bool)
    (occs : list (list ptr * nat)) (m : StdMap.t ptr) : StdMap.t ptr :=
  fold_left (cacheName cs) (filter (fun o => isDeclaration cs candidate o = true) occs) m.

(** The replacement [makeReplacements] installs for the child [c] of a
    record: the node bound to the name of the symbol, null without a
    binding. *)
Definition replacementFor (cs : list TIntermNode) (M : StdMap.t ptr) (c : ptr) : ptr :=
  match c with
  | Some a =>
      match symbolAt cs a with
      | Some (name, _) => default nullptr (StdMap.find name M)
      | None => nullptr
      end
  | None => nullptr
  end.

(** The child that ends in the place of the child [c] of the node at [pa]
    once the records [recs] have been processed. *)
Definition substFor (cs : list TIntermNode) (M : StdMap.t ptr) (recs : list (ptr * ptr))
    (pa : nat) (c : ptr) : ptr :=
  if bool_decide ((c, Some pa) ∈ recs) then replacementFor cs M c else c.

Definition mapChildren (f : ptr -> ptr) (n : TIntermNode) : TIntermNode :=
  match n with
  | TIntermSymbol _ _ _ | TIntermConstantUnion _ _ => n
  | TIntermAggregate op sequence type => TIntermAggregate op (map f sequence) type
  | TIntermBinary op l r type => TIntermBinary op (f l) (f r) type
  | TIntermUnary op operand type => TIntermUnary op (f operand) type
  | TIntermSelection c t e type => TIntermSelection (f c) (f t) (f e) type
  | TIntermLoop body test terminal => TIntermLoop (f body) (f test) (f terminal)
  | TIntermBranch op e => TIntermBranch op (f e)
  | TIntermSwitch c b => TIntermSwitch (f c) (f b)
  end.

Definition replacedCells (cs : list TIntermNode) (M : StdMap.t ptr) (recs : list (ptr * ptr))
    : list TIntermNode :=
  imap (fun pa n => mapChildren (substFor cs M recs pa) n) cs.

(** A record of a tree: a live symbol in a child slot of a live parent that
    [makeReplacements] can edit and that holds no child twice. *)
Definition useSite (cs : list TIntermNode) (r : ptr * ptr) : Prop :=
  exists s pa id name type n ks,
    r = (Some s, Some pa)
    /\ cs !! s = Some (TIntermSymbol id name type)
    /\ cs !! pa = Some n
    /\ replaceable n = true
    /\ kidsOf n = Some ks /\ In s ks /\ NoDup ks.

(** A stage as the passes expect it: the tree root is an aggregate at [r]
    whose last child [lk] is the linker-object aggregate and none of whose
    other children [body] is one. *)
Record stage (cs : list TIntermNode) (r : nat) (body : list tree) (lk : tree) : Prop := mkStage {
  stage_shape : shape cs (Node r (body ++ [lk]));
  stage_nodup : NoDup (addresses (Node r (body ++ [lk])));
  stage_root : exists op sequence type, cs !! r = Some (TIntermAggregate op sequence type);
  stage_linker :
    exists sequence type, cs !! rootOf lk = Some (TIntermAggregate EOpLinkerObjects sequence type);
  stage_body : Forall (fun k => linkerPath cs [Some r; Some (rootOf k)] = false) body }.

(** Every parent of a record is of a class [makeReplacements] can edit. *)
Definition editable (cs : list TIntermNode) (recs : list (ptr * ptr)) : Prop :=
  forall s pa n, In (s, Some pa) recs -> cs !! pa = Some n -> replaceable n = true.

(** The caches, members and final cells of the uniform struct packer on the
    stage tree [t] of the pool [cs]. *)
Definition packerUseSites (cs : list TIntermNode) (t : tree) : list (ptr * ptr) :=
  useSitesOf cs isPacked false (occurrences cs [] t).

Definition packerUniforms (cs : list TIntermNode) (t : tree) : StdMap.t ptr :=
  declaredOf cs isPacked (occurrences cs [] t) StdMap.empty.

Definition packerMembers (cs : list TIntermNode) (t : tree) : list TType :=
  memberTypes cs (packerUniforms cs t) NonSamplerUniformToStructTraverser.initialPublicType.

Definition packerStruct (cs : list TIntermNode) (t : tree) (ids : IdGenerator) : TIntermNode :=
  TIntermSymbol ids "anon@0"
    (TType_block (packerMembers cs t) "Frame" NonSamplerUniformToStructTraverser.structQualifier).

(** The pool after the linker objects have been rewritten and before the use
    sites are. *)
Definition packerLinked (cs : list TIntermNode) (t : tree) (la : nat) (ids : IdGenerator)
    : list TIntermNode :=
  let sa := length cs in
  let cs3 := cs ++ packerStruct cs t ids
                   :: replacementNodes (Some sa) (sa + 1) 0 (packerMembers cs t) in
  match cs !! la with
  | Some (TIntermAggregate op sequence type) =>
      <[la := TIntermAggregate op
                (Some sa :: filter (fun e => isErased cs (packerUniforms cs t) e = false) sequence)
                type]> cs3
  | _ => cs3
  end.

(** [packPool] as a stage: the addition at 1 is the body and the aggregate
    at 2 holds the linker objects. *)
Definition packBody : list tree := [Node 1 [Node 3 []; Node 4 []]].

Definition packLinker : tree := Node 2 [Node 5 []; Node 6 []].

(** ** The derivative sign inverter on a tree *)

(** The secondary-axis derivative nodes the traversal reaches: it stops at
    each one, so those inside the operand of another are not listed. *)
Fixpoint outerDPdy (cs : list TIntermNode) (t : tree) : list nat :=
  match t with
  | Node a kids =>
      match cs !! a with
      | Some (TIntermUnary op _ _) =>
          if InvertYDerivativeOperandsTraverser.isDPdy op
          then [a]
          else flat_map (outerDPdy cs) kids
      | _ => flat_map (outerDPdy cs) kids
      end
  end.

(** The cells after [visitUnary] has wrapped the operand of the unary node
    at [a]: the negation is appended and becomes the operand. *)
Definition wrapOperand (cs : list TIntermNode) (a : nat) : list TIntermNode :=
  match cs !! a with
  | Some (TIntermUnary op operand type) =>
      <[a := TIntermUnary op (Some (length cs)) type]>
        (cs ++ [TIntermUnary EOpNegative operand (TType_basic EbtFloat EvqTemporary)])
  | _ => cs
  end.

Definition wrapAll (cs : list TIntermNode) (us : list nat) : list TIntermNode :=
  fold_left wrapOperand us cs.

Definition isDerivative (n : TIntermNode) : bool :=
  match n with
  | TIntermUnary op _ _ => InvertYDerivativeOperandsTraverser.isDPdy op
  | _ => false
  end.

Definition isNegation (n : TIntermNode) : bool :=
  match n with
  | TIntermUnary EOpNegative _ _ => true
  | _ => false
  end.

(** A fragment stage whose only statement is [dFdy(dFdy(x))]. *)
Definition nestedPool : Pool :=
  mkPool [ TIntermAggregate EOpSequence [Some 1] (TType_basic EbtVoid EvqTemporary);
           TIntermUnary EOpDPdy (Some 2) (TType_basic EbtFloat EvqTemporary);
           TIntermUnary EOpDPdy (Some 3) (TType_basic EbtFloat EvqTemporary);
           TIntermSymbol 5 "x" (TType_basic EbtFloat EvqTemporary) ] [].

Definition nestedTree : tree := Node 0 [Node 1 [Node 2 [Node 3 []]]].

(** ** The sampler splitter on a stage *)

(** The nodes [createReplacers] allocates from the address [base] on: a
    texture symbol, a sampler symbol and the aggregate over both for every
    cached sampler, in map order. *)
Fixpoint replacerNodes (cs : list TIntermNode) (base : nat) (layoutBinding : N)
    (ids : IdGenerator) (samplers : list (string * ptr)) : list TIntermNode :=
  match samplers with
  | [] => []
  | (name, symbol) :: rest =>
      match symbolTypeAt cs symbol with
      | Some type =>
          TIntermSymbol ids (name ++ "Texture")%string
            (SamplerSplitterTraverser.textureType type layoutBinding)
          :: TIntermSymbol (ids + 1)%N name (SamplerSplitterTraverser.samplerType type layoutBinding)
          :: TIntermAggregate EOpConstructTextureSampler [Some base; Some (base + 1)]
               (SamplerSplitterTraverser.aggregateType type)
          :: replacerNodes cs (base + 3) (uint (layoutBinding + 1)) (ids + 2)%N rest
      | None => []
      end
  end.

(** The two maps [createReplacers] fills. *)
Fixpoint replacerMaps (base : nat) (samplers : list (string * ptr))
    (M : StdMap.t ptr) (P : StdMap.t (ptr * ptr)) : StdMap.t ptr * StdMap.t (ptr * ptr) :=
  match samplers with
  | [] => (M, P)
  | (name, _) :: rest =>
      replacerMaps (base + 3) rest
        (StdMap.insert name (Some (base + 2)) M)
        (StdMap.insert name (Some base, Some (base + 1)) P)
  end.

(** The slot counter after [k] candidates. *)
Fixpoint slotAfter (k : nat) (layoutBinding : N) : N :=
  match k with
  | 0 => layoutBinding
  | S k => slotAfter k (uint (layoutBinding + 1))
  end.

(** What the backward loop of the splitter leaves in the place of a linker
    object. *)
Definition splitEntry (cs : list TIntermNode) (pairs : StdMap.t (ptr * ptr)) (entry : ptr)
    : list ptr :=
  match entry with
  | Some a =>
      match cs !! a with
      | Some (TIntermSymbol _ name _) =>
          match StdMap.find name pairs with
          | Some (newTexture, newSampler) => [newTexture; newSampler]
          | None => [entry]
          end
      | _ => [entry]
      end
  | None => [entry]
  end.

Definition splitterUseSites (cs : list TIntermNode) (t : tree) : list (ptr * ptr) :=
  useSitesOf cs isSplit false (occurrences cs [] t).

Definition splitterSamplers (cs : list TIntermNode) (t : tree) : StdMap.t ptr :=
  declaredOf cs isSplit (occurrences cs [] t) StdMap.empty.

Definition splitterMaps (cs : list TIntermNode) (t : tree)
    : StdMap.t ptr * StdMap.t (ptr * ptr) :=
  replacerMaps (length cs) (splitterSamplers cs t) StdMap.empty StdMap.empty.

(** The pool after the linker objects have been rewritten and before the use
    sites are. *)
Definition splitterLinked (cs : list TIntermNode) (t : tree) (la : nat) (ids : IdGenerator)
    : list TIntermNode :=
  let cs3 := cs ++ replacerNodes cs (length cs) 0 ids (splitterSamplers cs t) in
  match cs !! la with
  | Some (TIntermAggregate op sequence type) =>
      <[la := TIntermAggregate op
                (flat_map (splitEntry cs (snd (splitterMaps cs t))) sequence) type]> cs3
  | _ => cs3
  end.

(** A stage that samples the combined sampler [tex] at the varying [uv]. *)
Definition exampleSampler : TType :=
  mkTType EbtSampler 1 0 0
    (mkTQualifier EvqUniform EpqNone ElmNone ElpNone layoutLocationEnd layoutBindingEnd)
    None (mkTSampler EbtFloat Esd2D false false false false true false) None None None.

Definition splitPool : Pool :=
  mkPool [ TIntermAggregate EOpSequence [Some 1; Some 2] (TType_basic EbtVoid EvqTemporary);
           TIntermAggregate EOpTexture [Some 3; Some 4] (exampleFloat EvqTemporary 4);
           TIntermAggregate EOpLinkerObjects [Some 5; Some 6] (TType_basic EbtVoid EvqTemporary);
           TIntermSymbol 20 "tex" exampleSampler;
           TIntermSymbol 21 "uv" (exampleFloat EvqVaryingIn 2);
           TIntermSymbol 20 "tex" exampleSampler;
           TIntermSymbol 21 "uv" (exampleFloat EvqVaryingIn 2) ] [].

Definition splitBody : list tree := [Node 1 [Node 3 []; Node 4 []]].

Definition splitLinker : tree := Node 2 [Node 5 []; Node 6 []].

(** ** The tree as a graph

    The child pointers of the cell at [a]; none when the cell is missing. *)
Definition childrenAt (cs : list TIntermNode) (a : nat) : list ptr :=
  match cs !! a with Some n => children n | None => [] end.

(** The node at [a] has the child [c]. *)
Definition edge (cs : list TIntermNode) (a c : nat) : Prop := In (Some c) (childrenAt cs a).

(** The node [b] is reached from [a] along child pointers without passing
    through [la], the linker-object aggregate. *)
Inductive reachAvoid (cs : list TIntermNode) (la : nat) : nat -> nat -> Prop :=
| reach_here a : a <> la -> reachAvoid cs la a a
| reach_step a c b : a <> la -> edge cs a c -> reachAvoid cs la c b -> reachAvoid cs la a b.

(** No pointer met on the way down from [a] dangles. *)
Definition sound (cs : list TIntermNode) (la a : nat) : Prop :=
  forall b c, reachAvoid cs la a b -> edge cs b c -> c < length cs.

(** The pool [cs'] is [cs] with one more node, put between the node at [g]
    and its child [x]. *)
Record detour (cs cs' : list TIntermNode) (g : nat) (x : ptr) : Prop := mkDetour {
  detour_length : length cs' = S (length cs);
  detour_other : forall a, a < length cs -> a <> g -> childrenAt cs' a = childrenAt cs a;
  detour_kept : forall c, In c (childrenAt cs g) -> c = x \/ In c (childrenAt cs' g);
  detour_only : forall c, In c (childrenAt cs' g) -> c = Some (length cs) \/ In c (childrenAt cs g);
  detour_in : In x (childrenAt cs g) -> In (Some (length cs)) (childrenAt cs' g);
  detour_new : childrenAt cs' (length cs) = [x];
  detour_parent : g < length cs }.

(** The class of a node and, for an aggregate, its operator: what no pass
    changes of a node it edits. *)
Definition kindOf (n : TIntermNode) : nodeClass * option TOperator :=
  (classOf n, match n with TIntermAggregate op _ _ => Some op | _ => None end).

(** The descriptor of a symbol after the promoter has visited it. *)
Definition promoteD (d : string * TType) : string * TType :=
  (fst d, if isPromoted (snd d) then UniformTypeChangeTraverser.promotedType (snd d) else snd d).

(** How a pass that only inserts nodes above existing ones and retypes the
    symbols [V] changes the pool. *)
Record evolves (la : nat) (V : list nat) (cs cs' : list TIntermNode) : Prop := mkEvolves {
  ev_length : length cs <= length cs';
  ev_fwd : forall a b, reachAvoid cs la a b -> reachAvoid cs' la a b;
  ev_bwd : forall a b, a < length cs -> b < length cs -> sound cs la a ->
                       reachAvoid cs' la a b -> reachAvoid cs la a b;
  ev_sound : forall a, a < length cs -> sound cs la a -> sound cs' la a;
  ev_kind : forall a n, cs !! a = Some n -> exists n', cs' !! a = Some n' /\ kindOf n' = kindOf n;
  ev_visited : forall a, In a V -> symbolAt cs' a = promoteD <$> symbolAt cs a;
  ev_others : forall a, a < length cs -> ~ In a V -> symbolAt cs' a = symbolAt cs a;
  ev_new : forall a, length cs <= a -> symbolAt cs' a = None;
  ev_linker : childrenAt cs' la = childrenAt cs la }.

(** The cell at [a] keeps every child slot that does not hold one of [X]. *)
Definition agree (X : list nat) (cs cs' : list TIntermNode) (a : nat) : Prop :=
  forall n, cs !! a = Some n ->
    exists n', cs' !! a = Some n'
      /\ (forall sl c, slotPtr n sl = Some c -> (forall x, In x X -> c <> Some x) ->
                       slotPtr n' sl = Some c)
      /\ (forall sl, slotPtr n sl = None -> slotPtr n' sl = None).

(** The root of a subtree whose traversal may edit its slot in the parent:
    the traversal of the linker objects edits none. *)
Definition onSide (la : nat) (pa : list nat) (a : nat) (X : list nat) : list nat :=
  if decide ((pa ++ [a]) !! 1 = Some la) then [] else X.

(** The node above the parent on a path. *)
Definition grandOf (pa : list nat) : option nat :=
  if decide (1 < length pa) then pa !! (length pa - 2) else None.

(** A promoted array symbol. *)
Definition isArrayLeaf (cs : list TIntermNode) (a : nat) : bool :=
  match symbolAt cs a with
  | Some (_, type) => isPromoted type && isArray type
  | None => false
  end.

(** Outside the linker objects, promoted arrays stand in the first child
    slot of their parent, as the operand of an indexing operation does.  The
    children of a node whose path has the linker-object aggregate [la] in
    second place are linker objects: the promoter only retypes them, so
    nothing is asked of them.  [pa] is the path above the tree [t]. *)
Fixpoint arrayUseOK (cs : list TIntermNode) (la : nat) (pa : list nat) (t : tree) : bool :=
  match t with
  | Node a kids =>
      (bool_decide ((pa ++ [a]) !! 1 = Some la)
       || forallb (fun k => negb (isArrayLeaf cs (rootOf k))) (tail kids))
      && forallb (arrayUseOK cs la (pa ++ [a])) kids
  end.

(** What the traversal of the subtree [t] below the path [pa] by the
    promoter does to the pool. *)
Record traversed (la : nat) (pa : list nat) (t : tree) (cs cs' : list TIntermNode) : Prop :=
  mkTraversed {
  tr_evolves : evolves la (addresses t) cs cs';
  tr_frame : forall x, x < length cs -> ~ In x (addresses t) ->
               last pa <> Some x -> grandOf pa <> Some x -> cs' !! x = cs !! x;
  tr_parent : forall g, last pa = Some g -> agree (onSide la pa (rootOf t) [rootOf t]) cs cs' g;
  tr_grand : forall gg, grandOf pa = Some gg ->
               agree (onSide la pa (rootOf t) [default 0 (last pa)]) cs cs' gg }.

(** The cell at [la] holds the linker objects. *)
Definition isLinker (cs : list TIntermNode) (la : nat) : Prop :=
  exists sequence type, cs !! la = Some (TIntermAggregate EOpLinkerObjects sequence type).

(** What the promoter needs of the pool when it enters the subtree [t]
    below the path [pa]. *)
Record enters (la : nat) (pa : list nat) (t : tree) (cs : list TIntermNode) : Prop := mkEnters {
  en_shape : shape cs t;
  en_arrays : arrayUseOK cs la pa t = true;
  en_nodup : NoDup (pa ++ addresses t);
  en_live : Forall (fun x => x < length cs) pa;
  en_linker : isLinker cs la;
  en_parent : forall g, last pa = Some g -> In (Some (rootOf t)) (childrenAt cs g);
  en_grand : isArrayLeaf cs (rootOf t) = true ->
             forall gg g, grandOf pa = Some gg -> last pa = Some g -> In (Some g) (childrenAt cs gg) }.

(** The pool between two children of the node at [a]. *)
Record inLoop (la a : nat) (pa : list nat) (visited : list tree) (cs cs' : list TIntermNode)
    : Prop := mkInLoop {
  lp_evolves : evolves la (flat_map addresses visited) cs cs';
  lp_frame : forall x, x < length cs -> ~ In x (flat_map addresses visited) -> x <> a ->
               last pa <> Some x -> cs' !! x = cs !! x;
  lp_node : agree (flat_map (fun k => onSide la (pa ++ [a]) (rootOf k) [rootOf k]) visited)
              cs cs' a;
  lp_parent : forall g, last pa = Some g -> agree (onSide la pa a [a]) cs cs' g;
  lp_first : visited = [] -> cs' = cs }.

(** A subtree lies among the linker objects, or the linker-object aggregate
    is neither above nor inside it. *)
Definition linkerSide (la : nat) (pa : list nat) (t : tree) : Prop :=
  (pa ++ [rootOf t]) !! 1 = Some la \/ (~ In la pa /\ ~ In la (addresses t)).

(** ** The linker-object section

    The storage classes that make a symbol visible outside the stage. *)
Definition isExternal (type : TType) : bool :=
  match storage (qualifier type) with
  | EvqVaryingIn | EvqVaryingOut | EvqUniform | EvqBuffer => true
  | _ => false
  end.

(** The stage rooted at [r] refers to a symbol of name and type [d] outside
    of the linker objects at [la]. *)
Definition uses (cs : list TIntermNode) (r la : nat) (d : string * TType) : Prop :=
  exists s, reachAvoid cs la r s /\ symbolAt cs s = Some d.

(** The linker objects at [la] list a symbol of name and type [d]. *)
Definition declares (cs : list TIntermNode) (la : nat) (d : string * TType) : Prop :=
  exists e, In (Some e) (childrenAt cs la) /\ symbolAt cs e = Some d.

(** The name of a linker object. *)
Definition entryName (cs : list TIntermNode) (e : ptr) : option string :=
  match e with
  | Some a => fst <$> symbolAt cs a
  | None => None
  end.

(** The linker-object-section invariant: the last child of the root is the
    linker-object aggregate, every entry of which is a symbol; no two entries
    have the same name; every symbol of external storage the rest of the
    stage refers to has an entry; and every entry whose name is not in
    [exempt] is referred to by the rest of the stage. *)
Record linkerInvariant (exempt : list string) (cs : list TIntermNode) (r la : nat) : Prop :=
  mkInvariant {
  li_last : last (childrenAt cs r) = Some (Some la);
  li_linker : isLinker cs la;
  li_entries : Forall (fun e => is_Some (entryName cs e)) (childrenAt cs la);
  li_once : NoDup (map (entryName cs) (childrenAt cs la));
  li_declared : forall d, uses cs r la d -> isExternal (snd d) = true -> declares cs la d;
  li_used : forall d, declares cs la d -> ~ In (fst d) exempt -> uses cs r la d }.

(** A fragment stage that differentiates the varying [x] along the secondary
    axis and lists it among the linker objects. *)
Definition derivativePool : Pool :=
  mkPool [ TIntermAggregate EOpSequence [Some 1; Some 3] (TType_basic EbtVoid EvqTemporary);
           TIntermUnary EOpDPdy (Some 2) (exampleFloat EvqTemporary 1);
           TIntermSymbol 5 "x" (exampleFloat EvqVaryingIn 1);
           TIntermAggregate EOpLinkerObjects [Some 4] (TType_basic EbtVoid EvqTemporary);
           TIntermSymbol 5 "x" (exampleFloat EvqVaryingIn 1) ] [].

Definition derivativeBody : list tree := [Node 1 [Node 2 []]].

Definition derivativeLinker : tree := Node 3 [Node 4 []].

(** An aggregate that lists the symbol [x] twice. *)
Definition duplicatePool : Pool :=
  mkPool [ TIntermAggregate EOpSequence [Some 1; Some 2; Some 1] (TType_basic EbtVoid EvqTemporary);
           TIntermSymbol 1 "x" (exampleFloat EvqTemporary 1);
           TIntermSymbol 2 "y" (exampleFloat EvqTemporary 1);
           TIntermSymbol 3 "z" (exampleFloat EvqTemporary 1) ] [].

(** Two vertex inputs: the three-component [normal] and the scalar
    [weight]. *)
Definition shapePool : Pool :=
  mkPool [ TIntermSymbol 1 "normal" (exampleFloat EvqVaryingIn 3);
           TIntermSymbol 2 "weight" (exampleFloat EvqVaryingIn 1) ] [].

(** [replacementToOriginalName.find(key)] on the unordered map. *)
Fixpoint lookupName (k : string) (m : list (string * string)) : option string :=
  match m with
  | [] => None
  | (k', v) :: m' => if String.eqb k k' then Some v else lookupName k m'
  end.

(** The caches of the vertex attribute binder on the stage tree [t] of the
    pool [cs]. *)
Definition binderUseSites (cs : list TIntermNode) (t : tree) : list (ptr * ptr) :=
  useSitesOf cs isVaryingIn true (occurrences cs [] t).

Definition binderVaryings (cs : list TIntermNode) (t : tree) : StdMap.t ptr :=
  declaredOf cs isVaryingIn (occurrences cs [] t) StdMap.empty.

(** [uvPool] as a stage. *)
Definition uvBody : list tree := [Node 1 [Node 2 []]].

Definition uvLinker : tree := Node 3 [Node 4 []].

(** A program of two stages in one pool.  The vertex stage at 0 adds the
    uniform [world] to the input [uv]; the fragment stage at 7 samples [tex]
    at the derivative of the uniform [tint] along the secondary axis. *)
Definition programPool : Pool :=
  mkPool [ TIntermAggregate EOpSequence [Some 1; Some 2] (TType_basic EbtVoid EvqTemporary);
           TIntermBinary EOpAdd (Some 3) (Some 4) (exampleFloat EvqTemporary 2);
           TIntermAggregate EOpLinkerObjects [Some 5; Some 6] (TType_basic EbtVoid EvqTemporary);
           TIntermSymbol 10 "world" (exampleFloat EvqUniform 2);
           TIntermSymbol 11 "uv" (exampleFloat EvqVaryingIn 2);
           TIntermSymbol 10 "world" (exampleFloat EvqUniform 2);
           TIntermSymbol 11 "uv" (exampleFloat EvqVaryingIn 2);
           TIntermAggregate EOpSequence [Some 8; Some 9] (TType_basic EbtVoid EvqTemporary);
           TIntermAggregate EOpTexture [Some 10; Some 11] (exampleFloat EvqTemporary 4);
           TIntermAggregate EOpLinkerObjects [Some 13; Some 14] (TType_basic EbtVoid EvqTemporary);
           TIntermSymbol 20 "tex" exampleSampler;
           TIntermUnary EOpDPdy (Some 12) (exampleFloat EvqTemporary 2);
           TIntermSymbol 21 "tint" (exampleFloat EvqUniform 2);
           TIntermSymbol 20 "tex" exampleSampler;
           TIntermSymbol 21 "tint" (exampleFloat EvqUniform 2) ] [].

Definition twoStageProgram : TProgram := mkProgram (Some 0) (Some 7).

Definition vertexBody : list tree := [Node 1 [Node 3 []; Node 4 []]].

Definition vertexLinker : tree := Node 2 [Node 5 []; Node 6 []].

Definition fragmentBody : list tree := [Node 8 [Node 10 []; Node 11 [Node 12 []]]].

Definition fragmentLinker : tree := Node 9 [Node 13 []; Node 14 []].

(** Two trees that share no node. *)
Definition apart (t u : tree) : Prop := forall a, In a (addresses t) -> ~ In a (addresses u).

(** A stage that scales an element of the uniform array [arr] by the
    uniform [scale]; the array is the second of the linker objects. *)
Definition arrayStagePool : Pool :=
  mkPool [ TIntermAggregate EOpSequence [Some 1; Some 5] (TType_basic EbtVoid EvqTemporary);
           TIntermBinary EOpMul (Some 8) (Some 2) (exampleFloat EvqTemporary 2);
           TIntermBinary EOpIndexDirect (Some 3) (Some 4) (exampleFloat EvqTemporary 2);
           TIntermSymbol 7 "arr" (exampleArray EvqUniform 2 3);
           TIntermConstantUnion 1 (TType_basic EbtInt EvqConst);
           TIntermAggregate EOpLinkerObjects [Some 6; Some 7] (TType_basic EbtVoid EvqTemporary);
           TIntermSymbol 8 "scale" (exampleFloat EvqUniform 1);
           TIntermSymbol 7 "arr" (exampleArray EvqUniform 2 3);
           TIntermSymbol 8 "scale" (exampleFloat EvqUniform 1) ] [].

Definition arrayStageBody : list tree := [Node 1 [Node 8 []; Node 2 [Node 3 []; Node 4 []]]].

Definition arrayStageLinker : tree := Node 5 [Node 6 []; Node 7 []].

(** A vertex stage with the inputs [uv2] and [x]. *)
Definition attribPool : Pool :=
  mkPool [ TIntermAggregate EOpSequence [Some 1; Some 2] (TType_basic EbtVoid EvqTemporary);
           TIntermBinary EOpAdd (Some 3) (Some 4) (exampleFloat EvqTemporary 2);
           TIntermAggregate EOpLinkerObjects [Some 5; Some 6] (TType_basic EbtVoid EvqTemporary);
           TIntermSymbol 10 "x" (exampleFloat EvqVaryingIn 2);
           TIntermSymbol 11 "uv2" (exampleFloat EvqVaryingIn 2);
           TIntermSymbol 10 "x" (exampleFloat EvqVaryingIn 2);
           TIntermSymbol 11 "uv2" (exampleFloat EvqVaryingIn 2) ] [].

Definition attribBody : list tree := [Node 1 [Node 3 []; Node 4 []]].

Definition attribLinker : tree := Node 2 [Node 5 []; Node 6 []].

(** * Properties *)

(** ** The outcome monad *)

Lemma bind_Ok {A B} (m : M A) (k : A -> M B) h r :
  bind m k h = Ok r <-> exists a h', m h = Ok (a, h') /\ k a h' = Ok r.
Proof.
  unfold bind. destruct (m h) as [[a h']| | |]; split.
  - eauto.
  - intros (a0 & h0 & [= <- <-] & Hk). exact Hk.
  - discriminate.
  - intros (? & ? & [=] & _).
  - discriminate.
  - intros (? & ? & [=] & _).
  - discriminate.
  - intros (? & ? & [=] & _).
Qed.

Lemma bind_of_Ok {A B} (m : M A) (k : A -> M B) h a h' :
  m h = Ok (a, h') -> bind m k h = k a h'.
Proof. unfold bind. intros ->. reflexivity. Qed.

Lemma bind_of_Throw {A B} (m : M A) (k : A -> M B) h w :
  m h = Throw w -> bind m k h = Throw w.
Proof. unfold bind. intros ->. reflexivity. Qed.

Lemma deref_Ok p h n h' :
  deref p h = Ok (n, h') <-> exists a, p = Some a /\ cells h !! a = Some n /\ h' = h.
Proof.
  unfold deref. destruct p as [a|].
  - destruct (cells h !! a) as [n0|] eqn:E; split.
    + intros [= <- <-]. eauto.
    + intros (a0 & [= <-] & Hn & ->). rewrite E in Hn. injection Hn as <-. reflexivity.
    + discriminate.
    + intros (a0 & [= <-] & Hn & _). rewrite E in Hn. discriminate.
  - split; [discriminate | intros (? & [=] & _)].
Qed.

Lemma deref_of_lookup a h n : cells h !! a = Some n -> deref (Some a) h = Ok (n, h).
Proof. unfold deref. intros ->. reflexivity. Qed.

Lemma store_of_lookup a h n0 n :
  cells h !! a = Some n0 ->
  store (Some a) n h = Ok (tt, mkPool (<[a := n]> (cells h)) (removed h)).
Proof.
  intros Hn. unfold store. apply lookup_lt_Some in Hn.
  destruct (decide (a < length (cells h))); [reflexivity | lia].
Qed.

Lemma RemoveAllTreeNodes_of_lookup a h n0 :
  cells h !! a = Some n0 ->
  RemoveAllTreeNodes (Some a) h = Ok (tt, mkPool (cells h) (a :: removed h)).
Proof.
  intros Hn. unfold RemoveAllTreeNodes. apply lookup_lt_Some in Hn.
  destruct (decide (a < length (cells h))); [reflexivity | lia].
Qed.

Lemma getName_of_lookup a h id name type :
  cells h !! a = Some (TIntermSymbol id name type) -> getName (Some a) h = Ok (name, h).
Proof. intros Hn. unfold getName. rewrite (bind_of_Ok _ _ _ _ _ (deref_of_lookup _ _ _ Hn)). reflexivity. Qed.

Lemma getSymbolType_of_lookup a h id name type :
  cells h !! a = Some (TIntermSymbol id name type) -> getSymbolType (Some a) h = Ok (type, h).
Proof. intros Hn. unfold getSymbolType. rewrite (bind_of_Ok _ _ _ _ _ (deref_of_lookup _ _ _ Hn)). reflexivity. Qed.

(** ** [makeReplacements] on one record *)

Lemma replaceInSequence_spec p s replacement op type :
  forall post pre h,
    cells h !! p = Some (TIntermAggregate op (pre ++ post) type) ->
    s < length (cells h) ->
    replaceInSequence (Some p) (Some s) replacement (seq (length pre) (length post)) h =
      Ok (tt, mkPool
                (<[p := TIntermAggregate op (pre ++ map (substPtr (Some s) replacement) post) type]>
                   (cells h))
                (replicate (length (filter (fun c => c = Some s) post)) s ++ removed h)).
Proof.
  induction post as [|cur post IH]; intros pre h Hp Hs.
  - simpl. unfold ret. rewrite list_insert_id by exact Hp. destruct h; reflexivity.
  - simpl seq. simpl replaceInSequence.
    rewrite (bind_of_Ok _ _ _ _ _ (deref_of_lookup _ _ _ Hp)).
    rewrite lookup_app_r by lia. replace (length pre - length pre) with 0 by lia. simpl.
    destruct (decide (cur = Some s)) as [->|Hne].
    + rewrite (bind_of_Ok _ _ _ tt (mkPool (cells h) (s :: removed h))).
      2:{ unfold RemoveAllTreeNodes. destruct (decide (s < length (cells h))); [reflexivity|lia]. }
      erewrite bind_of_Ok.
      2:{ apply (store_of_lookup p (mkPool (cells h) (s :: removed h)) _ _ Hp). }
      simpl.
      replace (<[length pre := replacement]> (pre ++ Some s :: post))
        with ((pre ++ [replacement]) ++ post).
      2:{ rewrite insert_app_r_alt by lia. replace (length pre - length pre) with 0 by lia.
          simpl. rewrite <- app_assoc. reflexivity. }
      specialize (IH (pre ++ [replacement])
                     (mkPool (<[p := TIntermAggregate op ((pre ++ [replacement]) ++ post) type]> (cells h))
                             (s :: removed h))).
      rewrite length_app in IH. simpl in IH.
      replace (length pre + 1) with (S (length pre)) in IH by lia.
      rewrite IH.
      * simpl. rewrite list_insert_insert_eq.
        rewrite filter_cons_True by reflexivity. simpl.
        unfold substPtr at 2. rewrite decide_True by reflexivity.
        rewrite <- app_assoc. simpl.
        replace (replicate (length (filter (fun c => c = Some s) post)) s ++ s :: removed h)
          with (s :: replicate (length (filter (fun c => c = Some s) post)) s ++ removed h).
        { reflexivity. }
        { clear. induction (length (filter (fun c => c = Some s) post)) as [|n IHn]; simpl; [reflexivity|].
          rewrite <- IHn. reflexivity. }
      * simpl. apply list_lookup_insert_eq. eapply lookup_lt_Some. exact Hp.
      * simpl. rewrite length_insert. exact Hs.
    + specialize (IH (pre ++ [cur]) h).
      rewrite length_app in IH. simpl in IH.
      replace (length pre + 1) with (S (length pre)) in IH by lia.
      rewrite <- app_assoc in IH. simpl in IH.
      rewrite IH by assumption.
      rewrite filter_cons_False by exact Hne.
      unfold substPtr at 2. rewrite decide_False by exact Hne.
      rewrite <- app_assoc. reflexivity.
Qed.

Lemma replaceSymbol_spec h p n s replacement :
  cells h !! p = Some n ->
  s < length (cells h) ->
  replaceSymbol (Some s) (Some p) replacement h = afterReplace h p n s replacement.
Proof.
  intros Hp Hs. unfold replaceSymbol.
  rewrite (bind_of_Ok _ _ _ _ _ (deref_of_lookup _ _ _ Hp)).
  destruct n as [| |op sequence type|op l r type|op operand type| | | |]; try reflexivity.
  - exact (replaceInSequence_spec p s replacement op type sequence [] h Hp Hs).
  - simpl. destruct (decide (l = Some s)) as [->|Hne].
    + rewrite (bind_of_Ok _ _ _ tt (mkPool (cells h) (s :: removed h))).
      2:{ unfold RemoveAllTreeNodes. destruct (decide (s < length (cells h))); [reflexivity|lia]. }
      rewrite (store_of_lookup p (mkPool (cells h) (s :: removed h)) _ _ Hp). reflexivity.
    + destruct r as [ra|]; [|reflexivity].
      unfold bind at 1, RemoveAllTreeNodes.
      destruct (decide (ra < length (cells h))); [|reflexivity].
      rewrite (store_of_lookup p (mkPool (cells h) (ra :: removed h)) _ _ Hp). reflexivity.
  - simpl. destruct operand as [oa|]; [|reflexivity].
    unfold bind at 1, RemoveAllTreeNodes.
    destruct (decide (oa < length (cells h))); [|reflexivity].
    rewrite (store_of_lookup p (mkPool (cells h) (oa :: removed h)) _ _ Hp). reflexivity.
Qed.

Lemma makeReplacements_cons nameToReplacement s p rest h id name type :
  cells h !! s = Some (TIntermSymbol id name type) ->
  makeReplacements nameToReplacement ((Some s, Some p) :: rest) h =
    bind (replaceSymbol (Some s) (Some p) (fst (StdMap.subscript nullptr name nameToReplacement)))
         (fun _ => makeReplacements (snd (StdMap.subscript nullptr name nameToReplacement)) rest) h.
Proof.
  intros Hs. simpl. rewrite (bind_of_Ok _ _ _ _ _ (getName_of_lookup _ _ _ _ _ Hs)).
  destruct (StdMap.subscript None name nameToReplacement). reflexivity.
Qed.

Lemma classOf_replaceChild symbol replacement n :
  classOf (replaceChild symbol replacement n) = classOf n.
Proof. destruct n; simpl; try reflexivity. destruct (decide _); reflexivity. Qed.

Lemma replaceable_class n n' : classOf n' = classOf n -> replaceable n' = replaceable n.
Proof. destruct n, n'; simpl; intros [=]; reflexivity. Qed.

Lemma afterReplace_Ok h p n s replacement h' :
  afterReplace h p n s replacement = Ok (tt, h') ->
  cells h' = <[p := replaceChild (Some s) replacement n]> (cells h).
Proof.
  unfold afterReplace. destruct n as [| |op sequence type|op l r type|op operand type| | | |];
    try discriminate.
  - intros [= <-]. reflexivity.
  - destruct (decide (l = Some s)).
    + intros [= <-]. simpl. rewrite decide_True by assumption. reflexivity.
    + destruct r as [ra|]; [|discriminate]. destruct (decide _); [|discriminate].
      intros [= <-]. simpl. rewrite decide_False by assumption. reflexivity.
  - destruct operand as [oa|]; [|discriminate]. destruct (decide _); [|discriminate].
    intros [= <-]. reflexivity.
Qed.

(** One record, whatever its pointers: a successful step rewrites the parent
    cell only, and keeps its class. *)
Lemma replaceSymbol_Ok symbol parent replacement h h' name :
  getName symbol h = Ok (name, h) ->
  replaceSymbol symbol parent replacement h = Ok (tt, h') ->
  exists s p n, symbol = Some s /\ parent = Some p /\ cells h !! p = Some n /\
    cells h' = <[p := replaceChild (Some s) replacement n]> (cells h).
Proof.
  intros Hname Hrep.
  unfold getName in Hname. apply bind_Ok in Hname as (sn & h0 & Hd & _).
  apply deref_Ok in Hd as (s & -> & Hs & ->).
  assert (Hp : exists p n, parent = Some p /\ cells h !! p = Some n).
  { unfold replaceSymbol in Hrep. apply bind_Ok in Hrep as (n & h0 & Hd & _).
    apply deref_Ok in Hd as (p & -> & Hp & _). eauto. }
  destruct Hp as (p & n & -> & Hp).
  rewrite (replaceSymbol_spec h p n s replacement Hp) in Hrep
    by (eapply lookup_lt_Some; exact Hs).
  apply afterReplace_Ok in Hrep. eauto 10.
Qed.

Lemma getName_Ok symbol h name h' :
  getName symbol h = Ok (name, h') ->
  h' = h /\ exists s id type, symbol = Some s /\ cells h !! s = Some (TIntermSymbol id name type).
Proof.
  unfold getName. intros H. apply bind_Ok in H as (n & h0 & Hd & Hk).
  apply deref_Ok in Hd as (s & -> & Hs & ->).
  destruct n; try discriminate. injection Hk as <- <-. eauto 10.
Qed.

Lemma makeReplacements_class recs :
  forall M h h' a n,
    makeReplacements M recs h = Ok (tt, h') ->
    cells h !! a = Some n ->
    exists n', cells h' !! a = Some n' /\ classOf n' = classOf n.
Proof.
  induction recs as [|[symbol parent] rest IH]; intros M h h' a n Hrun Ha.
  - injection Hrun as <-. eauto.
  - simpl in Hrun. apply bind_Ok in Hrun as (name & h0 & Hname & Hrun).
    apply getName_Ok in Hname as Hname'. destruct Hname' as (-> & _).
    destruct (StdMap.subscript None name M) as [replacement M'].
    apply bind_Ok in Hrun as ([] & h1 & Hstep & Hrun).
    destruct (replaceSymbol_Ok _ _ _ _ _ _ Hname Hstep) as (s & p & np & -> & -> & Hp & Hcells).
    assert (Ha1 : exists n1, cells h1 !! a = Some n1 /\ classOf n1 = classOf n).
    { rewrite Hcells. destruct (decide (p = a)) as [->|Hne].
      - rewrite list_lookup_insert_eq by (eapply lookup_lt_Some; exact Hp).
        rewrite Hp in Ha. injection Ha as <-.
        eexists; split; [reflexivity|]. apply classOf_replaceChild.
      - rewrite list_lookup_insert_ne by exact Hne. eauto. }
    destruct Ha1 as (n1 & Ha1 & Hc1).
    destruct (IH _ _ _ _ _ Hrun Ha1) as (n' & Hn' & Hc').
    exists n'. split; [exact Hn'|congruence].
Qed.

(** ** Replacement under a binary parent *)

(** C4: on a use-site record whose parent is a binary node - the symbol is
    one of the two children - [makeReplacements] completes and releases and
    overwrites exactly one child slot, one that holds the symbol: the left
    one when the left child is the symbol, whatever the right child is, and
    the right one otherwise.  The released node is the symbol, the slot gets
    the replacement bound to the name of the symbol, and the other child is
    kept. *)
Theorem makeReplacements_binary_parent nameToReplacement h s p id name stype op l r btype :
  cells h !! s = Some (TIntermSymbol id name stype) ->
  cells h !! p = Some (TIntermBinary op l r btype) ->
  l = Some s \/ r = Some s ->
  let replacement := fst (StdMap.subscript nullptr name nameToReplacement) in
  exists h',
    makeReplacements nameToReplacement [(Some s, Some p)] h = Ok (tt, h')
    /\ removed h' = s :: removed h
    /\ (l = Some s ->
          cells h' = <[p := TIntermBinary op replacement r btype]> (cells h))
    /\ (l <> Some s ->
          r = Some s /\ cells h' = <[p := TIntermBinary op l replacement btype]> (cells h)).
Proof.
  intros Hs Hp Hchild replacement.
  assert (Hrun : makeReplacements nameToReplacement [(Some s, Some p)] h =
                 bind (fun h0 => afterReplace h p (TIntermBinary op l r btype) s replacement)
                      (fun _ => ret tt) h).
  { rewrite (makeReplacements_cons _ _ _ _ _ _ _ _ Hs). unfold bind.
    rewrite (replaceSymbol_spec h p _ s _ Hp) by (eapply lookup_lt_Some; exact Hs).
    reflexivity. }
  rewrite Hrun. unfold bind, afterReplace, ret.
  destruct (decide (l = Some s)) as [Hl|Hl].
  - simpl. rewrite decide_True by exact Hl. eexists. split; [reflexivity|]. cbn [removed cells].
    split; [reflexivity|]. split; [reflexivity|]. intros Hne. contradiction.
  - destruct Hchild as [Hl'|Hr]; [contradiction|]. subst r.
    rewrite decide_True by (eapply lookup_lt_Some; exact Hs). simpl.
    rewrite decide_False by exact Hl. eexists. split; [reflexivity|]. cbn [removed cells].
    split; [reflexivity|]. split; [intros Hl'; contradiction|]. intros _. split; reflexivity.
Qed.

Lemma makeReplacements_binary_parent_witness :
  exists h',
    makeReplacements [("y", Some 4)] [(Some 2, Some 0)] binaryPool = Ok (tt, h')
    /\ removed h' = [2]
    /\ cells h' = <[0 := TIntermBinary EOpAdd (Some 1) (Some 4) (exampleFloat EvqTemporary 1)]>
                    (cells binaryPool).
Proof.
  destruct (makeReplacements_binary_parent [("y", Some 4)] binaryPool 2 0 2 "y"
              (exampleFloat EvqTemporary 1) EOpAdd (Some 1) (Some 2)
              (exampleFloat EvqTemporary 1) eq_refl eq_refl)
    as (h' & Hrun & Hrem & _ & Hright).
  - right. reflexivity.
  - exists h'. split; [exact Hrun|]. split; [exact Hrem|].
    destruct Hright as [_ Hcells]; [discriminate|]. exact Hcells.
Defined.

(** ** A name without a replacement *)

Lemma children_replaceChild_null s n :
  replaceable n = true ->
  In (Some s) (children n) ->
  In nullptr (children (replaceChild (Some s) nullptr n)).
Proof.
  destruct n as [| |op sequence type|op l r type|op operand type| | | |]; try discriminate;
    intros _ Hin; simpl in *.
  - apply in_map_iff. exists (Some s). split; [|exact Hin].
    rewrite decide_True by reflexivity. reflexivity.
  - destruct (decide (l = Some s)); simpl; auto.
  - auto.
Qed.

Lemma children_replaceChild_nonnull s r n :
  ~ In nullptr (children n) ->
  ~ In nullptr (children (replaceChild (Some s) (Some r) n)).
Proof.
  destruct n as [| |op sequence type|op l rr type|op operand type| | | |]; simpl; try tauto.
  - intros Hn Hin. apply in_map_iff in Hin as (c & Hc & Hin).
    destruct (decide (c = Some s)); [discriminate|]. subst c. tauto.
  - destruct (decide (l = Some s)); simpl; intros Hn [H|[H|[]]]; try discriminate; tauto.
  - intros Hn [H|[]]. discriminate.
Qed.

(** C10: a record whose symbol name has no binding in the replacement map does
    not make [makeReplacements] fail.  The lookup yields a null replacement,
    which is installed in the parent's slot, so the parent ends with a null
    child; when the name is bound to a node, no null child is introduced. *)
Theorem makeReplacements_missing_name nameToReplacement h s p id name stype n :
  cells h !! s = Some (TIntermSymbol id name stype) ->
  cells h !! p = Some n ->
  replaceable n = true ->
  In (Some s) (children n) ->
  exists h',
    makeReplacements nameToReplacement [(Some s, Some p)] h = Ok (tt, h')
    /\ cells h' = <[p := replaceChild (Some s) (fst (StdMap.subscript nullptr name nameToReplacement)) n]>
                    (cells h)
    /\ (StdMap.find name nameToReplacement = None ->
          fst (StdMap.subscript nullptr name nameToReplacement) = nullptr
          /\ In nullptr (children (replaceChild (Some s) nullptr n)))
    /\ (forall r, StdMap.find name nameToReplacement = Some (Some r) ->
          ~ In nullptr (children n) ->
          ~ In nullptr (children (replaceChild (Some s)
                                    (fst (StdMap.subscript nullptr name nameToReplacement)) n))).
Proof.
  intros Hs Hp Hrep Hin.
  set (replacement := fst (StdMap.subscript None name nameToReplacement)).
  assert (Hlt : s < length (cells h)) by (eapply lookup_lt_Some; exact Hs).
  assert (Hstep : exists h1, afterReplace h p n s replacement = Ok (tt, h1)).
  { unfold afterReplace.
    destruct n as [| |op sequence type|op l r type|op operand type| | | |]; try discriminate;
      simpl in Hin.
    - eauto.
    - destruct (decide (l = Some s)); [eauto|].
      destruct Hin as [?|[->|[]]]; [congruence|].
      rewrite decide_True by exact Hlt. eauto.
    - destruct Hin as [->|[]]. rewrite decide_True by exact Hlt. eauto. }
  destruct Hstep as (h1 & Hstep). exists h1. split; [|split; [|split]].
  - rewrite (makeReplacements_cons _ _ _ _ _ _ _ _ Hs).
    erewrite bind_of_Ok; [reflexivity|].
    rewrite (replaceSymbol_spec h p n s _ Hp Hlt). exact Hstep.
  - apply afterReplace_Ok in Hstep. exact Hstep.
  - intros Hfind. subst replacement. unfold StdMap.subscript. rewrite Hfind. simpl.
    split; [reflexivity|]. apply children_replaceChild_null; assumption.
  - intros r Hfind Hnn. subst replacement. unfold StdMap.subscript. rewrite Hfind. simpl.
    apply children_replaceChild_nonnull. exact Hnn.
Qed.

Lemma makeReplacements_missing_name_witness :
  exists h',
    makeReplacements [] [(Some 2, Some 0)] binaryPool = Ok (tt, h')
    /\ cells h' = <[0 := TIntermBinary EOpAdd (Some 1) nullptr (exampleFloat EvqTemporary 1)]>
                    (cells binaryPool).
Proof.
  destruct (makeReplacements_missing_name [] binaryPool 2 0 2 "y" (exampleFloat EvqTemporary 1)
              (TIntermBinary EOpAdd (Some 1) (Some 2) (exampleFloat EvqTemporary 1))
              eq_refl eq_refl eq_refl (or_intror (or_introl eq_refl)))
    as (h' & Hrun & Hcells & _).
  exists h'. split; [exact Hrun | exact Hcells].
Defined.

(** ** Parents that cannot be edited *)

Lemma isLinkerObject_frame path h h' b :
  (forall a n, cells h !! a = Some n ->
     exists n', cells h' !! a = Some n' /\
       match n, n' with
       | TIntermAggregate op _ _, TIntermAggregate op' _ _ => op = op'
       | TIntermAggregate _ _ _, _ | _, TIntermAggregate _ _ _ => False
       | _, _ => True
       end) ->
  isLinkerObject path h = Ok (b, h) ->
  isLinkerObject path h' = Ok (b, h').
Proof.
  intros Hframe. unfold isLinkerObject. destruct (path !! 1) as [p|]; [|intros [= <-]; reflexivity].
  intros H. apply bind_Ok in H as (n & h0 & Hd & Hk).
  apply deref_Ok in Hd as (a & -> & Ha & ->).
  destruct (Hframe _ _ Ha) as (n' & Ha' & Hrel).
  rewrite (bind_of_Ok _ _ _ _ _ (deref_of_lookup _ _ _ Ha')).
  destruct n, n'; try contradiction; try (injection Hk as <-; reflexivity).
  subst. injection Hk as <-. reflexivity.
Qed.

Lemma injectShapeConversion_unsupported node p conv h n :
  cells h !! p = Some n ->
  replaceable n = false ->
  UniformTypeChangeTraverser.injectShapeConversion node (Some p) conv h =
    Throw unimplemented_node_handler.
Proof.
  intros Hp Hn. unfold UniformTypeChangeTraverser.injectShapeConversion.
  rewrite (bind_of_Ok _ _ _ _ _ (deref_of_lookup _ _ _ Hp)).
  destruct n; try discriminate; reflexivity.
Qed.

Lemma getParentNode_last path p : last path = Some p -> getParentNode path = p.
Proof. unfold getParentNode. intros ->. reflexivity. Qed.

(** C9: a record whose parent is neither an aggregate, nor a binary node, nor a
    unary node makes the replacement raise.  This holds for the replacement of
    one record, for a batch with the record at its head (a batch containing
    it never completes), for the promoter's [injectShapeConversion], and for
    the promoter's visit of a promoted symbol outside the linker objects. *)
Theorem unsupported_parent_raises h s p id name stype n :
  cells h !! s = Some (TIntermSymbol id name stype) ->
  cells h !! p = Some n ->
  replaceable n = false ->
  (forall replacement,
      replaceSymbol (Some s) (Some p) replacement h = Throw unimplemented_node_handler)
  /\ (forall M rest,
        makeReplacements M ((Some s, Some p) :: rest) h = Throw unimplemented_node_handler)
  /\ (forall M recs r, In (Some s, Some p) recs -> makeReplacements M recs h <> Ok r)
  /\ (forall node conv,
        UniformTypeChangeTraverser.injectShapeConversion node (Some p) conv h =
          Throw unimplemented_node_handler)
  /\ (forall path scope,
        last path = Some (Some p) ->
        isLinkerObject path h = Ok (false, h) ->
        isPromoted stype = true ->
        UniformTypeChangeTraverser.visitSymbol path (Some s) scope h =
          Throw (if isArray stype
                 then UniformTypeChangeTraverser.unimplemented_array_handler
                 else unimplemented_node_handler)).
Proof.
  intros Hs Hp Hn.
  assert (Hlt : s < length (cells h)) by (eapply lookup_lt_Some; exact Hs).
  assert (Hone : forall replacement,
             replaceSymbol (Some s) (Some p) replacement h = Throw unimplemented_node_handler).
  { intros replacement. rewrite (replaceSymbol_spec h p n s _ Hp Hlt).
    destruct n; try discriminate; reflexivity. }
  split; [exact Hone|]. split; [|split; [|split]].
  - intros M rest. rewrite (makeReplacements_cons _ _ _ _ _ _ _ _ Hs).
    apply bind_of_Throw, Hone.
  - intros M recs. revert M h s p id name stype n Hs Hp Hn Hlt Hone.
    induction recs as [|[symbol parent] rest IH];
      intros M h s p id name stype n Hs Hp Hn Hlt Hone r Hin Hrun; [contradiction|].
    destruct Hin as [[= -> ->]|Hin].
    + rewrite (makeReplacements_cons _ _ _ _ _ _ _ _ Hs) in Hrun.
      rewrite (bind_of_Throw _ _ _ _ (Hone _)) in Hrun. discriminate.
    + simpl in Hrun. apply bind_Ok in Hrun as (name0 & h0 & Hname & Hrun).
      apply getName_Ok in Hname as Hname'. destruct Hname' as (-> & _).
      destruct (StdMap.subscript None name0 M) as [replacement M'] eqn:E.
      apply bind_Ok in Hrun as ([] & h1 & Hstep & Hrun).
      assert (Hcl : forall a na, cells h !! a = Some na ->
                 exists n', cells h1 !! a = Some n' /\ classOf n' = classOf na).
      { intros a na Ha.
        apply (makeReplacements_class [(symbol, parent)] M h h1 a na); [|exact Ha].
        simpl. rewrite (bind_of_Ok _ _ _ _ _ Hname). rewrite E.
        rewrite (bind_of_Ok _ _ _ _ _ Hstep). reflexivity. }
      destruct (Hcl _ _ Hs) as (ns & Hs1 & Hcs). destruct (Hcl _ _ Hp) as (np & Hp1 & Hcp).
      destruct ns; try discriminate.
      assert (Hlt1 : s < length (cells h1)) by (eapply lookup_lt_Some; exact Hs1).
      assert (Hn1 : replaceable np = false) by (rewrite (replaceable_class _ _ Hcp); exact Hn).
      refine (IH M' h1 s p _ _ _ np Hs1 Hp1 Hn1 Hlt1 _ r Hin Hrun).
      intros replacement0. rewrite (replaceSymbol_spec h1 p np s _ Hp1 Hlt1).
      destruct np; try discriminate; reflexivity.
  - intros node conv. exact (injectShapeConversion_unsupported node p conv h n Hp Hn).
  - intros path scope Hlast Hlinker Hprom.
    unfold UniformTypeChangeTraverser.visitSymbol.
    rewrite (bind_of_Ok _ _ _ _ _ (deref_of_lookup _ _ _ Hs)).
    unfold isPromoted in Hprom. rewrite Hprom.
    set (newType := UniformTypeChangeTraverser.promotedType stype).
    set (h1 := mkPool (<[s := TIntermSymbol id name newType]> (cells h)) (removed h)).
    rewrite (bind_of_Ok _ _ _ tt h1) by (apply (store_of_lookup s h _ _ Hs)).
    assert (Hframe : forall a na, cells h !! a = Some na ->
               exists n', cells h1 !! a = Some n' /\ classOf n' = classOf na /\
                 match na, n' with
                 | TIntermAggregate op _ _, TIntermAggregate op' _ _ => op = op'
                 | TIntermAggregate _ _ _, _ | _, TIntermAggregate _ _ _ => False
                 | _, _ => True
                 end).
    { intros a na Ha. simpl. destruct (decide (s = a)) as [<-|Hne].
      - rewrite list_lookup_insert_eq by exact Hlt. rewrite Hs in Ha. injection Ha as <-.
        eexists; repeat split.
      - rewrite list_lookup_insert_ne by exact Hne. exists na. repeat split; [exact Ha|].
        destruct na; auto. }
    rewrite (bind_of_Ok _ _ _ false h1).
    2:{ apply (isLinkerObject_frame path h h1 false); [|exact Hlinker].
        intros a na Ha. destruct (Hframe a na Ha) as (n' & ? & _ & ?). eauto. }
    rewrite (getParentNode_last _ _ Hlast).
    destruct (Hframe _ _ Hp) as (np & Hp1 & Hcp & _).
    assert (Hn1 : replaceable np = false) by (rewrite (replaceable_class _ _ Hcp); exact Hn).
    replace (isArray newType) with (isArray stype) by reflexivity.
    destruct (isArray stype).
    + rewrite (bind_of_Ok _ _ _ _ _ (deref_of_lookup _ _ _ Hp1)).
      destruct np; try discriminate; reflexivity.
    + unfold addShapeConversion. unfold bind at 1. unfold alloc.
      set (h2 := mkPool _ _).
      assert (Hp2 : cells h2 !! p = Some np).
      { unfold h2. simpl. apply lookup_app_l_Some. exact Hp1. }
      rewrite (bind_of_Throw _ _ _ _ (injectShapeConversion_unsupported _ p _ h2 np Hp2 Hn1)).
      reflexivity.
Qed.

Lemma unsupported_parent_raises_witness :
  makeReplacements [] [(Some 2, Some 1)] selectionPool = Throw unimplemented_node_handler
  /\ UniformTypeChangeTraverser.visitSymbol [Some 0; Some 1] (Some 2) emptyScope selectionPool =
       Throw unimplemented_node_handler.
Proof.
  pose proof (unsupported_parent_raises selectionPool 2 1 7 "u" (exampleFloat EvqUniform 1)
                (TIntermSelection (Some 2) nullptr nullptr (TType_basic EbtVoid EvqTemporary))
                eq_refl eq_refl eq_refl) as (_ & Hbatch & _ & _ & Hvisit).
  split.
  - exact (Hbatch [] []).
  - exact (Hvisit [Some 0; Some 1] emptyScope eq_refl eq_refl eq_refl).
Defined.

(** ** The ordered map *)

Lemma string_lt_trans a b c : string_lt a b -> string_lt b c -> string_lt a c.
Proof. exact (@StrictOrder_Transitive _ _ OrdersEx.String_as_OT.lt_strorder a b c). Qed.

Lemma string_lt_irrefl a : ~ string_lt a a.
Proof. exact (@StrictOrder_Irreflexive _ _ OrdersEx.String_as_OT.lt_strorder a). Qed.

Lemma compare_Gt_lt a b : String.compare a b = Gt -> string_lt b a.
Proof.
  intros H. unfold string_lt. rewrite String.compare_antisym, H. reflexivity.
Qed.

Lemma StdMap_keys_insert {V} k (v : V) m k' :
  In k' (StdMap.keys (StdMap.insert k v m)) <-> k' = k \/ In k' (StdMap.keys m).
Proof.
  induction m as [|[k0 v0] m IH]; simpl.
  - intuition.
  - destruct (String.compare k k0) eqn:E; simpl.
    + apply String.compare_eq_iff in E. subst k0. intuition.
    + intuition.
    + rewrite IH. intuition.
Qed.

Lemma StdMap_insert_sorted {V} k (v : V) m : sortedKeys m -> sortedKeys (StdMap.insert k v m).
Proof.
  unfold sortedKeys. induction m as [|[k0 v0] m IH]; simpl; intros Hs.
  - repeat constructor.
  - apply StronglySorted_inv in Hs as [Hs Hall].
    destruct (String.compare k k0) eqn:E; simpl.
    + apply String.compare_eq_iff in E. subst k0. constructor; assumption.
    + constructor; [constructor; assumption|].
      constructor; [exact E|].
      eapply Forall_impl; [exact Hall|]. intros x Hx. eapply string_lt_trans; eassumption.
    + constructor; [apply IH; exact Hs|].
      apply Forall_forall. intros x Hx. apply list_elem_of_In in Hx.
      apply StdMap_keys_insert in Hx as [->|Hx].
      * apply compare_Gt_lt, E.
      * rewrite Forall_forall in Hall. apply Hall, list_elem_of_In, Hx.
Qed.

Lemma StdMap_insert_Forall {V} (P : string * V -> Prop) k v m :
  P (k, v) -> Forall P m -> Forall P (StdMap.insert k v m).
Proof.
  intros Hk. induction m as [|[k0 v0] m IH]; simpl; intros Hall.
  - constructor; [exact Hk|constructor].
  - apply Forall_cons in Hall as [H0 Hall].
    destruct (String.compare k k0); repeat (constructor; try assumption). apply IH, Hall.
Qed.

Lemma StdMap_find_insert_eq {V} k (v : V) m : StdMap.find k (StdMap.insert k v m) = Some v.
Proof.
  induction m as [|[k0 v0] m IH]; simpl.
  - rewrite String.eqb_refl. reflexivity.
  - destruct (String.compare k k0) eqn:E; simpl.
    + rewrite String.eqb_refl. reflexivity.
    + rewrite String.eqb_refl. reflexivity.
    + destruct (String.eqb_spec k k0) as [->|Hne].
      * exfalso. apply compare_Gt_lt in E. exact (string_lt_irrefl _ E).
      * exact IH.
Qed.

Lemma StdMap_find_insert_ne {V} k k' (v : V) m :
  k <> k' -> StdMap.find k' (StdMap.insert k v m) = StdMap.find k' m.
Proof.
  intros Hne. induction m as [|[k0 v0] m IH]; simpl.
  - destruct (String.eqb_spec k' k); [congruence|reflexivity].
  - destruct (String.compare k k0) eqn:E; simpl.
    + apply String.compare_eq_iff in E. subst k0.
      destruct (String.eqb_spec k' k); [congruence|reflexivity].
    + destruct (String.eqb_spec k' k); [congruence|reflexivity].
    + rewrite IH. reflexivity.
Qed.

Lemma StdMap_find_In {V} k (v : V) m : StdMap.find k m = Some v -> In (k, v) m.
Proof.
  induction m as [|[k0 v0] m IH]; simpl; [discriminate|].
  destruct (String.eqb_spec k k0) as [->|Hne].
  - intros [= ->]. left. reflexivity.
  - intros H. right. apply IH, H.
Qed.

Lemma StdMap_find_None {V} k (m : StdMap.t V) :
  StdMap.find k m = None <-> ~ In k (StdMap.keys m).
Proof.
  induction m as [|[k0 v0] m IH]; simpl; [tauto|].
  destruct (String.eqb_spec k k0) as [->|Hne].
  - split; [discriminate|]. intros H. exfalso. apply H. left. reflexivity.
  - rewrite IH. split; [intros H [?|?]; [congruence|tauto] | tauto].
Qed.

Lemma sortedKeys_NoDup {V} (m : StdMap.t V) : sortedKeys m -> NoDup (StdMap.keys m).
Proof.
  unfold sortedKeys. induction (StdMap.keys m) as [|k ks IH]; intros Hs.
  - constructor.
  - apply StronglySorted_inv in Hs as [Hs Hall]. constructor; [|apply IH, Hs].
    intros Hin. rewrite Forall_forall in Hall.
    exact (string_lt_irrefl _ (Hall _ Hin)).
Qed.

Lemma StdMap_In_find {V} k (v : V) m : sortedKeys m -> In (k, v) m -> StdMap.find k m = Some v.
Proof.
  intros Hs. apply sortedKeys_NoDup in Hs. unfold StdMap.keys in Hs.
  induction m as [|[k0 v0] m IH]; simpl; [contradiction|].
  apply NoDup_cons in Hs as [Hnin Hs].
  intros [[= -> ->]|Hin].
  - rewrite String.eqb_refl. reflexivity.
  - destruct (String.eqb_spec k k0) as [->|Hne]; [|apply IH; assumption].
    exfalso. apply Hnin. apply list_elem_of_In. apply (in_map fst) in Hin. exact Hin.
Qed.

(** ** Invariants of a traversal *)

Lemma readSlot_Ok node s h c h' : readSlot node s h = Ok (c, h') -> h' = h.
Proof.
  unfold readSlot. intros H. apply bind_Ok in H as (n & h0 & Hd & Hk).
  apply deref_Ok in Hd as (a & -> & Ha & ->).
  destruct n, s; simpl in Hk; try discriminate;
    try (injection Hk as <- <-; reflexivity).
  destruct (sequence !! idx); [injection Hk as <- <-; reflexivity|discriminate].
Qed.

Section TraverseInvariant.
Context {S : Type} (it : TIntermTraverser S) (P : S -> Pool -> Prop).
Hypothesis visitSymbol_inv :
  forall path s st h st' h',
    P st h -> visitSymbol it path s st h = Ok (st', h') -> P st' h'.
Hypothesis visitUnary_inv :
  forall u st h b st' h',
    P st h -> visitUnary it u st h = Ok ((b, st'), h') -> P st' h'.

Lemma traverseSlots_inv (rec : list ptr -> ptr -> S -> M S) path node :
  (forall path node st h st' h', P st h -> rec path node st h = Ok (st', h') -> P st' h') ->
  forall slots st h st' h',
    P st h -> traverseSlots rec path node slots st h = Ok (st', h') -> P st' h'.
Proof.
  intros Hrec. induction slots as [|[guarded s] slots IH]; intros st h st' h' HP Hrun.
  - injection Hrun as <- <-. exact HP.
  - simpl in Hrun. apply bind_Ok in Hrun as (st1 & h1 & Hslot & Hrun).
    refine (IH _ _ _ _ _ Hrun).
    unfold traverseSlot in Hslot. apply bind_Ok in Hslot as (child & h0 & Hread & Hk).
    apply readSlot_Ok in Hread as ->.
    destruct child as [c|].
    + exact (Hrec _ _ _ _ _ _ HP Hk).
    + destruct guarded; [|discriminate]. injection Hk as <- <-. exact HP.
Qed.

Lemma traverse_inv fuel :
  forall path node st h st' h',
    P st h -> traverse it fuel path node st h = Ok (st', h') -> P st' h'.
Proof.
  induction fuel as [|fuel IH]; intros path node st h st' h' HP Hrun; [discriminate|].
  simpl in Hrun. apply bind_Ok in Hrun as (n & h0 & Hd & Hk).
  apply deref_Ok in Hd as (a & -> & Ha & ->).
  destruct n;
    try (exact (traverseSlots_inv (traverse it fuel) path (Some a) IH _ _ _ _ _ HP Hk)).
  - exact (visitSymbol_inv _ _ _ _ _ _ HP Hk).
  - injection Hk as <- <-. exact HP.
  - apply bind_Ok in Hk as ([visit st1] & h1 & Hv & Hk).
    pose proof (visitUnary_inv _ _ _ _ _ _ HP Hv) as HP1.
    destruct visit.
    + exact (traverseSlots_inv (traverse it fuel) path (Some a) IH _ _ _ _ _ HP1 Hk).
    + injection Hk as <- <-. exact HP1.
Qed.

End TraverseInvariant.

(** ** The collecting visitors *)

Lemma getSymbolType_Ok symbol h type h' :
  getSymbolType symbol h = Ok (type, h') ->
  h' = h /\ exists s id name, symbol = Some s /\ cells h !! s = Some (TIntermSymbol id name type).
Proof.
  unfold getSymbolType. intros H. apply bind_Ok in H as (n & h0 & Hd & Hk).
  apply deref_Ok in Hd as (s & -> & Hs & ->).
  destruct n; try discriminate. injection Hk as <- <-. eauto 10.
Qed.

Lemma isLinkerObject_Ok path h b h' : isLinkerObject path h = Ok (b, h') -> h' = h.
Proof.
  unfold isLinkerObject. destruct (path !! 1) as [p|]; [|intros [= _ <-]; reflexivity].
  intros H. apply bind_Ok in H as (n & h0 & Hd & Hk).
  apply deref_Ok in Hd as (a & -> & Ha & ->).
  destruct n; injection Hk as _ <-; reflexivity.
Qed.

Lemma packer_visitSymbol_collect path symbol st h :
  NonSamplerUniformToStructTraverser.visitSymbol path symbol st h =
    collectSymbol isPacked false path symbol st h.
Proof.
  unfold NonSamplerUniformToStructTraverser.visitSymbol, collectSymbol, isPacked, bind.
  destruct (getSymbolType symbol h) as [[type h1]| | |] eqn:Ht; try reflexivity.
  apply getSymbolType_Ok in Ht as (-> & s & id & name & -> & Hs).
  destruct (_ && _); [|reflexivity].
  destruct (isLinkerObject path h) as [[linker h1]| | |] eqn:Hl; try reflexivity.
  apply isLinkerObject_Ok in Hl as ->.
  pose proof (getName_of_lookup _ _ _ _ _ Hs) as Hname.
  destruct linker; rewrite ?Hname; reflexivity.
Qed.

Lemma binder_visitSymbol_collect path symbol st h :
  VertexVaryingInTraverser.visitSymbol path symbol st h =
    collectSymbol isVaryingIn true path symbol st h.
Proof.
  unfold VertexVaryingInTraverser.visitSymbol, collectSymbol, isVaryingIn, bind.
  destruct (getSymbolType symbol h) as [[type h1]| | |]; try reflexivity.
  destruct (bool_decide _); [|reflexivity].
  destruct (isLinkerObject path h1) as [[linker h2]| | |]; try reflexivity.
  destruct (getName symbol h2) as [[name h3]| | |]; try reflexivity.
  destruct linker; reflexivity.
Qed.

Lemma splitter_visitSymbol_collect path symbol st h :
  SamplerSplitterTraverser.visitSymbol path symbol st h =
    collectSymbol isSplit false path symbol st h.
Proof.
  unfold SamplerSplitterTraverser.visitSymbol, collectSymbol, isSplit, bind.
  destruct (getSymbolType symbol h) as [[type h1]| | |] eqn:Ht; try reflexivity.
  apply getSymbolType_Ok in Ht as (-> & s & id & name & -> & Hs).
  destruct (_ && _); [|reflexivity].
  destruct (isLinkerObject path h) as [[linker h1]| | |] eqn:Hl; try reflexivity.
  apply isLinkerObject_Ok in Hl as ->.
  pose proof (getName_of_lookup _ _ _ _ _ Hs) as Hname.
  destruct linker; rewrite ?Hname; reflexivity.
Qed.

Lemma collectSymbol_sound candidate also h0 path symbol st h st' h' :
  cachesSound h0 st h ->
  collectSymbol candidate also path symbol st h = Ok (st', h') ->
  cachesSound h0 st' h'.
Proof.
  intros (-> & Hsorted & Hnames & Hrecs) Hrun. unfold collectSymbol in Hrun.
  apply bind_Ok in Hrun as (type & h1 & Ht & Hrun).
  apply getSymbolType_Ok in Ht as (-> & s & id & name & -> & Hs).
  destruct (candidate type).
  2:{ injection Hrun as <- <-. repeat split; assumption. }
  apply bind_Ok in Hrun as (linker & h1 & Hl & Hrun).
  apply isLinkerObject_Ok in Hl as ->.
  rewrite (bind_of_Ok _ _ _ _ _ (getName_of_lookup _ _ _ _ _ Hs)) in Hrun.
  injection Hrun as <- <-. split; [reflexivity|]. simpl. split; [|split].
  - destruct linker; [apply StdMap_insert_sorted|]; exact Hsorted.
  - destruct linker; [|exact Hnames].
    apply StdMap_insert_Forall; [|exact Hnames]. exists s, id, type. split; [reflexivity|exact Hs].
  - destruct (linker && negb also); [exact Hrecs|].
    apply Forall_app. split; [exact Hrecs|]. constructor; [|constructor].
    exists s, id, name, type. split; [reflexivity|exact Hs].
Qed.

Lemma emptyCaches_sound h0 : cachesSound h0 emptyCaches h0.
Proof.
  repeat split; simpl; constructor.
Qed.

(** A collecting traversal leaves the pool alone and fills sound caches. *)
Lemma packer_traverse_sound fuel path node h st h' :
  traverse NonSamplerUniformToStructTraverser.traverser fuel path node emptyCaches h = Ok (st, h') ->
  cachesSound h st h'.
Proof.
  apply (traverse_inv NonSamplerUniformToStructTraverser.traverser (cachesSound h)).
  - intros p s st0 h0 st1 h1 HP Hv. simpl in Hv. rewrite packer_visitSymbol_collect in Hv.
    exact (collectSymbol_sound _ _ _ _ _ _ _ _ _ HP Hv).
  - intros u st0 h0 b st1 h1 HP [= _ <- <-]. exact HP.
  - apply emptyCaches_sound.
Qed.

Lemma binder_traverse_sound fuel path node h st h' :
  traverse VertexVaryingInTraverser.traverser fuel path node emptyCaches h = Ok (st, h') ->
  cachesSound h st h'.
Proof.
  apply (traverse_inv VertexVaryingInTraverser.traverser (cachesSound h)).
  - intros p s st0 h0 st1 h1 HP Hv. simpl in Hv. rewrite binder_visitSymbol_collect in Hv.
    exact (collectSymbol_sound _ _ _ _ _ _ _ _ _ HP Hv).
  - intros u st0 h0 b st1 h1 HP [= _ <- <-]. exact HP.
  - apply emptyCaches_sound.
Qed.

Lemma splitter_traverse_sound fuel path node h st h' :
  traverse SamplerSplitterTraverser.traverser fuel path node emptyCaches h = Ok (st, h') ->
  cachesSound h st h'.
Proof.
  apply (traverse_inv SamplerSplitterTraverser.traverser (cachesSound h)).
  - intros p s st0 h0 st1 h1 HP Hv. simpl in Hv. rewrite splitter_visitSymbol_collect in Hv.
    exact (collectSymbol_sound _ _ _ _ _ _ _ _ _ HP Hv).
  - intros u st0 h0 b st1 h1 HP [= _ <- <-]. exact HP.
  - apply emptyCaches_sound.
Qed.

(** ** The vertex attribute binder: locations and names *)

Lemma uint_add_l a b : uint (uint a + b) = uint (a + b).
Proof. unfold uint. apply N.Div0.add_mod_idemp_l. Qed.

Lemma uint_small a : (a < 2 ^ 32)%N -> uint a = a.
Proof. unfold uint. apply N.mod_small. Qed.

Lemma precountUVs_spec vs c :
  VertexVaryingInTraverser.precountUVs vs (uint c) =
    uint (c + N.of_nat (length (filter (fun name => VertexVaryingInTraverser.isUVName name = true)
                                       (StdMap.keys vs)))).
Proof.
  revert c. induction vs as [|[name symbol] vs IH]; intros c; simpl.
  - rewrite N.add_0_r. reflexivity.
  - destruct (VertexVaryingInTraverser.isUVName name) eqn:E.
    + rewrite filter_cons_True by exact E. rewrite uint_add_l, IH. simpl length.
      f_equal. lia.
    + rewrite filter_cons_False by (rewrite E; discriminate). apply IH.
Qed.

Lemma symbolNamed_app cs new b : symbolNamed cs b -> symbolNamed (cs ++ new) b.
Proof.
  intros (a & id & type & Hb & Ha). exists a, id, type. split; [exact Hb|].
  apply lookup_app_l_Some, Ha.
Qed.

Lemma createSymbols_spec apple :
  forall vs ls h asg,
    Forall (symbolNamed (cells h)) vs ->
    NoDup (StdMap.keys vs) ->
    assignments apple (VertexVaryingInTraverser.count ls) (StdMap.keys vs) = Some asg ->
    exists ls' new,
      VertexVaryingInTraverser.createSymbols apple vs ls h =
        Ok (ls', mkPool (cells h ++ new) (removed h))
      /\ length new = length vs
      /\ VertexVaryingInTraverser.ids ls' =
           (VertexVaryingInTraverser.ids ls + N.of_nat (length vs))%N
      /\ (forall k loc newName, asg !! k = Some (loc, newName) ->
            exists type,
              new !! k = Some (TIntermSymbol (VertexVaryingInTraverser.ids ls + N.of_nat k)
                                 newName type)
              /\ layoutLocation (qualifier type) = (loc mod 4096)%N)
      /\ (forall k name, StdMap.keys vs !! k = Some name ->
            StdMap.find name (VertexVaryingInTraverser.originalNameToReplacement ls') =
              Some (Some (length (cells h) + k)))
      /\ (forall name, ~ In name (StdMap.keys vs) ->
            StdMap.find name (VertexVaryingInTraverser.originalNameToReplacement ls') =
              StdMap.find name (VertexVaryingInTraverser.originalNameToReplacement ls)).
Proof.
  induction vs as [|[name symbol] vs IH]; intros ls h asg Hlive Hnodup Hasg.
  - exists ls, []. simpl. rewrite app_nil_r, N.add_0_r. destruct h.
    repeat split; try reflexivity.
    + intros k loc newName Hk. injection Hasg as <-. rewrite lookup_nil in Hk. discriminate.
    + intros k name Hk. rewrite lookup_nil in Hk. discriminate.
  - apply Forall_cons in Hlive as [(a & id & type & Ha & Hsym) Hlive]. simpl in Ha, Hsym. subst symbol.
    simpl in Hnodup. apply NoDup_cons in Hnodup as [Hnotin Hnodup].
    simpl in Hasg.
    destruct (VertexVaryingInTraverser.GetVaryingLocationAndNewNameForName apple
                (VertexVaryingInTraverser.count ls) name) as [[[location newName] count']|] eqn:Hget;
      [|discriminate].
    destruct (assignments apple count' (StdMap.keys vs)) as [asg'|] eqn:Hasg'; [|discriminate].
    injection Hasg as <-.
    simpl. rewrite (bind_of_Ok _ _ _ _ _ (getSymbolType_of_lookup _ _ _ _ _ Hsym)).
    rewrite Hget. unfold Next, addSymbol. unfold bind at 1. unfold alloc.
    match goal with
    | |- context [VertexVaryingInTraverser.createSymbols apple vs ?ls1 ?h1] =>
        destruct (IH ls1 h1 asg') as (ls' & new & Hrun & Hlen & Hids & Hnew & Hmap & Hother);
          [ simpl; eapply Forall_impl; [exact Hlive|]; intros b Hb; apply symbolNamed_app, Hb
          | exact Hnodup
          | exact Hasg'
          | ]
    end.
    simpl in Hrun, Hids, Hmap, Hother. rewrite Hrun.
    eexists ls', (_ :: new). rewrite <- app_assoc. simpl. split; [reflexivity|].
    split; [rewrite Hlen; reflexivity|]. split; [rewrite Hids; lia|].
    split; [|split].
    + intros [|k] loc nn Hk; simpl in Hk.
      * injection Hk as <- <-. eexists. split; [rewrite N.add_0_r; reflexivity|].
        destruct (isMatrix type), (isVector type); reflexivity.
      * destruct (Hnew k loc nn Hk) as (ty & Hty & Hloc). exists ty. split; [|exact Hloc].
        replace (VertexVaryingInTraverser.ids ls + N.of_nat (S k))%N
          with (VertexVaryingInTraverser.ids ls + 1 + N.of_nat k)%N by lia.
        exact Hty.
    + intros [|k] nm Hk; simpl in Hk.
      * injection Hk as <-. rewrite Hother.
        2:{ intros Hin. apply Hnotin, list_elem_of_In, Hin. }
        rewrite StdMap_find_insert_eq. rewrite Nat.add_0_r. reflexivity.
      * rewrite (Hmap k nm Hk). rewrite length_app. simpl. do 2 f_equal. lia.
    + intros nm Hnin. rewrite Hother by (intros Hin; apply Hnin; right; exact Hin).
      apply StdMap_find_insert_ne. intros ->. apply Hnin. left. reflexivity.
Qed.

Lemma assignments_capacity names : forall c,
  N.to_nat c + length names <= 18 ->
  exists asg,
    assignments true c names = Some asg
    /\ forall k, k < length names ->
         exists newName,
           VertexVaryingInTraverser.s_attribName !! (N.to_nat c + k) = Some newName
           /\ asg !! k = Some ((c + N.of_nat k)%N, newName).
Proof.
  induction names as [|name names IH]; intros c Hc.
  - exists []. split; [reflexivity|]. simpl. intros k Hk. lia.
  - simpl in Hc. simpl assignments.
    unfold VertexVaryingInTraverser.GetVaryingLocationAndNewNameForName.
    destruct (VertexVaryingInTraverser.s_attribName !! N.to_nat c) as [newName|] eqn:E.
    2:{ apply lookup_ge_None in E. simpl in E. lia. }
    assert (Hsmall : uint (c + 1) = (c + 1)%N) by (apply uint_small; lia).
    rewrite Hsmall.
    destruct (IH (c + 1)%N) as (asg & Hasg & Hk); [lia|].
    rewrite Hasg. eexists. split; [reflexivity|].
    intros [|k] Hlt.
    + exists newName. rewrite Nat.add_0_r, N.add_0_r. split; [exact E|reflexivity].
    + destruct (Hk k) as (nn & Hnn & Hk'); [simpl in Hlt; lia|].
      exists nn. split.
      * replace (N.to_nat c + S k) with (N.to_nat (c + 1) + k) by lia. exact Hnn.
      * simpl. rewrite Hk'. do 2 f_equal. lia.
Qed.

Lemma GetVarying_sequential count name :
  inFixedTable name = false ->
  VertexVaryingInTraverser.GetVaryingLocationAndNewNameForName false count name =
    Some (uint (VertexVaryingInTraverser.FIRST_GENERIC_ATTRIBUTE_LOCATION + count), name,
          uint (count + 1)).
Proof.
  unfold inFixedTable. simpl. intros H.
  repeat (apply orb_false_iff in H as [? H]).
  unfold VertexVaryingInTraverser.GetVaryingLocationAndNewNameForName.
  repeat match goal with E : String.eqb _ _ = false |- _ => rewrite E; clear E end.
  reflexivity.
Qed.

Lemma GetVarying_table count name :
  inFixedTable name = true ->
  exists location newName,
    VertexVaryingInTraverser.GetVaryingLocationAndNewNameForName false count name =
      Some (location, newName, count).
Proof.
  intros H. unfold VertexVaryingInTraverser.GetVaryingLocationAndNewNameForName.
  repeat match goal with
         | |- context [if String.eqb name ?s then _ else _] =>
             destruct (String.eqb name s) eqn:?; [eauto|]
         end.
  exfalso. unfold inFixedTable in H. simpl in H.
  repeat match goal with E : String.eqb _ _ = false |- _ => rewrite E in H; clear E end.
  discriminate.
Qed.

Lemma assignments_fixed names : forall c,
  (c + N.of_nat (length names) + 10 < 2 ^ 32)%N ->
  exists asg,
    assignments false c names = Some asg
    /\ forall k name, names !! k = Some name -> inFixedTable name = false ->
         asg !! k =
           Some ((VertexVaryingInTraverser.FIRST_GENERIC_ATTRIBUTE_LOCATION + c
                  + N.of_nat (length (sequentialNames (take k names))))%N, name).
Proof.
  induction names as [|name names IH]; intros c Hc.
  - exists []. split; [reflexivity|]. intros k name Hk. rewrite lookup_nil in Hk. discriminate.
  - simpl length in Hc. cbn [assignments].
    destruct (inFixedTable name) eqn:Htab.
    + destruct (GetVarying_table c name Htab) as (location & newName & ->).
      destruct (IH c) as (asg & -> & Hk); [lia|].
      eexists. split; [reflexivity|].
      intros [|k] nm Hnm Hseq; simpl in Hnm.
      * injection Hnm as <-. congruence.
      * simpl. rewrite (Hk k nm Hnm Hseq). unfold sequentialNames.
        rewrite filter_cons_False by (rewrite Htab; discriminate). reflexivity.
    + rewrite (GetVarying_sequential c name Htab).
      unfold VertexVaryingInTraverser.FIRST_GENERIC_ATTRIBUTE_LOCATION in *.
      rewrite (uint_small (c + 1)) by lia. rewrite (uint_small (10 + c)) by lia.
      destruct (IH (c + 1)%N) as (asg & -> & Hk); [lia|].
      eexists. split; [reflexivity|].
      intros [|k] nm Hnm Hseq; simpl in Hnm.
      * injection Hnm as <-. simpl. do 2 f_equal. lia.
      * simpl. rewrite (Hk k nm Hnm Hseq). unfold sequentialNames.
        rewrite filter_cons_True by exact Htab. simpl length. do 2 f_equal. lia.
Qed.

(** C8, as stated, fails: the vertex inputs of [attribPool] are [x], which
    the traversal meets first, and [uv2], whose name begins with "uv".  Had
    the capacity-constrained variant pre-scanned the UV names, the count
    would have been 1 before the first assignment; the variant gives [uv2]
    location 0 and the name of slot 0, and then [x] location 1: the counter
    starts at 0 and the inputs are served in ascending name order. *)
Lemma capacity_variant_does_not_prescan :
  VertexVaryingInTraverser.precountUVs [("uv2", Some 6); ("x", Some 5)] 0 = 1%N
  /\ match VertexVaryingInTraverser.Traverse true 5 (Some 0) 100%N [] attribPool with
     | Ok ((_, names), h') =>
         symbolLocation <$> cells h' !! 7 = Some (Some ("a_position", 0%N))
         /\ lookupName "a_position" names = Some "uv2"
         /\ symbolLocation <$> cells h' !! 8 = Some (Some ("a_normal", 1%N))
         /\ lookupName "a_normal" names = Some "x"
     | _ => False
     end.
Proof. repeat split; reflexivity. Qed.

(** ** The phases of the uniform struct packer *)

Lemma preservesSymbols_refl h : preservesSymbols h h.
Proof. intros a id name type H. exact H. Qed.

Lemma preservesSymbols_trans h1 h2 h3 :
  preservesSymbols h1 h2 -> preservesSymbols h2 h3 -> preservesSymbols h1 h3.
Proof. intros H12 H23 a id name type H. apply H23, H12, H. Qed.

Lemma preservesSymbols_app h new rm :
  preservesSymbols h (mkPool (cells h ++ new) rm).
Proof. intros a id name type H. simpl. apply lookup_app_l_Some, H. Qed.

Lemma preservesSymbols_insert h p n n' rm :
  cells h !! p = Some n -> classOf n <> CSymbol ->
  preservesSymbols h (mkPool (<[p := n']> (cells h)) rm).
Proof.
  intros Hp Hc a id name type H. simpl.
  destruct (decide (p = a)) as [->|Hne].
  - rewrite Hp in H. injection H as ->. simpl in Hc. congruence.
  - rewrite list_lookup_insert_ne by exact Hne. exact H.
Qed.

Lemma makeReplacements_preservesSymbols recs :
  forall M h h', makeReplacements M recs h = Ok (tt, h') -> preservesSymbols h h'.
Proof.
  induction recs as [|[symbol parent] rest IH]; intros M h h' Hrun.
  - injection Hrun as <-. apply preservesSymbols_refl.
  - simpl in Hrun. apply bind_Ok in Hrun as (name & h0 & Hname & Hrun).
    apply getName_Ok in Hname as Hname'. destruct Hname' as (-> & _).
    destruct (StdMap.subscript None name M) as [replacement M'].
    apply bind_Ok in Hrun as ([] & h1 & Hstep & Hrun).
    destruct (replaceSymbol_Ok _ _ _ _ _ _ Hname Hstep) as (s & p & np & -> & -> & Hp & Hcells).
    eapply preservesSymbols_trans; [|exact (IH _ _ _ Hrun)].
    intros a id nm type Ha. rewrite Hcells.
    destruct (decide (p = a)) as [->|Hne].
    + rewrite Hp in Ha. injection Ha as ->.
      rewrite list_lookup_insert_eq by (eapply lookup_lt_Some; exact Hp). reflexivity.
    + rewrite list_lookup_insert_ne by exact Hne. exact Ha.
Qed.

Lemma symbolTypeAt_named cs name symbol :
  symbolNamed cs (name, symbol) -> exists type, symbolTypeAt cs symbol = Some type.
Proof.
  intros (a & id & type & Hb & Ha). simpl in Hb, Ha. subst symbol.
  exists type. simpl. rewrite Ha. reflexivity.
Qed.

Lemma getSymbolType_symbolTypeAt symbol h type :
  symbolTypeAt (cells h) symbol = Some type -> getSymbolType symbol h = Ok (type, h).
Proof.
  destruct symbol as [a|]; [|discriminate]. simpl.
  destruct (cells h !! a) as [[]|] eqn:E; try discriminate.
  intros [= <-]. eapply getSymbolType_of_lookup. exact E.
Qed.

Lemma createMembers_spec :
  forall uniforms publicType scope members h,
    Forall (symbolNamed (cells h)) uniforms ->
    exists scope',
      NonSamplerUniformToStructTraverser.createMembers uniforms publicType scope members h =
        Ok ((scope', members ++ memberTypes (cells h) uniforms publicType), h)
      /\ TypeLists scope' = TypeLists scope.
Proof.
  induction uniforms as [|[name symbol] uniforms IH]; intros publicType scope members h Hlive.
  - exists scope. simpl. rewrite app_nil_r. split; reflexivity.
  - apply Forall_cons in Hlive as [Hsym Hlive].
    destruct (symbolTypeAt_named _ _ _ Hsym) as (type & Htype).
    cbn [NonSamplerUniformToStructTraverser.createMembers memberTypes]. rewrite Htype.
    rewrite (bind_of_Ok _ _ _ _ _ (getSymbolType_symbolTypeAt _ _ _ Htype)).
    destruct (NonSamplerUniformToStructTraverser.memberType publicType name type)
      as [publicType' newType].
    match goal with
    | |- context [NonSamplerUniformToStructTraverser.createMembers uniforms _ ?sc _ h] =>
        destruct (IH publicType' sc (members ++ [newType]) h Hlive) as (scope' & Hrun & Hlists)
    end.
    exists scope'. rewrite Hrun, <- app_assoc. split; [reflexivity|exact Hlists].
Qed.

Lemma memberTypes_fieldName cs :
  forall uniforms publicType,
    Forall (symbolNamed cs) uniforms ->
    map fieldName (memberTypes cs uniforms publicType) = map Some (StdMap.keys uniforms).
Proof.
  induction uniforms as [|[name symbol] uniforms IH]; intros publicType Hlive; [reflexivity|].
  apply Forall_cons in Hlive as [Hsym Hlive].
  destruct (symbolTypeAt_named _ _ _ Hsym) as (type & Htype).
  cbn [memberTypes]. rewrite Htype.
  destruct (NonSamplerUniformToStructTraverser.memberType publicType name type)
    as [publicType' newType] eqn:E.
  cbn [map StdMap.keys fst]. unfold StdMap.keys in IH. rewrite IH by exact Hlive. f_equal.
  unfold NonSamplerUniformToStructTraverser.memberType in E. injection E as _ <-. reflexivity.
Qed.

Lemma createReplacements_spec structSymbol :
  forall members idx M h,
    Forall (fun m => is_Some (fieldName m)) members ->
    exists M',
      NonSamplerUniformToStructTraverser.createReplacements structSymbol idx members M h =
        Ok (M', mkPool (cells h ++ replacementNodes structSymbol (length (cells h)) idx members)
                       (removed h))
      /\ (forall k m name, members !! k = Some m -> fieldName m = Some name ->
            NoDup (map fieldName members) ->
            StdMap.find name M' = Some (Some (length (cells h) + 2 * k + 1)))
      /\ (forall name, ~ In (Some name) (map fieldName members) ->
            StdMap.find name M' = StdMap.find name M).
Proof.
  induction members as [|m members IH]; intros idx M h Hnames.
  - exists M. simpl. rewrite app_nil_r. destruct h. split; [reflexivity|]. split.
    + intros k m name Hk. rewrite lookup_nil in Hk. discriminate.
    + reflexivity.
  - apply Forall_cons in Hnames as [[name Hname] Hnames].
    simpl. unfold addConstantUnion, addBinaryNode. unfold bind at 1. unfold alloc at 1.
    unfold bind at 1. unfold alloc at 1. simpl. rewrite Hname.
    match goal with
    | |- context [NonSamplerUniformToStructTraverser.createReplacements structSymbol ?i members ?M1 ?h1] =>
        destruct (IH i M1 h1 Hnames) as (M' & Hrun & Hfind & Hother)
    end.
    simpl in Hrun, Hfind, Hother. rewrite Hrun. exists M'. split; [|split].
    + rewrite !length_app. simpl. rewrite <- !app_assoc. simpl.
      replace (length (cells h) + 1 + 1) with (length (cells h) + 2) by lia.
      reflexivity.
    + intros [|k] m0 name0 Hk Hn0 Hnodup; simpl in Hk.
      * injection Hk as <-. rewrite Hname in Hn0. injection Hn0 as <-.
        simpl in Hnodup. apply NoDup_cons in Hnodup as [Hnotin _].
        rewrite Hother by (intros Hin; apply Hnotin; rewrite ?Hname; apply list_elem_of_In, Hin).
        rewrite StdMap_find_insert_eq. rewrite !length_app. simpl. do 2 f_equal. lia.
      * simpl in Hnodup. apply NoDup_cons in Hnodup as [_ Hnodup].
        rewrite (Hfind k m0 name0 Hk Hn0 Hnodup). rewrite !length_app. simpl.
        do 2 f_equal. lia.
    + intros name0 Hnin. rewrite Hother by (intros Hin; apply Hnin; right; exact Hin).
      apply StdMap_find_insert_ne. intros ->. apply Hnin. left.
      first [reflexivity | exact Hname].
Qed.

Lemma RemoveAllTreeNodes_Ok p h h' :
  RemoveAllTreeNodes p h = Ok (tt, h') ->
  exists a, p = Some a /\ a < length (cells h) /\ h' = mkPool (cells h) (a :: removed h).
Proof.
  unfold RemoveAllTreeNodes. destruct p as [a|]; [|discriminate].
  destruct (decide (a < length (cells h))); [|discriminate].
  intros [= <-]. eauto.
Qed.

Lemma store_Ok p n h h' :
  store p n h = Ok (tt, h') ->
  exists a, p = Some a /\ a < length (cells h) /\ h' = mkPool (<[a := n]> (cells h)) (removed h).
Proof.
  unfold store. destruct p as [a|]; [|discriminate].
  destruct (decide (a < length (cells h))); [|discriminate].
  intros [= <-]. eauto.
Qed.

Lemma eraseLinkerObjects_preservesSymbols {uniforms : StdMap.t ptr} aggregate idxs :
  forall h h',
    NonSamplerUniformToStructTraverser.eraseLinkerObjects aggregate uniforms idxs h = Ok (tt, h') ->
    preservesSymbols h h'.
Proof.
  induction idxs as [|idx idxs IH]; intros h h' Hrun.
  - injection Hrun as <-. apply preservesSymbols_refl.
  - simpl in Hrun. apply bind_Ok in Hrun as (n & h0 & Hd & Hrun).
    apply deref_Ok in Hd as (l & -> & Hl & ->).
    destruct n as [| |op sequence type| | | | | |]; try discriminate.
    destruct (sequence !! idx) as [entry|]; [|discriminate].
    apply bind_Ok in Hrun as (e & h0 & Hd & Hrun).
    apply deref_Ok in Hd as (ea & -> & He & ->).
    destruct e; try (exact (IH _ _ Hrun)).
    destruct (StdMap.find name uniforms); [|exact (IH _ _ Hrun)].
    apply bind_Ok in Hrun as ([] & h1 & Hrm & Hrun).
    apply RemoveAllTreeNodes_Ok in Hrm as (a1 & _ & _ & ->).
    apply bind_Ok in Hrun as ([] & h2 & Hst & Hrun).
    apply store_Ok in Hst as (a2 & [= <-] & _ & ->). simpl in *.
    eapply preservesSymbols_trans; [|exact (IH _ _ Hrun)].
    intros a i nm ty Ha. simpl.
    destruct (decide (l = a)) as [->|Hne]; [congruence|].
    rewrite list_lookup_insert_ne by exact Hne. exact Ha.
Qed.

Lemma linkerObjectAggregate_Ok root h l h' :
  linkerObjectAggregate root h = Ok (l, h') ->
  h' = h /\ exists r la rop rseq rtype lseq ltype,
    root = Some r /\ l = Some la
    /\ cells h !! r = Some (TIntermAggregate rop rseq rtype)
    /\ last rseq = Some (Some la)
    /\ cells h !! la = Some (TIntermAggregate EOpLinkerObjects lseq ltype).
Proof.
  unfold linkerObjectAggregate. intros H.
  apply bind_Ok in H as (rn & h0 & Hd & H). apply deref_Ok in Hd as (r & -> & Hr & ->).
  destruct rn as [| |rop rseq rtype| | | | | |]; try discriminate.
  destruct (last rseq) as [lp|] eqn:Hlast; [|discriminate].
  apply bind_Ok in H as (ln & h0 & Hd & H). apply deref_Ok in Hd as (la & -> & Hla & ->).
  destruct ln as [| |lop lseq ltype| | | | | |]; try discriminate.
  destruct (decide (lop = EOpLinkerObjects)) as [->|]; [|discriminate].
  injection H as <- <-. split; [reflexivity|]. eauto 15.
Qed.

(** C3, as stated, fails on the order: in [packPool] the traversal meets the
    uniform [b] before the uniform [a], and the struct lists the field [a]
    before the field [b]. *)
Lemma struct_fields_not_in_discovery_order :
  discoveryOrder 5 (Some 0) packPool = Ok (["b"; "a"], packPool)
  /\ match NonSamplerUniformToStructTraverser.Traverse 5 (Some 0) 100%N emptyScope packPool with
     | Ok (_, h') => fieldNamesOf <$> cells h' !! 7 = Some (Some [Some "a"; Some "b"])
     | _ => False
     end.
Proof. split; reflexivity. Qed.

(** ** The uniform vector promoter at an array use *)

Lemma injectShapeConversion_spec node p conv h n :
  cells h !! p = Some n ->
  replaceable n = true ->
  UniformTypeChangeTraverser.injectShapeConversion node (Some p) conv h =
    Ok (tt, mkPool (<[p := replaceChild node conv n]> (cells h)) (removed h)).
Proof.
  intros Hp Hn. unfold UniformTypeChangeTraverser.injectShapeConversion.
  rewrite (bind_of_Ok _ _ _ _ _ (deref_of_lookup _ _ _ Hp)).
  destruct n as [| |op sequence type|op l r type|op operand type| | | |]; try discriminate.
  - exact (store_of_lookup p h _ _ Hp).
  - simpl. destruct (decide (l = node)); exact (store_of_lookup p h _ _ Hp).
  - exact (store_of_lookup p h _ _ Hp).
Qed.

Lemma children_replaceChild_In b c n :
  replaceable n = true ->
  In b (children n) ->
  In c (children (replaceChild b c n)).
Proof.
  destruct n as [| |op sequence type|op l r type|op operand type| | | |]; try discriminate;
    intros _ Hin; simpl in *.
  - apply in_map_iff. exists b. split; [|exact Hin].
    rewrite decide_True by reflexivity. reflexivity.
  - destruct (decide (l = b)); simpl; auto.
  - auto.
Qed.



(** ** Traversing a tree of the pool *)

Lemma tree_ind' (P : tree -> Prop) :
  (forall a kids, Forall P kids -> P (Node a kids)) -> forall t, P t.
Proof.
  intros H. fix IH 1. intros [a kids]. apply H.
  revert kids. fix IHkids 1. intros [|k kids].
  - constructor.
  - constructor; [apply IH|apply IHkids].
Qed.

Lemma shape_inv cs a kids :
  shape cs (Node a kids) ->
  exists n, cs !! a = Some n /\ kidsOf n = Some (map rootOf kids) /\ Forall (shape cs) kids.
Proof. intros H. inversion H; subst. eauto. Qed.

Lemma readSlot_slotPtr a n s h :
  cells h !! a = Some n ->
  readSlot (Some a) s h = match slotPtr n s with Some c => Ok (c, h) | None => Fault end.
Proof.
  intros Ha. unfold readSlot. rewrite (bind_of_Ok _ _ _ _ _ (deref_of_lookup _ _ _ Ha)).
  destruct n, s; simpl; try reflexivity.
  destruct (sequence !! idx); reflexivity.
Qed.

Lemma bind_ext_Ok {A B} (m : M A) (k1 k2 : A -> M B) h :
  (forall a h', m h = Ok (a, h') -> k1 a h' = k2 a h') ->
  bind m k1 h = bind m k2 h.
Proof.
  intros H. unfold bind. destruct (m h) as [[a h']| | |]; try reflexivity. apply H. reflexivity.
Qed.

Lemma traverseSlot_spec {S} (rec : list ptr -> ptr -> S -> M S) path a n guarded s st h :
  cells h !! a = Some n ->
  traverseSlot rec path (Some a) guarded s st h =
    match slotPtr n s with
    | Some (Some c) => rec (path ++ [Some a]) (Some c) st h
    | Some None => if (guarded : bool) then Ok (st, h) else Fault
    | None => Fault
    end.
Proof.
  intros Ha. unfold traverseSlot, bind. rewrite (readSlot_slotPtr a n s h Ha).
  destruct (slotPtr n s) as [[c|]|]; try reflexivity. destruct guarded; reflexivity.
Qed.

Lemma traverseSlots_kids {S} (rec : list ptr -> ptr -> S -> M S) path a n :
  forall slots kids st h,
    cells h !! a = Some n ->
    kidsOfSlots n slots = Some kids ->
    (forall k st h st' h', In k kids -> cells h !! a = Some n ->
       rec (path ++ [Some a]) (Some k) st h = Ok (st', h') -> cells h' !! a = Some n) ->
    traverseSlots rec path (Some a) slots st h = traverseKids rec (path ++ [Some a]) kids st h.
Proof.
  induction slots as [|[guarded s] slots IH]; intros kids st h Ha Hkids Hrec.
  - injection Hkids as <-. reflexivity.
  - simpl in Hkids.
    change (traverseSlots rec path (Some a) ((guarded, s) :: slots) st h)
      with (match traverseSlot rec path (Some a) guarded s st h with
            | Ok (st1, h1) => traverseSlots rec path (Some a) slots st1 h1
            | Throw w => Throw w
            | Fault => Fault
            | OutOfFuel => OutOfFuel
            end).
    rewrite (traverseSlot_spec rec path a n guarded s st h Ha).
    destruct (slotPtr n s) as [[c|]|]; [| |discriminate].
    + destruct (kidsOfSlots n slots) as [kids'|] eqn:E; [|discriminate].
      injection Hkids as <-.
      change (bind (rec (path ++ [Some a]) (Some c) st)
                   (fun st1 => traverseSlots rec path (Some a) slots st1) h =
              bind (rec (path ++ [Some a]) (Some c) st)
                   (fun st1 => traverseKids rec (path ++ [Some a]) kids' st1) h).
      apply bind_ext_Ok. intros st' h' Hk.
      apply IH; [|reflexivity|].
      * eapply Hrec; [left; reflexivity|exact Ha|exact Hk].
      * intros k st0 h0 st1 h1 Hin. apply Hrec. right. exact Hin.
    + destruct guarded; [|discriminate]. apply IH; assumption.
Qed.

Lemma height_kid k kids fuel :
  In k kids -> S (list_max (map height kids)) <= S fuel -> height k <= fuel.
Proof.
  intros Hin Hle. apply le_S_n in Hle.
  pose proof (proj1 (list_max_le (map height kids) fuel) Hle) as Hall.
  rewrite List.Forall_forall in Hall. apply Hall. apply in_map. exact Hin.
Qed.

Section ReadOnlyTraversal.
Context {S : Type} (it : TIntermTraverser S) (h : Pool) (f : list ptr -> nat -> S -> S).
Hypothesis visitUnary_true : forall u st h1, visitUnary it u st h1 = Ok ((true, st), h1).
Hypothesis visitSymbol_readonly :
  forall path s st h1 st' h', visitSymbol it path s st h1 = Ok (st', h') -> h' = h1.
Hypothesis visitSymbol_f :
  forall path s id name type st,
    cells h !! s = Some (TIntermSymbol id name type) ->
    Forall (isLive (cells h)) path ->
    visitSymbol it path (Some s) st h = Ok (f path s st, h).

Lemma traverse_readonly_pool fuel path node st h1 st' h' :
  traverse it fuel path node st h1 = Ok (st', h') -> h' = h1.
Proof.
  apply (traverse_inv it (fun _ h2 => h2 = h1)).
  - intros p s st0 h0 st1 h2 -> Hv. eapply visitSymbol_readonly. exact Hv.
  - intros u st0 h0 b st1 h2 -> Hv. rewrite visitUnary_true in Hv. congruence.
  - reflexivity.
Qed.

Lemma traverseKids_readonly fuel path :
  forall kids st,
    Forall (fun k => forall st, traverse it fuel path (Some (rootOf k)) st h =
                                Ok (fold_left (fun st o => f (fst o) (snd o) st)
                                              (occurrences (cells h) path k) st, h)) kids ->
    traverseKids (traverse it fuel) path (map rootOf kids) st h =
      Ok (fold_left (fun st o => f (fst o) (snd o) st)
                    (flat_map (occurrences (cells h) path) kids) st, h).
Proof.
  induction kids as [|k kids IH]; intros st Hall; [reflexivity|].
  apply Forall_cons in Hall as [Hk Hall].
  simpl. rewrite (bind_of_Ok _ _ _ _ _ (Hk st)). rewrite IH by exact Hall.
  rewrite fold_left_app. reflexivity.
Qed.

Theorem traverse_readonly :
  forall t fuel path st,
    shape (cells h) t ->
    height t <= fuel ->
    Forall (isLive (cells h)) path ->
    traverse it fuel path (Some (rootOf t)) st h =
      Ok (fold_left (fun st o => f (fst o) (snd o) st) (occurrences (cells h) path t) st, h).
Proof.
  induction t as [a kids IH] using tree_ind'. intros fuel path st Hshape Hfuel Hpath.
  apply shape_inv in Hshape as (n & Ha & Hkids & Hshapes).
  destruct fuel as [|fuel]; [simpl in Hfuel; lia|].
  assert (Hdown : traverseSlots (traverse it fuel) path (Some a) (childSlots n) st h =
                  Ok (fold_left (fun st o => f (fst o) (snd o) st)
                        (flat_map (occurrences (cells h) (path ++ [Some a])) kids) st, h)).
  { rewrite (traverseSlots_kids (traverse it fuel) path a n (childSlots n) (map rootOf kids) st h
               Ha Hkids).
    2:{ intros k st0 h0 st1 h1 _ Ha0 Hk. apply traverse_readonly_pool in Hk as ->. exact Ha0. }
    apply traverseKids_readonly.
    rewrite Forall_forall in IH, Hshapes. apply Forall_forall. intros k Hk st0.
    apply IH; [exact Hk|apply Hshapes, Hk| |].
    - eapply height_kid; [apply list_elem_of_In, Hk|exact Hfuel].
    - apply Forall_app. split; [exact Hpath|]. constructor; [|constructor]. exists a, n. auto. }
  cbn [traverse rootOf occurrences]. rewrite (bind_of_Ok _ _ _ _ _ (deref_of_lookup _ _ _ Ha)).
  rewrite Ha.
  destruct n; try exact Hdown.
  - simpl. exact (visitSymbol_f path a id name type st Ha Hpath).
  - rewrite (bind_of_Ok _ _ _ _ _ (visitUnary_true (Some a) st h)). exact Hdown.
Qed.

End ReadOnlyTraversal.

Lemma isLinkerObject_linkerPath path h :
  Forall (isLive (cells h)) path ->
  isLinkerObject path h = Ok (linkerPath (cells h) path, h).
Proof.
  intros Hpath. unfold isLinkerObject, linkerPath.
  destruct (path !! 1) as [p|] eqn:E; [|reflexivity].
  rewrite Forall_forall in Hpath.
  destruct (Hpath p) as (a & n & -> & Ha); [eapply list_elem_of_lookup_2; exact E|].
  rewrite (bind_of_Ok _ _ _ _ _ (deref_of_lookup _ _ _ Ha)). rewrite Ha.
  destruct n; reflexivity.
Qed.

Lemma collectSymbol_readonly candidate also path s st h st' h' :
  collectSymbol candidate also path s st h = Ok (st', h') -> h' = h.
Proof.
  unfold collectSymbol. intros Hrun.
  apply bind_Ok in Hrun as (type & h1 & Ht & Hrun).
  apply getSymbolType_Ok in Ht as (-> & _).
  destruct (candidate type); [|injection Hrun as _ <-; reflexivity].
  apply bind_Ok in Hrun as (linker & h1 & Hl & Hrun).
  apply isLinkerObject_Ok in Hl as ->.
  apply bind_Ok in Hrun as (name & h1 & Hn & Hrun).
  apply getName_Ok in Hn as (-> & _).
  injection Hrun as _ <-. reflexivity.
Qed.

Lemma collectSymbol_collectAt candidate also path s id name type st h :
  cells h !! s = Some (TIntermSymbol id name type) ->
  Forall (isLive (cells h)) path ->
  collectSymbol candidate also path (Some s) st h =
    Ok (collectAt (cells h) candidate also st path s, h).
Proof.
  intros Hs Hpath. unfold collectSymbol, collectAt. rewrite Hs.
  rewrite (bind_of_Ok _ _ _ _ _ (getSymbolType_of_lookup _ _ _ _ _ Hs)).
  destruct (candidate type); [|reflexivity].
  rewrite (bind_of_Ok _ _ _ _ _ (isLinkerObject_linkerPath path h Hpath)).
  rewrite (bind_of_Ok _ _ _ _ _ (getName_of_lookup _ _ _ _ _ Hs)).
  reflexivity.
Qed.

(** On a tree, a collecting traversal with enough fuel completes, leaves the
    pool alone and ends with the caches [collected] describes. *)
Lemma packer_traverse_tree h t fuel :
  shape (cells h) t -> height t <= fuel ->
  traverse NonSamplerUniformToStructTraverser.traverser fuel [] (Some (rootOf t)) emptyCaches h =
    Ok (collected (cells h) isPacked false t, h).
Proof.
  intros Hshape Hfuel.
  rewrite (traverse_readonly NonSamplerUniformToStructTraverser.traverser h
             (fun path s st => collectAt (cells h) isPacked false st path s)).
  - reflexivity.
  - reflexivity.
  - intros path s st h1 st' h' Hv. simpl in Hv. rewrite packer_visitSymbol_collect in Hv.
    eapply collectSymbol_readonly. exact Hv.
  - intros path s id name type st Hs Hpath. simpl. rewrite packer_visitSymbol_collect.
    eapply collectSymbol_collectAt; eassumption.
  - exact Hshape.
  - exact Hfuel.
  - constructor.
Qed.

Lemma binder_traverse_tree h t fuel :
  shape (cells h) t -> height t <= fuel ->
  traverse VertexVaryingInTraverser.traverser fuel [] (Some (rootOf t)) emptyCaches h =
    Ok (collected (cells h) isVaryingIn true t, h).
Proof.
  intros Hshape Hfuel.
  rewrite (traverse_readonly VertexVaryingInTraverser.traverser h
             (fun path s st => collectAt (cells h) isVaryingIn true st path s)).
  - reflexivity.
  - reflexivity.
  - intros path s st h1 st' h' Hv. simpl in Hv. rewrite binder_visitSymbol_collect in Hv.
    eapply collectSymbol_readonly. exact Hv.
  - intros path s id name type st Hs Hpath. simpl. rewrite binder_visitSymbol_collect.
    eapply collectSymbol_collectAt; eassumption.
  - exact Hshape.
  - exact Hfuel.
  - constructor.
Qed.

Lemma splitter_traverse_tree h t fuel :
  shape (cells h) t -> height t <= fuel ->
  traverse SamplerSplitterTraverser.traverser fuel [] (Some (rootOf t)) emptyCaches h =
    Ok (collected (cells h) isSplit false t, h).
Proof.
  intros Hshape Hfuel.
  rewrite (traverse_readonly SamplerSplitterTraverser.traverser h
             (fun path s st => collectAt (cells h) isSplit false st path s)).
  - reflexivity.
  - reflexivity.
  - intros path s st h1 st' h' Hv. simpl in Hv. rewrite splitter_visitSymbol_collect in Hv.
    eapply collectSymbol_readonly. exact Hv.
  - intros path s id name type st Hs Hpath. simpl. rewrite splitter_visitSymbol_collect.
    eapply collectSymbol_collectAt; eassumption.
  - exact Hshape.
  - exact Hfuel.
  - constructor.
Qed.

(** ** [makeReplacements] on the use sites of a tree *)

Lemma kidsOf_binary op l r type ks s :
  kidsOf (TIntermBinary op l r type) = Some ks -> In s ks -> NoDup ks ->
  (l = Some s /\ r <> Some s) \/ (l <> Some s /\ r = Some s).
Proof.
  unfold kidsOf. simpl. destruct l as [la|], r as [ra|]; simpl; intros [= <-] Hin Hnd.
  - apply NoDup_cons in Hnd as [Hnot _]. rewrite list_elem_of_singleton in Hnot.
    destruct Hin as [->|[->|[]]].
    + left. split; [reflexivity|congruence].
    + right. split; [congruence|reflexivity].
  - destruct Hin as [->|[]]. left. split; [reflexivity|discriminate].
  - destruct Hin as [->|[]]. right. split; [discriminate|reflexivity].
  - destruct Hin.
Qed.

Lemma kidsOf_unary op operand type ks s :
  kidsOf (TIntermUnary op operand type) = Some ks -> In s ks -> operand = Some s.
Proof.
  unfold kidsOf. simpl. destruct operand as [oa|]; simpl; [|discriminate].
  intros [= <-] [->|[]]. reflexivity.
Qed.

Lemma afterReplace_mapChildren h pa n0 s r (f f' : ptr -> ptr) ks :
  replaceable n0 = true ->
  kidsOf n0 = Some ks -> In s ks -> NoDup ks ->
  s < length (cells h) ->
  f (Some s) = Some s ->
  f' (Some s) = r ->
  (forall c, c <> Some s -> f' c = f c /\ f c <> Some s) ->
  exists rm,
    afterReplace h pa (mapChildren f n0) s r =
      Ok (tt, mkPool (<[pa := mapChildren f' n0]> (cells h)) rm).
Proof.
  intros Hrep Hkids Hin Hnd Hlt Hfs Hf's Hother.
  destruct n0 as [| |op sequence type|op l0 r0 type|op operand type| | | |]; try discriminate.
  - assert (Hmap : map (fun c => if decide (c = Some s) then r else c) (map f sequence) =
                   map f' sequence).
    { rewrite map_map. apply map_ext. intros c.
      destruct (decide (c = Some s)) as [->|Hne].
      + rewrite Hfs. rewrite decide_True by reflexivity. symmetry. exact Hf's.
      + destruct (Hother c Hne) as [Heq Hneq]. rewrite decide_False by exact Hneq.
        symmetry. exact Heq. }
    eexists. simpl. rewrite Hmap. reflexivity.
  - destruct (kidsOf_binary _ _ _ _ _ _ Hkids Hin Hnd) as [[-> Hr]|[Hl ->]].
    + eexists. simpl. rewrite Hfs. rewrite !decide_True by reflexivity.
      rewrite Hf's. rewrite (proj1 (Hother r0 Hr)). reflexivity.
    + destruct (Hother l0 Hl) as [Heq Hneq]. eexists. simpl.
      rewrite !decide_False by exact Hneq. rewrite Hfs.
      rewrite decide_True by exact Hlt. rewrite Heq, Hf's. reflexivity.
  - rewrite (kidsOf_unary _ _ _ _ _ Hkids Hin). eexists. simpl. rewrite Hfs.
    rewrite decide_True by exact Hlt. rewrite Hf's. reflexivity.
Qed.

Lemma mapChildren_symbol f id name type :
  mapChildren f (TIntermSymbol id name type) = TIntermSymbol id name type.
Proof. reflexivity. Qed.

Lemma substFor_snoc_other cs M done r pa a c :
  a <> pa -> substFor cs M (done ++ [(r, Some pa)]) a c = substFor cs M done a c.
Proof.
  intros Hne. unfold substFor.
  destruct (bool_decide_reflect ((c, Some a) ∈ done ++ [(r, Some pa)])) as [Hin|Hnin];
    destruct (bool_decide_reflect ((c, Some a) ∈ done)) as [Hin'|Hnin']; try reflexivity.
  - apply elem_of_app in Hin as [Hin|Hin]; [contradiction|].
    apply list_elem_of_singleton in Hin. congruence.
  - exfalso. apply Hnin. apply elem_of_app. left. exact Hin'.
Qed.

Lemma makeReplacements_steps cs0 M0 :
  forall todo done M hcur,
    cells hcur = replacedCells cs0 M0 done ->
    (forall name, default nullptr (StdMap.find name M) = default nullptr (StdMap.find name M0)) ->
    Forall (useSite cs0) (done ++ todo) ->
    NoDup (map fst (done ++ todo)) ->
    (forall name r, StdMap.find name M0 = Some r -> r ∉ map fst (done ++ todo)) ->
    exists rm,
      makeReplacements M todo hcur =
        Ok (tt, mkPool (replacedCells cs0 M0 (done ++ todo)) rm).
Proof.
  induction todo as [|[symbol parent] todo IH]; intros done M hcur Hcur HM Huse Hnd Hfresh.
  - exists (removed hcur). simpl. rewrite app_nil_r, <- Hcur. destruct hcur. reflexivity.
  - pose proof Huse as Huse0. rewrite Forall_app in Huse0. destruct Huse0 as [_ Huse0].
    apply Forall_cons in Huse0 as [(s & pa & id & name & type & n0 & ks & [= -> ->] & Hs & Hpa
                                     & Hrep & Hkids & Hin & Hndk) _].
    assert (Hscur : cells hcur !! s = Some (TIntermSymbol id name type)).
    { rewrite Hcur. unfold replacedCells. rewrite list_lookup_imap, Hs. reflexivity. }
    assert (Hpcur : cells hcur !! pa =
                    Some (mapChildren (substFor cs0 M0 done pa) n0)).
    { rewrite Hcur. unfold replacedCells. rewrite list_lookup_imap, Hpa. reflexivity. }
    assert (Hslt : s < length (cells hcur)) by (eapply lookup_lt_Some; exact Hscur).
    rewrite (makeReplacements_cons _ _ _ _ _ _ _ _ Hscur).
    set (r := fst (StdMap.subscript None name M)).
    set (M' := snd (StdMap.subscript None name M)).
    assert (Hr : r = replacementFor cs0 M0 (Some s)).
    { unfold r, replacementFor, symbolAt. rewrite Hs. rewrite <- HM.
      unfold StdMap.subscript. destruct (StdMap.find name M); reflexivity. }
    assert (HM' : forall nm, default None (StdMap.find nm M') = default None (StdMap.find nm M0)).
    { intros nm. rewrite <- HM. unfold M', StdMap.subscript.
      destruct (StdMap.find name M) eqn:E; [reflexivity|]. simpl.
      destruct (String.eqb_spec name nm) as [<-|Hne].
      - rewrite StdMap_find_insert_eq, E. reflexivity.
      - rewrite StdMap_find_insert_ne by exact Hne. reflexivity. }
    assert (Hnotdone : forall q, (Some s, q) ∉ done).
    { intros q Hq. rewrite map_app in Hnd. apply NoDup_app in Hnd as (_ & Hdisj & _).
      apply (Hdisj (Some s)).
      - apply (list_elem_of_fmap_2 fst) in Hq. exact Hq.
      - simpl. left. }
    assert (Hrepl : forall c, replacementFor cs0 M0 c <> Some s).
    { intros c Hc. unfold replacementFor in Hc. destruct c as [a|]; [|discriminate].
      destruct (symbolAt cs0 a) as [[nm ty]|]; [|discriminate].
      destruct (StdMap.find nm M0) as [v|] eqn:E; [|discriminate]. simpl in Hc. subst v.
      apply (Hfresh nm (Some s) E). rewrite map_app. apply elem_of_app. right. left. }
    destruct (afterReplace_mapChildren hcur pa n0 s r
                (substFor cs0 M0 done pa)
                (substFor cs0 M0 (done ++ [(Some s, Some pa)]) pa) ks
                Hrep Hkids Hin Hndk Hslt) as (rm1 & Hstep).
    { unfold substFor. rewrite bool_decide_eq_false_2 by apply Hnotdone. reflexivity. }
    { unfold substFor. rewrite bool_decide_eq_true_2; [symmetry; exact Hr|].
      apply elem_of_app. right. left. }
    { intros c Hc. unfold substFor.
      destruct (bool_decide_reflect ((c, Some pa) ∈ done)) as [Hd|Hd].
      - rewrite bool_decide_eq_true_2 by (apply elem_of_app; left; exact Hd).
        split; [reflexivity|apply Hrepl].
      - rewrite bool_decide_eq_false_2; [split; [reflexivity|exact Hc]|].
        intros Hx. apply elem_of_app in Hx as [Hx|Hx]; [contradiction|].
        apply list_elem_of_singleton in Hx. congruence. }
    erewrite bind_of_Ok.
    2:{ rewrite (replaceSymbol_spec hcur pa _ s r Hpcur Hslt). exact Hstep. }
    destruct (IH (done ++ [(Some s, Some pa)]) M'
                 (mkPool (<[pa := mapChildren (substFor cs0 M0 (done ++ [(Some s, Some pa)]) pa) n0]>
                            (cells hcur)) rm1)) as (rm & Hrun).
    + simpl. apply list_eq. intros a. unfold replacedCells. rewrite list_lookup_imap.
      destruct (decide (pa = a)) as [<-|Hne].
      * rewrite list_lookup_insert_eq by (eapply lookup_lt_Some; exact Hpcur).
        rewrite Hpa. reflexivity.
      * rewrite list_lookup_insert_ne by exact Hne. rewrite Hcur.
        unfold replacedCells. rewrite list_lookup_imap.
        destruct (cs0 !! a) as [na|]; [|reflexivity]. simpl. f_equal.
        assert (Hext : forall c, substFor cs0 M0 done a c =
                                 substFor cs0 M0 (done ++ [(Some s, Some pa)]) a c).
        { intros c. symmetry. apply substFor_snoc_other. congruence. }
        destruct na; simpl; rewrite ?Hext; try reflexivity.
        f_equal. apply list_fmap_ext. intros i c _. apply Hext.
    + exact HM'.
    + rewrite <- app_assoc. exact Huse.
    + rewrite <- app_assoc. exact Hnd.
    + rewrite <- app_assoc. exact Hfresh.
    + rewrite <- app_assoc in Hrun. exists rm. exact Hrun.
Qed.

(** The batch over the use sites of a tree completes, and rewrites every
    parent in one go. *)
Theorem makeReplacements_spec M recs h :
  Forall (useSite (cells h)) recs ->
  NoDup (map fst recs) ->
  (forall name r, StdMap.find name M = Some r -> r ∉ map fst recs) ->
  exists rm,
    makeReplacements M recs h = Ok (tt, mkPool (replacedCells (cells h) M recs) rm).
Proof.
  intros Huse Hnd Hfresh.
  apply (makeReplacements_steps (cells h) M recs [] M h); try assumption; try reflexivity.
  unfold replacedCells. apply list_eq. intros a. rewrite list_lookup_imap.
  destruct (cells h !! a) as [n|]; [|reflexivity]. simpl. f_equal.
  assert (Hid : forall c, substFor (cells h) M [] a c = c).
  { intros c. unfold substFor. rewrite bool_decide_eq_false_2; [reflexivity|].
    apply not_elem_of_nil. }
  destruct n; simpl; rewrite ?Hid; try reflexivity.
  f_equal. rewrite <- (list_fmap_id sequence) at 1. apply list_fmap_ext. intros i c _.
  symmetry. apply Hid.
Qed.

(** ** What a collecting traversal records on a tree *)

Lemma cacheName_symbol cs m (p : list ptr) s name type :
  symbolAt cs s = Some (name, type) ->
  cacheName cs m (p, s) = StdMap.insert name (Some s) m.
Proof. intros H. unfold cacheName. cbn [snd]. rewrite H. reflexivity. Qed.

Lemma collected_fold cs candidate also :
  forall occs st,
    fold_left (fun st o => collectAt cs candidate also st (fst o) (snd o)) occs st =
      mkCaches (declaredOf cs candidate occs (m_nameToSymbol st))
               (m_symbolsToParents st ++ useSitesOf cs candidate also occs).
Proof.
  induction occs as [|[p s] occs IH]; intros st.
  - unfold declaredOf, useSitesOf. simpl. rewrite app_nil_r. destruct st. reflexivity.
  - cbn [fold_left]. rewrite IH. unfold declaredOf, useSitesOf, collectAt. cbn [fst snd].
    assert (Hsym : symbolAt cs s =
                   match cs !! s with
                   | Some (TIntermSymbol _ name type) => Some (name, type)
                   | _ => None
                   end) by reflexivity.
    destruct (cs !! s) as [[id name type| | | | | | | |]|];
      try (rewrite !filter_cons_False by
             (unfold isUseSite, isDeclaration; cbn [fst snd]; rewrite Hsym; discriminate);
           reflexivity).
    destruct (candidate type) eqn:Hc.
    2:{ rewrite !filter_cons_False by
          (unfold isUseSite, isDeclaration; cbn [fst snd]; rewrite Hsym, Hc; discriminate).
        reflexivity. }
    destruct (linkerPath cs p) eqn:Hl; destruct also; cbn [andb orb negb];
      cbn [m_nameToSymbol m_symbolsToParents].
    + rewrite (filter_cons_True (fun o => isDeclaration cs candidate o = true))
        by (unfold isDeclaration; cbn [fst snd]; rewrite Hsym, Hc, Hl; reflexivity).
      rewrite (filter_cons_True (fun o => isUseSite cs candidate true o = true))
        by (unfold isUseSite; cbn [fst snd]; rewrite Hsym, Hc; reflexivity).
      cbn [fold_left map fst snd]. rewrite (cacheName_symbol cs _ p s name type Hsym).
      rewrite <- app_assoc. reflexivity.
    + rewrite (filter_cons_True (fun o => isDeclaration cs candidate o = true))
        by (unfold isDeclaration; cbn [fst snd]; rewrite Hsym, Hc, Hl; reflexivity).
      rewrite (filter_cons_False (fun o => isUseSite cs candidate false o = true))
        by (unfold isUseSite; cbn [fst snd]; rewrite Hsym, Hc, Hl; discriminate).
      cbn [fold_left map fst snd]. rewrite (cacheName_symbol cs _ p s name type Hsym).
      reflexivity.
    + rewrite (filter_cons_False (fun o => isDeclaration cs candidate o = true))
        by (unfold isDeclaration; cbn [fst snd]; rewrite Hsym, Hc, Hl; discriminate).
      rewrite (filter_cons_True (fun o => isUseSite cs candidate true o = true))
        by (unfold isUseSite; cbn [fst snd]; rewrite Hsym, Hc; reflexivity).
      cbn [map fst snd]. rewrite <- app_assoc. reflexivity.
    + rewrite (filter_cons_False (fun o => isDeclaration cs candidate o = true))
        by (unfold isDeclaration; cbn [fst snd]; rewrite Hsym, Hc, Hl; discriminate).
      rewrite (filter_cons_True (fun o => isUseSite cs candidate false o = true))
        by (unfold isUseSite; cbn [fst snd]; rewrite Hsym, Hc, Hl; reflexivity).
      cbn [map fst snd]. rewrite <- app_assoc. reflexivity.
Qed.

Lemma collected_caches cs candidate also t :
  collected cs candidate also t =
    mkCaches (declaredOf cs candidate (occurrences cs [] t) StdMap.empty)
             (useSitesOf cs candidate also (occurrences cs [] t)).
Proof. unfold collected. rewrite collected_fold. reflexivity. Qed.

Lemma rootOf_addresses t : In (rootOf t) (addresses t).
Proof. destruct t. left. reflexivity. Qed.

Lemma roots_addresses kids x : In x (map rootOf kids) -> In x (flat_map addresses kids).
Proof.
  intros Hin. apply in_map_iff in Hin as (k & <- & Hk).
  apply in_flat_map. exists k. split; [exact Hk|apply rootOf_addresses].
Qed.

Lemma NoDup_flat_map_kid {A B} (f : A -> list B) l k :
  NoDup (flat_map f l) -> In k l -> NoDup (f k).
Proof.
  induction l as [|x l IH]; intros Hnd Hin; [contradiction|].
  simpl in Hnd. apply NoDup_app in Hnd as (Hx & _ & Hl).
  destruct Hin as [->|Hin]; [exact Hx|apply IH; assumption].
Qed.

Lemma NoDup_roots kids : NoDup (flat_map addresses kids) -> NoDup (map rootOf kids).
Proof.
  induction kids as [|k kids IH]; intros Hnd; [constructor|].
  simpl in Hnd. apply NoDup_app in Hnd as (_ & Hdisj & Hl).
  simpl. apply NoDup_cons. split; [|apply IH, Hl].
  intros Hin. apply (Hdisj (rootOf k)).
  - apply list_elem_of_In, rootOf_addresses.
  - apply list_elem_of_In, roots_addresses, list_elem_of_In, Hin.
Qed.

Lemma occurrences_inner cs path a kids n :
  cs !! a = Some n -> classOf n <> CSymbol ->
  occurrences cs path (Node a kids) = flat_map (occurrences cs (path ++ [Some a])) kids.
Proof. intros Ha Hc. simpl. rewrite Ha. destruct n; try reflexivity. contradiction. Qed.

Lemma kidsOf_symbol id name type : kidsOf (TIntermSymbol id name type) = Some [].
Proof. reflexivity. Qed.

Lemma getParentNode_snoc path p : getParentNode (path ++ [p]) = p.
Proof. unfold getParentNode. rewrite last_snoc. reflexivity. Qed.

Lemma getParentNode_app_cons path x rest :
  getParentNode (path ++ x :: rest) = getParentNode (x :: rest).
Proof.
  unfold getParentNode. revert x. induction rest as [|y rest IH] using rev_ind; intros x.
  - rewrite last_snoc. reflexivity.
  - rewrite app_comm_cons, app_assoc, !last_snoc. reflexivity.
Qed.

Lemma occurrences_spec cs :
  forall t path0 p s,
    shape cs t -> NoDup (addresses t) -> In (p, s) (occurrences cs path0 t) ->
    (exists id name type, cs !! s = Some (TIntermSymbol id name type))
    /\ In s (addresses t)
    /\ ((p = path0 /\ s = rootOf t)
        \/ (exists rest pa n ks,
              p = path0 ++ Some (rootOf t) :: rest
              /\ getParentNode p = Some pa /\ In pa (addresses t)
              /\ cs !! pa = Some n /\ classOf n <> CSymbol
              /\ kidsOf n = Some ks /\ In s ks /\ NoDup ks)).
Proof.
  induction t as [a kids IH] using tree_ind'. intros path0 p s Hshape Hnd Hin.
  apply shape_inv in Hshape as (n & Ha & Hkids & Hshapes).
  simpl in Hnd. apply NoDup_cons in Hnd as [Hnota Hndk].
  destruct (decide (classOf n = CSymbol)) as [Hsym|Hnsym].
  - destruct n; try discriminate. simpl in Hin. rewrite Ha in Hin.
    destruct Hin as [[= <- <-]|[]].
    split; [eauto|]. split; [left; reflexivity|]. left. split; reflexivity.
  - rewrite (occurrences_inner cs path0 a kids n Ha Hnsym) in Hin.
    apply in_flat_map in Hin as (k & Hk & Hin).
    rewrite Forall_forall in IH, Hshapes.
    destruct (IH k (proj2 (list_elem_of_In _ _) Hk) (path0 ++ [Some a]) p s
                (Hshapes k (proj2 (list_elem_of_In _ _) Hk))
                (NoDup_flat_map_kid addresses kids k Hndk Hk) Hin)
      as (Hs & Haddr & Hcase).
    split; [exact Hs|]. split.
    { right. apply in_flat_map. exists k. split; assumption. }
    right. destruct Hcase as [[-> ->]|(rest & pa & n' & ks & -> & Hpar & Hpa & Hn' & Hc & Hks & Hsk & Hndks)].
    + exists [], a, n, (map rootOf kids). simpl.
      split; [reflexivity|]. split; [apply getParentNode_snoc|].
      split; [left; reflexivity|]. split; [exact Ha|]. split; [exact Hnsym|].
      split; [exact Hkids|]. split; [apply in_map, Hk|]. apply NoDup_roots, Hndk.
    + exists (Some (rootOf k) :: rest), pa, n', ks. rewrite <- app_assoc. simpl.
      split; [reflexivity|]. split; [rewrite <- app_assoc in Hpar; exact Hpar|].
      split; [right; apply in_flat_map; exists k; split; assumption|].
      repeat split; assumption.
Qed.

Lemma occurrences_symbols_sublist cs :
  forall t path, map snd (occurrences cs path t) `sublist_of` addresses t.
Proof.
  induction t as [a kids IH] using tree_ind'. intros path. simpl.
  assert (Hflat : forall path', map snd (flat_map (occurrences cs path') kids)
                                `sublist_of` flat_map addresses kids).
  { intros path'. induction kids as [|k kids IHk]; [constructor|].
    apply Forall_cons in IH as [Hk IH]. simpl. rewrite map_app.
    apply sublist_app; [apply Hk|apply IHk, IH]. }
  destruct (cs !! a) as [[]|]; try (apply sublist_cons_r; left; apply Hflat).
  simpl. apply sublist_skip, sublist_nil_l.
Qed.

Lemma occurrences_NoDup cs t path :
  NoDup (addresses t) -> NoDup (map snd (occurrences cs path t)).
Proof. intros Hnd. exact (sublist_NoDup _ _ Hnd (occurrences_symbols_sublist cs t path)). Qed.

(** ** The linker objects after the packer's backward loop *)

Lemma isErased_insert_aggregate {V} cs (names : StdMap.t V) la op sequence type n' entry :
  cs !! la = Some (TIntermAggregate op sequence type) ->
  classOf n' = CAggregate ->
  isErased (<[la := n']> cs) names entry = isErased cs names entry.
Proof.
  intros Hla Hc. unfold isErased. destruct entry as [a|]; [|reflexivity].
  destruct (decide (la = a)) as [<-|Hne].
  - rewrite list_lookup_insert_eq by (eapply lookup_lt_Some; exact Hla). rewrite Hla.
    destruct n'; try discriminate. reflexivity.
  - rewrite list_lookup_insert_ne by exact Hne. reflexivity.
Qed.

Lemma isLive_insert cs a n p : isLive cs p -> isLive (<[a := n]> cs) p.
Proof.
  intros (b & nb & -> & Hb). destruct (decide (a = b)) as [->|Hne].
  - exists b, n. split; [reflexivity|]. apply list_lookup_insert_eq. eapply lookup_lt_Some. exact Hb.
  - exists b, nb. split; [reflexivity|]. rewrite list_lookup_insert_ne by exact Hne. exact Hb.
Qed.

Lemma eraseLinkerObjects_spec (uniforms : StdMap.t ptr) la op type :
  forall pre post h,
    cells h !! la = Some (TIntermAggregate op (pre ++ post) type) ->
    Forall (isLive (cells h)) pre ->
    exists rm,
      NonSamplerUniformToStructTraverser.eraseLinkerObjects (Some la) uniforms
        (rev (seq 0 (length pre))) h =
        Ok (tt, mkPool
                  (<[la := TIntermAggregate op
                             (filter (fun e => isErased (cells h) uniforms e = false) pre ++ post)
                             type]> (cells h))
                  rm).
Proof.
  induction pre as [|e pre IH] using rev_ind; intros post h Hla Hlive.
  - exists (removed h). simpl. unfold ret. rewrite list_insert_id by exact Hla.
    destruct h. reflexivity.
  - apply Forall_app in Hlive as [Hlive He]. apply Forall_cons in He as [(ea & en & -> & Hea) _].
    rewrite length_app. simpl length. rewrite Nat.add_1_r, seq_S, rev_app_distr. simpl.
    rewrite (bind_of_Ok _ _ _ _ _ (deref_of_lookup _ _ _ Hla)).
    rewrite <- app_assoc. simpl.
    rewrite lookup_app_r by lia. rewrite Nat.sub_diag. simpl.
    rewrite (bind_of_Ok _ _ _ _ _ (deref_of_lookup _ _ _ Hea)).
    rewrite <- app_assoc in Hla. simpl in Hla.
    rewrite filter_app.
    assert (Hskip : isErased (cells h) uniforms (Some ea) = false ->
              exists rm,
                NonSamplerUniformToStructTraverser.eraseLinkerObjects (Some la) uniforms
                  (rev (seq 0 (length pre))) h =
                Ok (tt, mkPool
                          (<[la := TIntermAggregate op
                               ((filter (fun e => isErased (cells h) uniforms e = false) pre ++
                                 filter (fun e => isErased (cells h) uniforms e = false) [Some ea])
                                ++ post) type]> (cells h)) rm)).
    { intros Hfalse. destruct (IH (Some ea :: post) h Hla Hlive) as (rm & Hrun).
      exists rm. rewrite Hrun. rewrite filter_cons_True by exact Hfalse.
      rewrite filter_nil, <- app_assoc. reflexivity. }
    destruct en as [id name sty| | | | | | | |];
      try (apply Hskip; unfold isErased; rewrite Hea; reflexivity).
    destruct (StdMap.find name uniforms) as [v|] eqn:Hfind.
    2:{ apply Hskip. unfold isErased. rewrite Hea, Hfind. reflexivity. }
    rewrite (bind_of_Ok _ _ _ _ _ (RemoveAllTreeNodes_of_lookup _ _ _ Hea)).
    erewrite bind_of_Ok.
    2:{ apply (store_of_lookup la (mkPool (cells h) (ea :: removed h)) _ _ Hla). }
    simpl. rewrite delete_middle.
    destruct (IH post (mkPool (<[la := TIntermAggregate op (pre ++ post) type]> (cells h))
                              (ea :: removed h))) as (rm & Hrun).
    + simpl. apply list_lookup_insert_eq. eapply lookup_lt_Some. exact Hla.
    + simpl. eapply Forall_impl; [exact Hlive|]. intros p. apply isLive_insert.
    + exists rm. rewrite Hrun. simpl. rewrite list_insert_insert_eq.
      rewrite filter_cons_False by (unfold isErased; rewrite Hea, Hfind; discriminate).
      rewrite filter_nil, app_nil_r.
      assert (Hfilt :
        filter (fun e => isErased (<[la := TIntermAggregate op (pre ++ post) type]> (cells h))
                           uniforms e = false) pre =
        filter (fun e => isErased (cells h) uniforms e = false) pre).
      { apply list_filter_iff. intros x.
        rewrite (isErased_insert_aggregate (cells h) uniforms la op _ type
                   (TIntermAggregate op (pre ++ post) type) x Hla eq_refl).
        reflexivity. }
      rewrite Hfilt. reflexivity.
Qed.

(** ** Stages *)

Lemma kidsOfSlots_aggregate op sequence type :
  forall n k ks,
    kidsOfSlots (TIntermAggregate op sequence type)
      (map (fun idx => (false, SeqAt idx)) (seq k n)) = Some ks ->
    k + n <= length sequence ->
    take n (drop k sequence) = map Some ks.
Proof.
  induction n as [|n IH]; intros k ks Hks Hlen.
  - injection Hks as <-. reflexivity.
  - simpl in Hks.
    destruct (sequence !! k) as [[c|]|] eqn:E; try discriminate.
    destruct (kidsOfSlots _ _) as [ks'|] eqn:E'; [|discriminate].
    injection Hks as <-.
    rewrite (drop_S _ _ _ E). simpl. f_equal. apply IH; [exact E'|lia].
Qed.

Lemma kidsOf_aggregate op sequence type ks :
  kidsOf (TIntermAggregate op sequence type) = Some ks -> sequence = map Some ks.
Proof.
  intros H. unfold kidsOf in H. simpl in H.
  apply kidsOfSlots_aggregate in H; [|simpl; lia].
  rewrite drop_0, firstn_all in H. exact H.
Qed.

Lemma kidsOf_children n ks k : kidsOf n = Some ks -> In k ks -> In (Some k) (children n).
Proof.
  destruct n as [| |op sequence type|op l r type|op operand type|c t e type|b t e|op e|c b];
    unfold kidsOf; simpl.
  - intros [= <-] [].
  - intros [= <-] [].
  - intros H Hin. apply (kidsOf_aggregate op sequence type) in H. subst sequence.
    apply in_map. exact Hin.
  - destruct l, r; simpl; intros [= <-] Hin; simpl in Hin; intuition (subst; auto).
  - destruct operand; simpl; [|discriminate]. intros [= <-] Hin. simpl in Hin. intuition (subst; auto).
  - destruct c, t, e; simpl; try discriminate; intros [= <-] Hin; simpl in Hin;
      intuition (subst; auto).
  - destruct b, t, e; simpl; intros [= <-] Hin; simpl in Hin; intuition (subst; auto).
  - destruct e; simpl; intros [= <-] Hin; simpl in Hin; intuition (subst; auto).
  - destruct c, b; simpl; try discriminate; intros [= <-] Hin; simpl in Hin;
      intuition (subst; auto).
Qed.

Section Stage.
Context (cs : list TIntermNode) (r : nat) (body : list tree) (lk : tree).
Hypothesis Hstage : stage cs r body lk.

Lemma stage_root_sequence :
  exists op type,
    cs !! r = Some (TIntermAggregate op (map Some (map rootOf (body ++ [lk]))) type).
Proof.
  destruct (stage_root _ _ _ _ Hstage) as (op & sequence & type & Hr).
  pose proof (stage_shape _ _ _ _ Hstage) as Hshape.
  apply shape_inv in Hshape as (n & Hn & Hkids & _).
  rewrite Hr in Hn. injection Hn as <-.
  apply kidsOf_aggregate in Hkids. subst sequence. eauto.
Qed.

Lemma stage_linkerObjectAggregate h :
  cells h = cs -> linkerObjectAggregate (Some r) h = Ok (Some (rootOf lk), h).
Proof.
  intros Hcs. destruct stage_root_sequence as (op & type & Hr).
  destruct (stage_linker _ _ _ _ Hstage) as (lseq & ltype & Hla).
  rewrite <- Hcs in Hr, Hla.
  unfold linkerObjectAggregate. rewrite (bind_of_Ok _ _ _ _ _ (deref_of_lookup _ _ _ Hr)).
  rewrite !map_app. simpl. rewrite last_snoc.
  rewrite (bind_of_Ok _ _ _ _ _ (deref_of_lookup _ _ _ Hla)).
  rewrite decide_True by reflexivity. reflexivity.
Qed.

Lemma stage_occurrences :
  occurrences cs [] (Node r (body ++ [lk])) =
    flat_map (occurrences cs [Some r]) body ++ occurrences cs [Some r] lk.
Proof.
  destruct (stage_root _ _ _ _ Hstage) as (op & sequence & type & Hr).
  rewrite (occurrences_inner cs [] r _ _ Hr) by discriminate.
  rewrite flat_map_app. simpl. rewrite app_nil_r. reflexivity.
Qed.

Lemma stage_kid_shape k : In k (body ++ [lk]) -> shape cs k /\ NoDup (addresses k).
Proof.
  intros Hk. pose proof (stage_shape _ _ _ _ Hstage) as Hshape.
  apply shape_inv in Hshape as (n & _ & _ & Hshapes). rewrite Forall_forall in Hshapes.
  split; [apply Hshapes, list_elem_of_In, Hk|].
  pose proof (stage_nodup _ _ _ _ Hstage) as Hnd. simpl in Hnd.
  apply NoDup_cons in Hnd as [_ Hnd]. exact (NoDup_flat_map_kid addresses _ k Hnd Hk).
Qed.

(** Below the linker-object aggregate every occurrence is a linker object. *)
Lemma stage_linker_occurrence p s :
  In (p, s) (occurrences cs [Some r] lk) -> linkerPath cs p = true.
Proof.
  intros Hin. destruct (stage_linker _ _ _ _ Hstage) as (lseq & ltype & Hla).
  destruct (stage_kid_shape lk) as [Hshape Hnd]; [apply in_or_app; right; left; reflexivity|].
  destruct (occurrences_spec cs lk [Some r] p s Hshape Hnd Hin) as (Hs & _ & Hcase).
  destruct Hcase as [[-> ->]|(rest & pa & n & ks & -> & _)].
  - destruct Hs as (id & name & type & Hs). rewrite Hla in Hs. discriminate.
  - unfold linkerPath. simpl. rewrite Hla. reflexivity.
Qed.

(** In the body no occurrence is a linker object, and its parent is the root
    or a node of the body. *)
Lemma stage_body_occurrence p s :
  In (p, s) (flat_map (occurrences cs [Some r]) body) ->
  linkerPath cs p = false
  /\ (exists id name type, cs !! s = Some (TIntermSymbol id name type))
  /\ exists pa n ks,
       getParentNode p = Some pa /\ pa <> rootOf lk
       /\ cs !! pa = Some n /\ kidsOf n = Some ks /\ In s ks /\ NoDup ks.
Proof.
  intros Hin. apply in_flat_map in Hin as (k & Hk & Hin).
  destruct (stage_kid_shape k) as [Hshape Hnd]; [apply in_or_app; left; exact Hk|].
  pose proof (stage_nodup _ _ _ _ Hstage) as Hndt. simpl in Hndt.
  apply NoDup_cons in Hndt as [Hrnot Hndt].
  rewrite flat_map_app in Hndt. apply NoDup_app in Hndt as (_ & Hdisj & _).
  assert (Hla_notin : forall x, In x (addresses k) -> x <> rootOf lk).
  { intros x Hx ->. apply (Hdisj (rootOf lk)).
    - apply list_elem_of_In, in_flat_map. exists k. split; assumption.
    - simpl. rewrite app_nil_r. apply list_elem_of_In, rootOf_addresses. }
  assert (Hr_ne : r <> rootOf lk).
  { intros E. apply Hrnot. rewrite E. apply list_elem_of_In, in_flat_map.
    exists lk. split; [apply in_or_app; right; left; reflexivity|apply rootOf_addresses]. }
  destruct (occurrences_spec cs k [Some r] p s Hshape Hnd Hin) as (Hs & Hsaddr & Hcase).
  destruct Hcase as [[-> ->]|(rest & pa & n & ks & -> & Hpar & Hpa & Hn & _ & Hks & Hsk & Hndk)].
  - split; [reflexivity|]. split; [exact Hs|].
    destruct stage_root_sequence as (op & type & Hr).
    exists r, (TIntermAggregate op (map Some (map rootOf (body ++ [lk]))) type),
           (map rootOf (body ++ [lk])).
    split; [reflexivity|]. split; [exact Hr_ne|]. split; [exact Hr|].
    pose proof (stage_shape _ _ _ _ Hstage) as Hsh. apply shape_inv in Hsh as (n & Hn & Hkids & _).
    rewrite Hr in Hn. injection Hn as <-.
    split; [exact Hkids|]. split.
    + apply in_map, in_or_app. left. exact Hk.
    + apply NoDup_roots. pose proof (stage_nodup _ _ _ _ Hstage) as Hx. simpl in Hx.
      apply NoDup_cons in Hx as [_ Hx]. exact Hx.
  - split.
    + pose proof (stage_body _ _ _ _ Hstage) as Hbody. rewrite Forall_forall in Hbody.
      specialize (Hbody k (proj2 (list_elem_of_In _ _) Hk)).
      unfold linkerPath in *. simpl in *. exact Hbody.
    + split; [exact Hs|]. exists pa, n, ks. split; [exact Hpar|].
      split; [apply Hla_notin, Hpa|]. repeat split; assumption.
Qed.

End Stage.

(** ** The records of a collecting traversal are use sites *)

Lemma useSitesOf_In cs candidate also occs rec :
  In rec (useSitesOf cs candidate also occs) <->
  exists p s, rec = (Some s, getParentNode p) /\ In (p, s) occs
              /\ isUseSite cs candidate also (p, s) = true.
Proof.
  unfold useSitesOf. rewrite in_map_iff. split.
  - intros ([p s] & <- & Hin). apply list_elem_of_In, list_elem_of_filter in Hin as [Hsel Hin].
    exists p, s. split; [reflexivity|]. split; [apply list_elem_of_In, Hin|exact Hsel].
  - intros (p & s & -> & Hin & Hsel). exists (p, s). split; [reflexivity|].
    apply list_elem_of_In, list_elem_of_filter. split; [exact Hsel|apply list_elem_of_In, Hin].
Qed.

Lemma useSitesOf_NoDup cs candidate also occs :
  NoDup (map snd occs) -> NoDup (map fst (useSitesOf cs candidate also occs)).
Proof.
  intros Hnd. unfold useSitesOf. rewrite map_map. simpl.
  change (map (fun o : list ptr * nat => Some (snd o))
              (filter (fun o => isUseSite cs candidate also o = true) occs))
    with (Some ∘ snd <$> filter (fun o => isUseSite cs candidate also o = true) occs).
  rewrite list_fmap_compose. apply (NoDup_fmap_2 Some).
  eapply (sublist_NoDup _ (snd <$> occs)); [exact Hnd|].
  change (map snd occs) with (snd <$> occs). apply fmap_sublist. apply sublist_filter.
Qed.

Lemma tree_useSites cs candidate also t :
  shape cs t -> NoDup (addresses t) ->
  (forall id name type, cs !! rootOf t <> Some (TIntermSymbol id name type)) ->
  editable cs (useSitesOf cs candidate also (occurrences cs [] t)) ->
  Forall (useSite cs) (useSitesOf cs candidate also (occurrences cs [] t))
  /\ NoDup (map fst (useSitesOf cs candidate also (occurrences cs [] t))).
Proof.
  intros Hshape Hnd Hroot Hedit. split.
  - apply Forall_forall. intros rec Hrec. apply list_elem_of_In in Hrec.
    pose proof Hrec as Hrec0.
    apply useSitesOf_In in Hrec as (p & s & -> & Hin & Hsel).
    destruct (occurrences_spec cs t [] p s Hshape Hnd Hin) as ((id & name & type & Hs) & _ & Hcase).
    destruct Hcase as [[-> ->]|(rest & pa & n & ks & -> & Hpar & _ & Hn & _ & Hks & Hsk & Hndk)].
    + exfalso. exact (Hroot _ _ _ Hs).
    + cbn [app] in *. rewrite Hpar in Hrec0 |- *.
      exists s, pa, id, name, type, n, ks. repeat split; try assumption.
      eapply Hedit; eassumption.
  - apply useSitesOf_NoDup, occurrences_NoDup, Hnd.
Qed.

(** ** The uniform struct packer on a stage *)

Lemma lookup_cons_S {A} (x : A) l i : (x :: l) !! S i = l !! i.
Proof. reflexivity. Qed.

Lemma replacementNodes_lookup structSymbol :
  forall members base idx k m,
    members !! k = Some m ->
    replacementNodes structSymbol base (uint idx) members !! (2 * k) =
      Some (TIntermConstantUnion (uint (idx + N.of_nat k)) (TType_basic EbtUint EvqConst))
    /\ replacementNodes structSymbol base (uint idx) members !! (2 * k + 1) =
         Some (TIntermBinary EOpIndexDirectStruct structSymbol (Some (base + 2 * k)) m).
Proof.
  induction members as [|m0 members IH]; intros base idx k m Hk.
  - rewrite lookup_nil in Hk. discriminate.
  - destruct k as [|k]; simpl in Hk.
    + injection Hk as <-. simpl. rewrite N.add_0_r, Nat.add_0_r. split; reflexivity.
    + cbn [replacementNodes]. rewrite uint_add_l.
      destruct (IH (base + 2) (idx + 1)%N k m Hk) as [Hc Hb].
      replace (2 * S k) with (S (S (2 * k))) by lia.
      replace (S (S (2 * k)) + 1) with (S (S (2 * k + 1))) by lia.
      rewrite !lookup_cons_S. split.
      * rewrite Hc. do 3 f_equal. lia.
      * rewrite Hb. do 3 f_equal. lia.
Qed.

Lemma replacementNodes_length structSymbol :
  forall members base idx,
    length (replacementNodes structSymbol base idx members) = 2 * length members.
Proof.
  induction members as [|m members IH]; intros base idx; [reflexivity|].
  cbn [replacementNodes length]. rewrite IH. lia.
Qed.

Lemma mapChildren_id f n : (forall c, f c = c) -> mapChildren f n = n.
Proof.
  intros Hf. destruct n; simpl; rewrite ?Hf; try reflexivity.
  f_equal. rewrite <- (map_id sequence) at 2. apply map_ext. exact Hf.
Qed.

Lemma replacedCells_lookup cs M recs a :
  replacedCells cs M recs !! a = mapChildren (substFor cs M recs a) <$> cs !! a.
Proof. unfold replacedCells. rewrite list_lookup_imap. reflexivity. Qed.

Lemma replacedCells_other cs M recs a n :
  cs !! a = Some n ->
  (forall s, ~ In (s, Some a) recs) ->
  replacedCells cs M recs !! a = Some n.
Proof.
  intros Ha Hnot. rewrite replacedCells_lookup, Ha. simpl. f_equal.
  apply mapChildren_id. intros c. unfold substFor.
  rewrite bool_decide_eq_false_2; [reflexivity|].
  intros Hin. apply (Hnot c). apply list_elem_of_In. exact Hin.
Qed.

Lemma linkerObjectAggregate_of_lookup h r la rop rseq rtype lseq ltype :
  cells h !! r = Some (TIntermAggregate rop rseq rtype) ->
  last rseq = Some (Some la) ->
  cells h !! la = Some (TIntermAggregate EOpLinkerObjects lseq ltype) ->
  linkerObjectAggregate (Some r) h = Ok (Some la, h).
Proof.
  intros Hr Hlast Hla. unfold linkerObjectAggregate.
  rewrite (bind_of_Ok _ _ _ _ _ (deref_of_lookup _ _ _ Hr)). rewrite Hlast.
  rewrite (bind_of_Ok _ _ _ _ _ (deref_of_lookup _ _ _ Hla)).
  rewrite decide_True by reflexivity. reflexivity.
Qed.

Lemma useSite_transfer cs cs' rec :
  useSite cs rec ->
  (forall s pa, rec = (Some s, Some pa) -> cs' !! s = cs !! s /\ cs' !! pa = cs !! pa) ->
  useSite cs' rec.
Proof.
  intros (s & pa & id & name & type & n & ks & -> & Hs & Hpa & Hrep & Hks & Hin & Hnd) Hsame.
  destruct (Hsame s pa eq_refl) as [Hs' Hpa'].
  exists s, pa, id, name, type, n, ks. rewrite Hs', Hpa'. repeat split; assumption.
Qed.

Lemma isErased_app {V} cs new (names : StdMap.t V) e :
  isLive cs e -> isErased (cs ++ new) names e = isErased cs names e.
Proof.
  intros (a & n & -> & Ha). unfold isErased. rewrite (lookup_app_l_Some _ _ _ _ Ha), Ha.
  reflexivity.
Qed.

Lemma shape_kids_live cs a kids n :
  cs !! a = Some n -> n = n ->
  Forall (shape cs) kids -> Forall (isLive cs) (map Some (map rootOf kids)).
Proof.
  intros _ _ Hshapes. apply Forall_forall. intros p Hp.
  apply list_elem_of_In, in_map_iff in Hp as (x & <- & Hx).
  apply in_map_iff in Hx as (k & <- & Hk).
  rewrite Forall_forall in Hshapes. specialize (Hshapes k (proj2 (list_elem_of_In _ _) Hk)).
  destruct k as [ka kk]. apply shape_inv in Hshapes as (nk & Hnk & _). exists ka, nk. auto.
Qed.

Lemma height_stage_kid r kids k fuel :
  height (Node r kids) <= fuel -> In k kids -> height k <= fuel.
Proof.
  intros Hh Hk. destruct fuel as [|fuel]; [simpl in Hh; lia|].
  pose proof (height_kid k kids fuel Hk Hh). lia.
Qed.

(** The run of the packer over a stage: it completes, and the resulting cells
    are those of [packerLinked] with every use site rewritten. *)
Theorem packer_run fuel h r body lk ids scope :
  let cs := cells h in
  let t := Node r (body ++ [lk]) in
  stage cs r body lk ->
  height t <= fuel ->
  editable cs (packerUseSites cs t) ->
  exists scope' M rm,
    NonSamplerUniformToStructTraverser.Traverse fuel (Some r) ids scope h =
      Ok ((ids + 1)%N, scope',
          mkPool (replacedCells (packerLinked cs t (rootOf lk) ids) M (packerUseSites cs t)) rm)
    /\ TypeLists scope' = TypeLists scope ++ [packerMembers cs t]
    /\ map fieldName (packerMembers cs t) = map Some (StdMap.keys (packerUniforms cs t))
    /\ NoDup (StdMap.keys (packerUniforms cs t))
    /\ (forall k m name, packerMembers cs t !! k = Some m -> fieldName m = Some name ->
          StdMap.find name M = Some (Some (length cs + 1 + 2 * k + 1)))
    /\ (forall name, ~ In name (StdMap.keys (packerUniforms cs t)) -> StdMap.find name M = None).
Proof.
  intros cs t Hstage Hfuel Hedit.
  pose proof (stage_shape _ _ _ _ Hstage) as Hshape.
  pose proof (stage_nodup _ _ _ _ Hstage) as Hnd.
  destruct (stage_root_sequence cs r body lk Hstage) as (rop & rtype & Hr).
  destruct (stage_linker _ _ _ _ Hstage) as (lseq & ltype & Hla).
  set (la := rootOf lk) in *.
  (* the traversal *)
  pose proof (packer_traverse_tree h t fuel Hshape Hfuel) as Htrav.
  pose proof (packer_traverse_sound _ _ _ _ _ _ Htrav) as (_ & Hsorted & Hlive & _).
  rewrite collected_caches in Htrav, Hsorted, Hlive. simpl in Hsorted, Hlive.
  fold cs in Htrav, Hsorted, Hlive.
  change (declaredOf cs isPacked (occurrences cs [] t) StdMap.empty)
    with (packerUniforms cs t) in *.
  change (useSitesOf cs isPacked false (occurrences cs [] t)) with (packerUseSites cs t) in *.
  assert (Hnames : map fieldName (packerMembers cs t) = map Some (StdMap.keys (packerUniforms cs t)))
    by (apply memberTypes_fieldName, Hlive).
  assert (Hkeys : NoDup (StdMap.keys (packerUniforms cs t))) by (apply sortedKeys_NoDup, Hsorted).
  assert (Hfields : Forall (fun m => is_Some (fieldName m)) (packerMembers cs t)).
  { apply Forall_forall. intros m Hm. apply (list_elem_of_fmap_2 fieldName) in Hm.
    change (fmap fieldName (packerMembers cs t)) with (map fieldName (packerMembers cs t)) in Hm.
    rewrite Hnames in Hm. apply list_elem_of_fmap in Hm as (name & -> & _). eauto. }
  assert (Hndf : NoDup (map fieldName (packerMembers cs t))).
  { rewrite Hnames. apply (NoDup_fmap_2 Some), Hkeys. }
  (* the members, the struct symbol and the indexing operations *)
  destruct (createMembers_spec (packerUniforms cs t)
              NonSamplerUniformToStructTraverser.initialPublicType scope [] h Hlive)
    as (scope1 & Hmem & Hlists).
  cbn [app] in Hmem. fold cs in Hmem. fold (packerMembers cs t) in Hmem.
  set (h2 := mkPool (cs ++ [packerStruct cs t ids]) (removed h)).
  destruct (createReplacements_spec (Some (length cs)) (packerMembers cs t) 0%N StdMap.empty h2 Hfields)
    as (M & Hrep & Hfind & Hother).
  set (h3 := mkPool (cells h2 ++ replacementNodes (Some (length cs)) (length (cells h2)) 0
                                   (packerMembers cs t)) (removed h2)) in *.
  assert (Hcells3 : cells h3 = cs ++ packerStruct cs t ids
                      :: replacementNodes (Some (length cs)) (length cs + 1) 0 (packerMembers cs t)).
  { unfold h3, h2. simpl. rewrite <- app_assoc. simpl. rewrite length_app. reflexivity. }
  assert (Hpre : forall a n, cs !! a = Some n -> cells h3 !! a = Some n).
  { intros a n Ha. rewrite Hcells3. apply lookup_app_l_Some, Ha. }
  (* the linker objects *)
  assert (Hlast : last (map Some (map rootOf (body ++ [lk]))) = Some (Some la)).
  { rewrite !map_app. simpl. apply last_snoc. }
  pose proof (linkerObjectAggregate_of_lookup h3 r la _ _ _ _ _ (Hpre _ _ Hr) Hlast (Hpre _ _ Hla))
    as Hlink.
  assert (Hlklive : Forall (isLive cs) lseq).
  { destruct (stage_kid_shape cs r body lk Hstage lk) as [Hlk _];
      [apply in_or_app; right; left; reflexivity|].
    destruct lk as [la' lkids]. apply shape_inv in Hlk as (nl & Hnl & Hkl & Hshl).
    simpl in la. subst la. rewrite Hla in Hnl. injection Hnl as <-.
    apply kidsOf_aggregate in Hkl. subst lseq.
    eapply shape_kids_live; [exact Hla|reflexivity|exact Hshl]. }
  destruct (eraseLinkerObjects_spec (packerUniforms cs t) la EOpLinkerObjects ltype lseq [] h3)
    as (rm5 & Herase).
  { rewrite app_nil_r. apply Hpre, Hla. }
  { eapply Forall_impl; [exact Hlklive|]. intros p (a & n & -> & Ha). exists a, n. auto. }
  rewrite app_nil_r in Herase.
  assert (Hfilt : filter (fun e => isErased (cells h3) (packerUniforms cs t) e = false) lseq =
                  filter (fun e => isErased cs (packerUniforms cs t) e = false) lseq).
  { clear -Hlklive Hcells3. rewrite Hcells3. induction Hlklive as [|e l He Hl IH]; [reflexivity|].
    rewrite !filter_cons, IH. rewrite (isErased_app cs _ _ e He). reflexivity. }
  rewrite Hfilt in Herase.
  set (kept := filter (fun e => isErased cs (packerUniforms cs t) e = false) lseq) in *.
  set (h5 := mkPool (<[la := TIntermAggregate EOpLinkerObjects kept ltype]> (cells h3)) rm5) in *.
  assert (Hla3 : la < length (cells h3)) by (eapply lookup_lt_Some, Hpre, Hla).
  assert (Hla5 : cells h5 !! la = Some (TIntermAggregate EOpLinkerObjects kept ltype)).
  { simpl. apply list_lookup_insert_eq. exact Hla3. }
  set (h6 := mkPool (<[la := TIntermAggregate EOpLinkerObjects (Some (length cs) :: kept) ltype]>
                       (cells h5)) (removed h5)).
  assert (Hcells6 : cells h6 = packerLinked cs t la ids).
  { unfold h6, h5. cbn [cells]. rewrite list_insert_insert_eq, Hcells3.
    unfold packerLinked. fold cs. rewrite Hla. reflexivity. }
  (* the use sites *)
  assert (Hroot : forall id name type, cs !! rootOf t <> Some (TIntermSymbol id name type)).
  { intros id name type. simpl. rewrite Hr. discriminate. }
  destruct (tree_useSites cs isPacked false t Hshape Hnd Hroot Hedit) as [Huse Hndrecs].
  fold (packerUseSites cs t) in Huse, Hndrecs.
  assert (Hrecs : forall s pa, In (Some s, Some pa) (packerUseSites cs t) ->
            pa <> la /\ (exists n, cs !! pa = Some n) /\
            exists id name type, cs !! s = Some (TIntermSymbol id name type)).
  { intros s pa Hin. apply useSitesOf_In in Hin as (p & s' & [= -> Hpar] & Hin & Hsel).
    unfold t in Hin.
    rewrite (stage_occurrences cs r body lk Hstage) in Hin. apply in_app_or in Hin as [Hin|Hin].
    - destruct (stage_body_occurrence cs r body lk Hstage p s' Hin)
        as (_ & Hs & pa' & n & ks & Hpar' & Hne & Hn & _).
      rewrite Hpar' in Hpar. injection Hpar as ->. split; [exact Hne|]. split; [eauto|exact Hs].
    - exfalso. apply (stage_linker_occurrence cs r body lk Hstage) in Hin.
      unfold isUseSite in Hsel. simpl in Hsel. rewrite Hin in Hsel.
      destruct (symbolAt cs s') as [[]|]; [|discriminate].
      rewrite andb_false_r in Hsel. discriminate. }
  assert (Hsame : forall a, a <> la -> a < length cs -> cells h6 !! a = cs !! a).
  { intros a Hne Hlt. unfold h6, h5. cbn [cells].
    rewrite !list_lookup_insert_ne by (intros E; apply Hne; symmetry; exact E).
    rewrite Hcells3. apply lookup_app_l. exact Hlt. }
  assert (Huse6 : Forall (useSite (cells h6)) (packerUseSites cs t)).
  { apply Forall_forall. intros rec Hrec. rewrite Forall_forall in Huse.
    apply (useSite_transfer cs); [apply Huse, Hrec|].
    intros s pa ->. apply list_elem_of_In in Hrec.
    destruct (Hrecs s pa Hrec) as (Hne & (n & Hn) & (id & name & type & Hs)). split.
    - apply Hsame; [intros ->; rewrite Hla in Hs; discriminate|eapply lookup_lt_Some; exact Hs].
    - apply Hsame; [exact Hne|eapply lookup_lt_Some; exact Hn]. }
  assert (HM : forall name v, StdMap.find name M = Some v ->
            exists k, v = Some (length cs + 1 + 2 * k + 1)).
  { intros name v Hv.
    assert (Hdec : forall x y : option string, {x = y} + {x <> y}) by (repeat decide equality).
    destruct (in_dec Hdec (Some name)
                (map fieldName (packerMembers cs t))) as [Hin|Hnin].
    - apply in_map_iff in Hin as (m & Hm & Hin). apply list_elem_of_In in Hin.
      apply list_elem_of_lookup_1 in Hin as (k & Hk).
      rewrite (Hfind k m name Hk Hm Hndf) in Hv. injection Hv as <-. exists k.
      unfold h2. simpl. rewrite length_app. simpl. reflexivity.
    - rewrite (Hother name Hnin) in Hv. discriminate. }
  destruct (makeReplacements_spec M (packerUseSites cs t) h6 Huse6 Hndrecs) as (rm & Hmake).
  { intros name v Hv Hin. destruct (HM name v Hv) as (k & ->).
    apply list_elem_of_In, in_map_iff in Hin as ([s pa] & Hfst & Hin). simpl in Hfst. subst s.
    rewrite Forall_forall in Huse.
    destruct (Huse _ (proj2 (list_elem_of_In _ _) Hin))
      as (s & pa' & id & nm & ty & n & ks & [= Hs1 _] & Hs & _).
    apply lookup_lt_Some in Hs. fold cs in Hs. lia. }
  (* putting the run together *)
  exists (mkScope (Types scope1) (TypeLists scope1 ++ [packerMembers cs t]) (ArraySizes scope1)),
         M, rm.
  split; [|split; [simpl; rewrite Hlists; reflexivity|split; [exact Hnames|split; [exact Hkeys|split]]]].
  - unfold NonSamplerUniformToStructTraverser.Traverse.
    rewrite (bind_of_Ok _ _ _ _ _ Htrav). cbn [m_nameToSymbol m_symbolsToParents].
    rewrite (bind_of_Ok _ _ _ _ _ Hmem).
    unfold Next, addSymbol. unfold bind at 1. unfold alloc at 1.
    fold cs. fold (packerStruct cs t ids). fold h2.
    rewrite (bind_of_Ok _ _ _ _ _ Hrep). fold h3.
    rewrite (bind_of_Ok _ _ _ _ _ Hlink).
    rewrite (bind_of_Ok _ _ _ _ _ (deref_of_lookup _ _ _ (Hpre _ _ Hla))).
    rewrite (bind_of_Ok _ _ _ _ _ Herase). fold h5.
    rewrite (bind_of_Ok _ _ _ _ _ (deref_of_lookup _ _ _ Hla5)).
    rewrite (bind_of_Ok _ _ _ _ _ (store_of_lookup la h5 _ _ Hla5)). fold h6.
    rewrite (bind_of_Ok _ _ _ _ _ Hmake). rewrite Hcells6. reflexivity.
  - intros k m name Hk Hm. rewrite (Hfind k m name Hk Hm Hndf).
    unfold h2. simpl. rewrite length_app. simpl. reflexivity.
  - intros name Hnin. rewrite Hother; [reflexivity|].
    rewrite Hnames. intros Hin. apply in_map_iff in Hin as (x & [= ->] & Hx). exact (Hnin Hx).
Qed.

(** The records a collecting traversal keeps on a stage lie in the body: the
    parent is not the linker-object aggregate and the child is a symbol. *)
Lemma stage_useSite cs r body lk candidate s pa :
  stage cs r body lk ->
  In (Some s, Some pa) (useSitesOf cs candidate false (occurrences cs [] (Node r (body ++ [lk])))) ->
  pa <> rootOf lk /\ pa < length cs /\ s <> rootOf lk /\ s < length cs.
Proof.
  intros Hstage Hin. apply useSitesOf_In in Hin as (p & s' & [= -> Hpar] & Hin & Hsel).
  rewrite (stage_occurrences cs r body lk Hstage) in Hin. apply in_app_or in Hin as [Hin|Hin].
  - destruct (stage_body_occurrence cs r body lk Hstage p s' Hin)
      as (_ & (id & name & type & Hs) & pa' & n & ks & Hpar' & Hne & Hn & _).
    rewrite Hpar' in Hpar. injection Hpar as ->.
    destruct (stage_linker _ _ _ _ Hstage) as (lseq & ltype & Hla).
    split; [exact Hne|]. split; [eapply lookup_lt_Some; exact Hn|].
    split; [intros ->; rewrite Hla in Hs; discriminate|eapply lookup_lt_Some; exact Hs].
  - exfalso. apply (stage_linker_occurrence cs r body lk Hstage) in Hin.
    unfold isUseSite in Hsel. simpl in Hsel. rewrite Hin in Hsel.
    destruct (symbolAt cs s') as [[]|]; [|discriminate].
    rewrite andb_false_r in Hsel. discriminate.
Qed.

Lemma packerLinked_old cs t la ids a :
  a <> la -> a < length cs -> packerLinked cs t la ids !! a = cs !! a.
Proof.
  intros Hne Hlt. unfold packerLinked.
  destruct (cs !! la) as [[| |op sequence type| | | | | |]|];
    rewrite ?list_lookup_insert_ne by (intros E; apply Hne; symmetry; exact E);
    apply lookup_app_l; exact Hlt.
Qed.

Lemma packerLinked_new cs t la ids k :
  la < length cs ->
  packerLinked cs t la ids !! (length cs + k) =
    (packerStruct cs t ids
       :: replacementNodes (Some (length cs)) (length cs + 1) 0 (packerMembers cs t)) !! k.
Proof.
  intros Hlt. unfold packerLinked.
  destruct (cs !! la) as [[| |op sequence type| | | | | |]|];
    rewrite ?list_lookup_insert_ne by lia;
    (rewrite lookup_app_r by lia); f_equal; lia.
Qed.

Lemma packPool_stage : stage (cells packPool) 0 packBody packLinker.
Proof.
  split.
  - repeat (econstructor; try reflexivity).
  - apply (bool_decide_unpack _). vm_compute. exact I.
  - simpl. eauto.
  - simpl. eauto.
  - repeat constructor.
Qed.

Lemma packPool_editable :
  editable (cells packPool) (packerUseSites (cells packPool) (Node 0 (packBody ++ [packLinker]))).
Proof.
  intros s pa n Hin Hn. vm_compute in Hin.
  destruct Hin as [[= <- <-]|[[= <- <-]|[]]]; vm_compute in Hn; injection Hn as <-; reflexivity.
Qed.

(** C5: on a stage, for every field of the synthetic struct - the member at
    every position [idx] of its declared field list - and every recorded use
    site of the uniform the field is named after, the packer completes and
    leaves, in the slot of the parent that held the symbol, a binary
    [EOpIndexDirectStruct] node whose left operand is the struct symbol,
    whose right operand is the unsigned constant [idx], and whose type is
    the member itself. *)
Theorem packer_access_expression fuel h r body lk ids scope idx member name s pa id type n :
  let cs := cells h in
  let t := Node r (body ++ [lk]) in
  let sa := length cs in
  stage cs r body lk ->
  height t <= fuel ->
  editable cs (packerUseSites cs t) ->
  packerMembers cs t !! idx = Some member ->
  fieldName member = Some name ->
  (N.of_nat idx < 2 ^ 32)%N ->
  In (Some s, Some pa) (packerUseSites cs t) ->
  cs !! s = Some (TIntermSymbol id name type) ->
  cs !! pa = Some n ->
  exists ids' scope' h' f stype,
    NonSamplerUniformToStructTraverser.Traverse fuel (Some r) ids scope h = Ok (ids', scope', h')
    /\ cells h' !! sa = Some (TIntermSymbol ids "anon@0" stype)
    /\ structure stype = Some (packerMembers cs t)
    /\ cells h' !! pa = Some (mapChildren f n)
    /\ f (Some s) = Some (sa + 2 * idx + 2)
    /\ cells h' !! (sa + 2 * idx + 2) =
         Some (TIntermBinary EOpIndexDirectStruct (Some sa) (Some (sa + 2 * idx + 1)) member)
    /\ cells h' !! (sa + 2 * idx + 1) =
         Some (TIntermConstantUnion (N.of_nat idx) (TType_basic EbtUint EvqConst)).
Proof.
  intros cs t sa Hstage Hfuel Hedit Hidx Hname Hsmall Hrec Hs Hpa.
  destruct (packer_run fuel h r body lk ids scope Hstage Hfuel Hedit)
    as (scope' & M & rm & Hrun & _ & _ & _ & Hfind & _).
  fold cs t in Hrun, Hfind.
  destruct (stage_linker _ _ _ _ Hstage) as (lseq & ltype & Hla).
  assert (Hlt : rootOf lk < length cs) by (eapply lookup_lt_Some; exact Hla).
  assert (Hparents : forall c a, In (c, Some a) (packerUseSites cs t) -> a < length cs).
  { intros c a Hin. pose proof Hin as Hin0.
    apply useSitesOf_In in Hin0 as (p & s' & [= -> _] & _).
    apply (stage_useSite cs r body lk isPacked s' a Hstage Hin). }
  destruct (stage_useSite cs r body lk isPacked s pa Hstage Hrec) as (Hpne & Hplt & Hsne & Hslt).
  destruct (replacementNodes_lookup (Some sa) (packerMembers cs t) (sa + 1) 0 idx member Hidx)
    as [Hconst Hbin].
  rewrite N.add_0_l, (uint_small _ Hsmall) in Hconst.
  set (L := packerLinked cs t (rootOf lk) ids) in *.
  exists (ids + 1)%N, scope', (mkPool (replacedCells L M (packerUseSites cs t)) rm),
         (substFor L M (packerUseSites cs t) pa),
         (TType_block (packerMembers cs t) "Frame" NonSamplerUniformToStructTraverser.structQualifier).
  split; [exact Hrun|]. cbn [cells].
  assert (Hnew : forall k x,
            (packerStruct cs t ids
               :: replacementNodes (Some sa) (sa + 1) 0 (packerMembers cs t)) !! k = Some x ->
            replacedCells L M (packerUseSites cs t) !! (sa + k) = Some x).
  { intros k x Hk. apply replacedCells_other.
    - unfold L, sa. rewrite packerLinked_new by exact Hlt. exact Hk.
    - intros c Hin. apply Hparents in Hin. unfold sa in Hin. lia. }
  split; [rewrite <- (Nat.add_0_r sa) at 1; apply Hnew; reflexivity|].
  split; [reflexivity|].
  split; [|split; [|split]].
  - rewrite replacedCells_lookup. unfold L. rewrite packerLinked_old by assumption.
    fold L. rewrite Hpa. reflexivity.
  - unfold substFor. rewrite bool_decide_eq_true_2 by (apply list_elem_of_In; exact Hrec).
    unfold replacementFor, symbolAt, L. rewrite packerLinked_old by assumption. rewrite Hs.
    rewrite (Hfind idx member name Hidx Hname). simpl. f_equal. unfold sa. lia.
  - replace (Some (sa + 2 * idx + 1)) with (Some (sa + 1 + 2 * idx)) by (f_equal; lia).
    replace (sa + 2 * idx + 2) with (sa + S (2 * idx + 1)) by lia. apply Hnew.
    rewrite lookup_cons_S. exact Hbin.
  - replace (sa + 2 * idx + 1) with (sa + S (2 * idx)) by lia. apply Hnew.
    rewrite lookup_cons_S. exact Hconst.
Qed.

Lemma packer_access_expression_witness :
  exists member ids' scope' h' f stype,
    fieldName member = Some "b"
    /\ NonSamplerUniformToStructTraverser.Traverse 5 (Some 0) 100%N emptyScope packPool
         = Ok (ids', scope', h')
    /\ cells h' !! 7 = Some (TIntermSymbol 100 "anon@0" stype)
    /\ (structure stype ≫= (.!! 1)) = Some member
    /\ cells h' !! 1 =
         Some (mapChildren f (TIntermBinary EOpAdd (Some 3) (Some 4) (exampleFloat EvqTemporary 1)))
    /\ f (Some 3) = Some 11
    /\ cells h' !! 11 = Some (TIntermBinary EOpIndexDirectStruct (Some 7) (Some 10) member)
    /\ cells h' !! 10 = Some (TIntermConstantUnion 1 (TType_basic EbtUint EvqConst)).
Proof.
  destruct (packerMembers (cells packPool) (Node 0 (packBody ++ [packLinker])) !! 1)
    as [member|] eqn:Hm; [|vm_compute in Hm; discriminate].
  assert (Hname : fieldName member = Some "b")
    by (vm_compute in Hm; injection Hm as <-; reflexivity).
  destruct (packer_access_expression 5 packPool 0 packBody packLinker 100%N emptyScope 1 member
              "b" 3 1 10%N (exampleFloat EvqUniform 1)
              (TIntermBinary EOpAdd (Some 3) (Some 4) (exampleFloat EvqTemporary 1)) packPool_stage)
    as (ids' & scope' & h' & f & stype & Hrun & Hstruct & Hfields & Hparent & Hf & Hbin & Hconst);
    try reflexivity; try exact Hm; try exact Hname; try exact packPool_editable;
    try (simpl; lia); try (vm_compute; left; reflexivity).
  exists member, ids', scope', h', f, stype.
  rewrite Hfields. simpl. repeat split; assumption.
Defined.

(** ** The derivative sign inverter *)

Lemma flat_map_sublist {A B} (f g : A -> list B) l :
  Forall (fun x => f x `sublist_of` g x) l -> flat_map f l `sublist_of` flat_map g l.
Proof.
  induction 1 as [|x l Hx _ IH]; [constructor|]. simpl. apply sublist_app; assumption.
Qed.

Lemma flat_map_ext_Forall {A B} (f g : A -> list B) l :
  Forall (fun x => f x = g x) l -> flat_map f l = flat_map g l.
Proof. induction 1 as [|x l Hx _ IH]; [reflexivity|]. simpl. rewrite Hx, IH. reflexivity. Qed.

Lemma outerDPdy_sublist cs : forall t, outerDPdy cs t `sublist_of` addresses t.
Proof.
  induction t as [a kids IH] using tree_ind'. simpl.
  assert (Hflat : flat_map (outerDPdy cs) kids `sublist_of` a :: flat_map addresses kids)
    by (apply sublist_cons, flat_map_sublist, IH).
  destruct (cs !! a) as [[| | | |op operand type| | | |]|]; try exact Hflat.
  destruct (InvertYDerivativeOperandsTraverser.isDPdy op); [|exact Hflat].
  apply sublist_skip, sublist_nil_l.
Qed.

Lemma shape_addresses cs : forall t a, shape cs t -> In a (addresses t) -> a < length cs.
Proof.
  induction t as [r kids IH] using tree_ind'. intros a Hshape Hin.
  apply shape_inv in Hshape as (n & Hr & _ & Hshapes).
  destruct Hin as [<-|Hin]; [eapply lookup_lt_Some; exact Hr|].
  apply in_flat_map in Hin as (k & Hk & Hin). apply list_elem_of_In in Hk.
  rewrite Forall_forall in IH, Hshapes. exact (IH k Hk a (Hshapes k Hk) Hin).
Qed.

Lemma shape_ext cs cs' :
  forall t, (forall a, In a (addresses t) -> cs' !! a = cs !! a) -> shape cs t -> shape cs' t.
Proof.
  induction t as [r kids IH] using tree_ind'. intros Hsame Hshape.
  apply shape_inv in Hshape as (n & Hr & Hkids & Hshapes).
  apply (shape_Node cs' r n kids); [rewrite Hsame; [exact Hr|left; reflexivity]|exact Hkids|].
  rewrite Forall_forall in IH, Hshapes. apply Forall_forall. intros k Hk.
  apply IH; [exact Hk| |apply Hshapes, Hk].
  intros a Ha. apply Hsame. right. apply in_flat_map. exists k.
  split; [apply list_elem_of_In, Hk|exact Ha].
Qed.

Lemma outerDPdy_ext cs cs' :
  forall t, (forall a, In a (addresses t) -> cs' !! a = cs !! a) ->
            outerDPdy cs' t = outerDPdy cs t.
Proof.
  induction t as [r kids IH] using tree_ind'. intros Hsame. simpl.
  rewrite (Hsame r) by (left; reflexivity).
  assert (Hflat : flat_map (outerDPdy cs') kids = flat_map (outerDPdy cs) kids).
  { apply flat_map_ext_Forall. rewrite Forall_forall in IH. apply Forall_forall. intros k Hk.
    apply IH; [exact Hk|]. intros a Ha. apply Hsame. right. apply in_flat_map. exists k.
    split; [apply list_elem_of_In, Hk|exact Ha]. }
  rewrite Hflat. reflexivity.
Qed.

Lemma wrapOperand_length cs a : length cs <= length (wrapOperand cs a).
Proof.
  unfold wrapOperand. destruct (cs !! a) as [[| | | |op operand type| | | |]|]; try lia.
  rewrite length_insert, length_app. simpl. lia.
Qed.

Lemma wrapOperand_other cs u a :
  a <> u -> a < length cs -> wrapOperand cs u !! a = cs !! a.
Proof.
  intros Hne Hlt. unfold wrapOperand.
  destruct (cs !! u) as [[| | | |op operand type| | | |]|]; try reflexivity.
  rewrite list_lookup_insert_ne by (intros E; apply Hne; symmetry; exact E).
  apply lookup_app_l. exact Hlt.
Qed.

Lemma wrapAll_length us : forall cs, length cs <= length (wrapAll cs us).
Proof.
  induction us as [|u us IH]; intros cs; [constructor|]. simpl.
  etransitivity; [apply (wrapOperand_length cs u)|apply IH].
Qed.

Lemma wrapAll_other us :
  forall cs a, ~ In a us -> a < length cs -> wrapAll cs us !! a = cs !! a.
Proof.
  induction us as [|u us IH]; intros cs a Hnot Hlt; [reflexivity|]. simpl.
  rewrite IH.
  - apply wrapOperand_other; [intros ->; apply Hnot; left; reflexivity|exact Hlt].
  - intros Hin. apply Hnot. right. exact Hin.
  - pose proof (wrapOperand_length cs u). lia.
Qed.

Lemma inverter_visitUnary_other a op operand type st h :
  cells h !! a = Some (TIntermUnary op operand type) ->
  InvertYDerivativeOperandsTraverser.isDPdy op = false ->
  InvertYDerivativeOperandsTraverser.visitUnary (Some a) st h = Ok ((true, st), h).
Proof.
  intros Ha Hop. unfold InvertYDerivativeOperandsTraverser.visitUnary.
  rewrite (bind_of_Ok _ _ _ _ _ (deref_of_lookup _ _ _ Ha)). rewrite Hop. reflexivity.
Qed.

Lemma inverter_visitUnary_wrap a op c nc type st h :
  cells h !! a = Some (TIntermUnary op (Some c) type) ->
  cells h !! c = Some nc ->
  InvertYDerivativeOperandsTraverser.isDPdy op = true ->
  InvertYDerivativeOperandsTraverser.visitUnary (Some a) st h =
    Ok ((false, st), mkPool (wrapOperand (cells h) a) (removed h)).
Proof.
  intros Ha Hc Hop. unfold InvertYDerivativeOperandsTraverser.visitUnary.
  rewrite (bind_of_Ok _ _ _ _ _ (deref_of_lookup _ _ _ Ha)). rewrite Hop.
  unfold addUnaryNode.
  rewrite (bind_of_Ok _ _ _ _ _ (bind_of_Ok _ _ _ _ _ (deref_of_lookup _ _ _ Hc))).
  unfold bind, alloc, store. cbn [cells removed].
  destruct (decide (a < length (cells h ++
              [TIntermUnary EOpNegative (Some c) (TType_basic EbtFloat EvqTemporary)])))
    as [_|Hge].
  - unfold wrapOperand. rewrite Ha. reflexivity.
  - exfalso. apply Hge. rewrite length_app. apply lookup_lt_Some in Ha. lia.
Qed.

(** The visitor edits secondary-axis derivative nodes only. *)
Lemma inverter_visitUnary_frame a n u st h b st' h' :
  cells h !! a = Some n -> isDerivative n = false ->
  InvertYDerivativeOperandsTraverser.visitUnary u st h = Ok ((b, st'), h') ->
  cells h' !! a = Some n.
Proof.
  intros Ha Hn Hrun. unfold InvertYDerivativeOperandsTraverser.visitUnary in Hrun.
  apply bind_Ok in Hrun as (x & h0 & Hd & Hrun).
  apply deref_Ok in Hd as (ua & -> & Hu & ->).
  destruct x as [| | | |op operand type| | | |]; try discriminate.
  destruct (InvertYDerivativeOperandsTraverser.isDPdy op) eqn:Hop;
    [|injection Hrun as _ _ <-; exact Ha].
  apply bind_Ok in Hrun as (negation & h1 & Hadd & Hrun).
  unfold addUnaryNode in Hadd. apply bind_Ok in Hadd as (x & h0 & Hd & Hadd).
  apply deref_Ok in Hd as (_ & _ & _ & ->). injection Hadd as <- <-.
  apply bind_Ok in Hrun as ([] & h2 & Hst & Hrun). injection Hrun as _ _ <-.
  apply store_Ok in Hst as (ua' & [= <-] & _ & ->). cbn [cells].
  assert (Hne : ua <> a).
  { intros ->. rewrite Ha in Hu. injection Hu as ->. simpl in Hn. congruence. }
  rewrite list_lookup_insert_ne by exact Hne.
  apply lookup_app_l_Some. exact Ha.
Qed.

Lemma inverter_traverse_frame a n fuel path node st h st' h' :
  cells h !! a = Some n -> isDerivative n = false ->
  traverse InvertYDerivativeOperandsTraverser.traverser fuel path node st h = Ok (st', h') ->
  cells h' !! a = Some n.
Proof.
  intros Ha Hn.
  apply (traverse_inv InvertYDerivativeOperandsTraverser.traverser
           (fun _ h0 => cells h0 !! a = Some n)); [| |exact Ha].
  - intros p s st0 h0 st1 h1 HP Hv. injection Hv as _ <-. exact HP.
  - intros u st0 h0 b st1 h1 HP Hv. exact (inverter_visitUnary_frame a n u st0 h0 b st1 h1 HP Hn Hv).
Qed.

Lemma inverter_kids fuel path :
  forall kids h,
    Forall (fun k => forall h, shape (cells h) k -> NoDup (addresses k) ->
              traverse InvertYDerivativeOperandsTraverser.traverser fuel path (Some (rootOf k)) tt h =
                Ok (tt, mkPool (wrapAll (cells h) (outerDPdy (cells h) k)) (removed h))) kids ->
    Forall (shape (cells h)) kids ->
    NoDup (flat_map addresses kids) ->
    traverseKids (traverse InvertYDerivativeOperandsTraverser.traverser fuel) path
        (map rootOf kids) tt h =
      Ok (tt, mkPool (wrapAll (cells h) (flat_map (outerDPdy (cells h)) kids)) (removed h)).
Proof.
  induction kids as [|k kids IH]; intros h Hall Hshapes Hnd.
  - destruct h. reflexivity.
  - apply Forall_cons in Hall as [Hk Hall]. apply Forall_cons in Hshapes as [Hshape Hshapes].
    simpl in Hnd. apply NoDup_app in Hnd as (Hndk & Hdisj & Hndl).
    cbn [map traverseKids flat_map]. rewrite (bind_of_Ok _ _ _ _ _ (Hk h Hshape Hndk)).
    set (h1 := mkPool (wrapAll (cells h) (outerDPdy (cells h) k)) (removed h)).
    assert (Hsame : forall k', k' ∈ kids -> forall a, In a (addresses k') ->
                      cells h1 !! a = cells h !! a).
    { intros k' Hk' a Ha. unfold h1. cbn [cells]. apply wrapAll_other.
      - intros Hin. apply (Hdisj a).
        + eapply elem_of_sublist; [apply list_elem_of_In, Hin|apply outerDPdy_sublist].
        + apply list_elem_of_In, in_flat_map. exists k'. split; [apply list_elem_of_In, Hk'|exact Ha].
      - rewrite Forall_forall in Hshapes. exact (shape_addresses _ k' a (Hshapes k' Hk') Ha). }
    rewrite (IH h1 Hall).
    + rewrite (flat_map_ext_Forall (outerDPdy (cells h1)) (outerDPdy (cells h))).
      * unfold h1, wrapAll. cbn [cells removed]. rewrite fold_left_app. reflexivity.
      * apply Forall_forall. intros k' Hk'. apply outerDPdy_ext. apply Hsame, Hk'.
    + rewrite Forall_forall in Hshapes. apply Forall_forall. intros k' Hk'.
      apply (shape_ext (cells h)); [apply Hsame, Hk'|apply Hshapes, Hk'].
    + exact Hndl.
Qed.

(** The traversal of the inverter over a tree wraps the operand of each
    derivative it reaches, in traversal order. *)
Theorem inverter_traverse_tree :
  forall t fuel path h,
    shape (cells h) t -> NoDup (addresses t) -> height t <= fuel ->
    traverse InvertYDerivativeOperandsTraverser.traverser fuel path (Some (rootOf t)) tt h =
      Ok (tt, mkPool (wrapAll (cells h) (outerDPdy (cells h) t)) (removed h)).
Proof.
  induction t as [a kids IH] using tree_ind'. intros fuel path h Hshape Hnd Hfuel.
  pose proof Hshape as Hshape0.
  apply shape_inv in Hshape as (n & Ha & Hkids & Hshapes).
  destruct fuel as [|fuel]; [simpl in Hfuel; lia|].
  simpl in Hnd. apply NoDup_cons in Hnd as [Hfresh Hnd].
  assert (Hdown : isDerivative n = false ->
            traverseSlots (traverse InvertYDerivativeOperandsTraverser.traverser fuel) path
                (Some a) (childSlots n) tt h =
              Ok (tt, mkPool (wrapAll (cells h) (flat_map (outerDPdy (cells h)) kids)) (removed h))).
  { intros Hn.
    rewrite (traverseSlots_kids _ path a n (childSlots n) (map rootOf kids) tt h Ha Hkids).
    2:{ intros k st0 h0 st1 h1 _ Ha0 Hk. exact (inverter_traverse_frame _ _ _ _ _ _ _ _ _ Ha0 Hn Hk). }
    apply inverter_kids; [|exact Hshapes|exact Hnd].
    rewrite Forall_forall in IH. apply Forall_forall. intros k Hk h0 Hs0 Hnd0.
    apply IH; [exact Hk|exact Hs0|exact Hnd0|].
    eapply height_kid; [apply list_elem_of_In, Hk|exact Hfuel]. }
  cbn [traverse rootOf outerDPdy]. rewrite (bind_of_Ok _ _ _ _ _ (deref_of_lookup _ _ _ Ha)).
  rewrite Ha.
  destruct n as [id name type| | | |op operand type| | | |]; try (apply Hdown; reflexivity).
  destruct (InvertYDerivativeOperandsTraverser.isDPdy op) eqn:Hop.
  - destruct kids as [|k kids]; [unfold kidsOf in Hkids; simpl in Hkids;
                                   destruct operand; discriminate|].
    pose proof (kidsOf_unary op operand type _ (rootOf k) Hkids (or_introl eq_refl)) as ->.
    apply Forall_cons in Hshapes as [Hk _]. destruct k as [c kk].
    apply shape_inv in Hk as (nc & Hc & _).
    cbn [visitUnary InvertYDerivativeOperandsTraverser.traverser].
    rewrite (bind_of_Ok _ _ _ _ _ (inverter_visitUnary_wrap a op c nc type tt h Ha Hc Hop)).
    reflexivity.
  - cbn [visitUnary InvertYDerivativeOperandsTraverser.traverser].
    rewrite (bind_of_Ok _ _ _ _ _ (inverter_visitUnary_other a op operand type tt h Ha Hop)).
    apply Hdown. exact Hop.
Qed.

Lemma wrapOperand_unary cs a op operand type :
  cs !! a = Some (TIntermUnary op operand type) ->
  wrapOperand cs a !! a = Some (TIntermUnary op (Some (length cs)) type)
  /\ wrapOperand cs a !! length cs =
       Some (TIntermUnary EOpNegative operand (TType_basic EbtFloat EvqTemporary))
  /\ length (wrapOperand cs a) = S (length cs).
Proof.
  intros Ha. unfold wrapOperand. rewrite Ha. pose proof (lookup_lt_Some _ _ _ Ha) as Hlt.
  split; [|split].
  - apply list_lookup_insert_eq. rewrite length_app. lia.
  - rewrite list_lookup_insert_ne by lia. rewrite lookup_app_r by lia.
    rewrite Nat.sub_diag. reflexivity.
  - rewrite length_insert, length_app. simpl. lia.
Qed.

(** What wrapping the operands of distinct unary nodes leaves in the cells:
    the [i]-th node gets the [i]-th new cell, a negation of its operand. *)
Lemma wrapAll_spec us :
  forall cs,
    NoDup us ->
    Forall (fun a => exists op operand type, cs !! a = Some (TIntermUnary op operand type)) us ->
    length (wrapAll cs us) = length cs + length us
    /\ forall i a op operand type,
         us !! i = Some a -> cs !! a = Some (TIntermUnary op operand type) ->
         wrapAll cs us !! a = Some (TIntermUnary op (Some (length cs + i)) type)
         /\ wrapAll cs us !! (length cs + i) =
              Some (TIntermUnary EOpNegative operand (TType_basic EbtFloat EvqTemporary)).
Proof.
  induction us as [|u us IH]; intros cs Hnd Hall.
  - split; [simpl; lia|]. intros i a op operand type Hi. rewrite lookup_nil in Hi. discriminate.
  - apply NoDup_cons in Hnd as [Hu Hnd]. apply Forall_cons in Hall as [(op0 & operand0 & type0 & Hu0) Hall].
    destruct (wrapOperand_unary cs u op0 operand0 type0 Hu0) as (Hself & Hneg & Hlen).
    assert (Hall1 : Forall (fun a => exists op operand type,
                       wrapOperand cs u !! a = Some (TIntermUnary op operand type)) us).
    { rewrite Forall_forall in Hall. apply Forall_forall. intros a Ha.
      destruct (Hall a Ha) as (op & operand & type & Hcell). exists op, operand, type.
      rewrite wrapOperand_other; [exact Hcell|intros ->; exact (Hu Ha)|].
      eapply lookup_lt_Some; exact Hcell. }
    destruct (IH (wrapOperand cs u) Hnd Hall1) as [Hlen1 Hcells]. cbn [wrapAll fold_left].
    fold (wrapAll (wrapOperand cs u) us).
    split; [rewrite Hlen1, Hlen; simpl; lia|].
    assert (Hbelow : forall a, In a us -> a < length cs).
    { intros a Ha. rewrite Forall_forall in Hall.
      destruct (Hall a (proj2 (list_elem_of_In _ _) Ha)) as (? & ? & ? & Hcell).
      eapply lookup_lt_Some; exact Hcell. }
    intros i a op operand type Hi Ha. destruct i as [|i].
    + injection Hi as <-. rewrite Hu0 in Ha. injection Ha as <- <- <-.
      rewrite Nat.add_0_r. split.
      * rewrite wrapAll_other; [exact Hself|intros Hin; apply Hu, list_elem_of_In, Hin|].
        rewrite Hlen. apply lookup_lt_Some in Hu0. lia.
      * rewrite wrapAll_other; [exact Hneg|intros Hin; apply Hbelow in Hin; lia|lia].
    + simpl in Hi.
      assert (Hne : a <> u).
      { intros ->. apply Hu. eapply list_elem_of_lookup_2. exact Hi. }
      destruct (Hcells i a op operand type Hi) as [H1 H2].
      { rewrite wrapOperand_other; [exact Ha|exact Hne|eapply lookup_lt_Some; exact Ha]. }
      rewrite Hlen in H1, H2. replace (length cs + S i) with (S (length cs) + i) by lia.
      split; assumption.
Qed.

Lemma outerDPdy_unary cs :
  forall t, shape cs t ->
    Forall (fun a => exists op operand type,
              cs !! a = Some (TIntermUnary op operand type)
              /\ InvertYDerivativeOperandsTraverser.isDPdy op = true) (outerDPdy cs t).
Proof.
  induction t as [a kids IH] using tree_ind'. intros Hshape.
  apply shape_inv in Hshape as (n & Ha & _ & Hshapes). simpl. rewrite Ha.
  assert (Hflat : Forall (fun a => exists op operand type,
                     cs !! a = Some (TIntermUnary op operand type)
                     /\ InvertYDerivativeOperandsTraverser.isDPdy op = true)
                    (flat_map (outerDPdy cs) kids)).
  { apply Forall_forall. intros x Hx. apply list_elem_of_In, in_flat_map in Hx as (k & Hk & Hx).
    apply list_elem_of_In in Hk. rewrite Forall_forall in IH, Hshapes.
    pose proof (IH k Hk (Hshapes k Hk)) as Hall. rewrite Forall_forall in Hall.
    apply Hall, list_elem_of_In, Hx. }
  destruct n as [| | | |op operand type| | | |]; try exact Hflat.
  destruct (InvertYDerivativeOperandsTraverser.isDPdy op) eqn:Hop; [|exact Hflat].
  constructor; [|constructor]. exists op, operand, type. auto.
Qed.

(** C7 as the code has it: the traversal stops at a derivative node, so the
    derivative inside the operand of another one keeps its operand and the
    run leaves one negation for two derivative nodes. *)
Lemma inverter_skips_nested_derivative :
  shape (cells nestedPool) nestedTree
  /\ exists h',
       InvertYDerivativeOperandsTraverser.Traverse 4 (Some 0) nestedPool = Ok (tt, h')
       /\ cells nestedPool !! 2 =
            Some (TIntermUnary EOpDPdy (Some 3) (TType_basic EbtFloat EvqTemporary))
       /\ cells h' !! 2 =
            Some (TIntermUnary EOpDPdy (Some 3) (TType_basic EbtFloat EvqTemporary))
       /\ cells h' !! 3 = Some (TIntermSymbol 5 "x" (TType_basic EbtFloat EvqTemporary))
       /\ length (filter (fun n => isDerivative n = true) (cells nestedPool)) = 2
       /\ length (filter (fun n => isNegation n = true) (cells h')) = 1.
Proof.
  split; [repeat (econstructor; try reflexivity)|].
  eexists. split; [vm_compute; reflexivity|]. repeat split.
Qed.

(** C7, amended: one run of the inverter over a tree-shaped fragment stage
    completes and wraps the operand of every secondary-axis derivative node
    (standard, fine or coarse) that does not lie inside the operand of
    another one in exactly one new negation: the [i]-th such node gets the
    [i]-th new cell as its operand, that cell negates the old operand, there
    are no other new cells, and every other cell - the derivatives nested
    inside an operand included - is left as it was. *)
Theorem inverter_wraps_reached_derivatives t fuel h :
  let cs := cells h in
  shape cs t -> NoDup (addresses t) -> height t <= fuel ->
  exists h',
    InvertYDerivativeOperandsTraverser.Traverse fuel (Some (rootOf t)) h = Ok (tt, h')
    /\ length (cells h') = length cs + length (outerDPdy cs t)
    /\ (forall i a, outerDPdy cs t !! i = Some a ->
          exists op operand type,
            cs !! a = Some (TIntermUnary op operand type)
            /\ InvertYDerivativeOperandsTraverser.isDPdy op = true
            /\ cells h' !! a = Some (TIntermUnary op (Some (length cs + i)) type)
            /\ cells h' !! (length cs + i) =
                 Some (TIntermUnary EOpNegative operand (TType_basic EbtFloat EvqTemporary)))
    /\ (forall a, a < length cs -> ~ In a (outerDPdy cs t) -> cells h' !! a = cs !! a).
Proof.
  intros cs Hshape Hnd Hfuel.
  exists (mkPool (wrapAll cs (outerDPdy cs t)) (removed h)).
  split; [exact (inverter_traverse_tree t fuel [] h Hshape Hnd Hfuel)|]. cbn [cells].
  pose proof (outerDPdy_unary cs t Hshape) as Hunary.
  assert (Hndo : NoDup (outerDPdy cs t))
    by (eapply sublist_NoDup; [exact Hnd|apply outerDPdy_sublist]).
  destruct (wrapAll_spec (outerDPdy cs t) cs Hndo) as [Hlen Hcells].
  { eapply Forall_impl; [exact Hunary|]. intros a (op & operand & type & Ha & _). eauto. }
  split; [exact Hlen|]. split.
  - intros i a Hi. rewrite Forall_forall in Hunary.
    destruct (Hunary a (list_elem_of_lookup_2 _ _ _ Hi)) as (op & operand & type & Ha & Hop).
    exists op, operand, type. destruct (Hcells i a op operand type Hi Ha) as [H1 H2]. auto.
  - intros a Hlt Hnot. apply wrapAll_other; assumption.
Qed.

Lemma inverter_wraps_reached_derivatives_witness :
  exists h',
    InvertYDerivativeOperandsTraverser.Traverse 4 (Some 0) nestedPool = Ok (tt, h')
    /\ length (cells h') = 5
    /\ cells h' !! 1 = Some (TIntermUnary EOpDPdy (Some 4) (TType_basic EbtFloat EvqTemporary))
    /\ cells h' !! 4 = Some (TIntermUnary EOpNegative (Some 2) (TType_basic EbtFloat EvqTemporary))
    /\ cells h' !! 2 = cells nestedPool !! 2.
Proof.
  destruct (inverter_wraps_reached_derivatives nestedTree 4 nestedPool)
    as (h' & Hrun & Hlen & Hwrapped & Hrest).
  - repeat (econstructor; try reflexivity).
  - apply (bool_decide_unpack _). vm_compute. exact I.
  - simpl. lia.
  - exists h'. split; [exact Hrun|]. split; [exact Hlen|].
    destruct (Hwrapped 0 1 eq_refl) as (op & operand & type & Ha & _ & H1 & H2).
    injection Ha as <- <- <-.
    split; [exact H1|]. split; [exact H2|].
    apply Hrest; [simpl; lia|]. simpl. intros [E|[]]. discriminate.
Defined.

(** ** The sampler splitter *)

Lemma symbolTypeAt_app cs new b :
  symbolNamed cs b -> symbolTypeAt (cs ++ new) (snd b) = symbolTypeAt cs (snd b).
Proof.
  intros (a & id & type & -> & Ha). unfold symbolTypeAt.
  rewrite (lookup_app_l_Some _ _ _ _ Ha), Ha. reflexivity.
Qed.

Lemma replacerNodes_app cs new :
  forall samplers base lb ids,
    Forall (symbolNamed cs) samplers ->
    replacerNodes (cs ++ new) base lb ids samplers = replacerNodes cs base lb ids samplers.
Proof.
  induction samplers as [|[name symbol] samplers IH]; intros base lb ids Hall; [reflexivity|].
  apply Forall_cons in Hall as [Hb Hall]. cbn [replacerNodes].
  pose proof (symbolTypeAt_app cs new (name, symbol) Hb) as Hty. cbn [snd] in Hty. rewrite Hty.
  destruct (symbolTypeAt cs symbol); [|reflexivity]. rewrite IH by exact Hall. reflexivity.
Qed.

Lemma createReplacers_spec :
  forall samplers ls h,
    Forall (symbolNamed (cells h)) samplers ->
    SamplerSplitterTraverser.createReplacers samplers ls h =
      Ok (SamplerSplitterTraverser.mkLoop
            (slotAfter (length samplers) (SamplerSplitterTraverser.layoutBinding ls))
            (SamplerSplitterTraverser.ids ls + 2 * N.of_nat (length samplers))%N
            (fst (replacerMaps (length (cells h)) samplers
                    (SamplerSplitterTraverser.nameToReplacement ls)
                    (SamplerSplitterTraverser.nameToNewTextureAndSampler ls)))
            (snd (replacerMaps (length (cells h)) samplers
                    (SamplerSplitterTraverser.nameToReplacement ls)
                    (SamplerSplitterTraverser.nameToNewTextureAndSampler ls))),
          mkPool (cells h ++ replacerNodes (cells h) (length (cells h))
                               (SamplerSplitterTraverser.layoutBinding ls)
                               (SamplerSplitterTraverser.ids ls) samplers)
                 (removed h)).
Proof.
  induction samplers as [|[name symbol] samplers IH]; intros ls h Hall.
  - destruct ls, h. simpl. rewrite N.add_0_r, app_nil_r. reflexivity.
  - apply Forall_cons in Hall as [Hb Hall]. pose proof Hb as (a & id & type & Hsym & Ha).
    simpl in Hsym. subst symbol. cbn [SamplerSplitterTraverser.createReplacers].
    rewrite (bind_of_Ok _ _ _ _ _ (getSymbolType_of_lookup _ _ _ _ _ Ha)).
    unfold Next, addSymbol, growAggregate. unfold bind at 1. unfold alloc at 1.
    unfold bind at 1. unfold alloc at 1. unfold bind at 1. unfold alloc at 1.
    cbn [cells removed].
    match goal with
    | |- SamplerSplitterTraverser.createReplacers samplers ?ls1 ?h1 = _ =>
        rewrite (IH ls1 h1)
    end.
    + cbn [cells removed SamplerSplitterTraverser.layoutBinding SamplerSplitterTraverser.ids
           SamplerSplitterTraverser.nameToReplacement
           SamplerSplitterTraverser.nameToNewTextureAndSampler
           replacerNodes replacerMaps slotAfter length symbolTypeAt].
      rewrite Ha. rewrite !length_app. cbn [length].
      rewrite <- !app_assoc. cbn [app].
      rewrite (replacerNodes_app (cells h) _ samplers _ _ _ Hall).
      replace (length (cells h) + 1 + 1 + 1) with (length (cells h) + 3) by lia.
      replace (length (cells h) + 1 + 1) with (length (cells h) + 2) by lia.
      replace (SamplerSplitterTraverser.ids ls + 1 + 1)%N
        with (SamplerSplitterTraverser.ids ls + 2)%N by lia.
      replace (SamplerSplitterTraverser.ids ls + 2 + 2 * N.of_nat (length samplers))%N
        with (SamplerSplitterTraverser.ids ls + 2 * N.of_nat (S (length samplers)))%N by lia.
      reflexivity.
    + cbn [cells]. eapply Forall_impl; [exact Hall|].
      intros b (a0 & id0 & type0 & Hs0 & Ha0). exists a0, id0, type0.
      split; [exact Hs0|]. rewrite <- !app_assoc. apply lookup_app_l_Some. exact Ha0.
Qed.

Lemma slotAfter_uint k : forall lb, slotAfter k (uint lb) = uint (lb + N.of_nat k).
Proof.
  induction k as [|k IH]; intros lb.
  - simpl. rewrite N.add_0_r. reflexivity.
  - cbn [slotAfter]. rewrite uint_add_l, IH. f_equal. lia.
Qed.

Lemma replacerNodes_length cs :
  forall samplers base lb ids,
    Forall (symbolNamed cs) samplers ->
    length (replacerNodes cs base lb ids samplers) = 3 * length samplers.
Proof.
  induction samplers as [|[name symbol] samplers IH]; intros base lb ids Hall; [reflexivity|].
  apply Forall_cons in Hall as [(a & id & type & Hs & Ha) Hall]. simpl in Hs, Ha. subst symbol.
  cbn [replacerNodes symbolTypeAt]. rewrite Ha. cbn [length]. rewrite IH by exact Hall. lia.
Qed.

Lemma replacerNodes_lookup cs :
  forall samplers base lb ids k name symbol type,
    Forall (symbolNamed cs) samplers ->
    samplers !! k = Some (name, symbol) ->
    symbolTypeAt cs symbol = Some type ->
    replacerNodes cs base lb ids samplers !! (3 * k) =
      Some (TIntermSymbol (ids + 2 * N.of_nat k)%N (name ++ "Texture")%string
              (SamplerSplitterTraverser.textureType type (slotAfter k lb)))
    /\ replacerNodes cs base lb ids samplers !! (3 * k + 1) =
         Some (TIntermSymbol (ids + 2 * N.of_nat k + 1)%N name
                 (SamplerSplitterTraverser.samplerType type (slotAfter k lb)))
    /\ replacerNodes cs base lb ids samplers !! (3 * k + 2) =
         Some (TIntermAggregate EOpConstructTextureSampler
                 [Some (base + 3 * k); Some (base + 3 * k + 1)]
                 (SamplerSplitterTraverser.aggregateType type)).
Proof.
  induction samplers as [|[name0 symbol0] samplers IH];
    intros base lb ids k name symbol type Hall Hk Hty.
  - rewrite lookup_nil in Hk. discriminate.
  - apply Forall_cons in Hall as [(a & id & type0 & Hs & Ha) Hall]. simpl in Hs, Ha.
    subst symbol0. cbn [replacerNodes symbolTypeAt]. rewrite Ha.
    destruct k as [|k].
    + injection Hk as <- <-. cbn [symbolTypeAt] in Hty. rewrite Ha in Hty. injection Hty as <-.
      simpl. rewrite N.add_0_r, !Nat.add_0_r. repeat split; reflexivity.
    + simpl in Hk.
      destruct (IH (base + 3) (uint (lb + 1)) (ids + 2)%N k name symbol type Hall Hk Hty)
        as (H1 & H2 & H3).
      replace (3 * S k) with (S (S (S (3 * k)))) by lia. cbn [Nat.add].
      rewrite !lookup_cons_S. cbn [slotAfter].
      replace (ids + 2 * N.of_nat (S k))%N with (ids + 2 + 2 * N.of_nat k)%N by lia.
      replace (base + S (S (S (3 * k)))) with (base + 3 + 3 * k) by lia.
      split; [exact H1|]. split; [exact H2|exact H3].
Qed.

Lemma replacerMaps_other :
  forall samplers base M P name,
    ~ In name (map fst samplers) ->
    StdMap.find name (fst (replacerMaps base samplers M P)) = StdMap.find name M
    /\ StdMap.find name (snd (replacerMaps base samplers M P)) = StdMap.find name P.
Proof.
  induction samplers as [|[name0 symbol0] samplers IH]; intros base M P name Hnin.
  - split; reflexivity.
  - cbn [replacerMaps]. destruct (IH (base + 3) (StdMap.insert name0 (Some (base + 2)) M)
                                    (StdMap.insert name0 (Some base, Some (base + 1)) P) name)
      as [H1 H2]; [intros Hin; apply Hnin; right; exact Hin|].
    assert (Hne : name0 <> name) by (intros ->; apply Hnin; left; reflexivity).
    rewrite H1, H2. split; apply StdMap_find_insert_ne; exact Hne.
Qed.

Lemma replacerMaps_find :
  forall samplers base M P k name symbol,
    NoDup (map fst samplers) ->
    samplers !! k = Some (name, symbol) ->
    StdMap.find name (fst (replacerMaps base samplers M P)) = Some (Some (base + 3 * k + 2))
    /\ StdMap.find name (snd (replacerMaps base samplers M P)) =
         Some (Some (base + 3 * k), Some (base + 3 * k + 1)).
Proof.
  induction samplers as [|[name0 symbol0] samplers IH]; intros base M P k name symbol Hnd Hk.
  - rewrite lookup_nil in Hk. discriminate.
  - simpl in Hnd. apply NoDup_cons in Hnd as [Hnin Hnd]. cbn [replacerMaps].
    destruct k as [|k].
    + injection Hk as <- <-.
      destruct (replacerMaps_other samplers (base + 3)
                  (StdMap.insert name0 (Some (base + 2)) M)
                  (StdMap.insert name0 (Some base, Some (base + 1)) P) name0) as [H1 H2].
      { intros Hin. apply Hnin, list_elem_of_In, Hin. }
      rewrite H1, H2, !StdMap_find_insert_eq, !Nat.add_0_r. split; reflexivity.
    + simpl in Hk.
      destruct (IH (base + 3) (StdMap.insert name0 (Some (base + 2)) M)
                  (StdMap.insert name0 (Some base, Some (base + 1)) P) k name symbol Hnd Hk)
        as [H1 H2].
      rewrite H1, H2. replace (base + 3 + 3 * k) with (base + 3 * S k) by lia.
      split; reflexivity.
Qed.

Lemma insertAt_middle {A} (pre post : list A) x y z :
  SamplerSplitterTraverser.insertAt (length pre + 1) z (<[length pre := y]> (pre ++ x :: post)) =
    pre ++ y :: z :: post.
Proof.
  unfold SamplerSplitterTraverser.insertAt.
  rewrite insert_app_r_alt by lia. rewrite Nat.sub_diag. simpl.
  rewrite take_app_ge, drop_app_ge by lia.
  replace (length pre + 1 - length pre) with 1 by lia. simpl.
  rewrite take_0, drop_0, <- app_assoc. reflexivity.
Qed.

Lemma splitEntry_insert_aggregate cs pairs la op sequence type n' entry :
  cs !! la = Some (TIntermAggregate op sequence type) ->
  classOf n' = CAggregate ->
  splitEntry (<[la := n']> cs) pairs entry = splitEntry cs pairs entry.
Proof.
  intros Hla Hc. unfold splitEntry. destruct entry as [a|]; [|reflexivity].
  destruct (decide (la = a)) as [<-|Hne].
  - rewrite list_lookup_insert_eq by (eapply lookup_lt_Some; exact Hla). rewrite Hla.
    destruct n'; try discriminate. reflexivity.
  - rewrite list_lookup_insert_ne by exact Hne. reflexivity.
Qed.

(** The backward loop of the splitter over the first [length pre] linker
    objects: every cached sampler gives way to its texture and its sampler
    symbol, in this order, and the other entries stay. *)
Lemma replaceLinkerObjects_spec (pairs : StdMap.t (ptr * ptr)) la op type :
  forall pre post h,
    cells h !! la = Some (TIntermAggregate op (pre ++ post) type) ->
    Forall (isLive (cells h)) pre ->
    exists rm,
      SamplerSplitterTraverser.replaceLinkerObjects (Some la) pairs
        (rev (seq 0 (length pre))) h =
        Ok (tt, mkPool
                  (<[la := TIntermAggregate op
                             (flat_map (splitEntry (cells h) pairs) pre ++ post) type]> (cells h))
                  rm).
Proof.
  induction pre as [|e pre IH] using rev_ind; intros post h Hla Hlive.
  - exists (removed h). simpl. unfold ret. rewrite list_insert_id by exact Hla.
    destruct h. reflexivity.
  - apply Forall_app in Hlive as [Hlive He]. apply Forall_cons in He as [(ea & en & -> & Hea) _].
    rewrite length_app. simpl length. rewrite Nat.add_1_r, seq_S, rev_app_distr. simpl.
    rewrite (bind_of_Ok _ _ _ _ _ (deref_of_lookup _ _ _ Hla)).
    rewrite <- app_assoc. simpl.
    rewrite lookup_app_r by lia. rewrite Nat.sub_diag. simpl.
    rewrite (bind_of_Ok _ _ _ _ _ (deref_of_lookup _ _ _ Hea)).
    rewrite <- app_assoc in Hla. simpl in Hla.
    rewrite flat_map_app. cbn [flat_map]. rewrite app_nil_r, <- app_assoc.
    assert (Hskip : splitEntry (cells h) pairs (Some ea) = [Some ea] ->
              exists rm,
                SamplerSplitterTraverser.replaceLinkerObjects (Some la) pairs
                  (rev (seq 0 (length pre))) h =
                Ok (tt, mkPool
                          (<[la := TIntermAggregate op
                               (flat_map (splitEntry (cells h) pairs) pre ++
                                splitEntry (cells h) pairs (Some ea) ++ post) type]> (cells h)) rm)).
    { intros Hsame. destruct (IH (Some ea :: post) h Hla Hlive) as (rm & Hrun).
      exists rm. rewrite Hrun, Hsame. reflexivity. }
    destruct en as [id name sty| | | | | | | |];
      try (apply Hskip; unfold splitEntry; rewrite Hea; reflexivity).
    destruct (StdMap.find name pairs) as [[newTexture newSampler]|] eqn:Hfind.
    2:{ apply Hskip. unfold splitEntry. rewrite Hea, Hfind. reflexivity. }
    rewrite (bind_of_Ok _ _ _ _ _ (RemoveAllTreeNodes_of_lookup _ _ _ Hea)).
    erewrite bind_of_Ok.
    2:{ apply (store_of_lookup la (mkPool (cells h) (ea :: removed h)) _ _ Hla). }
    cbn [cells removed]. rewrite insertAt_middle.
    destruct (IH (newTexture :: newSampler :: post)
                 (mkPool (<[la := TIntermAggregate op (pre ++ newTexture :: newSampler :: post) type]>
                            (cells h)) (ea :: removed h))) as (rm & Hrun).
    + simpl. apply list_lookup_insert_eq. eapply lookup_lt_Some. exact Hla.
    + simpl. eapply Forall_impl; [exact Hlive|]. intros p. apply isLive_insert.
    + exists rm. rewrite Hrun. cbn [cells]. rewrite list_insert_insert_eq.
      assert (Hmap :
        flat_map (splitEntry (<[la := TIntermAggregate op (pre ++ newTexture :: newSampler :: post)
                                        type]> (cells h)) pairs) pre =
        flat_map (splitEntry (cells h) pairs) pre).
      { apply flat_map_ext. intros x.
        apply (splitEntry_insert_aggregate (cells h) pairs la op _ type _ x Hla). reflexivity. }
      rewrite Hmap. unfold splitEntry at 3. rewrite Hea, Hfind. reflexivity.
Qed.

(** The records of a collecting traversal over a stage are still use sites
    once nodes have been appended and the linker-object aggregate rewritten,
    and no appended node is one of their symbols. *)
Lemma stage_records_ready cs r body lk candidate (L : list TIntermNode) (M : StdMap.t ptr) :
  let recs := useSitesOf cs candidate false (occurrences cs [] (Node r (body ++ [lk]))) in
  stage cs r body lk ->
  editable cs recs ->
  (forall a, a <> rootOf lk -> a < length cs -> L !! a = cs !! a) ->
  (forall name v, StdMap.find name M = Some v -> exists x, v = Some x /\ length cs <= x) ->
  Forall (useSite L) recs
  /\ NoDup (map fst recs)
  /\ (forall name v, StdMap.find name M = Some v -> v ∉ map fst recs).
Proof.
  intros recs Hstage Hedit Hsame HM.
  destruct (stage_root_sequence cs r body lk Hstage) as (rop & rtype & Hr).
  assert (Hroot : forall id name type,
            cs !! rootOf (Node r (body ++ [lk])) <> Some (TIntermSymbol id name type)).
  { intros id name type. simpl. rewrite Hr. discriminate. }
  destruct (tree_useSites cs candidate false _ (stage_shape _ _ _ _ Hstage)
              (stage_nodup _ _ _ _ Hstage) Hroot Hedit) as [Huse Hnd].
  fold recs in Huse, Hnd. split; [|split; [exact Hnd|]].
  - apply Forall_forall. intros rec Hrec. rewrite Forall_forall in Huse.
    apply (useSite_transfer cs); [apply Huse, Hrec|].
    intros s pa ->. apply list_elem_of_In in Hrec.
    destruct (stage_useSite cs r body lk candidate s pa Hstage Hrec) as (Hpne & Hplt & Hsne & Hslt).
    split; apply Hsame; assumption.
  - intros name v Hv Hin. destruct (HM name v Hv) as (x & -> & Hx).
    apply list_elem_of_In, in_map_iff in Hin as ([s pa] & Hfst & Hin). simpl in Hfst. subst s.
    rewrite Forall_forall in Huse.
    destruct (Huse _ (proj2 (list_elem_of_In _ _) Hin))
      as (s & pa' & id & nm & ty & n & ks & [= Hs1 _] & Hs & _).
    apply lookup_lt_Some in Hs. lia.
Qed.

Lemma splitterLinked_old cs t la ids a :
  a <> la -> a < length cs -> splitterLinked cs t la ids !! a = cs !! a.
Proof.
  intros Hne Hlt. unfold splitterLinked.
  destruct (cs !! la) as [[| |op sequence type| | | | | |]|];
    rewrite ?list_lookup_insert_ne by (intros E; apply Hne; symmetry; exact E);
    apply lookup_app_l; exact Hlt.
Qed.

Lemma splitterLinked_new cs t la ids k :
  la < length cs ->
  splitterLinked cs t la ids !! (length cs + k) =
    replacerNodes cs (length cs) 0 ids (splitterSamplers cs t) !! k.
Proof.
  intros Hlt. unfold splitterLinked.
  destruct (cs !! la) as [[| |op sequence type| | | | | |]|];
    rewrite ?list_lookup_insert_ne by lia;
    (rewrite lookup_app_r by lia); f_equal; lia.
Qed.

Lemma replacerMaps_values :
  forall samplers base M P name v,
    StdMap.find name (fst (replacerMaps base samplers M P)) = Some v ->
    StdMap.find name M = Some v \/ exists x, v = Some x /\ base <= x.
Proof.
  induction samplers as [|[name0 symbol0] samplers IH]; intros base M P name v Hv.
  - left. exact Hv.
  - cbn [replacerMaps] in Hv. apply IH in Hv as [Hv|(x & -> & Hx)].
    + destruct (String.string_dec name0 name) as [->|Hne].
      * rewrite StdMap_find_insert_eq in Hv. injection Hv as <-.
        right. exists (base + 2). split; [reflexivity|lia].
      * rewrite StdMap_find_insert_ne in Hv by exact Hne. left. exact Hv.
    + right. exists x. split; [reflexivity|lia].
Qed.

Lemma replacerMaps_fresh base samplers name v :
  StdMap.find name (fst (replacerMaps base samplers StdMap.empty StdMap.empty)) = Some v ->
  exists x, v = Some x /\ base <= x.
Proof.
  intros Hv. apply replacerMaps_values in Hv as [Hv|Hv]; [discriminate|exact Hv].
Qed.

(** The run of the splitter over a stage: it completes, and the resulting
    cells are those of [splitterLinked] with every use site rewritten. *)
Theorem splitter_run fuel h r body lk ids :
  let cs := cells h in
  let t := Node r (body ++ [lk]) in
  stage cs r body lk ->
  height t <= fuel ->
  editable cs (splitterUseSites cs t) ->
  sortedKeys (splitterSamplers cs t)
  /\ Forall (symbolNamed cs) (splitterSamplers cs t)
  /\ exists rm,
       SamplerSplitterTraverser.Traverse fuel (Some r) ids h =
         Ok ((ids + 2 * N.of_nat (length (splitterSamplers cs t)))%N,
             mkPool (replacedCells (splitterLinked cs t (rootOf lk) ids)
                       (fst (splitterMaps cs t)) (splitterUseSites cs t)) rm).
Proof.
  intros cs t Hstage Hfuel Hedit.
  pose proof (stage_shape _ _ _ _ Hstage) as Hshape.
  destruct (stage_root_sequence cs r body lk Hstage) as (rop & rtype & Hr).
  destruct (stage_linker _ _ _ _ Hstage) as (lseq & ltype & Hla).
  set (la := rootOf lk) in *.
  pose proof (splitter_traverse_tree h t fuel Hshape Hfuel) as Htrav.
  pose proof (splitter_traverse_sound _ _ _ _ _ _ Htrav) as (_ & Hsorted & Hlive & _).
  rewrite collected_caches in Htrav, Hsorted, Hlive.
  cbn [m_nameToSymbol m_symbolsToParents] in Hsorted, Hlive. fold cs in Htrav, Hsorted, Hlive.
  change (declaredOf cs isSplit (occurrences cs [] t) StdMap.empty)
    with (splitterSamplers cs t) in *.
  change (useSitesOf cs isSplit false (occurrences cs [] t)) with (splitterUseSites cs t) in *.
  split; [exact Hsorted|]. split; [exact Hlive|].
  pose proof (createReplacers_spec (splitterSamplers cs t)
                (SamplerSplitterTraverser.mkLoop 0 ids StdMap.empty StdMap.empty) h Hlive) as Hrep.
  cbn [SamplerSplitterTraverser.layoutBinding SamplerSplitterTraverser.ids
       SamplerSplitterTraverser.nameToReplacement
       SamplerSplitterTraverser.nameToNewTextureAndSampler] in Hrep.
  fold cs in Hrep. fold (splitterMaps cs t) in Hrep.
  set (h3 := mkPool (cs ++ replacerNodes cs (length cs) 0 ids (splitterSamplers cs t)) (removed h))
    in *.
  assert (Hpre : forall a n, cs !! a = Some n -> cells h3 !! a = Some n).
  { intros a n Ha. unfold h3. cbn [cells]. apply lookup_app_l_Some, Ha. }
  assert (Hlast : last (map Some (map rootOf (body ++ [lk]))) = Some (Some la)).
  { rewrite !map_app. simpl. apply last_snoc. }
  pose proof (linkerObjectAggregate_of_lookup h3 r la _ _ _ _ _ (Hpre _ _ Hr) Hlast (Hpre _ _ Hla))
    as Hlink.
  assert (Hlklive : Forall (isLive cs) lseq).
  { destruct (stage_kid_shape cs r body lk Hstage lk) as [Hlk _];
      [apply in_or_app; right; left; reflexivity|].
    destruct lk as [la' lkids]. apply shape_inv in Hlk as (nl & Hnl & Hkl & Hshl).
    simpl in la. subst la. rewrite Hla in Hnl. injection Hnl as <-.
    apply kidsOf_aggregate in Hkl. subst lseq.
    eapply shape_kids_live; [exact Hla|reflexivity|exact Hshl]. }
  destruct (replaceLinkerObjects_spec (snd (splitterMaps cs t)) la EOpLinkerObjects ltype lseq []
              h3) as (rm5 & Hreplace).
  { rewrite app_nil_r. apply Hpre, Hla. }
  { eapply Forall_impl; [exact Hlklive|]. intros p (a & n & -> & Ha). exists a, n. auto. }
  rewrite app_nil_r in Hreplace.
  assert (Hflat : flat_map (splitEntry (cells h3) (snd (splitterMaps cs t))) lseq =
                  flat_map (splitEntry cs (snd (splitterMaps cs t))) lseq).
  { apply flat_map_ext_Forall. eapply Forall_impl; [exact Hlklive|].
    intros p (a & n & -> & Ha). unfold splitEntry. rewrite (Hpre _ _ Ha), Ha. reflexivity. }
  rewrite Hflat in Hreplace.
  assert (Hcells5 : <[la := TIntermAggregate EOpLinkerObjects
                             (flat_map (splitEntry cs (snd (splitterMaps cs t))) lseq) ltype]>
                      (cells h3) = splitterLinked cs t la ids).
  { unfold splitterLinked. fold cs. rewrite Hla. reflexivity. }
  rewrite Hcells5 in Hreplace.
  destruct (stage_records_ready cs r body lk isSplit (splitterLinked cs t la ids)
              (fst (splitterMaps cs t)) Hstage Hedit) as (Huse & Hnd & Hfresh).
  { intros a Hne Hlt. apply splitterLinked_old; assumption. }
  { intros name v Hv. exact (replacerMaps_fresh _ _ _ _ Hv). }
  destruct (makeReplacements_spec (fst (splitterMaps cs t)) (splitterUseSites cs t)
              (mkPool (splitterLinked cs t la ids) rm5) Huse Hnd Hfresh) as (rm & Hmake).
  exists rm. unfold SamplerSplitterTraverser.Traverse.
  rewrite (bind_of_Ok _ _ _ _ _ Htrav). cbn [m_nameToSymbol m_symbolsToParents].
  rewrite (bind_of_Ok _ _ _ _ _ Hrep).
  rewrite (bind_of_Ok _ _ _ _ _ Hlink).
  rewrite (bind_of_Ok _ _ _ _ _ (deref_of_lookup _ _ _ (Hpre _ _ Hla))).
  cbn [SamplerSplitterTraverser.nameToNewTextureAndSampler
       SamplerSplitterTraverser.nameToReplacement SamplerSplitterTraverser.ids].
  rewrite (bind_of_Ok _ _ _ _ _ Hreplace).
  rewrite (bind_of_Ok _ _ _ _ _ Hmake). reflexivity.
Qed.

Lemma set_combined_same s : set_combined (combined s) s = s.
Proof. destruct s. reflexivity. Qed.

Lemma splitPool_stage : stage (cells splitPool) 0 splitBody splitLinker.
Proof.
  split.
  - repeat (econstructor; try reflexivity).
  - apply (bool_decide_unpack _). vm_compute. exact I.
  - simpl. eauto.
  - simpl. eauto.
  - repeat constructor.
Qed.

Lemma splitPool_editable :
  editable (cells splitPool)
    (splitterUseSites (cells splitPool) (Node 0 (splitBody ++ [splitLinker]))).
Proof.
  intros s pa n Hin Hn. vm_compute in Hin.
  destruct Hin as [[= <- <-]|[]]; vm_compute in Hn; injection Hn as <-; reflexivity.
Qed.

(** * The linker-object section under the passes *)

Lemma edge_lt cs a c : edge cs a c -> a < length cs.
Proof.
  unfold edge, childrenAt. destruct (cs !! a) eqn:E; [|contradiction].
  intros _. eapply lookup_lt_Some. exact E.
Qed.

Lemma reachAvoid_trans cs la a b c :
  reachAvoid cs la a b -> reachAvoid cs la b c -> reachAvoid cs la a c.
Proof.
  induction 1 as [a Ha|a x b Ha He _ IH]; intros Hbc; [exact Hbc|].
  eapply reach_step; [exact Ha|exact He|apply IH, Hbc].
Qed.

Lemma reachAvoid_start cs la a b : reachAvoid cs la a b -> a <> la.
Proof. destruct 1; assumption. Qed.

Lemma reachAvoid_end cs la a b : reachAvoid cs la a b -> b <> la.
Proof. induction 1; assumption. Qed.

Lemma sound_step cs la a c : sound cs la a -> a <> la -> c <> la -> edge cs a c -> sound cs la c.
Proof.
  intros Hs Ha Hc He b d Hb Hd. apply (Hs b d); [|exact Hd].
  eapply reach_step; [exact Ha|exact He|exact Hb].
Qed.

Section Detour.
Context (cs cs' : list TIntermNode) (g : nat) (x : ptr) (la : nat).
Hypothesis Hd : detour cs cs' g x.
Hypothesis Hla : la < length cs.

Lemma detour_fwd a b : reachAvoid cs la a b -> reachAvoid cs' la a b.
Proof.
  induction 1 as [a Ha|a c b Ha He _ IH]; [constructor; exact Ha|].
  pose proof (edge_lt _ _ _ He) as Hlt.
  destruct (decide (a = g)) as [->|Hne].
  - destruct (detour_kept _ _ _ _ Hd _ He) as [Hx|Hin].
    + eapply reach_step; [exact Ha| |].
      * apply (detour_in _ _ _ _ Hd). rewrite <- Hx. exact He.
      * eapply reach_step; [lia| |exact IH].
        unfold edge. rewrite (detour_new _ _ _ _ Hd), <- Hx. left. reflexivity.
    + eapply reach_step; [exact Ha|exact Hin|exact IH].
  - eapply reach_step; [exact Ha| |exact IH].
    unfold edge. rewrite (detour_other _ _ _ _ Hd a Hlt Hne). exact He.
Qed.

Hypothesis Hvalid : In x (childrenAt cs g).
Hypothesis Hxlive : forall c, x = Some c -> c < length cs.

Lemma detour_bwd_gen a b :
  reachAvoid cs' la a b -> b <> length cs ->
  (a < length cs -> sound cs la a -> reachAvoid cs la a b)
  /\ (a = length cs -> forall c, x = Some c -> c <> la -> sound cs la c -> reachAvoid cs la c b).
Proof.
  induction 1 as [a Ha|a c b Ha He Hreach IH]; intros Hb.
  - split; [intros _ _; constructor; exact Ha|]. intros ->. contradiction.
  - destruct (IH Hb) as [IH1 IH2]. split.
    + intros Hlt Hsound. destruct (decide (a = g)) as [->|Hne].
      * destruct (detour_only _ _ _ _ Hd _ He) as [[= ->]|Hin].
        -- destruct x as [xc|] eqn:Hx.
           ++ assert (Hex : edge cs g xc) by exact Hvalid.
              assert (Hxla : xc <> la).
              { inversion Hreach as [? Hw|? c2 ? Hw He2 Hr2]; subst.
                - contradiction.
                - unfold edge in He2. rewrite (detour_new _ _ _ _ Hd) in He2.
                  destruct He2 as [[= ->]|[]]. exact (reachAvoid_start _ _ _ _ Hr2). }
              eapply reach_step; [exact Ha|exact Hex|].
              apply (IH2 eq_refl xc eq_refl Hxla).
              exact (sound_step _ _ _ _ Hsound Ha Hxla Hex).
           ++ exfalso. inversion Hreach as [? Hw|? c2 ? Hw He2 Hr2]; subst.
              ** contradiction.
              ** unfold edge in He2. rewrite (detour_new _ _ _ _ Hd) in He2.
                 destruct He2 as [[=]|[]].
        -- assert (Hc : c < length cs) by (apply (Hsound g c); [constructor; exact Ha|exact Hin]).
           eapply reach_step; [exact Ha|exact Hin|].
           apply IH1; [exact Hc|].
           exact (sound_step _ _ _ _ Hsound Ha (reachAvoid_start _ _ _ _ Hreach) Hin).
      * unfold edge in He. rewrite (detour_other _ _ _ _ Hd a Hlt Hne) in He.
        assert (Hc : c < length cs) by (apply (Hsound a c); [constructor; exact Ha|exact He]).
        eapply reach_step; [exact Ha|exact He|].
        apply IH1; [exact Hc|].
        exact (sound_step _ _ _ _ Hsound Ha (reachAvoid_start _ _ _ _ Hreach) He).
    + intros -> xc Hx Hxla Hsound. unfold edge in He. rewrite (detour_new _ _ _ _ Hd) in He.
      destruct He as [Heq|[]]. rewrite Hx in Heq. injection Heq as ->.
      apply IH1; [apply Hxlive; exact Hx|exact Hsound].
Qed.

Lemma detour_bwd a b :
  reachAvoid cs' la a b -> a < length cs -> b <> length cs -> sound cs la a ->
  reachAvoid cs la a b.
Proof. intros Hr Ha Hb Hs. exact (proj1 (detour_bwd_gen a b Hr Hb) Ha Hs). Qed.

Lemma sound_reach_lt a b : a < length cs -> sound cs la a -> reachAvoid cs la a b -> b < length cs.
Proof.
  intros Ha Hs Hr. induction Hr as [a Hne|a c b Hne He Hr IH]; [exact Ha|].
  apply IH.
  - apply (Hs a c); [constructor; exact Hne|exact He].
  - exact (sound_step _ _ _ _ Hs Hne (reachAvoid_start _ _ _ _ Hr) He).
Qed.

Lemma detour_sound a : a < length cs -> sound cs la a -> sound cs' la a.
Proof.
  intros Ha Hs b c Hb He. rewrite (detour_length _ _ _ _ Hd).
  destruct (decide (b = length cs)) as [->|Hnew].
  - unfold edge in He. rewrite (detour_new _ _ _ _ Hd) in He. destruct He as [Hx|[]].
    pose proof (Hxlive c Hx). lia.
  - pose proof (detour_bwd a b Hb Ha Hnew Hs) as Hold.
    pose proof (sound_reach_lt a b Ha Hs Hold) as Hblt.
    destruct (decide (b = g)) as [->|Hne].
    + destruct (detour_only _ _ _ _ Hd _ He) as [[= ->]|Hin]; [lia|].
      pose proof (Hs g c Hold Hin). lia.
    + unfold edge in He. rewrite (detour_other _ _ _ _ Hd b Hblt Hne) in He.
      pose proof (Hs b c Hold He). lia.
Qed.

End Detour.

Lemma childrenAt_lookup cs a n : cs !! a = Some n -> childrenAt cs a = children n.
Proof. unfold childrenAt. intros ->. reflexivity. Qed.

Lemma childrenAt_insert_eq cs a n : a < length cs -> childrenAt (<[a := n]> cs) a = children n.
Proof. intros Hlt. unfold childrenAt. rewrite list_lookup_insert_eq by exact Hlt. reflexivity. Qed.

Lemma childrenAt_insert_ne cs a b n : a <> b -> childrenAt (<[a := n]> cs) b = childrenAt cs b.
Proof. intros Hne. unfold childrenAt. rewrite list_lookup_insert_ne by exact Hne. reflexivity. Qed.

Lemma childrenAt_insert_same cs a n n' b :
  cs !! a = Some n -> children n' = children n -> childrenAt (<[a := n']> cs) b = childrenAt cs b.
Proof.
  intros Ha Hc. destruct (decide (a = b)) as [<-|Hne].
  - rewrite childrenAt_insert_eq by (eapply lookup_lt_Some; exact Ha).
    rewrite (childrenAt_lookup _ _ _ Ha). exact Hc.
  - apply childrenAt_insert_ne, Hne.
Qed.

Lemma childrenAt_app_l cs l a : a < length cs -> childrenAt (cs ++ l) a = childrenAt cs a.
Proof. intros Hlt. unfold childrenAt. rewrite lookup_app_l by exact Hlt. reflexivity. Qed.

Lemma childrenAt_app_new cs n : childrenAt (cs ++ [n]) (length cs) = children n.
Proof.
  unfold childrenAt. rewrite lookup_app_r by lia. rewrite Nat.sub_diag. reflexivity.
Qed.

Lemma childrenAt_ge cs a : length cs <= a -> childrenAt cs a = [].
Proof. intros Hge. unfold childrenAt. rewrite lookup_ge_None_2 by exact Hge. reflexivity. Qed.

Lemma replaceChild_kept x w n c :
  In x (children n) -> In c (children n) -> c = x \/ In c (children (replaceChild x w n)).
Proof.
  destruct n as [| |op sequence type|op l r type|op operand type| | | |]; simpl; auto.
  - intros _ Hin. destruct (decide (c = x)) as [->|Hne]; [left; reflexivity|right].
    apply in_map_iff. exists c. rewrite decide_False by exact Hne. auto.
  - intros Hx [<-|[<-|[]]].
    + destruct (decide (l = x)); [left; assumption|right; left; reflexivity].
    + destruct (decide (l = x)); simpl; [right; right; left; reflexivity|].
      destruct Hx as [Hx|[Hx|[]]]; [contradiction|left; exact Hx].
  - intros [Hx|[]] [<-|[]]. left. exact Hx.
Qed.

Lemma replaceChild_only x w n c :
  In c (children (replaceChild x w n)) -> c = w \/ In c (children n).
Proof.
  destruct n as [| |op sequence type|op l r type|op operand type| | | |]; simpl; auto.
  - intros Hin. apply in_map_iff in Hin as (c0 & Hc & Hin).
    destruct (decide (c0 = x)); [left; symmetry; exact Hc|right; subst c0; exact Hin].
  - destruct (decide (l = x)); simpl; intros [<-|[<-|[]]]; auto.
  - intros [<-|[]]. left. reflexivity.
Qed.

Lemma kindOf_replaceChild x w n : kindOf (replaceChild x w n) = kindOf n.
Proof.
  destruct n as [| |op sequence type|op l r type|op operand type| | | |]; try reflexivity.
  simpl. destruct (decide (l = x)); reflexivity.
Qed.

(** Replacing the child [x] of the node at [g] by a new node whose only
    child is [x] is a detour; the other cells may have been retyped. *)
Lemma detour_make cs cs0 g n x nw :
  length cs0 = length cs ->
  (forall b, childrenAt cs0 b = childrenAt cs b) ->
  cs0 !! g = Some n ->
  replaceable n = true ->
  In x (children n) ->
  children nw = [x] ->
  detour cs (<[g := replaceChild x (Some (length cs)) n]> (cs0 ++ [nw])) g x.
Proof.
  intros Hlen Hsame Hg Hrep Hx Hnw.
  assert (Hglt : g < length cs) by (rewrite <- Hlen; eapply lookup_lt_Some; exact Hg).
  assert (Hgc : childrenAt cs g = children n).
  { rewrite <- Hsame. apply childrenAt_lookup, Hg. }
  assert (Hg' : childrenAt (<[g := replaceChild x (Some (length cs)) n]> (cs0 ++ [nw])) g =
                 children (replaceChild x (Some (length cs)) n)).
  { apply childrenAt_insert_eq. rewrite length_app. simpl. lia. }
  split.
  - rewrite length_insert, length_app. simpl. lia.
  - intros a Ha Hne. rewrite childrenAt_insert_ne by (intros E; apply Hne; symmetry; exact E).
    rewrite childrenAt_app_l by lia. apply Hsame.
  - intros c Hc. rewrite Hg'. rewrite Hgc in Hc. apply replaceChild_kept; assumption.
  - intros c Hc. rewrite Hg' in Hc. rewrite Hgc. apply replaceChild_only in Hc. exact Hc.
  - intros _. rewrite Hg'. apply children_replaceChild_In; assumption.
  - rewrite childrenAt_insert_ne by lia. rewrite <- Hlen, childrenAt_app_new. exact Hnw.
  - exact Hglt.
Qed.

Lemma symbolAt_kind cs cs' a n n' :
  cs !! a = Some n -> cs' !! a = Some n' -> kindOf n' = kindOf n -> classOf n <> CSymbol ->
  symbolAt cs' a = symbolAt cs a.
Proof.
  intros Ha Ha' Hk Hc. unfold symbolAt. rewrite Ha, Ha'.
  destruct n; destruct n'; try discriminate; try reflexivity; contradiction.
Qed.

Lemma symbolAt_ge cs a : length cs <= a -> symbolAt cs a = None.
Proof. intros Ha. unfold symbolAt. rewrite lookup_ge_None_2 by exact Ha. reflexivity. Qed.

Lemma evolves_refl la cs : evolves la [] cs cs.
Proof.
  split; auto.
  - intros a n Ha. exists n. auto.
  - intros a [].
  - intros a Ha. apply symbolAt_ge, Ha.
Qed.

Lemma promotedType_isPromoted type :
  isPromoted type = true -> isPromoted (UniformTypeChangeTraverser.promotedType type) = true.
Proof.
  unfold isPromoted, UniformTypeChangeTraverser.promotedType. intros H.
  apply andb_true_iff in H as [H Hm]. apply andb_true_iff in H as [Hu Hs].
  simpl. rewrite Hu. reflexivity.
Qed.

Lemma promoteD_idem d : promoteD (promoteD d) = promoteD d.
Proof.
  unfold promoteD. simpl. destruct (isPromoted (snd d)) eqn:E.
  - rewrite (promotedType_isPromoted _ E). reflexivity.
  - rewrite E. reflexivity.
Qed.

Lemma evolves_trans la V1 V2 cs cs1 cs2 :
  evolves la V1 cs cs1 -> evolves la V2 cs1 cs2 -> evolves la (V1 ++ V2) cs cs2.
Proof.
  intros H1 H2. pose proof (ev_length _ _ _ _ H1) as Hl1. pose proof (ev_length _ _ _ _ H2) as Hl2.
  assert (Hnew2 : forall a, length cs <= a -> symbolAt cs2 a = None).
  { intros a Ha. destruct (le_lt_dec (length cs1) a) as [Hge|Hlt].
    - apply (ev_new _ _ _ _ H2), Hge.
    - destruct (in_dec Nat.eq_dec a V2) as [Hin2|Hnin2].
      + rewrite (ev_visited _ _ _ _ H2 a Hin2), (ev_new _ _ _ _ H1 a Ha). reflexivity.
      + rewrite (ev_others _ _ _ _ H2 a Hlt Hnin2). apply (ev_new _ _ _ _ H1), Ha. }
  split.
  - lia.
  - intros a b Hr. apply (ev_fwd _ _ _ _ H2), (ev_fwd _ _ _ _ H1), Hr.
  - intros a b Ha Hb Hs Hr.
    apply (ev_bwd _ _ _ _ H1); [exact Ha|exact Hb|exact Hs|].
    apply (ev_bwd _ _ _ _ H2); [lia|lia|apply (ev_sound _ _ _ _ H1); assumption|exact Hr].
  - intros a Ha Hs.
    apply (ev_sound _ _ _ _ H2); [lia|]. apply (ev_sound _ _ _ _ H1); assumption.
  - intros a n Ha. destruct (ev_kind _ _ _ _ H1 a n Ha) as (n1 & Ha1 & Hk1).
    destruct (ev_kind _ _ _ _ H2 a n1 Ha1) as (n2 & Ha2 & Hk2).
    exists n2. split; [exact Ha2|congruence].
  - intros a Hin.
    destruct (le_lt_dec (length cs) a) as [Hge|Hlt].
    { rewrite (Hnew2 a Hge), (symbolAt_ge cs a Hge). reflexivity. }
    destruct (in_dec Nat.eq_dec a V1) as [Hin1|Hnin1];
      destruct (in_dec Nat.eq_dec a V2) as [Hin2|Hnin2].
    + rewrite (ev_visited _ _ _ _ H2 a Hin2), (ev_visited _ _ _ _ H1 a Hin1).
      destruct (symbolAt cs a); simpl; [rewrite promoteD_idem|]; reflexivity.
    + rewrite (ev_others _ _ _ _ H2 a) by (lia || assumption).
      apply (ev_visited _ _ _ _ H1 a Hin1).
    + rewrite (ev_visited _ _ _ _ H2 a Hin2), (ev_others _ _ _ _ H1 a Hlt Hnin1). reflexivity.
    + apply in_app_or in Hin as [?|?]; contradiction.
  - intros a Ha Hnin.
    rewrite (ev_others _ _ _ _ H2 a) by (try lia; intros ?; apply Hnin, in_or_app; auto).
    apply (ev_others _ _ _ _ H1 a Ha). intros ?; apply Hnin, in_or_app; auto.
  - exact Hnew2.
  - rewrite (ev_linker _ _ _ _ H2). apply (ev_linker _ _ _ _ H1).
Qed.

Lemma reachAvoid_ext cs cs' la a b :
  (forall x, childrenAt cs' x = childrenAt cs x) -> reachAvoid cs la a b -> reachAvoid cs' la a b.
Proof.
  intros Hsame. induction 1 as [a Ha|a c b Ha He _ IH]; [constructor; exact Ha|].
  eapply reach_step; [exact Ha| |exact IH]. unfold edge. rewrite Hsame. exact He.
Qed.

Lemma sound_ext cs cs' la a :
  length cs' = length cs ->
  (forall x, childrenAt cs' x = childrenAt cs x) -> sound cs la a -> sound cs' la a.
Proof.
  intros Hlen Hsame Hs b c Hb He. rewrite Hlen. apply (Hs b c).
  - apply (reachAvoid_ext cs' cs); [intros x; symmetry; apply Hsame|exact Hb].
  - unfold edge. rewrite <- Hsame. exact He.
Qed.

(** A pass step that only retypes cells. *)
Lemma evolves_retype la V cs cs' :
  length cs' = length cs ->
  (forall x, childrenAt cs' x = childrenAt cs x) ->
  (forall a n, cs !! a = Some n -> exists n', cs' !! a = Some n' /\ kindOf n' = kindOf n) ->
  (forall a, In a V -> symbolAt cs' a = promoteD <$> symbolAt cs a) ->
  (forall a, a < length cs -> ~ In a V -> symbolAt cs' a = symbolAt cs a) ->
  evolves la V cs cs'.
Proof.
  intros Hlen Hsame Hkind Hvis Hoth. split.
  - lia.
  - intros a b. apply reachAvoid_ext, Hsame.
  - intros a b _ _ _. apply reachAvoid_ext. intros x. symmetry. apply Hsame.
  - intros a _. apply sound_ext; assumption.
  - exact Hkind.
  - exact Hvis.
  - exact Hoth.
  - intros a Ha. apply symbolAt_ge. lia.
  - apply Hsame.
Qed.

(** A pass step that retypes cells and makes one detour. *)
Lemma evolves_detour la V cs cs' g x :
  detour cs cs' g x ->
  la < length cs -> g <> la ->
  In x (childrenAt cs g) ->
  (forall c, x = Some c -> c < length cs) ->
  (forall a n, cs !! a = Some n -> exists n', cs' !! a = Some n' /\ kindOf n' = kindOf n) ->
  (forall a, In a V -> symbolAt cs' a = promoteD <$> symbolAt cs a) ->
  (forall a, a < length cs -> ~ In a V -> symbolAt cs' a = symbolAt cs a) ->
  symbolAt cs' (length cs) = None ->
  evolves la V cs cs'.
Proof.
  intros Hd Hla Hg Hx Hlive Hkind Hvis Hoth Hnew. split.
  - rewrite (detour_length _ _ _ _ Hd). lia.
  - intros a b. apply (detour_fwd cs cs' g x la Hd Hla).
  - intros a b Ha Hb Hs Hr. apply (detour_bwd cs cs' g x la Hd Hx Hlive a b Hr Ha); [lia|exact Hs].
  - intros a. apply (detour_sound cs cs' g x la Hd Hla Hx Hlive).
  - exact Hkind.
  - exact Hvis.
  - exact Hoth.
  - intros a Ha. destruct (decide (a = length cs)) as [->|Hne]; [exact Hnew|].
    apply symbolAt_ge. rewrite (detour_length _ _ _ _ Hd). lia.
  - apply (detour_other _ _ _ _ Hd); [exact Hla|intros E; apply Hg; symmetry; exact E].
Qed.

Lemma getParentNode_live cs path g :
  Forall (isLive cs) path -> getParentNode path = Some g -> exists n, cs !! g = Some n.
Proof.
  intros Hpath Hpar. unfold getParentNode in Hpar.
  destruct (last path) as [p|] eqn:Hlast; [|discriminate]. subst p.
  apply last_Some_elem_of in Hlast. rewrite Forall_forall in Hpath.
  destruct (Hpath _ Hlast) as (a & n & [= <-] & Ha). eauto.
Qed.

Lemma isArray_promotedType type :
  isArray (UniformTypeChangeTraverser.promotedType type) = isArray type.
Proof. reflexivity. Qed.

(** The outcomes of one visit of the promoter that completes. *)
Lemma promoter_visit_cases path s st h st' h' id name type :
  let cs := cells h in
  let cs1 := <[s := TIntermSymbol id name (UniformTypeChangeTraverser.promotedType type)]> cs in
  cs !! s = Some (TIntermSymbol id name type) ->
  Forall (isLive cs) path ->
  UniformTypeChangeTraverser.visitSymbol path (Some s) st h = Ok (st', h') ->
  (isPromoted type = false /\ cells h' = cs)
  \/ (isPromoted type = true /\ linkerPath cs1 path = true /\ cells h' = cs1)
  \/ (isPromoted type = true /\ linkerPath cs1 path = false /\ isArray type = false /\
      exists g n, getParentNode path = Some g /\ cs1 !! g = Some n /\ replaceable n = true /\
        cells h' = <[g := replaceChild (Some s) (Some (length cs)) n]>
                     (cs1 ++ [TIntermAggregate (mapTypeToConstructorOp type) [Some s] type]))
  \/ (isPromoted type = true /\ linkerPath cs1 path = false /\ isArray type = true /\
      exists b op l r bty gg ng,
        getParentNode path = Some b /\ cs1 !! b = Some (TIntermBinary op l r bty) /\
        path !! (length path - 2) = Some (Some gg) /\ 1 < length path /\
        (<[b := TIntermBinary op l r
                  (clearArraySizes (UniformTypeChangeTraverser.promotedType type))]> cs1
           ++ [TIntermAggregate (mapTypeToConstructorOp bty) [Some b] bty]) !! gg = Some ng /\
        replaceable ng = true /\
        cells h' = <[gg := replaceChild (Some b) (Some (length cs)) ng]>
                     (<[b := TIntermBinary op l r
                              (clearArraySizes (UniformTypeChangeTraverser.promotedType type))]> cs1
                        ++ [TIntermAggregate (mapTypeToConstructorOp bty) [Some b] bty])).
Proof.
  intros cs cs1 Hs Hpath Hrun. unfold UniformTypeChangeTraverser.visitSymbol in Hrun.
  rewrite (bind_of_Ok _ _ _ _ _ (deref_of_lookup _ _ _ Hs)) in Hrun.
  fold (isPromoted type) in Hrun.
  destruct (isPromoted type) eqn:Hcand; [|left; cbv beta delta [ret] in Hrun; injection Hrun as Hst Hh; subst h'; auto].
  right.
  rewrite (bind_of_Ok _ _ _ _ _ (store_of_lookup s h _ _ Hs)) in Hrun.
  fold cs cs1 in Hrun.
  set (h1 := mkPool cs1 (removed h)) in *.
  assert (Hpath1 : Forall (isLive (cells h1)) path).
  { eapply Forall_impl; [exact Hpath|]. intros p. apply isLive_insert. }
  rewrite (bind_of_Ok _ _ _ _ _ (isLinkerObject_linkerPath path h1 Hpath1)) in Hrun.
  change (cells h1) with cs1 in Hrun.
  destruct (linkerPath cs1 path) eqn:Hlinker; [left; cbv beta delta [ret] in Hrun; injection Hrun as Hst Hh; subst h'; auto|].
  right. rewrite isArray_promotedType in Hrun.
  assert (Hlen1 : length cs1 = length cs) by apply length_insert.
  destruct (isArray type) eqn:Harr.
  - right. split; [reflexivity|]. split; [reflexivity|]. split; [reflexivity|].
    apply bind_Ok in Hrun as (p & h0 & Hd & Hrun).
    apply deref_Ok in Hd as (b & Hpar & Hb & ->).
    destruct p as [| | |op l r bty| | | | |]; try discriminate.
    rewrite Hpar in Hrun.
    rewrite (bind_of_Ok _ _ _ _ _ (store_of_lookup b h1 _ _ Hb)) in Hrun.
    unfold addShapeConversion in Hrun. unfold bind at 1 in Hrun. unfold alloc at 1 in Hrun.
    cbn [cells removed] in Hrun.
    destruct (path !! (length path - 2)) as [grandparent|] eqn:Hgp; [|discriminate].
    destruct (decide (1 < length path)) as [Hlong|]; [|discriminate].
    apply bind_Ok in Hrun as ([] & h2 & Hinj & Hrun). cbv beta delta [ret] in Hrun.
    injection Hrun as Hst Hh; subst h'.
    unfold UniformTypeChangeTraverser.injectShapeConversion in Hinj.
    apply bind_Ok in Hinj as (ng & h0 & Hd & Hinj).
    apply deref_Ok in Hd as (gg & -> & Hgg & ->). cbn [cells] in Hgg.
    change (cells h1) with cs1 in Hinj, Hgg. rewrite length_insert, Hlen1 in Hinj.
    exists b, op, l, r, bty, gg, ng.
    split; [exact Hpar|]. split; [exact Hb|]. split; [first [exact Hgp|reflexivity]|]. split; [exact Hlong|].
    split; [exact Hgg|].
    destruct ng as [| |gop gseq gty|gop gl gr gty|gop gopd gty| | | |]; try discriminate.
    + apply store_Ok in Hinj as (? & [= <-] & _ & ->). split; reflexivity.
    + simpl. destruct (decide (gl = Some b));
        apply store_Ok in Hinj as (? & [= <-] & _ & ->); split; reflexivity.
    + apply store_Ok in Hinj as (? & [= <-] & _ & ->). split; reflexivity.
  - left. split; [reflexivity|]. split; [reflexivity|]. split; [reflexivity|].
    unfold addShapeConversion in Hrun. unfold bind at 1 in Hrun. unfold alloc at 1 in Hrun.
    cbn [cells removed] in Hrun.
    apply bind_Ok in Hrun as ([] & h2 & Hinj & Hrun). cbv beta delta [ret] in Hrun.
    injection Hrun as Hst Hh; subst h'.
    unfold UniformTypeChangeTraverser.injectShapeConversion in Hinj.
    apply bind_Ok in Hinj as (n & h0 & Hd & Hinj).
    apply deref_Ok in Hd as (g & Hpar & Hg & ->). cbn [cells] in Hg.
    change (cells h1) with cs1 in Hinj, Hg. rewrite Hlen1, Hpar in Hinj.
    assert (Hglt : g < length cs1).
    { destruct (le_lt_dec (length cs1) g) as [Hge|Hlt]; [|exact Hlt]. exfalso.
      destruct (getParentNode_live cs path g Hpath Hpar) as (ng & Hng).
      apply lookup_lt_Some in Hng. lia. }
    rewrite lookup_app_l in Hg by exact Hglt.
    exists g, n. split; [exact Hpar|]. split; [exact Hg|].
    destruct n as [| |gop gseq gty|gop gl gr gty|gop gopd gty| | | |]; try discriminate.
    + apply store_Ok in Hinj as (? & [= <-] & _ & ->). split; reflexivity.
    + simpl. destruct (decide (gl = Some s));
        apply store_Ok in Hinj as (? & [= <-] & _ & ->); split; reflexivity.
    + apply store_Ok in Hinj as (? & [= <-] & _ & ->). split; reflexivity.
Qed.

Lemma slotPtr_children n sl c : slotPtr n sl = Some c -> In c (children n).
Proof.
  destruct n, sl; simpl; try discriminate; intros H;
    first [ injection H as <-; simpl; tauto
          | apply list_elem_of_In; eapply list_elem_of_lookup_2; exact H ].
Qed.

Lemma slotPtr_replaceChild x w n sl c :
  In x (children n) -> slotPtr n sl = Some c -> c <> x ->
  slotPtr (replaceChild x w n) sl = Some c.
Proof.
  destruct n as [| |op sequence type|op l r type|op operand type| | | |]; simpl; auto.
  - destruct sl; try discriminate. intros _ Hc Hne.
    rewrite list_lookup_fmap, Hc. simpl. rewrite decide_False by exact Hne. reflexivity.
  - intros Hx. destruct sl; try discriminate; intros [= <-] Hne.
    + destruct (decide (l = x)); [contradiction|reflexivity].
    + destruct (decide (l = x)); [reflexivity|].
      destruct Hx as [Hx|[Hx|[]]]; contradiction.
  - intros [Hx|[]]. destruct sl; try discriminate. intros [= <-] Hne. contradiction.
Qed.

Lemma slotPtr_replaceChild_None x w n sl :
  slotPtr n sl = None -> slotPtr (replaceChild x w n) sl = None.
Proof.
  destruct n as [| |op sequence type|op l r type|op operand type| | | |]; simpl; auto.
  - destruct sl; auto. intros H. rewrite list_lookup_fmap, H. reflexivity.
  - destruct (decide (l = x)); destruct sl; simpl; auto; discriminate.
  - destruct sl; auto. discriminate.
Qed.

Lemma agree_refl X cs a : agree X cs cs a.
Proof. intros n Hn. exists n. auto. Qed.

Lemma agree_same X cs cs' a : cs' !! a = cs !! a -> agree X cs cs' a.
Proof. intros Hsame n Hn. exists n. rewrite Hsame. auto. Qed.

Lemma agree_trans X Y cs cs1 cs2 a :
  agree X cs cs1 a -> agree Y cs1 cs2 a -> agree (X ++ Y) cs cs2 a.
Proof.
  intros H1 H2 n Hn. destruct (H1 n Hn) as (n1 & Hn1 & Hs1 & Hz1).
  destruct (H2 n1 Hn1) as (n2 & Hn2 & Hs2 & Hz2). exists n2. split; [exact Hn2|]. split.
  - intros sl c Hc Hne. apply Hs2.
    + apply Hs1; [exact Hc|]. intros x Hx. apply Hne, in_or_app. auto.
    + intros x Hx. apply Hne, in_or_app. auto.
  - intros sl Hc. apply Hz2, Hz1, Hc.
Qed.

Lemma agree_weaken X Y cs cs' a : (forall x, In x X -> In x Y) -> agree X cs cs' a -> agree Y cs cs' a.
Proof.
  intros Hsub H n Hn. destruct (H n Hn) as (n' & Hn' & Hs & Hz). exists n'.
  split; [exact Hn'|]. split; [|exact Hz].
  intros sl c Hc Hne. apply Hs; [exact Hc|]. intros x Hx. apply Hne, Hsub, Hx.
Qed.

Lemma children_slotPtr n c : In c (children n) -> exists sl, slotPtr n sl = Some c.
Proof.
  destruct n as [| |op sequence type|op l r type|op operand type|cnd t e type|b t e|op e|cnd b];
    simpl; intros Hin.
  - destruct Hin.
  - destruct Hin.
  - apply list_elem_of_In, list_elem_of_lookup_1 in Hin as [idx Hidx].
    exists (SeqAt idx). exact Hidx.
  - destruct Hin as [<-|[<-|[]]]; [exists Left|exists Right]; reflexivity.
  - destruct Hin as [<-|[]]. exists Operand. reflexivity.
  - destruct Hin as [<-|[<-|[<-|[]]]];
      [exists Condition|exists TrueBlock|exists FalseBlock]; reflexivity.
  - destruct Hin as [<-|[<-|[<-|[]]]]; [exists Test|exists Body|exists Terminal]; reflexivity.
  - destruct Hin as [<-|[]]. exists Expression. reflexivity.
  - destruct Hin as [<-|[<-|[]]]; [exists Condition|exists Body]; reflexivity.
Qed.

(** A child that is none of [X] stays a child. *)
Lemma agree_children X cs cs' a c :
  (forall x, In x X -> c <> Some x) ->
  agree X cs cs' a -> In c (childrenAt cs a) -> In c (childrenAt cs' a).
Proof.
  intros Hne Hag Hin. unfold childrenAt in Hin.
  destruct (cs !! a) as [n|] eqn:Ha; [|destruct Hin].
  destruct (Hag n Ha) as (n' & Hn' & Hkeep & _).
  apply children_slotPtr in Hin as [sl Hsl].
  unfold childrenAt. rewrite Hn'. exact (slotPtr_children n' sl c (Hkeep sl c Hsl Hne)).
Qed.

Lemma linkerPath_ext cs cs' path :
  (forall a, path !! 1 = Some (Some a) -> kindOf <$> cs' !! a = kindOf <$> cs !! a) ->
  linkerPath cs' path = linkerPath cs path.
Proof.
  intros Hk. unfold linkerPath. destruct (path !! 1) as [[a|]|] eqn:E; try reflexivity.
  specialize (Hk a eq_refl).
  destruct (cs !! a) as [n|], (cs' !! a) as [n'|]; try discriminate Hk; try reflexivity.
  injection Hk as Hk. unfold kindOf in Hk.
  destruct n, n'; simpl in Hk; try discriminate Hk; try reflexivity.
  match goal with H : Some _ = Some _ |- _ => injection H as -> end. reflexivity.
Qed.

Lemma last_map_Some (pa : list nat) : last (map Some pa) = Some <$> last pa.
Proof. change (map Some pa) with (Some <$> pa). apply fmap_last. Qed.

Lemma getParentNode_map pa g : getParentNode (map Some pa) = Some g <-> last pa = Some g.
Proof.
  unfold getParentNode. rewrite last_map_Some. destruct (last pa); simpl; split; congruence.
Qed.

Lemma grandOf_map pa gg :
  1 < length (map Some pa) -> map Some pa !! (length (map Some pa) - 2) = Some (Some gg) ->
  grandOf pa = Some gg.
Proof.
  rewrite length_map. intros Hlong Hgg. unfold grandOf. rewrite decide_True by exact Hlong.
  change (map Some pa) with (Some <$> pa) in Hgg. rewrite list_lookup_fmap in Hgg.
  destruct (pa !! (length pa - 2)); [injection Hgg as ->; reflexivity|discriminate].
Qed.



Ltac look :=
  repeat first
    [ rewrite list_lookup_insert_ne by (congruence || lia)
    | rewrite list_lookup_insert_eq by (rewrite ?length_insert, ?length_app; simpl; lia)
    | rewrite lookup_app_l by (rewrite ?length_insert; lia) ].

Lemma children_symbol_parent (s : nat) n :
  In (Some s) (children n) -> classOf n <> CSymbol.
Proof. intros Hin Hc. destruct n; try discriminate. contradiction. Qed.

Lemma symbolAt_lookup cs a id name type :
  cs !! a = Some (TIntermSymbol id name type) -> symbolAt cs a = Some (name, type).
Proof. unfold symbolAt. intros ->. reflexivity. Qed.

Lemma symbolAt_same cs cs' a : cs' !! a = cs !! a -> symbolAt cs' a = symbolAt cs a.
Proof. unfold symbolAt. intros ->. reflexivity. Qed.

Lemma promoteD_promoted name type :
  isPromoted type = true ->
  promoteD (name, type) = (name, UniformTypeChangeTraverser.promotedType type).
Proof. unfold promoteD. simpl. intros ->. reflexivity. Qed.

Lemma promoteD_other name type : isPromoted type = false -> promoteD (name, type) = (name, type).
Proof. unfold promoteD. simpl. intros ->. reflexivity. Qed.

Lemma grandOf_In pa gg : grandOf pa = Some gg -> In gg pa.
Proof.
  unfold grandOf. destruct (decide (1 < length pa)); [|discriminate].
  intros H. apply list_elem_of_In. eapply list_elem_of_lookup_2. exact H.
Qed.

Lemma last_In {A} (l : list A) x : last l = Some x -> In x l.
Proof. intros H. apply list_elem_of_In, last_Some_elem_of, H. Qed.

Lemma grandOf_last_ne pa gg g : NoDup pa -> grandOf pa = Some gg -> last pa = Some g -> gg <> g.
Proof.
  unfold grandOf. destruct (decide (1 < length pa)) as [Hlong|]; [|discriminate].
  intros Hnd Hgg Hg ->. rewrite last_lookup in Hg.
  pose proof (NoDup_lookup _ _ _ _ Hnd Hgg Hg). lia.
Qed.

(** The promoter at a symbol. *)
Lemma promoter_leaf la pa s st h st' h' id name type :
  let cs := cells h in
  cs !! s = Some (TIntermSymbol id name type) ->
  Forall (fun x => x < length cs) pa ->
  NoDup (pa ++ [s]) ->
  isLinker cs la ->
  (linkerPath cs (map Some pa) = true \/ ~ In la pa) ->
  (forall g, last pa = Some g -> In (Some s) (childrenAt cs g)) ->
  (forall gg g, isPromoted type && isArray type = true ->
     grandOf pa = Some gg -> last pa = Some g -> In (Some g) (childrenAt cs gg)) ->
  UniformTypeChangeTraverser.visitSymbol (map Some pa) (Some s) st h = Ok (st', h') ->
  traversed la pa (Node s []) cs (cells h').
Proof.
  intros cs Hs Hlive Hnd Hisl Hlinker Hv1 Hv2 Hrun.
  assert (Hla : la < length cs) by (destruct Hisl as (? & ? & E); eapply lookup_lt_Some; exact E).
  assert (Hsla : s <> la) by (intros ->; destruct Hisl as (? & ? & E); congruence).
  assert (Hslt : s < length cs) by (eapply lookup_lt_Some; exact Hs).
  apply NoDup_app in Hnd as (Hndpa & Hdisj & _).
  assert (Hspa : ~ In s pa).
  { intros Hin. apply (Hdisj s); [apply list_elem_of_In, Hin|left]. }
  assert (Hpath : Forall (isLive cs) (map Some pa)).
  { apply Forall_forall. intros p Hp. apply list_elem_of_In, in_map_iff in Hp as (x & <- & Hx).
    rewrite Forall_forall in Hlive. specialize (Hlive x (proj2 (list_elem_of_In _ _) Hx)).
    destruct (lookup_lt_is_Some_2 cs x Hlive) as [n Hn]. exists x, n. auto. }
  set (sym' := TIntermSymbol id name (UniformTypeChangeTraverser.promotedType type)).
  set (cs1 := <[s := sym']> cs).
  assert (Hlen1 : length cs1 = length cs) by apply length_insert.
  assert (Hch1 : forall b, childrenAt cs1 b = childrenAt cs b).
  { intros b. apply (childrenAt_insert_same cs s _ sym' b Hs). reflexivity. }
  assert (Hlp1 : linkerPath cs1 (map Some pa) = linkerPath cs (map Some pa)).
  { apply linkerPath_ext. intros a Ha. unfold cs1.
    rewrite list_lookup_insert_ne; [reflexivity|]. intros ->. apply Hspa.
    change (map Some pa) with (Some <$> pa) in Ha. rewrite list_lookup_fmap in Ha.
    destruct (pa !! 1) as [x|] eqn:E; [|discriminate]. injection Ha as ->.
    apply list_elem_of_In. eapply list_elem_of_lookup_2. exact E. }
  destruct (promoter_visit_cases _ _ _ _ _ _ _ _ _ Hs Hpath Hrun)
    as [[Hcand ->]|[(Hcand & Hlk & ->)|[(Hcand & Hlk & Harr & g & n & Hpar & Hg & Hrep & ->)
       |(Hcand & Hlk & Harr & b & op & l & r & bty & gg & ng & Hpar & Hb & Hgg & Hlong & Hng
           & Hrep & ->)]]];
    fold cs; fold sym'; fold cs1.
  - (* not a candidate *)
    split.
    + apply evolves_retype; auto.
      * intros a n Ha. exists n. auto.
      * intros a [<-|[]]. rewrite (symbolAt_lookup _ _ _ _ _ Hs). simpl.
        rewrite promoteD_other by exact Hcand. reflexivity.
    + reflexivity.
    + intros g _. apply agree_refl.
    + intros gg _. apply agree_refl.
  - (* a linker object *)
    split.
    + apply evolves_retype; auto.
      * intros a n Ha. destruct (decide (a = s)) as [->|Hne].
        -- exists sym'. unfold cs1. look. split; [reflexivity|].
           rewrite Hs in Ha. injection Ha as <-. reflexivity.
        -- exists n. unfold cs1. look. auto.
      * intros a [<-|[]]. rewrite (symbolAt_lookup _ _ _ _ _ Hs). simpl.
        rewrite promoteD_promoted by exact Hcand. apply symbolAt_lookup with (id := id).
        unfold cs1. look. reflexivity.
      * intros a Ha Hne. apply symbolAt_same.
        assert (a <> s) by (intros ->; apply Hne; left; reflexivity).
        unfold cs1. look. reflexivity.
    + intros x Hx Hnx _ _. assert (x <> s) by (intros ->; apply Hnx; left; reflexivity).
      unfold cs1. look. reflexivity.
    + intros g Hgl. apply agree_same.
      assert (g <> s) by (intros ->; apply Hspa, last_In, Hgl).
      unfold cs1. look. reflexivity.
    + intros gg Hgl. apply agree_same.
      assert (gg <> s) by (intros ->; apply Hspa, grandOf_In, Hgl).
      unfold cs1. look. reflexivity.
  - (* a use that is no array *)
    assert (Hlk' : linkerPath cs (map Some pa) = false) by (rewrite <- Hlp1; exact Hlk).
    destruct Hlinker as [Hl|Hnla]; [congruence|].
    apply getParentNode_map in Hpar.
    assert (Hgs : g <> s) by (intros ->; apply Hspa, last_In, Hpar).
    assert (Hg0 : cs !! g = Some n) by (unfold cs1 in Hg; rewrite list_lookup_insert_ne in Hg; auto).
    assert (Hglt : g < length cs) by (eapply lookup_lt_Some; exact Hg0).
    assert (Hgla : g <> la) by (intros ->; apply Hnla, last_In, Hpar).
    pose proof (Hv1 g Hpar) as Hxin.
    assert (Hxn : In (Some s) (children n)) by (rewrite <- (childrenAt_lookup _ _ _ Hg0); exact Hxin).
    set (nw := TIntermAggregate (mapTypeToConstructorOp type) [Some s] type).
    set (cs' := <[g := replaceChild (Some s) (Some (length cs)) n]> (cs1 ++ [nw])).
    assert (Hd : detour cs cs' g (Some s)).
    { apply (detour_make cs cs1 g n (Some s) nw); auto. }
    assert (Hcg : cs' !! g = Some (replaceChild (Some s) (Some (length cs)) n)).
    { unfold cs'. look. reflexivity. }
    assert (Hcs : cs' !! s = Some sym') by (unfold cs', cs1; look; reflexivity).
    assert (Hco : forall x, x < length cs -> x <> g -> x <> s -> cs' !! x = cs !! x).
    { intros x Hx Hxg Hxs. unfold cs', cs1. look. reflexivity. }
    split.
    + apply (evolves_detour la [s] cs cs' g (Some s) Hd Hla Hgla Hxin).
      * intros c [= <-]. exact Hslt.
      * intros a n0 Ha. destruct (decide (a = g)) as [->|Hag]; [|destruct (decide (a = s)) as [->|Has]].
        -- rewrite Hg0 in Ha. injection Ha as <-. eexists. split; [exact Hcg|].
           apply kindOf_replaceChild.
        -- rewrite Hs in Ha. injection Ha as <-. exists sym'. split; [exact Hcs|reflexivity].
        -- exists n0. split; [|reflexivity]. rewrite Hco; auto. eapply lookup_lt_Some; exact Ha.
      * intros a [<-|[]]. rewrite (symbolAt_lookup _ _ _ _ _ Hs). simpl.
        rewrite promoteD_promoted by exact Hcand. apply (symbolAt_lookup _ _ id), Hcs.
      * intros a Ha Hne. destruct (decide (a = g)) as [->|Hag].
        -- eapply symbolAt_kind; [exact Hg0|exact Hcg|apply kindOf_replaceChild|].
           eapply children_symbol_parent; exact Hxn.
        -- apply symbolAt_same, Hco; [exact Ha|exact Hag|]. intros ->. apply Hne. left. reflexivity.
      * unfold symbolAt, cs'. rewrite list_lookup_insert_ne by lia.
        rewrite lookup_app_r by lia. rewrite Hlen1, Nat.sub_diag. reflexivity.
    + intros x Hx Hnx Hxg _. apply Hco; [exact Hx| |].
      * intros ->. apply Hxg. exact Hpar.
      * intros ->. apply Hnx. left. reflexivity.
    + intros g0 Hg0l. rewrite Hpar in Hg0l. injection Hg0l as <-.
      apply (agree_weaken [s]).
      { intros x [<-|[]]. unfold onSide. cbn [rootOf].
        rewrite decide_False; [left; reflexivity|]. intros Hone.
        apply list_elem_of_lookup_2, list_elem_of_In, in_app_or in Hone as [Hin|[->|[]]];
          [exact (Hnla Hin)|exact (Hsla eq_refl)]. }
      intros n0 Hn0. rewrite Hg0 in Hn0. injection Hn0 as <-.
      eexists. split; [exact Hcg|]. split; [|intros sl; apply slotPtr_replaceChild_None].
      intros sl c Hc Hne.
      apply slotPtr_replaceChild; [exact Hxn|exact Hc|]. apply Hne. left. reflexivity.
    + intros gg Hggl. apply agree_same. apply Hco.
      * rewrite Forall_forall in Hlive. apply Hlive, list_elem_of_In, grandOf_In, Hggl.
      * exact (grandOf_last_ne pa gg g Hndpa Hggl Hpar).
      * intros ->. apply Hspa, grandOf_In, Hggl.
  - (* a use that is an array *)
    assert (Hlk' : linkerPath cs (map Some pa) = false) by (rewrite <- Hlp1; exact Hlk).
    destruct Hlinker as [Hl|Hnla]; [congruence|].
    apply getParentNode_map in Hpar.
    pose proof (grandOf_map pa gg Hlong Hgg) as Hgrand.
    assert (Hbs : b <> s) by (intros ->; apply Hspa, last_In, Hpar).
    assert (Hggs : gg <> s) by (intros ->; apply Hspa, grandOf_In, Hgrand).
    assert (Hggb : gg <> b) by exact (grandOf_last_ne pa gg b Hndpa Hgrand Hpar).
    assert (Hb0 : cs !! b = Some (TIntermBinary op l r bty)).
    { unfold cs1 in Hb. rewrite list_lookup_insert_ne in Hb; auto. }
    assert (Hblt : b < length cs) by (eapply lookup_lt_Some; exact Hb0).
    assert (Hgglt : gg < length cs).
    { rewrite Forall_forall in Hlive. apply Hlive, list_elem_of_In, grandOf_In, Hgrand. }
    assert (Hggla : gg <> la) by (intros ->; apply Hnla, grandOf_In, Hgrand).
    set (bn' := TIntermBinary op l r
                  (clearArraySizes (UniformTypeChangeTraverser.promotedType type))) in *.
    set (cs2 := <[b := bn']> cs1) in *.
    set (nw := TIntermAggregate (mapTypeToConstructorOp bty) [Some b] bty) in *.
    assert (Hlen2 : length cs2 = length cs) by (unfold cs2; rewrite length_insert; exact Hlen1).
    assert (Hgg2 : cs2 !! gg = Some ng).
    { assert (Hng' : (cs2 ++ [nw]) !! gg = Some ng) by exact Hng.
      rewrite lookup_app_l in Hng' by lia. exact Hng'. }
    assert (Hgg0 : cs !! gg = Some ng).
    { rewrite <- Hgg2. unfold cs2, cs1. look. reflexivity. }
    assert (Hch2 : forall x, childrenAt cs2 x = childrenAt cs x).
    { intros x. rewrite <- Hch1. apply (childrenAt_insert_same cs1 b _ bn' x Hb). reflexivity. }
    assert (Hcandarr : isPromoted type && isArray type = true) by (rewrite Hcand, Harr; reflexivity).
    pose proof (Hv2 gg b Hcandarr Hgrand Hpar) as Hxin.
    assert (Hxn : In (Some b) (children ng)) by (rewrite <- (childrenAt_lookup _ _ _ Hgg0); exact Hxin).
    set (cs' := <[gg := replaceChild (Some b) (Some (length cs)) ng]> (cs2 ++ [nw])).
    assert (Hd : detour cs cs' gg (Some b)).
    { apply (detour_make cs cs2 gg ng (Some b) nw); auto. }
    assert (Hcg : cs' !! gg = Some (replaceChild (Some b) (Some (length cs)) ng)).
    { unfold cs'. look. reflexivity. }
    assert (Hcb : cs' !! b = Some bn') by (unfold cs', cs2; look; reflexivity).
    assert (Hcs : cs' !! s = Some sym') by (unfold cs', cs2, cs1; look; reflexivity).
    assert (Hco : forall x, x < length cs -> x <> gg -> x <> b -> x <> s -> cs' !! x = cs !! x).
    { intros x Hx Hxg Hxb Hxs. unfold cs', cs2, cs1. look. reflexivity. }
    split.
    + apply (evolves_detour la [s] cs cs' gg (Some b) Hd Hla Hggla Hxin).
      * intros c [= <-]. exact Hblt.
      * intros a n0 Ha.
        destruct (decide (a = gg)) as [->|Hag];
          [|destruct (decide (a = b)) as [->|Hab]; [|destruct (decide (a = s)) as [->|Has]]].
        -- rewrite Hgg0 in Ha. injection Ha as <-. eexists. split; [exact Hcg|].
           apply kindOf_replaceChild.
        -- rewrite Hb0 in Ha. injection Ha as <-. exists bn'. split; [exact Hcb|reflexivity].
        -- rewrite Hs in Ha. injection Ha as <-. exists sym'. split; [exact Hcs|reflexivity].
        -- exists n0. split; [|reflexivity]. rewrite Hco; auto. eapply lookup_lt_Some; exact Ha.
      * intros a [<-|[]]. rewrite (symbolAt_lookup _ _ _ _ _ Hs). simpl.
        rewrite promoteD_promoted by exact Hcand. apply (symbolAt_lookup _ _ id), Hcs.
      * intros a Ha Hne.
        destruct (decide (a = gg)) as [->|Hag]; [|destruct (decide (a = b)) as [->|Hab]].
        -- eapply symbolAt_kind; [exact Hgg0|exact Hcg|apply kindOf_replaceChild|].
           eapply children_symbol_parent; exact Hxn.
        -- eapply symbolAt_kind; [exact Hb0|exact Hcb|reflexivity|discriminate].
        -- apply symbolAt_same, Hco; auto. intros ->. apply Hne. left. reflexivity.
      * unfold symbolAt, cs'. rewrite list_lookup_insert_ne by lia.
        rewrite lookup_app_r by lia. rewrite Hlen2, Nat.sub_diag. reflexivity.
    + intros x Hx Hnx Hxb Hxg. apply Hco; [exact Hx| | |].
      * intros ->. apply Hxg. exact Hgrand.
      * intros ->. apply Hxb. exact Hpar.
      * intros ->. apply Hnx. left. reflexivity.
    + intros g0 Hg0l. rewrite Hpar in Hg0l. injection Hg0l as <-.
      intros n0 Hn0. rewrite Hb0 in Hn0. injection Hn0 as <-.
      exists bn'. split; [exact Hcb|]. split; [intros sl c Hc _|intros sl Hc]; destruct sl; exact Hc.
    + intros gg0 Hggl. rewrite Hgrand in Hggl. injection Hggl as <-.
      rewrite Hpar. simpl.
      apply (agree_weaken [b]).
      { intros x [<-|[]]. unfold onSide. cbn [rootOf].
        rewrite decide_False; [left; reflexivity|]. intros Hone.
        apply list_elem_of_lookup_2, list_elem_of_In, in_app_or in Hone as [Hin|[->|[]]];
          [exact (Hnla Hin)|exact (Hsla eq_refl)]. }
      intros n0 Hn0. rewrite Hgg0 in Hn0. injection Hn0 as <-.
      eexists. split; [exact Hcg|]. split; [|intros sl; apply slotPtr_replaceChild_None].
      intros sl c Hc Hne.
      apply slotPtr_replaceChild; [exact Hxn|exact Hc|]. apply Hne. left. reflexivity.
Qed.

Lemma grandOf_snoc pa a : grandOf (pa ++ [a]) = last pa.
Proof.
  unfold grandOf. rewrite length_app. simpl.
  destruct pa as [|x pa'] using rev_ind; [reflexivity|].
  rewrite decide_True by (rewrite length_app; simpl; lia).
  rewrite last_snoc. rewrite length_app. simpl.
  replace (length pa' + 1 + 1 - 2) with (length pa') by lia.
  rewrite lookup_app_l by (rewrite length_app; simpl; lia).
  rewrite lookup_app_r by lia. rewrite Nat.sub_diag. reflexivity.
Qed.

Lemma isArrayLeaf_ext cs cs' a : cs' !! a = cs !! a -> isArrayLeaf cs' a = isArrayLeaf cs a.
Proof. intros H. unfold isArrayLeaf. rewrite (symbolAt_same _ _ _ H). reflexivity. Qed.

Lemma forallb_ext_In {A} (f g : A -> bool) l :
  (forall x, In x l -> f x = g x) -> forallb f l = forallb g l.
Proof.
  induction l as [|x l IH]; intros H; [reflexivity|]. simpl.
  rewrite (H x) by (left; reflexivity). rewrite IH; [reflexivity|].
  intros y Hy. apply H. right. exact Hy.
Qed.

Lemma arrayUseOK_ext cs cs' la :
  forall t pa, (forall a, In a (addresses t) -> cs' !! a = cs !! a) ->
               arrayUseOK cs' la pa t = arrayUseOK cs la pa t.
Proof.
  induction t as [r kids IH] using tree_ind'. intros pa Hsame. cbn [arrayUseOK]. f_equal.
  - f_equal. apply forallb_ext_In. intros k Hk. f_equal. apply isArrayLeaf_ext, Hsame.
    right. apply in_flat_map. exists k. split; [|apply rootOf_addresses].
    destruct kids; [contradiction|right; exact Hk].
  - apply forallb_ext_In. intros k Hk. rewrite Forall_forall in IH.
    apply IH; [apply list_elem_of_In, Hk|]. intros a Ha. apply Hsame. right.
    apply in_flat_map. exists k. auto.
Qed.

Lemma evolves_widen la V V' cs cs' :
  evolves la V cs cs' ->
  (forall x, In x V -> In x V') ->
  (forall x, In x V' -> ~ In x V -> x < length cs /\ symbolAt cs x = None) ->
  evolves la V' cs cs'.
Proof.
  intros H Hsub Hextra.
  split; try (apply H).
  - intros a Ha. destruct (in_dec Nat.eq_dec a V) as [Hin|Hnin]; [apply H, Hin|].
    destruct (Hextra a Ha Hnin) as [Hlt Hnone].
    rewrite (ev_others _ _ _ _ H a Hlt Hnin). rewrite Hnone. reflexivity.
  - intros a Ha Hnin. apply (ev_others _ _ _ _ H a Ha). intros Hin. apply Hnin, Hsub, Hin.
Qed.

Lemma isLinker_evolves la V cs cs' : evolves la V cs cs' -> isLinker cs la -> isLinker cs' la.
Proof.
  intros H (sequence & type & Hla).
  destruct (ev_kind _ _ _ _ H la _ Hla) as (n' & Hn' & Hk).
  unfold kindOf in Hk. destruct n'; simpl in Hk; try discriminate Hk.
  injection Hk as ->. unfold isLinker. eauto.
Qed.

Lemma isLinker_lt cs la : isLinker cs la -> la < length cs.
Proof. intros (sequence & type & Hla). eapply lookup_lt_Some. exact Hla. Qed.

Lemma NoDup_app_In {A} (l1 l2 : list A) x : NoDup (l1 ++ l2) -> In x l1 -> In x l2 -> False.
Proof.
  intros Hnd H1 H2. apply NoDup_app in Hnd as (_ & Hdisj & _).
  apply (Hdisj x); apply list_elem_of_In; assumption.
Qed.

Section PromoterNode.
Context (la a : nat) (pa : list nat) (kids : list tree) (fuel : nat)
        (cs : list TIntermNode) (n : TIntermNode).
Hypothesis Hn : cs !! a = Some n.
Hypothesis Hnd : NoDup (pa ++ a :: flat_map addresses kids).
Hypothesis Hshapes : Forall (shape cs) kids.
Hypothesis Harr : arrayUseOK cs la pa (Node a kids) = true.
Hypothesis Hlive : Forall (fun x => x < length cs) pa.
Hypothesis Hlinker : isLinker cs la.
Hypothesis Hparent : forall g, last pa = Some g -> In (Some a) (childrenAt cs g).
Hypothesis Hkids :
  Forall (fun k => forall st h st' h',
            enters la (pa ++ [a]) k (cells h) ->
            traverse UniformTypeChangeTraverser.traverser fuel (map Some (pa ++ [a]))
              (Some (rootOf k)) st h = Ok (st', h') ->
            traversed la (pa ++ [a]) k (cells h) (cells h')) kids.

Lemma promoter_kid_enters visited k rem hc :
  kids = visited ++ k :: rem ->
  inLoop la a pa visited cs (cells hc) ->
  In (Some (rootOf k)) (childrenAt (cells hc) a) ->
  enters la (pa ++ [a]) k (cells hc).
Proof.
  intros Hsplit Hloop Hslot.
  pose proof (lp_evolves _ _ _ _ _ _ Hloop) as Hev.
  pose proof (ev_length _ _ _ _ Hev) as Hlen.
  assert (Hk : In k kids) by (rewrite Hsplit; apply in_or_app; right; left; reflexivity).
  assert (Hsh : shape cs k) by (rewrite Forall_forall in Hshapes; apply Hshapes, list_elem_of_In, Hk).
  apply NoDup_app in Hnd as (Hndpa & Hdisj & Hndt). apply NoDup_cons in Hndt as [Hak Hndk].
  rewrite Hsplit, flat_map_app in Hndk. cbn [flat_map] in Hndk.
  apply NoDup_app in Hndk as (Hndv & Hdv & Hndr). apply NoDup_app in Hndr as (Hndk & Hdk & _).
  assert (Hsame : forall x, In x (addresses k) -> cells hc !! x = cs !! x).
  { intros x Hx. apply (lp_frame _ _ _ _ _ _ Hloop).
    - exact (shape_addresses cs k x Hsh Hx).
    - intros Hin. apply (Hdv x); [apply list_elem_of_In, Hin|].
      apply list_elem_of_In, in_or_app. left. exact Hx.
    - intros ->. apply Hak. apply list_elem_of_In, in_flat_map. exists k. auto.
    - intros Hl. apply (Hdisj x); [apply list_elem_of_In, last_In, Hl|].
      apply list_elem_of_In. right. apply in_flat_map. exists k. auto. }
  split.
  - apply (shape_ext cs); [exact Hsame|exact Hsh].
  - rewrite (arrayUseOK_ext cs (cells hc) la k (pa ++ [a]) Hsame).
    cbn [arrayUseOK] in Harr. apply andb_true_iff in Harr as [_ Hall].
    rewrite forallb_forall in Hall. apply Hall, Hk.
  - rewrite <- app_assoc. simpl. apply NoDup_app. split; [exact Hndpa|]. split.
    + intros x Hx Hin. apply (Hdisj x Hx). apply list_elem_of_In in Hin.
      apply list_elem_of_In. destruct Hin as [<-|Hin]; [left; reflexivity|right].
      apply in_flat_map. exists k. auto.
    + apply NoDup_cons. split; [|exact Hndk]. intros Hin. apply Hak.
      apply list_elem_of_In, in_flat_map. exists k. split; [exact Hk|apply list_elem_of_In, Hin].
  - apply Forall_app. split.
    + eapply Forall_impl; [exact Hlive|]. intros x Hx. simpl in Hx. lia.
    + constructor; [|constructor]. apply lookup_lt_Some in Hn. lia.
  - exact (isLinker_evolves _ _ _ _ Hev Hlinker).
  - intros g Hg. rewrite last_snoc in Hg. injection Hg as <-. exact Hslot.
  - intros Hleaf gg g Hgg Hg. rewrite last_snoc in Hg. injection Hg as <-.
    rewrite grandOf_snoc in Hgg.
    rewrite (isArrayLeaf_ext cs (cells hc)) in Hleaf by (apply Hsame, rootOf_addresses).
    destruct visited as [|v visited].
    + rewrite (lp_first _ _ _ _ _ _ Hloop eq_refl). apply Hparent, Hgg.
    + cbn [arrayUseOK] in Harr. apply andb_true_iff in Harr as [Htail _].
      apply orb_true_iff in Htail as [Hside|Htail].
      * apply bool_decide_eq_true_1 in Hside.
        pose proof (lp_parent _ _ _ _ _ _ Hloop gg Hgg) as Hag.
        unfold onSide in Hag. rewrite decide_True in Hag by exact Hside.
        exact (agree_children [] cs (cells hc) gg (Some a) (fun x Hx => match Hx with end)
                 Hag (Hparent gg Hgg)).
      * exfalso. rewrite Hsplit in Htail. simpl in Htail. rewrite forallb_forall in Htail.
        specialize (Htail k). rewrite Hleaf in Htail. simpl in Htail.
        assert (false = true); [|discriminate]. apply Htail, in_or_app. right. left. reflexivity.
Qed.


Lemma promoter_kid_done visited k rem cs1 cs2 :
  kids = visited ++ k :: rem ->
  inLoop la a pa visited cs cs1 ->
  traversed la (pa ++ [a]) k cs1 cs2 ->
  inLoop la a pa (visited ++ [k]) cs cs2.
Proof.
  intros Hsplit Hloop Hkid.
  pose proof (lp_evolves _ _ _ _ _ _ Hloop) as Hev.
  pose proof (ev_length _ _ _ _ Hev) as Hlen.
  split.
  - rewrite flat_map_app. cbn [flat_map]. rewrite app_nil_r.
    exact (evolves_trans _ _ _ _ _ _ Hev (tr_evolves _ _ _ _ _ Hkid)).
  - intros x Hx Hnin Hxa Hxl. rewrite flat_map_app in Hnin. cbn [flat_map] in Hnin.
    rewrite app_nil_r in Hnin.
    rewrite (tr_frame _ _ _ _ _ Hkid x).
    + apply (lp_frame _ _ _ _ _ _ Hloop); auto. intros Hin. apply Hnin, in_or_app. auto.
    + lia.
    + intros Hin. apply Hnin, in_or_app. auto.
    + rewrite last_snoc. congruence.
    + rewrite grandOf_snoc. exact Hxl.
  - rewrite flat_map_app. cbn [flat_map]. rewrite app_nil_r.
    apply (agree_trans _ _ _ cs1); [exact (lp_node _ _ _ _ _ _ Hloop)|].
    apply (tr_parent _ _ _ _ _ Hkid). apply last_snoc.
  - intros g Hg.
    apply (agree_weaken (onSide la pa a [a] ++ onSide la pa a [a]));
      [intros x Hx; apply in_app_or in Hx as [Hx|Hx]; exact Hx|].
    apply (agree_trans _ _ _ cs1); [exact (lp_parent _ _ _ _ _ _ Hloop g Hg)|].
    pose proof (tr_grand _ _ _ _ _ Hkid g) as Hgr. rewrite grandOf_snoc, last_snoc in Hgr.
    simpl in Hgr. unfold onSide in Hgr |- *.
    assert (Hlong : 1 < length (pa ++ [a])).
    { rewrite length_app. simpl. destruct pa; [discriminate|simpl; lia]. }
    rewrite (lookup_app_l (pa ++ [a]) [rootOf k]) in Hgr by exact Hlong.
    apply Hgr, Hg.
  - intros Hnil. destruct visited; discriminate.
Qed.

Lemma promoter_slots :
  forall slots rem visited st hc st' h',
    kids = visited ++ rem ->
    kidsOfSlots n slots = Some (map rootOf rem) ->
    inLoop la a pa visited cs (cells hc) ->
    traverseSlots (traverse UniformTypeChangeTraverser.traverser fuel) (map Some pa) (Some a)
      slots st hc = Ok (st', h') ->
    inLoop la a pa kids cs (cells h').
Proof.
  induction slots as [|[guarded sl] slots IH]; intros rem visited st hc st' h' Hsplit Hks Hloop Hrun.
  - simpl in Hks. injection Hks as Hks. symmetry in Hks. apply map_eq_nil in Hks. subst rem.
    rewrite app_nil_r in Hsplit. subst visited. cbv beta delta [traverseSlots ret] in Hrun.
    injection Hrun as _ <-. exact Hloop.
  - cbn [traverseSlots] in Hrun. apply bind_Ok in Hrun as (st1 & h1 & Hslot & Hrun).
    destruct (lp_node _ _ _ _ _ _ Hloop n Hn) as (ncur & Hcur & Hagree & _).
    rewrite (traverseSlot_spec _ _ _ _ _ _ _ _ Hcur) in Hslot.
    cbn [kidsOfSlots] in Hks.
    destruct (slotPtr n sl) as [[c|]|] eqn:Hsl; [| |discriminate].
    + assert (Hex : exists ks, kidsOfSlots n slots = Some ks /\ map rootOf rem = c :: ks).
      { clear IH. destruct (kidsOfSlots n slots) as [ks|]; [|discriminate].
        exists ks. split; [reflexivity|]. simpl in Hks. congruence. }
      clear Hks. destruct Hex as (ks & Hrest & Hks).
      destruct rem as [|k rem]; [discriminate|]. simpl in Hks. injection Hks as Hc Hks'.
      subst c ks.
      assert (Hfresh : forall x,
                In x (flat_map (fun k => onSide la (pa ++ [a]) (rootOf k) [rootOf k]) visited) ->
                Some (rootOf k) <> Some x).
      { intros x Hx [= <-]. apply in_flat_map in Hx as (v & Hin & Hv).
        unfold onSide in Hv.
        destruct (decide (((pa ++ [a]) ++ [rootOf v]) !! 1 = Some la)); [contradiction|].
        destruct Hv as [Hv|[]].
        apply NoDup_app in Hnd as (_ & _ & Hndt). apply NoDup_cons in Hndt as [_ Hndk].
        apply NoDup_roots in Hndk. rewrite Hsplit, map_app in Hndk.
        apply (NoDup_app_In _ _ (rootOf k) Hndk).
        - rewrite <- Hv. apply in_map, Hin.
        - left. reflexivity. }
      rewrite (Hagree sl (Some (rootOf k)) Hsl Hfresh) in Hslot.
      assert (Hin : In (Some (rootOf k)) (childrenAt (cells hc) a)).
      { rewrite (childrenAt_lookup _ _ _ Hcur). eapply slotPtr_children.
        exact (Hagree sl (Some (rootOf k)) Hsl Hfresh). }
      pose proof (promoter_kid_enters visited k rem hc Hsplit Hloop Hin) as Henter.
      assert (Hk : In k kids) by (rewrite Hsplit; apply in_or_app; right; left; reflexivity).
      pose proof (proj1 (Forall_forall _ _) Hkids) as Hkids'.
      change (map Some pa ++ [Some a]) with (map Some pa ++ map Some [a]) in Hslot.
      rewrite <- map_app in Hslot.
      pose proof (Hkids' k (proj2 (list_elem_of_In _ _) Hk) st hc st1 h1 Henter Hslot) as Hdone.
      apply (IH rem (visited ++ [k]) st1 h1 st' h').
      * rewrite <- app_assoc. exact Hsplit.
      * exact Hrest.
      * exact (promoter_kid_done visited k rem _ _ Hsplit Hloop Hdone).
      * exact Hrun.
    + destruct guarded; [|discriminate].
      rewrite (Hagree sl None Hsl) in Hslot by (intros x _; discriminate).
      injection Hslot as <- <-.
      exact (IH rem visited st hc st' h' Hsplit Hks Hloop Hrun).
Qed.

Lemma inLoop_start : inLoop la a pa [] cs cs.
Proof.
  split.
  - apply evolves_refl.
  - reflexivity.
  - apply agree_refl.
  - intros g _. apply agree_refl.
  - reflexivity.
Qed.

Lemma inLoop_traversed cs' :
  classOf n <> CSymbol ->
  inLoop la a pa kids cs cs' -> traversed la pa (Node a kids) cs cs'.
Proof.
  intros Hclass Hloop. pose proof Hnd as Hnd0.
  apply NoDup_app in Hnd0 as (Hndpa & Hdisj & Hndt).
  split.
  - apply (evolves_widen la (flat_map addresses kids)); [exact (lp_evolves _ _ _ _ _ _ Hloop)| |].
    + intros x Hx. right. exact Hx.
    + intros x [<-|Hx] Hnin; [|contradiction]. split; [eapply lookup_lt_Some; exact Hn|].
      unfold symbolAt. rewrite Hn. destruct n; try reflexivity. contradiction.
  - intros x Hx Hnin Hl _. apply (lp_frame _ _ _ _ _ _ Hloop); auto.
    + intros Hin. apply Hnin. right. exact Hin.
    + intros ->. apply Hnin. left. reflexivity.
  - intros g Hg. exact (lp_parent _ _ _ _ _ _ Hloop g Hg).
  - intros gg Hgg. apply agree_same. apply (lp_frame _ _ _ _ _ _ Hloop).
    + rewrite Forall_forall in Hlive. apply Hlive, list_elem_of_In, grandOf_In, Hgg.
    + intros Hin. apply (Hdisj gg); [apply list_elem_of_In, grandOf_In, Hgg|].
      apply list_elem_of_In. right. exact Hin.
    + intros ->. apply (Hdisj a); [apply list_elem_of_In, grandOf_In, Hgg|]. left.
    + intros Hl. exact (grandOf_last_ne pa gg gg Hndpa Hgg Hl eq_refl).
Qed.

(** The promoter at a node that is no symbol. *)
Lemma promoter_node_loop st h st' h' :
  cells h = cs ->
  classOf n <> CSymbol ->
  kidsOf n = Some (map rootOf kids) ->
  traverse UniformTypeChangeTraverser.traverser (S fuel) (map Some pa) (Some a) st h = Ok (st', h') ->
  inLoop la a pa kids cs (cells h').
Proof.
  intros Hcs Hclass Hks Hrun.
  assert (Hn' : cells h !! a = Some n) by (rewrite Hcs; exact Hn).
  cbn [traverse] in Hrun. rewrite (bind_of_Ok _ _ _ _ _ (deref_of_lookup _ _ _ Hn')) in Hrun.
  assert (Hstart : inLoop la a pa [] cs (cells h)) by (rewrite Hcs; apply inLoop_start).
  assert (Hdown : forall st0,
            traverseSlots (traverse UniformTypeChangeTraverser.traverser fuel) (map Some pa)
              (Some a) (childSlots n) st0 h = Ok (st', h') ->
            inLoop la a pa kids cs (cells h')).
  { intros st0 Hd. apply (promoter_slots (childSlots n) kids [] st0 h st' h'); auto. }
  destruct n; try (exact (Hdown st Hrun)). contradiction.
Qed.

Lemma promoter_node st h st' h' :
  cells h = cs ->
  classOf n <> CSymbol ->
  kidsOf n = Some (map rootOf kids) ->
  traverse UniformTypeChangeTraverser.traverser (S fuel) (map Some pa) (Some a) st h = Ok (st', h') ->
  traversed la pa (Node a kids) cs (cells h').
Proof.
  intros Hcs Hclass Hks Hrun. apply inLoop_traversed; [exact Hclass|].
  exact (promoter_node_loop st h st' h' Hcs Hclass Hks Hrun).
Qed.

End PromoterNode.

Lemma linkerPath_linker cs la (pa : list nat) :
  isLinker cs la -> pa !! 1 = Some la -> linkerPath cs (map Some pa) = true.
Proof.
  intros (sequence & type & Hla) Hp. unfold linkerPath.
  change (map Some pa) with (Some <$> pa). rewrite list_lookup_fmap, Hp. simpl.
  rewrite Hla. reflexivity.
Qed.

Theorem promoter_subtree la :
  forall t fuel pa st h st' h',
    enters la pa t (cells h) ->
    linkerSide la pa t ->
    traverse UniformTypeChangeTraverser.traverser fuel (map Some pa) (Some (rootOf t)) st h =
      Ok (st', h') ->
    traversed la pa t (cells h) (cells h').
Proof.
  induction t as [a kids IH] using tree_ind'. intros fuel pa st h st' h' Hen Hside Hrun.
  destruct fuel as [|fuel]; [discriminate|].
  pose proof (en_shape _ _ _ _ Hen) as Hshape.
  apply shape_inv in Hshape as (n & Ha & Hks & Hshapes).
  destruct (decide (classOf n = CSymbol)) as [Hsym|Hnsym].
  - destruct n as [id name type| | | | | | | |]; try discriminate.
    rewrite kidsOf_symbol in Hks. injection Hks as Hks. symmetry in Hks.
    apply map_eq_nil in Hks. subst kids.
    cbn [traverse rootOf] in Hrun.
    rewrite (bind_of_Ok _ _ _ _ _ (deref_of_lookup _ _ _ Ha)) in Hrun.
    cbn [visitSymbol UniformTypeChangeTraverser.traverser] in Hrun.
    apply (promoter_leaf la pa a st h st' h' id name type Ha); try exact Hrun.
    + exact (en_live _ _ _ _ Hen).
    + exact (en_nodup _ _ _ _ Hen).
    + exact (en_linker _ _ _ _ Hen).
    + destruct Hside as [Hone|[Hnot _]]; [left|right; exact Hnot].
      apply (linkerPath_linker _ la); [exact (en_linker _ _ _ _ Hen)|].
      cbn [rootOf] in Hone. destruct pa as [|p0 [|p1 pa]]; [discriminate| |exact Hone].
      simpl in Hone. injection Hone as ->.
      destruct (en_linker _ _ _ _ Hen) as (sequence & ltype & Hla). congruence.
    + exact (en_parent _ _ _ _ Hen).
    + intros gg g Hleaf. apply (en_grand _ _ _ _ Hen).
      unfold isArrayLeaf. cbn [rootOf]. rewrite (symbolAt_lookup _ _ _ _ _ Ha). exact Hleaf.
  - cbn [rootOf] in Hrun.
    refine (promoter_node la a pa kids fuel (cells h) n Ha (en_nodup _ _ _ _ Hen) Hshapes
              (en_arrays _ _ _ _ Hen) (en_live _ _ _ _ Hen) (en_linker _ _ _ _ Hen)
              (en_parent _ _ _ _ Hen) _ st h st' h' eq_refl Hnsym Hks Hrun).
    + rewrite Forall_forall in IH. apply Forall_forall. intros k Hk st0 h0 st1 h1 Hen0 Hrun0.
      apply (IH k Hk fuel (pa ++ [a]) st0 h0 st1 h1 Hen0); [|exact Hrun0].
      destruct Hside as [Hone|[Hnpa Hnt]].
      * left. cbn [rootOf] in Hone. rewrite lookup_app_l; [exact Hone|].
        apply lookup_lt_Some in Hone. exact Hone.
      * right. split.
        -- intros Hin. apply in_app_or in Hin as [Hin|[<-|[]]]; [exact (Hnpa Hin)|].
           apply Hnt. left. reflexivity.
        -- intros Hin. apply Hnt. right. apply in_flat_map. exists k.
           split; [apply list_elem_of_In, Hk|exact Hin].
Qed.

(** ** The graph of a tree-shaped pool *)

Lemma children_kidsOf n ks k : kidsOf n = Some ks -> In (Some k) (children n) -> In k ks.
Proof.
  destruct n as [| |op sequence type|op l r type|op operand type|c t e type|b t e|op e|c b];
    unfold kidsOf; simpl.
  - intros _ [].
  - intros _ [].
  - intros H Hin. apply (kidsOf_aggregate op sequence type) in H. subst sequence.
    apply in_map_iff in Hin as (x & [= ->] & Hx). exact Hx.
  - destruct l, r; simpl; intros [= <-] Hin; simpl in *; intuition congruence.
  - destruct operand; simpl; [|discriminate]. intros [= <-] Hin. simpl in *. intuition congruence.
  - destruct c, t, e; simpl; try discriminate; intros [= <-] Hin; simpl in *;
      intuition congruence.
  - destruct b, t, e; simpl; intros [= <-] Hin; simpl in *; intuition congruence.
  - destruct e; simpl; intros [= <-] Hin; simpl in *; intuition congruence.
  - destruct c, b; simpl; try discriminate; intros [= <-] Hin; simpl in *;
      intuition congruence.
Qed.

Lemma shape_edge cs a kids c :
  shape cs (Node a kids) -> edge cs a c <-> In c (map rootOf kids).
Proof.
  intros Hshape. apply shape_inv in Hshape as (n & Ha & Hkids & _).
  unfold edge, childrenAt. rewrite Ha. split.
  - apply children_kidsOf, Hkids.
  - apply kidsOf_children, Hkids.
Qed.

(** Every node of a tree roots a subtree of it. *)
Lemma subtree_at cs :
  forall t b, shape cs t -> In b (addresses t) ->
    exists kids, shape cs (Node b kids) /\ incl (addresses (Node b kids)) (addresses t).
Proof.
  induction t as [a kids IH] using tree_ind'. intros b Hshape Hb.
  destruct Hb as [<-|Hb].
  - exists kids. split; [exact Hshape|apply incl_refl].
  - apply shape_inv in Hshape as (n & _ & _ & Hshapes).
    apply in_flat_map in Hb as (k & Hk & Hb).
    rewrite Forall_forall in IH, Hshapes.
    destruct (IH k (proj2 (list_elem_of_In _ _) Hk) b
                (Hshapes k (proj2 (list_elem_of_In _ _) Hk)) Hb) as (kids' & Hs & Hincl).
    exists kids'. split; [exact Hs|].
    intros x Hx. right. apply in_flat_map. exists k. split; [exact Hk|apply Hincl, Hx].
Qed.

Lemma tree_edge cs t b c :
  shape cs t -> In b (addresses t) -> edge cs b c -> In c (addresses t).
Proof.
  intros Hshape Hb He. destruct (subtree_at cs t b Hshape Hb) as (kids & Hs & Hincl).
  apply Hincl. right. apply roots_addresses. apply (shape_edge cs b kids c Hs). exact He.
Qed.

(** What is reached from a node of a tree lies in the tree. *)
Lemma reach_in_tree cs la t a b :
  shape cs t -> In a (addresses t) -> reachAvoid cs la a b -> In b (addresses t).
Proof.
  intros Hshape Ha Hr. induction Hr as [a _|a c b _ He _ IH].
  - exact Ha.
  - apply IH. exact (tree_edge cs t a c Hshape Ha He).
Qed.

(** Every node of a tree without the linker objects is reached from its
    root. *)
Lemma tree_reach cs la :
  forall t b, shape cs t -> ~ In la (addresses t) -> In b (addresses t) ->
    reachAvoid cs la (rootOf t) b.
Proof.
  induction t as [a kids IH] using tree_ind'. intros b Hshape Hla Hb.
  assert (Hane : a <> la) by (intros ->; apply Hla; left; reflexivity).
  destruct Hb as [<-|Hb]; [apply reach_here; exact Hane|].
  pose proof Hshape as Hshape0.
  apply shape_inv in Hshape as (n & _ & _ & Hshapes).
  apply in_flat_map in Hb as (k & Hk & Hb).
  rewrite Forall_forall in IH, Hshapes.
  apply (reach_step cs la a (rootOf k) b Hane).
  - apply (shape_edge cs a kids _ Hshape0). apply in_map, Hk.
  - apply (IH k (proj2 (list_elem_of_In _ _) Hk) b (Hshapes k (proj2 (list_elem_of_In _ _) Hk)));
      [|exact Hb].
    intros Hin. apply Hla. right. apply in_flat_map. exists k. split; assumption.
Qed.

Lemma shape_sound cs la t a : shape cs t -> In a (addresses t) -> sound cs la a.
Proof.
  intros Hshape Ha b c Hr He.
  apply (shape_addresses cs t c Hshape).
  apply (tree_edge cs t b c Hshape); [|exact He].
  exact (reach_in_tree cs la t a b Hshape Ha Hr).
Qed.

Section StageGraph.
Context (cs : list TIntermNode) (r : nat) (body : list tree) (lk : tree).
Hypothesis Hstage : stage cs r body lk.

Lemma stage_root_ne : r <> rootOf lk.
Proof.
  pose proof (stage_nodup _ _ _ _ Hstage) as Hnd. simpl in Hnd.
  apply NoDup_cons in Hnd as [Hr _]. intros E. apply Hr. rewrite E.
  apply list_elem_of_In, in_flat_map. exists lk.
  split; [apply in_or_app; right; left; reflexivity|apply rootOf_addresses].
Qed.

Lemma stage_body_apart k x : In k body -> In x (addresses k) -> ~ In x (addresses lk).
Proof.
  intros Hk Hx Hin.
  pose proof (stage_nodup _ _ _ _ Hstage) as Hnd. simpl in Hnd.
  apply NoDup_cons in Hnd as [_ Hnd]. rewrite flat_map_app in Hnd.
  apply NoDup_app in Hnd as (_ & Hdisj & _).
  apply (Hdisj x).
  - apply list_elem_of_In, in_flat_map. exists k. split; assumption.
  - simpl. rewrite app_nil_r. apply list_elem_of_In, Hin.
Qed.

Lemma stage_root_apart : ~ In r (flat_map addresses (body ++ [lk])).
Proof.
  pose proof (stage_nodup _ _ _ _ Hstage) as Hnd. simpl in Hnd.
  apply NoDup_cons in Hnd as [Hr _]. intros Hin. apply Hr, list_elem_of_In, Hin.
Qed.

Lemma stage_children_root : childrenAt cs r = map Some (map rootOf (body ++ [lk])).
Proof.
  destruct (stage_root_sequence cs r body lk Hstage) as (op & type & Hr).
  unfold childrenAt. rewrite Hr. reflexivity.
Qed.

Lemma stage_last : last (childrenAt cs r) = Some (Some (rootOf lk)).
Proof. rewrite stage_children_root, !map_app. simpl. apply last_snoc. Qed.

(** What the root reaches without passing through the linker objects: itself
    and the nodes of the body. *)
Lemma stage_reach b :
  reachAvoid cs (rootOf lk) r b <-> b = r \/ In b (flat_map addresses body).
Proof.
  pose proof (stage_shape _ _ _ _ Hstage) as Hshape.
  split.
  - intros Hr. inversion Hr as [a Hne|a c b' Hne He Hr']; subst; [left; reflexivity|].
    right. apply (shape_edge cs r _ c Hshape) in He.
    rewrite map_app in He. apply in_app_or in He as [He|He].
    + apply in_map_iff in He as (k & <- & Hk).
      apply in_flat_map. exists k. split; [exact Hk|].
      destruct (stage_kid_shape cs r body lk Hstage k) as [Hks _];
        [apply in_or_app; left; exact Hk|].
      exact (reach_in_tree cs (rootOf lk) k (rootOf k) b Hks (rootOf_addresses k) Hr').
    + simpl in He. destruct He as [<-|[]].
      exfalso. apply reachAvoid_start in Hr'. apply Hr'. reflexivity.
  - intros [->|Hb]; [apply reach_here, stage_root_ne|].
    apply in_flat_map in Hb as (k & Hk & Hb).
    destruct (stage_kid_shape cs r body lk Hstage k) as [Hks _];
      [apply in_or_app; left; exact Hk|].
    apply (reach_step cs (rootOf lk) r (rootOf k) b stage_root_ne).
    + apply (shape_edge cs r _ _ Hshape). apply in_map, in_or_app. left. exact Hk.
    + apply tree_reach; [exact Hks| |exact Hb].
      intros Hin. apply (stage_body_apart k (rootOf lk) Hk Hin). apply rootOf_addresses.
Qed.

Lemma stage_sound : sound cs (rootOf lk) r.
Proof.
  apply (shape_sound cs (rootOf lk) (Node r (body ++ [lk])) r (stage_shape _ _ _ _ Hstage)).
  left. reflexivity.
Qed.

End StageGraph.

(** ** The invariant under a pass that inserts nodes and retypes symbols *)

Lemma entry_live cs e d : symbolAt cs e = Some d -> e < length cs.
Proof.
  unfold symbolAt. destruct (cs !! e) eqn:E; [|discriminate].
  intros _. eapply lookup_lt_Some. exact E.
Qed.

Lemma evolves_invariant exempt la V cs cs' r (f : string * TType -> string * TType) :
  linkerInvariant exempt cs r la ->
  evolves la V cs cs' ->
  sound cs la r -> r < length cs ->
  (forall x, reachAvoid cs la r x \/ In (Some x) (childrenAt cs la) ->
             symbolAt cs' x = f <$> symbolAt cs x) ->
  (forall d, fst (f d) = fst d /\ isExternal (snd (f d)) = isExternal (snd d)) ->
  last (childrenAt cs' r) = Some (Some la) ->
  linkerInvariant exempt cs' r la.
Proof.
  intros Hinv Hev Hsound Hr Hsym Hf Hlast.
  pose proof (ev_linker _ _ _ _ Hev) as Hsame.
  assert (Hname : forall e, In e (childrenAt cs la) -> entryName cs' e = entryName cs e).
  { intros [e|] He; [|reflexivity]. simpl. rewrite (Hsym e (or_intror He)).
    destruct (symbolAt cs e) as [d|]; [|reflexivity]. simpl. f_equal. apply Hf. }
  split.
  - exact Hlast.
  - exact (isLinker_evolves _ _ _ _ Hev (li_linker _ _ _ _ Hinv)).
  - rewrite Hsame. pose proof (li_entries _ _ _ _ Hinv) as He.
    rewrite Forall_forall in He. apply Forall_forall. intros e Hin.
    rewrite Hname by (apply list_elem_of_In, Hin). apply He, Hin.
  - rewrite Hsame. rewrite (map_ext_in _ _ _ Hname). exact (li_once _ _ _ _ Hinv).
  - intros d' (s & Hreach & Hs) Hext.
    assert (Hslt : s < length cs).
    { destruct (decide (s < length cs)) as [Hlt|Hge]; [exact Hlt|].
      rewrite (ev_new _ _ _ _ Hev s) in Hs by lia. discriminate. }
    apply (ev_bwd _ _ _ _ Hev r s Hr Hslt Hsound) in Hreach.
    rewrite (Hsym s (or_introl Hreach)) in Hs.
    destruct (symbolAt cs s) as [d|] eqn:Hd; [|discriminate]. injection Hs as <-.
    destruct (li_declared _ _ _ _ Hinv d) as (e & He & Hed).
    + exists s. split; assumption.
    + rewrite <- (proj2 (Hf d)). exact Hext.
    + exists e. split; [rewrite Hsame; exact He|].
      rewrite (Hsym e (or_intror He)), Hed. reflexivity.
  - intros d' (e & He & Hed) Hex. rewrite Hsame in He.
    rewrite (Hsym e (or_intror He)) in Hed.
    destruct (symbolAt cs e) as [d|] eqn:Hd; [|discriminate]. injection Hed as <-.
    destruct (li_used _ _ _ _ Hinv d) as (s & Hreach & Hs).
    + exists e. split; assumption.
    + rewrite <- (proj1 (Hf d)). exact Hex.
    + exists s. split; [exact (ev_fwd _ _ _ _ Hev r s Hreach)|].
      rewrite (Hsym s (or_introl Hreach)), Hs. reflexivity.
Qed.

Lemma isExternal_promoteD d : 
  fst (promoteD d) = fst d /\ isExternal (snd (promoteD d)) = isExternal (snd d).
Proof.
  split; [reflexivity|]. unfold promoteD. simpl.
  destruct (isPromoted (snd d)); reflexivity.
Qed.

(** An aggregate keeps its last child when no slot that holds it is edited. *)
Lemma agree_last X cs cs' a la op sequence type :
  cs !! a = Some (TIntermAggregate op sequence type) ->
  last sequence = Some (Some la) ->
  ~ In la X ->
  agree X cs cs' a ->
  last (childrenAt cs' a) = Some (Some la).
Proof.
  intros Ha Hlast Hla Hag. destruct (Hag _ Ha) as (n' & Hn' & Hkeep & Hnone).
  unfold childrenAt. rewrite Hn'.
  assert (Hlen : 0 < length sequence) by (destruct sequence; [discriminate|simpl; lia]).
  assert (Hl : slotPtr n' (SeqAt (length sequence - 1)) = Some (Some la)).
  { apply Hkeep.
    - simpl. rewrite last_lookup in Hlast. 
      replace (length sequence - 1) with (pred (length sequence)) by lia. exact Hlast.
    - intros x Hx [= ->]. exact (Hla Hx). }
  assert (Hn : slotPtr n' (SeqAt (length sequence)) = None).
  { apply Hnone. simpl. apply lookup_ge_None. lia. }
  destruct n' as [| |op' sequence' type'| | | | | |]; try discriminate Hl.
  simpl in *. apply lookup_ge_None in Hn. 
  assert (Hlen' : length sequence' = length sequence).
  { apply lookup_lt_Some in Hl. lia. }
  rewrite last_lookup. rewrite Hlen'.
  replace (pred (length sequence)) with (length sequence - 1) by lia. exact Hl.
Qed.

(** The promoter and the linker-object invariant. *)
Lemma promoter_invariant exempt fuel h r body lk scope scope' h' :
  stage (cells h) r body lk ->
  arrayUseOK (cells h) (rootOf lk) [] (Node r (body ++ [lk])) = true ->
  linkerInvariant exempt (cells h) r (rootOf lk) ->
  UniformTypeChangeTraverser.Traverse fuel (Some r) scope h = Ok (scope', h') ->
  linkerInvariant exempt (cells h') r (rootOf lk).
Proof.
  intros Hstage Harr Hinv Hrun.
  set (cs := cells h) in *. set (la := rootOf lk) in *.
  pose proof (stage_shape _ _ _ _ Hstage) as Hshape.
  pose proof (stage_nodup _ _ _ _ Hstage) as Hnd.
  destruct (stage_root_sequence cs r body lk Hstage) as (rop & rtype & Hr).
  apply shape_inv in Hshape as (n & Hn & Hks & Hshapes).
  rewrite Hr in Hn. injection Hn as <-.
  unfold UniformTypeChangeTraverser.Traverse in Hrun.
  destruct fuel as [|fuel]; [discriminate|].
  assert (Hloop : inLoop la r [] (body ++ [lk]) cs (cells h')).
  { apply (promoter_node_loop la r [] (body ++ [lk]) fuel cs _ Hr Hnd Hshapes Harr
             (List.Forall_nil _) (li_linker _ _ _ _ Hinv)) with (st := scope) (h := h) (st' := scope');
      [discriminate| |reflexivity|discriminate|exact Hks|exact Hrun].
    apply Forall_forall. intros k Hk st0 h0 st1 h1 Hen Hrun0.
    apply (promoter_subtree la k fuel ([] ++ [r]) st0 h0 st1 h1 Hen); [|exact Hrun0].
    apply list_elem_of_In, in_app_or in Hk as [Hk|[<-|[]]].
    - right. split.
      + intros [E|[]]. exact (stage_root_ne cs r body lk Hstage E).
      + intros Hin. apply (stage_body_apart cs r body lk Hstage k la Hk Hin).
        apply rootOf_addresses.
    - left. reflexivity. }
  pose proof (lp_evolves _ _ _ _ _ _ Hloop) as Hev.
  apply (evolves_invariant exempt la _ cs (cells h') r promoteD Hinv Hev).
  - exact (stage_sound cs r body lk Hstage).
  - eapply lookup_lt_Some. exact Hr.
  - intros x [Hx|Hx].
    + apply (stage_reach cs r body lk Hstage) in Hx as [->|Hx].
      * rewrite (ev_others _ _ _ _ Hev r).
        -- unfold symbolAt. rewrite Hr. reflexivity.
        -- eapply lookup_lt_Some. exact Hr.
        -- exact (stage_root_apart cs r body lk Hstage).
      * apply (ev_visited _ _ _ _ Hev). rewrite flat_map_app. apply in_or_app. left. exact Hx.
    + apply (ev_visited _ _ _ _ Hev). rewrite flat_map_app. apply in_or_app. right.
      simpl. rewrite app_nil_r.
      destruct (stage_kid_shape cs r body lk Hstage lk) as [Hlks _];
        [apply in_or_app; right; left; reflexivity|].
      apply (tree_edge cs lk la x Hlks (rootOf_addresses lk)). exact Hx.
  - exact isExternal_promoteD.
  - refine (agree_last _ cs (cells h') r la _ _ _ Hr _ _ (lp_node _ _ _ _ _ _ Hloop)).
    + rewrite !map_app. simpl. apply last_snoc.
    + intros Hin. apply in_flat_map in Hin as (k & Hk & Hin).
      unfold onSide in Hin. simpl in Hin.
      destruct (decide (Some (rootOf k) = Some la)) as [E|E]; [destruct Hin|].
      destruct Hin as [Hin|[]]. apply E. f_equal. exact Hin.
Qed.

(** X19: the promoter preserves the linker-object invariant.  On a
    tree-shaped stage whose promoted array symbols, those among the linker
    objects apart, stand in the first child slot of their parent, if the
    invariant holds (the last child of the root
    is the linker-object aggregate, its entries are symbols with pairwise
    distinct names, every symbol of external storage the rest of the stage
    refers to has an entry of the same name and type, and every entry is
    referred to) and the promoter completes, the invariant holds of the
    resulting pool. *)
Theorem promoter_stage exempt fuel h r body lk scope scope' h' :
  stage (cells h) r body lk ->
  arrayUseOK (cells h) (rootOf lk) [] (Node r (body ++ [lk])) = true ->
  linkerInvariant exempt (cells h) r (rootOf lk) ->
  UniformTypeChangeTraverser.Traverse fuel (Some r) scope h = Ok (scope', h') ->
  linkerInvariant exempt (cells h') r (rootOf lk).
Proof. exact (promoter_invariant exempt fuel h r body lk scope scope' h'). Qed.

(** ** The derivative sign inverter and the linker objects *)

Lemma wrapOperand_evolves la cs a op operand type :
  cs !! a = Some (TIntermUnary op operand type) ->
  la < length cs -> a <> la ->
  (forall c, operand = Some c -> c < length cs) ->
  evolves la [] cs (wrapOperand cs a).
Proof.
  intros Ha Hla Hne Hlive.
  assert (Hd : detour cs (wrapOperand cs a) a operand).
  { unfold wrapOperand. rewrite Ha.
    apply (detour_make cs cs a (TIntermUnary op operand type) operand
             (TIntermUnary EOpNegative operand (TType_basic EbtFloat EvqTemporary)));
      try reflexivity; [exact Ha|left; reflexivity]. }
  assert (Halt : a < length cs) by (eapply lookup_lt_Some; exact Ha).
  assert (Hsym : forall x, x < length cs -> symbolAt (wrapOperand cs a) x = symbolAt cs x).
  { intros x Hx. unfold symbolAt. destruct (decide (x = a)) as [->|Hxa].
    - destruct (wrapOperand_unary cs a op operand type Ha) as (-> & _). rewrite Ha. reflexivity.
    - rewrite wrapOperand_other by assumption. reflexivity. }
  apply (evolves_detour la [] cs _ a operand Hd Hla Hne).
  - unfold childrenAt. rewrite Ha. left. reflexivity.
  - exact Hlive.
  - intros x n Hx. destruct (decide (x = a)) as [->|Hxa].
    + destruct (wrapOperand_unary cs a op operand type Ha) as (Hw & _).
      rewrite Ha in Hx. injection Hx as <-. eexists. split; [exact Hw|reflexivity].
    + exists n. split; [|reflexivity]. rewrite wrapOperand_other; [exact Hx|exact Hxa|].
      eapply lookup_lt_Some. exact Hx.
  - intros x [].
  - intros x Hx _. apply Hsym, Hx.
  - unfold symbolAt.
    destruct (wrapOperand_unary cs a op operand type Ha) as (_ & -> & _). reflexivity.
Qed.

Lemma wrapAll_evolves la :
  forall us cs,
    NoDup us ->
    Forall (fun a => exists op operand type,
              cs !! a = Some (TIntermUnary op operand type)
              /\ (forall c, operand = Some c -> c < length cs) /\ a <> la) us ->
    la < length cs ->
    evolves la [] cs (wrapAll cs us).
Proof.
  induction us as [|u us IH]; intros cs Hnd Hall Hla.
  - apply evolves_refl.
  - apply NoDup_cons in Hnd as [Hu Hnd]. apply Forall_cons in Hall as [Hhead Hall].
    destruct Hhead as (op & operand & type & Hcell & Hlive & Hne).
    change (wrapAll cs (u :: us)) with (wrapAll (wrapOperand cs u) us).
    pose proof (wrapOperand_length cs u) as Hlen.
    apply (evolves_trans la [] [] cs (wrapOperand cs u)).
    + exact (wrapOperand_evolves la cs u op operand type Hcell Hla Hne Hlive).
    + apply IH; [exact Hnd| |lia].
      rewrite Forall_forall in Hall. apply Forall_forall. intros a Ha.
      destruct (Hall a Ha) as (op' & operand' & type' & Hcell' & Hlive' & Hne').
      exists op', operand', type'. split; [|split; [|exact Hne']].
      * rewrite wrapOperand_other; [exact Hcell'| |eapply lookup_lt_Some; exact Hcell'].
        intros ->. exact (Hu Ha).
      * intros c Hc. specialize (Hlive' c Hc). lia.
Qed.

(** The inverter and the linker-object invariant. *)
Lemma inverter_invariant exempt fuel h r body lk u h' :
  stage (cells h) r body lk ->
  height (Node r (body ++ [lk])) <= fuel ->
  linkerInvariant exempt (cells h) r (rootOf lk) ->
  InvertYDerivativeOperandsTraverser.Traverse fuel (Some r) h = Ok (u, h') ->
  linkerInvariant exempt (cells h') r (rootOf lk).
Proof.
  intros Hstage Hfuel Hinv Hrun.
  set (cs := cells h) in *. set (la := rootOf lk) in *. set (t := Node r (body ++ [lk])) in *.
  pose proof (stage_shape _ _ _ _ Hstage) as Hshape.
  pose proof (stage_nodup _ _ _ _ Hstage) as Hnd.
  destruct (stage_root_sequence cs r body lk Hstage) as (rop & rtype & Hr).
  unfold InvertYDerivativeOperandsTraverser.Traverse in Hrun.
  change (Some r) with (Some (rootOf t)) in Hrun.
  rewrite (inverter_traverse_tree t fuel [] h Hshape Hnd Hfuel) in Hrun.
  injection Hrun as _ <-. cbn [cells]. fold cs.
  pose proof (li_linker _ _ _ _ Hinv) as Hlinker.
  assert (Hev : evolves la [] cs (wrapAll cs (outerDPdy cs t))).
  { apply wrapAll_evolves; [| |exact (isLinker_lt _ _ Hlinker)].
    - exact (sublist_NoDup _ _ Hnd (outerDPdy_sublist cs t)).
    - pose proof (outerDPdy_unary cs t Hshape) as Hun.
      rewrite Forall_forall in Hun. apply Forall_forall. intros a Ha.
      destruct (Hun a Ha) as (op & operand & type & Hcell & _).
      exists op, operand, type. split; [exact Hcell|]. split.
      + intros c ->. apply (shape_addresses cs t c Hshape).
        apply (tree_edge cs t a c Hshape).
        * apply list_elem_of_In. exact (elem_of_sublist _ _ _ Ha (outerDPdy_sublist cs t)).
        * unfold edge, childrenAt. rewrite Hcell. left. reflexivity.
      + intros ->. destruct Hlinker as (ls & lt & Hl). congruence. }
  assert (Hrlt : r < length cs) by (eapply lookup_lt_Some; exact Hr).
  apply (evolves_invariant exempt la [] cs _ r (fun d => d) Hinv Hev).
  - exact (stage_sound cs r body lk Hstage).
  - exact Hrlt.
  - intros x Hx. rewrite option_fmap_id. apply (ev_others _ _ _ _ Hev); [|intros []].
    destruct Hx as [Hx|Hx].
    + apply (reach_in_tree cs la t r x Hshape) in Hx; [|left; reflexivity].
      exact (shape_addresses cs t x Hshape Hx).
    + pose proof (li_entries _ _ _ _ Hinv) as He. rewrite Forall_forall in He.
      destruct (He (Some x) (proj2 (list_elem_of_In _ _) Hx)) as (nm & Hnm).
      simpl in Hnm. destruct (symbolAt cs x) as [d|] eqn:Hd; [|discriminate].
      exact (entry_live cs x d Hd).
  - intros d. split; reflexivity.
  - unfold childrenAt. rewrite wrapAll_other; [|intros Hin|exact Hrlt].
    + rewrite Hr. simpl. rewrite !map_app. simpl. apply last_snoc.
    + pose proof (outerDPdy_unary cs t Hshape) as Hun. rewrite Forall_forall in Hun.
      destruct (Hun r (proj2 (list_elem_of_In _ _) Hin)) as (op & operand & type & Hcell & _).
      congruence.
Qed.

(** X20: the derivative sign inverter preserves the linker-object
    invariant.  On a tree-shaped stage on which the invariant holds, the run
    of the inverter leaves a pool on which it holds again: the negations it
    inserts change neither the linker objects, nor which symbols the rest of
    the stage refers to. *)
Theorem inverter_stage exempt fuel h r body lk u h' :
  stage (cells h) r body lk ->
  height (Node r (body ++ [lk])) <= fuel ->
  linkerInvariant exempt (cells h) r (rootOf lk) ->
  InvertYDerivativeOperandsTraverser.Traverse fuel (Some r) h = Ok (u, h') ->
  linkerInvariant exempt (cells h') r (rootOf lk).
Proof. exact (inverter_invariant exempt fuel h r body lk u h'). Qed.

(** ** The invariant on the example stages *)

Lemma packPool_invariant : linkerInvariant [] (cells packPool) 0 2.
Proof.
  split.
  - reflexivity.
  - unfold isLinker. simpl. eauto.
  - repeat constructor; simpl; eauto.
  - change (NoDup [Some "b"; Some "a"]). apply NoDup_cons. split; [|apply NoDup_singleton].
    intros H. apply list_elem_of_In in H. destruct H as [H|[]]. discriminate H.
  - intros d (s & Hr & Hs) _.
    apply (stage_reach _ _ _ _ packPool_stage) in Hr.
    destruct Hr as [->|[<-|[<-|[<-|[]]]]]; try discriminate Hs;
      injection Hs as <-.
    + exists 5. split; [left; reflexivity|reflexivity].
    + exists 6. split; [right; left; reflexivity|reflexivity].
  - intros d (e & He & Hd) _.
    destruct He as [[= <-]|[[= <-]|[]]]; injection Hd as <-.
    + exists 3. split; [|reflexivity].
      apply (stage_reach _ _ _ _ packPool_stage). right. simpl. auto.
    + exists 4. split; [|reflexivity].
      apply (stage_reach _ _ _ _ packPool_stage). right. simpl. auto.
Qed.

Lemma derivativePool_stage : stage (cells derivativePool) 0 derivativeBody derivativeLinker.
Proof.
  split.
  - repeat (econstructor; try reflexivity).
  - apply (bool_decide_unpack _). vm_compute. exact I.
  - simpl. eauto.
  - simpl. eauto.
  - repeat constructor.
Qed.

Lemma derivativePool_invariant : linkerInvariant [] (cells derivativePool) 0 3.
Proof.
  split.
  - reflexivity.
  - unfold isLinker. simpl. eauto.
  - repeat constructor; simpl; eauto.
  - apply NoDup_singleton.
  - intros d (s & Hr & Hs) _.
    apply (stage_reach _ _ _ _ derivativePool_stage) in Hr.
    destruct Hr as [->|[<-|[<-|[]]]]; try discriminate Hs; injection Hs as <-.
    exists 4. split; [left; reflexivity|reflexivity].
  - intros d (e & He & Hd) _.
    destruct He as [[= <-]|[]]; injection Hd as <-.
    exists 2. split; [|reflexivity].
    apply (stage_reach _ _ _ _ derivativePool_stage). right. simpl. auto.
Qed.

Lemma arrayStagePool_stage : stage (cells arrayStagePool) 0 arrayStageBody arrayStageLinker.
Proof.
  split.
  - repeat (econstructor; try reflexivity).
  - apply (bool_decide_unpack _). vm_compute. exact I.
  - simpl. eauto.
  - simpl. eauto.
  - repeat constructor.
Qed.

Lemma arrayStagePool_invariant : linkerInvariant [] (cells arrayStagePool) 0 5.
Proof.
  split.
  - reflexivity.
  - unfold isLinker. simpl. eauto.
  - repeat constructor; simpl; eauto.
  - change (NoDup [Some "scale"; Some "arr"]). apply NoDup_cons. split; [|apply NoDup_singleton].
    intros H. apply list_elem_of_In in H. destruct H as [H|[]]. discriminate H.
  - intros d (s & Hr & Hs) _.
    apply (stage_reach _ _ _ _ arrayStagePool_stage) in Hr.
    destruct Hr as [->|[<-|[<-|[<-|[<-|[<-|[]]]]]]]; try discriminate Hs;
      injection Hs as <-.
    + exists 6. split; [left; reflexivity|reflexivity].
    + exists 7. split; [right; left; reflexivity|reflexivity].
  - intros d (e & He & Hd) _.
    destruct He as [[= <-]|[[= <-]|[]]]; injection Hd as <-.
    + exists 8. split; [|reflexivity].
      apply (stage_reach _ _ _ _ arrayStagePool_stage). right. simpl. auto.
    + exists 3. split; [|reflexivity].
      apply (stage_reach _ _ _ _ arrayStagePool_stage). right. simpl. auto.
Qed.

Lemma promoter_stage_witness :
  exists scope' h',
    UniformTypeChangeTraverser.Traverse 5 (Some 0) emptyScope arrayStagePool = Ok (scope', h')
    /\ linkerInvariant [] (cells h') 0 5.
Proof.
  eexists _, _. split; [reflexivity|].
  eapply (promoter_stage [] 5 arrayStagePool 0 arrayStageBody arrayStageLinker emptyScope);
    [exact arrayStagePool_stage|reflexivity|exact arrayStagePool_invariant|reflexivity].
Defined.

Lemma inverter_stage_witness :
  exists h',
    InvertYDerivativeOperandsTraverser.Traverse 5 (Some 0) derivativePool = Ok (tt, h')
    /\ linkerInvariant [] (cells h') 0 3.
Proof.
  eexists. split; [reflexivity|].
  eapply (inverter_stage [] 5 derivativePool 0 derivativeBody derivativeLinker tt);
    [exact derivativePool_stage|simpl; lia|exact derivativePool_invariant|reflexivity].
Defined.

(** ** Further properties of [makeReplacements] *)

(** X1: under an aggregate parent [makeReplacements] replaces every element
    of the sequence that is the recorded symbol, not just the first one: the
    other elements stay where they are, the sequence keeps its length, and
    [RemoveAllTreeNodes] is called on the symbol once per replaced element. *)
Theorem makeReplacements_aggregate_parent nameToReplacement h s p id name stype op sequence atype :
  cells h !! s = Some (TIntermSymbol id name stype) ->
  cells h !! p = Some (TIntermAggregate op sequence atype) ->
  exists sequence',
    makeReplacements nameToReplacement [(Some s, Some p)] h =
      Ok (tt, mkPool (<[p := TIntermAggregate op sequence' atype]> (cells h))
                     (replicate (length (filter (fun c => c = Some s) sequence)) s ++ removed h))
    /\ length sequence' = length sequence
    /\ forall idx c, sequence !! idx = Some c ->
         sequence' !! idx =
           Some (if decide (c = Some s)
                 then fst (StdMap.subscript nullptr name nameToReplacement)
                 else c).
Proof.
  intros Hs Hp.
  exists (map (substPtr (Some s) (fst (StdMap.subscript nullptr name nameToReplacement))) sequence).
  split; [|split].
  - rewrite (makeReplacements_cons _ _ _ _ _ _ _ _ Hs).
    rewrite (bind_of_Ok _ _ _ tt
               (mkPool (<[p := TIntermAggregate op
                                 (map (substPtr (Some s)
                                         (fst (StdMap.subscript nullptr name nameToReplacement)))
                                      sequence) atype]> (cells h))
                       (replicate (length (filter (fun c => c = Some s) sequence)) s ++ removed h))).
    + reflexivity.
    + rewrite (replaceSymbol_spec h p _ s _ Hp) by (eapply lookup_lt_Some; exact Hs).
      reflexivity.
  - apply length_map.
  - intros idx c Hc. change (map ?f sequence) with (f <$> sequence).
    rewrite list_lookup_fmap, Hc. reflexivity.
Qed.

Lemma makeReplacements_aggregate_parent_witness :
  exists sequence',
    makeReplacements [("x", Some 3)] [(Some 1, Some 0)] duplicatePool =
      Ok (tt, mkPool (<[0 := TIntermAggregate EOpSequence sequence'
                               (TType_basic EbtVoid EvqTemporary)]> (cells duplicatePool))
                     [1; 1])
    /\ sequence' = [Some 3; Some 2; Some 3].
Proof.
  destruct (makeReplacements_aggregate_parent [("x", Some 3)] duplicatePool 1 0 1 "x"
              (exampleFloat EvqTemporary 1) EOpSequence [Some 1; Some 2; Some 1]
              (TType_basic EbtVoid EvqTemporary) eq_refl eq_refl)
    as (sequence' & Hrun & Hlen & Hat).
  exists sequence'. split; [exact Hrun|].
  pose proof (Hat 0 _ eq_refl) as H0. pose proof (Hat 1 _ eq_refl) as H1.
  pose proof (Hat 2 _ eq_refl) as H2.
  destruct sequence' as [|a [|b [|c [|]]]]; try discriminate Hlen.
  injection H0 as ->. injection H1 as ->. injection H2 as ->. reflexivity.
Defined.

(** X2: under a unary parent [makeReplacements] does not compare at all: the
    operand, whichever node it is, is released and overwritten with the
    replacement. *)
Theorem makeReplacements_unary_parent nameToReplacement h s p id name stype op o utype :
  cells h !! s = Some (TIntermSymbol id name stype) ->
  cells h !! p = Some (TIntermUnary op (Some o) utype) ->
  o < length (cells h) ->
  makeReplacements nameToReplacement [(Some s, Some p)] h =
    Ok (tt, mkPool (<[p := TIntermUnary op (fst (StdMap.subscript nullptr name nameToReplacement))
                             utype]> (cells h))
                   (o :: removed h)).
Proof.
  intros Hs Hp Ho.
  rewrite (makeReplacements_cons _ _ _ _ _ _ _ _ Hs). unfold bind.
  rewrite (replaceSymbol_spec h p _ s _ Hp) by (eapply lookup_lt_Some; exact Hs).
  unfold afterReplace. rewrite decide_True by exact Ho. reflexivity.
Qed.

Lemma makeReplacements_unary_parent_witness :
  Some 2 <> Some 4
  /\ makeReplacements [] [(Some 4, Some 1)] uvPool =
       Ok (tt, mkPool (<[1 := TIntermUnary EOpNegative nullptr (exampleFloat EvqTemporary 2)]>
                         (cells uvPool)) [2]).
Proof.
  split; [discriminate|].
  apply (makeReplacements_unary_parent [] uvPool 4 1 7 "uv" (exampleFloat EvqVaryingIn 2)
           EOpNegative 2 (exampleFloat EvqTemporary 2) eq_refl eq_refl).
  simpl. lia.
Defined.

Lemma mapChildren_ext f g n : (forall c, f c = g c) -> mapChildren f n = mapChildren g n.
Proof.
  intros H. destruct n; simpl; rewrite ?H; try reflexivity.
  f_equal. apply map_ext. exact H.
Qed.

Lemma replacedCells_perm cs M recs recs' :
  recs ≡ₚ recs' -> replacedCells cs M recs = replacedCells cs M recs'.
Proof.
  intros Hperm. unfold replacedCells. apply imap_ext. intros pa n _.
  apply mapChildren_ext. intros c. unfold substFor.
  destruct (bool_decide ((c, Some pa) ∈ recs)) eqn:E.
  - apply bool_decide_eq_true in E. rewrite Hperm in E.
    rewrite bool_decide_eq_true_2 by exact E. reflexivity.
  - apply bool_decide_eq_false in E. rewrite Hperm in E.
    rewrite bool_decide_eq_false_2 by exact E. reflexivity.
Qed.

(** X3: the result of a batch of replacements does not depend on the order
    of the records.  For the use sites of a tree (each recorded symbol sits
    once under a parent [makeReplacements] can edit, no symbol is recorded
    twice, and no replacement node is itself a recorded symbol) the batch
    completes, and it leaves the same cells for every permutation of the
    records: each recorded child slot holds the node bound to the name of its
    symbol, null without a binding, and nothing else has changed. *)
Theorem makeReplacements_order_independent nameToReplacement recs recs' h :
  recs ≡ₚ recs' ->
  Forall (useSite (cells h)) recs ->
  NoDup (map fst recs) ->
  (forall name r, StdMap.find name nameToReplacement = Some r -> r ∉ map fst recs) ->
  exists rm rm',
    makeReplacements nameToReplacement recs h =
      Ok (tt, mkPool (replacedCells (cells h) nameToReplacement recs) rm)
    /\ makeReplacements nameToReplacement recs' h =
         Ok (tt, mkPool (replacedCells (cells h) nameToReplacement recs) rm').
Proof.
  intros Hperm Huse Hnd Hfresh.
  destruct (makeReplacements_spec nameToReplacement recs h Huse Hnd Hfresh) as (rm & Hrun).
  destruct (makeReplacements_spec nameToReplacement recs' h) as (rm' & Hrun').
  - rewrite <- Hperm. exact Huse.
  - change (map fst recs') with (fst <$> recs'). rewrite <- Hperm. exact Hnd.
  - intros name r Hr. change (map fst recs') with (fst <$> recs'). rewrite <- Hperm.
    exact (Hfresh name r Hr).
  - exists rm, rm'. split; [exact Hrun|].
    rewrite (replacedCells_perm _ _ _ _ Hperm). exact Hrun'.
Qed.

Lemma makeReplacements_order_independent_witness :
  exists rm rm',
    makeReplacements [("a", Some 6); ("b", Some 5)] [(Some 3, Some 1); (Some 4, Some 1)] packPool =
      Ok (tt, mkPool (replacedCells (cells packPool) [("a", Some 6); ("b", Some 5)]
                        [(Some 3, Some 1); (Some 4, Some 1)]) rm)
    /\ makeReplacements [("a", Some 6); ("b", Some 5)] [(Some 4, Some 1); (Some 3, Some 1)] packPool =
         Ok (tt, mkPool (replacedCells (cells packPool) [("a", Some 6); ("b", Some 5)]
                           [(Some 3, Some 1); (Some 4, Some 1)]) rm').
Proof.
  apply makeReplacements_order_independent.
  - apply perm_swap.
  - repeat constructor.
    + exists 3, 1, 10%N, "b", (exampleFloat EvqUniform 1),
        (TIntermBinary EOpAdd (Some 3) (Some 4) (exampleFloat EvqTemporary 1)), [3; 4].
      repeat split; try reflexivity; [simpl; auto|].
      apply (bool_decide_unpack _). vm_compute. exact I.
    + exists 4, 1, 11%N, "a", (exampleFloat EvqUniform 1),
        (TIntermBinary EOpAdd (Some 3) (Some 4) (exampleFloat EvqTemporary 1)), [3; 4].
      repeat split; try reflexivity; [simpl; auto|].
      apply (bool_decide_unpack _). vm_compute. exact I.
  - apply (bool_decide_unpack _). vm_compute. exact I.
  - intros name r Hr Hin. simpl in Hr.
    destruct (String.eqb name "a"); [injection Hr as <-|].
    + apply list_elem_of_In in Hin. simpl in Hin. intuition discriminate.
    + destruct (String.eqb name "b"); [injection Hr as <-|discriminate].
      apply list_elem_of_In in Hin. simpl in Hin. intuition discriminate.
Defined.

Lemma makeReplacements_others recs :
  forall M h h',
    makeReplacements M recs h = Ok (tt, h') ->
    length (cells h') = length (cells h)
    /\ forall a, (forall s, ~ In (s, Some a) recs) -> cells h' !! a = cells h !! a.
Proof.
  induction recs as [|[symbol parent] rest IH]; intros M h h' Hrun.
  - injection Hrun as <-. split; reflexivity.
  - simpl in Hrun. apply bind_Ok in Hrun as (name & h0 & Hname & Hrun).
    apply getName_Ok in Hname as Hname'. destruct Hname' as (-> & _).
    destruct (StdMap.subscript None name M) as [replacement M'].
    apply bind_Ok in Hrun as ([] & h1 & Hstep & Hrun).
    destruct (replaceSymbol_Ok _ _ _ _ _ _ Hname Hstep) as (s & p & np & -> & -> & Hp & Hcells).
    destruct (IH _ _ _ Hrun) as [Hlen Hother].
    split.
    + rewrite Hlen, Hcells. apply length_insert.
    + intros a Ha. rewrite Hother by (intros s0 Hin; apply (Ha s0); right; exact Hin).
      rewrite Hcells. apply list_lookup_insert_ne. intros ->.
      apply (Ha (Some s)). left. reflexivity.
Qed.

(** X4: what [makeReplacements] never does.  Whenever a batch completes, the
    pool has as many nodes as before, every symbol node is unchanged, every
    node keeps its class, and a node that is the parent of no record is
    unchanged altogether. *)
Theorem makeReplacements_frame nameToReplacement recs h h' :
  makeReplacements nameToReplacement recs h = Ok (tt, h') ->
  length (cells h') = length (cells h)
  /\ (forall a id name type,
        cells h !! a = Some (TIntermSymbol id name type) ->
        cells h' !! a = Some (TIntermSymbol id name type))
  /\ (forall a n, cells h !! a = Some n ->
        exists n', cells h' !! a = Some n' /\ classOf n' = classOf n)
  /\ (forall a, (forall s, ~ In (s, Some a) recs) -> cells h' !! a = cells h !! a).
Proof.
  intros Hrun. destruct (makeReplacements_others recs _ _ _ Hrun) as [Hlen Hother].
  split; [exact Hlen|]. split; [|split; [|exact Hother]].
  - exact (makeReplacements_preservesSymbols recs _ _ _ Hrun).
  - intros a n Ha. exact (makeReplacements_class recs _ _ _ a n Hrun Ha).
Qed.

Lemma makeReplacements_frame_witness :
  let h' := mkPool (<[0 := TIntermBinary EOpAdd (Some 1) (Some 4) (exampleFloat EvqTemporary 1)]>
                      (cells binaryPool)) [2] in
  length (cells h') = length (cells binaryPool)
  /\ (forall a id name type,
        cells binaryPool !! a = Some (TIntermSymbol id name type) ->
        cells h' !! a = Some (TIntermSymbol id name type))
  /\ (forall a n, cells binaryPool !! a = Some n ->
        exists n', cells h' !! a = Some n' /\ classOf n' = classOf n)
  /\ (forall a, (forall s, ~ In (s, Some a) [(Some 2, Some 0)]) ->
        cells h' !! a = cells binaryPool !! a).
Proof.
  apply (makeReplacements_frame [("y", Some 4)] [(Some 2, Some 0)] binaryPool). reflexivity.
Defined.

(** ** [isLinkerObject] on the paths of a stage *)

Lemma isLinkerObject_second path h :
  (forall p, path !! 1 = Some p -> exists a n, p = Some a /\ cells h !! a = Some n) ->
  isLinkerObject path h = Ok (linkerPath (cells h) path, h).
Proof.
  intros Hlive. unfold isLinkerObject, linkerPath.
  destruct (path !! 1) as [p|] eqn:E; [|reflexivity].
  destruct (Hlive p eq_refl) as (a & n & -> & Ha).
  rewrite (bind_of_Ok _ _ _ _ _ (deref_of_lookup _ _ _ Ha)). rewrite Ha.
  destruct n; reflexivity.
Qed.

(** X5: on a stage, that is a root aggregate whose last child is the
    linker-object aggregate, [isLinkerObject] separates the symbols exactly:
    called with the path on which the traversal meets a symbol, it returns
    [true] if the symbol lies below the linker-object aggregate and [false]
    if it lies in any other child of the root, and it leaves the pool as it
    is. *)
Theorem isLinkerObject_on_stage h r body lk p s :
  stage (cells h) r body lk ->
  In (p, s) (occurrences (cells h) [] (Node r (body ++ [lk]))) ->
  isLinkerObject p h = Ok (bool_decide (s ∈ addresses lk), h).
Proof.
  intros Hstage Hin. set (cs := cells h) in *.
  rewrite (stage_occurrences cs r body lk Hstage) in Hin.
  assert (Hlive : forall k, In k (body ++ [lk]) ->
            In (p, s) (occurrences cs [Some r] k) ->
            In s (addresses k)
            /\ forall q, p !! 1 = Some q -> exists a n, q = Some a /\ cs !! a = Some n).
  { intros k Hk Hocc. destruct (stage_kid_shape cs r body lk Hstage k Hk) as [Hks Hnd].
    destruct (occurrences_spec cs k [Some r] p s Hks Hnd Hocc) as (_ & Hs & Hcase).
    split; [exact Hs|].
    destruct Hcase as [[-> _]|(rest & pa & n & ks & -> & _)]; intros q Hq.
    - discriminate Hq.
    - simpl in Hq. injection Hq as <-. destruct k as [a kids].
      apply shape_inv in Hks as (n0 & Ha & _). simpl. eauto. }
  apply in_app_or in Hin as [Hin|Hin].
  - pose proof Hin as Hin0. apply in_flat_map in Hin as (k & Hk & Hocc).
    destruct (Hlive k (in_or_app _ _ _ (or_introl Hk)) Hocc) as [Hs Hp].
    rewrite (isLinkerObject_second p h Hp). fold cs.
    destruct (stage_body_occurrence cs r body lk Hstage p s Hin0) as (-> & _).
    rewrite bool_decide_eq_false_2; [reflexivity|].
    intros Hl. apply list_elem_of_In in Hl.
    exact (stage_body_apart cs r body lk Hstage k s Hk Hs Hl).
  - assert (Hlk : In lk (body ++ [lk])) by (apply in_or_app; right; left; reflexivity).
    destruct (Hlive lk Hlk Hin) as [Hs Hp].
    rewrite (isLinkerObject_second p h Hp). fold cs.
    rewrite (stage_linker_occurrence cs r body lk Hstage p s Hin).
    rewrite bool_decide_eq_true_2; [reflexivity|]. apply list_elem_of_In, Hs.
Qed.

Lemma isLinkerObject_on_stage_witness :
  isLinkerObject [Some 0; Some 2] packPool = Ok (true, packPool)
  /\ isLinkerObject [Some 0; Some 1] packPool = Ok (false, packPool).
Proof.
  split.
  - apply (isLinkerObject_on_stage packPool 0 packBody packLinker [Some 0; Some 2] 5
             packPool_stage).
    simpl. auto.
  - apply (isLinkerObject_on_stage packPool 0 packBody packLinker [Some 0; Some 1] 3
             packPool_stage).
    simpl. auto.
Defined.

(** ** Further properties of the uniform struct packer *)

Lemma replacedCells_nil cs M : replacedCells cs M [] = cs.
Proof.
  apply list_eq. intros a. rewrite replacedCells_lookup.
  destruct (cs !! a) as [n|]; [|reflexivity]. simpl. f_equal.
  apply mapChildren_id. intros c. unfold substFor.
  rewrite bool_decide_eq_false_2; [reflexivity|]. apply not_elem_of_nil.
Qed.

Lemma filter_none {A} (P : A -> Prop) `{!forall x, Decision (P x)} (l : list A) :
  (forall x, In x l -> ~ P x) -> filter P l = [].
Proof.
  induction l as [|x l IH]; intros Hall; [reflexivity|].
  rewrite filter_cons_False by (apply Hall; left; reflexivity).
  apply IH. intros y Hy. apply Hall. right. exact Hy.
Qed.

Lemma filter_all {A} (P : A -> Prop) `{!forall x, Decision (P x)} (l : list A) :
  (forall x, In x l -> P x) -> filter P l = l.
Proof.
  induction l as [|x l IH]; intros Hall; [reflexivity|].
  rewrite filter_cons_True by (apply Hall; left; reflexivity).
  f_equal. apply IH. intros y Hy. apply Hall. right. exact Hy.
Qed.

(** Without a candidate among the symbols of a tree both caches stay
    empty. *)
Lemma no_candidate_caches cs candidate also t :
  (forall s name type, In s (addresses t) -> symbolAt cs s = Some (name, type) ->
     candidate type = false) ->
  useSitesOf cs candidate also (occurrences cs [] t) = []
  /\ declaredOf cs candidate (occurrences cs [] t) StdMap.empty = StdMap.empty.
Proof.
  intros Hnone.
  assert (Hocc : forall o, In o (occurrences cs [] t) ->
            forall name type, symbolAt cs (snd o) = Some (name, type) -> candidate type = false).
  { intros [p s] Ho name type Hs. apply (Hnone s name type); [|exact Hs].
    apply list_elem_of_In.
    refine (elem_of_sublist _ _ _ _ (occurrences_symbols_sublist cs t [])).
    apply list_elem_of_In, in_map_iff. exists (p, s). split; [reflexivity|exact Ho]. }
  split.
  - unfold useSitesOf. rewrite filter_none; [reflexivity|].
    intros o Ho. unfold isUseSite.
    destruct (symbolAt cs (snd o)) as [[name type]|] eqn:Hs; [|discriminate].
    rewrite (Hocc o Ho name type Hs). discriminate.
  - unfold declaredOf. rewrite filter_none; [reflexivity|].
    intros o Ho. unfold isDeclaration.
    destruct (symbolAt cs (snd o)) as [[name type]|] eqn:Hs; [|discriminate].
    rewrite (Hocc o Ho name type Hs). discriminate.
Qed.

(** X6: a stage without a non-sampler uniform is not left alone by the
    packer.  The pass still draws one identifier, pushes one (empty) member
    list on the scope, allocates the struct symbol "anon@0" with a block type
    "Frame" without members, and puts it in front of the linker objects; no
    other node changes. *)
Theorem packer_without_uniforms fuel h r body lk ids scope lseq ltype :
  let cs := cells h in
  let t := Node r (body ++ [lk]) in
  stage cs r body lk ->
  height t <= fuel ->
  cs !! rootOf lk = Some (TIntermAggregate EOpLinkerObjects lseq ltype) ->
  (forall s name type, In s (addresses t) -> symbolAt cs s = Some (name, type) ->
     isPacked type = false) ->
  exists scope' rm,
    NonSamplerUniformToStructTraverser.Traverse fuel (Some r) ids scope h =
      Ok ((ids + 1)%N, scope',
          mkPool (<[rootOf lk := TIntermAggregate EOpLinkerObjects (Some (length cs) :: lseq) ltype]>
                    (cs ++ [TIntermSymbol ids "anon@0"
                              (TType_block [] "Frame"
                                 NonSamplerUniformToStructTraverser.structQualifier)]))
                 rm)
    /\ TypeLists scope' = TypeLists scope ++ [[]].
Proof.
  intros cs t Hstage Hfuel Hla Hnone.
  destruct (no_candidate_caches cs isPacked false t Hnone) as [Huse Hdecl].
  fold (packerUseSites cs t) in Huse. fold (packerUniforms cs t) in Hdecl.
  destruct (packer_run fuel h r body lk ids scope Hstage Hfuel) as (scope' & M & rm & Hrun & Hlists & _).
  { fold cs t. rewrite Huse. intros s pa n []. }
  fold cs t in Hrun, Hlists.
  assert (Hmem : packerMembers cs t = []).
  { unfold packerMembers. rewrite Hdecl. reflexivity. }
  exists scope', rm. split; [|rewrite Hlists, Hmem; reflexivity].
  rewrite Hrun. do 3 f_equal.
  rewrite Huse, replacedCells_nil. unfold packerLinked, packerStruct.
  rewrite Hla, Hmem, Hdecl. simpl. do 3 f_equal.
  apply filter_all. intros e _. unfold isErased.
  destruct e as [a|]; [|reflexivity]. destruct (cs !! a) as [[]|]; reflexivity.
Qed.

Lemma packer_without_uniforms_witness :
  exists scope' rm,
    NonSamplerUniformToStructTraverser.Traverse 5 (Some 0) 7%N emptyScope derivativePool =
      Ok ((7 + 1)%N, scope',
          mkPool (<[3 := TIntermAggregate EOpLinkerObjects [Some 5; Some 4]
                           (TType_basic EbtVoid EvqTemporary)]>
                    (cells derivativePool ++
                     [TIntermSymbol 7 "anon@0"
                        (TType_block [] "Frame"
                           NonSamplerUniformToStructTraverser.structQualifier)]))
                 rm)
    /\ TypeLists scope' = [[]].
Proof.
  apply (packer_without_uniforms 5 derivativePool 0 derivativeBody derivativeLinker 7%N emptyScope
           [Some 4] (TType_basic EbtVoid EvqTemporary) derivativePool_stage).
  - simpl. lia.
  - reflexivity.
  - intros s name type Hin Hs. simpl in Hin.
    destruct Hin as [<-|[<-|[<-|[<-|[<-|[]]]]]]; try discriminate Hs;
      injection Hs as <- <-; reflexivity.
Defined.

(** X7: what the packer leaves of the linker objects.  After the pass the
    linker-object aggregate lists the struct symbol first, followed by the old
    entries in their old order without those that are symbols whose name is
    in the uniform cache; the struct symbol is the node allocated first, and
    it carries the identifier the pass drew. *)
Theorem packer_linker_objects fuel h r body lk ids scope lseq ltype :
  let cs := cells h in
  let t := Node r (body ++ [lk]) in
  stage cs r body lk ->
  height t <= fuel ->
  editable cs (packerUseSites cs t) ->
  cs !! rootOf lk = Some (TIntermAggregate EOpLinkerObjects lseq ltype) ->
  exists res h',
    NonSamplerUniformToStructTraverser.Traverse fuel (Some r) ids scope h = Ok (res, h')
    /\ cells h' !! rootOf lk =
         Some (TIntermAggregate EOpLinkerObjects
                 (Some (length cs)
                  :: filter (fun e => isErased cs (packerUniforms cs t) e = false) lseq) ltype)
    /\ cells h' !! length cs =
         Some (TIntermSymbol ids "anon@0"
                 (TType_block (packerMembers cs t) "Frame"
                    NonSamplerUniformToStructTraverser.structQualifier))
    /\ (forall e, isErased cs (packerUniforms cs t) e = true <->
          exists a id name type,
            e = Some a /\ cs !! a = Some (TIntermSymbol id name type)
            /\ In name (StdMap.keys (packerUniforms cs t))).
Proof.
  intros cs t Hstage Hfuel Hedit Hla.
  destruct (packer_run fuel h r body lk ids scope Hstage Hfuel Hedit)
    as (scope' & M & rm & Hrun & _).
  fold cs t in Hrun.
  assert (Hlalt : rootOf lk < length cs) by (eapply lookup_lt_Some; exact Hla).
  assert (Hnorec : forall a, ~ a < length cs \/ a = rootOf lk ->
            forall s, ~ In (s, Some a) (packerUseSites cs t)).
  { intros a Ha s Hin. pose proof Hin as Hin0.
    apply useSitesOf_In in Hin0 as (p0 & s0 & [= -> _] & _).
    destruct (stage_useSite cs r body lk isPacked s0 a Hstage Hin) as (Hne & Hlt & _).
    destruct Ha as [Ha| ->]; [exact (Ha Hlt)|exact (Hne eq_refl)]. }
  eexists _, _. split; [exact Hrun|]. cbn [cells]. split; [|split].
  - apply replacedCells_other; [|apply Hnorec; right; reflexivity].
    unfold packerLinked. fold cs. rewrite Hla. apply list_lookup_insert_eq.
    rewrite length_app. lia.
  - apply replacedCells_other; [|apply Hnorec; left; lia].
    replace (length cs) with (length cs + 0) at 1 by lia.
    rewrite (packerLinked_new cs t (rootOf lk) ids 0 Hlalt). reflexivity.
  - intros e. unfold isErased. split.
    + destruct e as [a|]; [|discriminate].
      destruct (cs !! a) as [[id name type| | | | | | | |]|] eqn:Ha; try discriminate.
      destruct (StdMap.find name (packerUniforms cs t)) as [v|] eqn:E; [|discriminate].
      intros _. exists a, id, name, type. split; [reflexivity|]. split; [exact Ha|].
      apply StdMap_find_In in E. apply in_map_iff. exists (name, v). split; [reflexivity|exact E].
    + intros (a & id & name & type & -> & Ha & Hin). rewrite Ha.
      destruct (StdMap.find name (packerUniforms cs t)) as [v|] eqn:E; [reflexivity|].
      exfalso. apply StdMap_find_None in E. exact (E Hin).
Qed.

Lemma packer_linker_objects_witness :
  exists res h',
    NonSamplerUniformToStructTraverser.Traverse 5 (Some 0) 7%N emptyScope packPool = Ok (res, h')
    /\ cells h' !! 2 =
         Some (TIntermAggregate EOpLinkerObjects [Some 7] (TType_basic EbtVoid EvqTemporary))
    /\ exists type, cells h' !! 7 = Some (TIntermSymbol 7 "anon@0" type).
Proof.
  destruct (packer_linker_objects 5 packPool 0 packBody packLinker 7%N emptyScope
              [Some 5; Some 6] (TType_basic EbtVoid EvqTemporary) packPool_stage)
    as (res & h' & Hrun & Hlk & Hs & _).
  - simpl. lia.
  - exact packPool_editable.
  - reflexivity.
  - exists res, h'. split; [exact Hrun|]. split; [exact Hlk|]. eexists. exact Hs.
Defined.

(** The shape of a struct member depends on the uniform it is made for, not
    on the members made before it. *)
Lemma memberTypes_lookup cs :
  forall uniforms publicType k name symbol type,
    Forall (symbolNamed cs) uniforms ->
    uniforms !! k = Some (name, symbol) ->
    symbolTypeAt cs symbol = Some type ->
    exists m,
      memberTypes cs uniforms publicType !! k = Some m
      /\ fieldName m = Some name
      /\ basicType m = basicType type
      /\ arraySizes m = arraySizes type
      /\ qualifier m = p_qualifier publicType
      /\ vectorSize m = (if isMatrix type then 0
                         else if isVector type then vectorSize type else 1)
      /\ matrixCols m = (if isMatrix type then matrixCols type else 0)
      /\ matrixRows m = (if isMatrix type then matrixRows type else 0).
Proof.
  induction uniforms as [|[name0 symbol0] uniforms IH];
    intros publicType k name symbol type Hlive Hk Hty.
  - rewrite lookup_nil in Hk. discriminate.
  - apply Forall_cons in Hlive as [Hhead Hlive].
    destruct (symbolTypeAt_named cs name0 symbol0 Hhead) as (type0 & Hty0).
    cbn [memberTypes]. rewrite Hty0.
    unfold NonSamplerUniformToStructTraverser.memberType. cbv beta iota zeta.
    destruct k as [|k].
    + simpl in Hk. injection Hk as -> ->. rewrite Hty0 in Hty. injection Hty as ->.
      eexists. split; [reflexivity|].
      destruct (isMatrix type); [|destruct (isVector type)]; repeat split; reflexivity.
    + simpl in Hk.
      match goal with
      | |- context [memberTypes cs uniforms ?p] =>
          destruct (IH p k name symbol type Hlive Hk Hty)
            as (m & Hm & Hf & Hb & Ha & Hq & Hshape)
      end.
      exists m. split; [exact Hm|]. split; [exact Hf|]. split; [exact Hb|]. split; [exact Ha|].
      split; [|exact Hshape]. rewrite Hq.
      destruct (isMatrix type0); [|destruct (isVector type0)]; reflexivity.
Qed.

(** X8: the members of the struct "Frame".  The packer pushes one member
    list on the scope; its [k]-th member is made for the [k]-th cached
    uniform in name order and has that uniform's name as field name, its basic
    type and array sizes, its matrix dimensions if it is a matrix, its vector
    size if it is a vector and vector size 1 otherwise, whatever the members
    before it are, and always the qualifier uniform, high precision,
    column-major, std140. *)
Theorem packer_member_shapes fuel h r body lk ids scope :
  let cs := cells h in
  let t := Node r (body ++ [lk]) in
  stage cs r body lk ->
  height t <= fuel ->
  editable cs (packerUseSites cs t) ->
  exists ids' scope' h' members,
    NonSamplerUniformToStructTraverser.Traverse fuel (Some r) ids scope h =
      Ok ((ids', scope'), h')
    /\ TypeLists scope' = TypeLists scope ++ [members]
    /\ length members = length (packerUniforms cs t)
    /\ forall k name symbol type,
         packerUniforms cs t !! k = Some (name, symbol) ->
         symbolTypeAt cs symbol = Some type ->
         exists m,
           members !! k = Some m
           /\ fieldName m = Some name
           /\ basicType m = basicType type
           /\ arraySizes m = arraySizes type
           /\ storage (qualifier m) = EvqUniform
           /\ precision (qualifier m) = EpqHigh
           /\ layoutMatrix (qualifier m) = ElmColumnMajor
           /\ layoutPacking (qualifier m) = ElpStd140
           /\ vectorSize m = (if isMatrix type then 0
                              else if isVector type then vectorSize type else 1)
           /\ matrixCols m = (if isMatrix type then matrixCols type else 0)
           /\ matrixRows m = (if isMatrix type then matrixRows type else 0).
Proof.
  intros cs t Hstage Hfuel Hedit.
  destruct (packer_run fuel h r body lk ids scope Hstage Hfuel Hedit)
    as (scope' & M & rm & Hrun & Hlists & Hnames & _).
  fold cs t in Hrun, Hlists, Hnames.
  pose proof (packer_traverse_tree h t fuel (stage_shape _ _ _ _ Hstage) Hfuel) as Htrav.
  pose proof (packer_traverse_sound _ _ _ _ _ _ Htrav) as (_ & _ & Hlive & _).
  rewrite collected_caches in Hlive. simpl in Hlive. fold cs in Hlive.
  change (declaredOf cs isPacked (occurrences cs [] t) StdMap.empty)
    with (packerUniforms cs t) in Hlive.
  eexists _, scope', _, (packerMembers cs t).
  split; [exact Hrun|]. split; [exact Hlists|]. split.
  - rewrite <- (length_map fieldName), Hnames. unfold StdMap.keys. rewrite !length_map.
    reflexivity.
  - intros k name symbol type Hk Hty.
    destruct (memberTypes_lookup cs (packerUniforms cs t)
                NonSamplerUniformToStructTraverser.initialPublicType k name symbol type
                Hlive Hk Hty) as (m & Hm & Hf & Hb & Ha & Hq & Hv & Hc & Hr).
    exists m. split; [exact Hm|]. rewrite Hq.
    repeat (split; [first [assumption|reflexivity]|]). exact Hr.
Qed.

Lemma packer_member_shapes_witness :
  exists ids' scope' h' members,
    NonSamplerUniformToStructTraverser.Traverse 5 (Some 0) 7%N emptyScope packPool =
      Ok ((ids', scope'), h')
    /\ TypeLists scope' = [members]
    /\ length members = 2
    /\ exists m, members !! 1 = Some m /\ fieldName m = Some "b" /\ vectorSize m = 1.
Proof.
  destruct (packer_member_shapes 5 packPool 0 packBody packLinker 7%N emptyScope packPool_stage)
    as (ids' & scope' & h' & members & Hrun & Hlists & Hlen & Hat).
  - simpl. lia.
  - exact packPool_editable.
  - exists ids', scope', h', members. split; [exact Hrun|]. split; [exact Hlists|].
    split; [exact Hlen|].
    destruct (Hat 1 "b" (Some 5) (exampleFloat EvqUniform 1) eq_refl eq_refl)
      as (m & Hm & Hf & _ & _ & _ & _ & _ & _ & Hv & _).
    exists m. split; [exact Hm|]. split; [exact Hf|exact Hv].
Defined.

(** ** Further properties of the vertex attribute binder *)

(** The loop of [createSymbols] completes when every name gets a location
    and every cached symbol is live, and allocates one node per varying. *)
Lemma createSymbols_completes apple :
  forall vs ls h asg,
    Forall (symbolNamed (cells h)) vs ->
    assignments apple (VertexVaryingInTraverser.count ls) (StdMap.keys vs) = Some asg ->
    exists ls' new,
      VertexVaryingInTraverser.createSymbols apple vs ls h =
        Ok (ls', mkPool (cells h ++ new) (removed h))
      /\ length new = length vs.
Proof.
  induction vs as [|[name0 symbol0] vs IH]; intros ls h asg Hlive Hasg.
  - exists ls, []. simpl. rewrite app_nil_r. destruct h. split; reflexivity.
  - apply Forall_cons in Hlive as [(a & id0 & type0 & Ha & Hsym) Hlive].
    simpl in Ha, Hsym. subst symbol0. simpl in Hasg.
    destruct (VertexVaryingInTraverser.GetVaryingLocationAndNewNameForName apple
                (VertexVaryingInTraverser.count ls) name0)
      as [[[location newName] count']|] eqn:Hget; [|discriminate].
    destruct (assignments apple count' (StdMap.keys vs)) as [asg'|] eqn:Hasg'; [|discriminate].
    simpl. rewrite (bind_of_Ok _ _ _ _ _ (getSymbolType_of_lookup _ _ _ _ _ Hsym)).
    rewrite Hget. unfold Next, addSymbol. unfold bind at 1. unfold alloc.
    match goal with
    | |- context [VertexVaryingInTraverser.createSymbols apple vs ?ls1 ?h1] =>
        destruct (IH ls1 h1 asg') as (ls' & new & Hrun & Hlen);
          [ simpl; eapply Forall_impl; [exact Hlive|]; intros b Hb; apply symbolNamed_app, Hb
          | exact Hasg'
          | ]
    end.
    simpl in Hrun. rewrite Hrun.
    eexists ls', (_ :: new). rewrite <- app_assoc. simpl. split; [reflexivity|].
    rewrite Hlen. reflexivity.
Qed.

(** X9: the shape of the symbols the binder creates.  The loop of
    [createSymbols] allocates one symbol per cached varying, with the basic
    type and the storage of the varying.  A matrix or a vector varying gives
    its dimensions to its symbol; for a varying that is neither, the loop sets
    no shape, so its symbol has the vector size and matrix dimensions of the
    symbol created just before it (of the public type the loop starts with,
    for the first one). *)
Theorem binder_symbol_shapes apple :
  forall vs ls h asg,
    Forall (symbolNamed (cells h)) vs ->
    assignments apple (VertexVaryingInTraverser.count ls) (StdMap.keys vs) = Some asg ->
    exists ls' new,
      VertexVaryingInTraverser.createSymbols apple vs ls h =
        Ok (ls', mkPool (cells h ++ new) (removed h))
      /\ length new = length vs
      /\ forall k name symbol type,
           vs !! k = Some (name, symbol) ->
           symbolTypeAt (cells h) symbol = Some type ->
           exists id newName ntype,
             new !! k = Some (TIntermSymbol id newName ntype)
             /\ basicType ntype = basicType type
             /\ storage (qualifier ntype) = storage (qualifier type)
             /\ (isMatrix type = true ->
                   vectorSize ntype = 0 /\ matrixCols ntype = matrixCols type
                   /\ matrixRows ntype = matrixRows type)
             /\ (isMatrix type = false -> isVector type = true ->
                   vectorSize ntype = vectorSize type /\ matrixCols ntype = 0
                   /\ matrixRows ntype = 0)
             /\ (isMatrix type = false -> isVector type = false ->
                   match k with
                   | 0 =>
                       vectorSize ntype = p_vectorSize (VertexVaryingInTraverser.publicType ls)
                       /\ matrixCols ntype = p_matrixCols (VertexVaryingInTraverser.publicType ls)
                       /\ matrixRows ntype = p_matrixRows (VertexVaryingInTraverser.publicType ls)
                   | S j =>
                       exists id' name' ptype,
                         new !! j = Some (TIntermSymbol id' name' ptype)
                         /\ vectorSize ntype = vectorSize ptype
                         /\ matrixCols ntype = matrixCols ptype
                         /\ matrixRows ntype = matrixRows ptype
                   end).
Proof.
  induction vs as [|[name0 symbol0] vs IH]; intros ls h asg Hlive Hasg.
  - exists ls, []. simpl. rewrite app_nil_r. destruct h.
    split; [reflexivity|]. split; [reflexivity|].
    intros k name symbol type Hk. rewrite lookup_nil in Hk. discriminate.
  - apply Forall_cons in Hlive as [(a & id0 & type0 & Ha & Hsym) Hlive].
    simpl in Ha, Hsym. subst symbol0. simpl in Hasg.
    destruct (VertexVaryingInTraverser.GetVaryingLocationAndNewNameForName apple
                (VertexVaryingInTraverser.count ls) name0)
      as [[[location newName] count']|] eqn:Hget; [|discriminate].
    destruct (assignments apple count' (StdMap.keys vs)) as [asg'|] eqn:Hasg'; [|discriminate].
    simpl. rewrite (bind_of_Ok _ _ _ _ _ (getSymbolType_of_lookup _ _ _ _ _ Hsym)).
    rewrite Hget. unfold Next, addSymbol. unfold bind at 1. unfold alloc.
    match goal with
    | |- context [VertexVaryingInTraverser.createSymbols apple vs ?ls1 ?h1] =>
        destruct (IH ls1 h1 asg') as (ls' & new & Hrun & Hlen & Hnew);
          [ simpl; eapply Forall_impl; [exact Hlive|]; intros b Hb; apply symbolNamed_app, Hb
          | exact Hasg'
          | ];
        set (p1 := VertexVaryingInTraverser.publicType ls1) in *
    end.
    simpl in Hrun. rewrite Hrun.
    eexists ls', (_ :: new). rewrite <- app_assoc. simpl. split; [reflexivity|].
    split; [rewrite Hlen; reflexivity|].
    intros [|k] name symbol type Hk Hty; simpl in Hk.
    + injection Hk as <- <-. simpl in Hty. rewrite Hsym in Hty. injection Hty as <-.
      eexists _, _, _. split; [reflexivity|]. fold p1.
      split; [reflexivity|]. split.
      { unfold p1. simpl. destruct (isMatrix type0), (isVector type0); reflexivity. }
      split; [|split].
      * intros Hm. unfold p1. simpl. rewrite Hm. repeat split; reflexivity.
      * intros Hm Hv. unfold p1. simpl. rewrite Hm, Hv. repeat split; reflexivity.
      * intros Hm Hv. unfold p1. simpl. rewrite Hm, Hv. repeat split; reflexivity.
    + destruct (Hnew k name symbol type Hk) as (id & nn & ntype & Hk' & Hb & Hs & Hmat & Hvec & Hsc).
      { simpl. destruct symbol as [b|]; [|discriminate Hty]. simpl in Hty |- *.
        destruct (cells h !! b) eqn:Hb; [|discriminate Hty].
        rewrite (lookup_app_l_Some _ _ _ _ Hb). exact Hty. }
      exists id, nn, ntype. split; [exact Hk'|]. split; [exact Hb|]. split; [exact Hs|].
      split; [exact Hmat|]. split; [exact Hvec|].
      intros Hm Hv. specialize (Hsc Hm Hv). destruct k as [|j]; [|exact Hsc].
      eexists _, _, _. split; [reflexivity|]. exact Hsc.
Qed.

Lemma binder_symbol_shapes_witness :
  exists ls' new id newName ntype,
    VertexVaryingInTraverser.createSymbols true [("normal", Some 0); ("weight", Some 1)]
      (VertexVaryingInTraverser.mkLoop
         (p_set_qualifier (clearLayout TQualifier_zero) TPublicType_zero) 0 7%N StdMap.empty [])
      shapePool = Ok (ls', mkPool (cells shapePool ++ new) [])
    /\ vectorSize (exampleFloat EvqVaryingIn 1) = 1
    /\ new !! 1 = Some (TIntermSymbol id newName ntype)
    /\ vectorSize ntype = 3.
Proof.
  destruct (binder_symbol_shapes true [("normal", Some 0); ("weight", Some 1)]
              (VertexVaryingInTraverser.mkLoop
                 (p_set_qualifier (clearLayout TQualifier_zero) TPublicType_zero) 0 7%N
                 StdMap.empty [])
              shapePool [(0%N, "a_position"); (1%N, "a_normal")])
    as (ls' & new & Hrun & Hlen & Hat).
  - repeat constructor; eexists _, _, _; split; reflexivity.
  - reflexivity.
  - destruct (Hat 0 "normal" (Some 0) (exampleFloat EvqVaryingIn 3) eq_refl eq_refl)
      as (id0 & nn0 & ty0 & H0 & _ & _ & _ & Hvec & _).
    destruct (Hat 1 "weight" (Some 1) (exampleFloat EvqVaryingIn 1) eq_refl eq_refl)
      as (id1 & nn1 & ty1 & H1 & _ & _ & _ & _ & Hsc).
    destruct (Hsc eq_refl eq_refl) as (id' & name' & ptype & Hp & Hv & _).
    rewrite H0 in Hp. injection Hp as _ _ <-.
    destruct (Hvec eq_refl eq_refl) as (Hv0 & _).
    exists ls', new, id1, nn1, ty1. split; [exact Hrun|]. split; [reflexivity|].
    split; [exact H1|]. rewrite Hv, Hv0. reflexivity.
Defined.

(** ** The name table of the binder *)

Lemma lookupName_assign_eq k v m : lookupName k (VertexVaryingInTraverser.assign k v m) = Some v.
Proof.
  induction m as [|[k' v'] m IH]; simpl.
  - rewrite String.eqb_refl. reflexivity.
  - destruct (String.eqb k k') eqn:E; simpl; [rewrite String.eqb_refl; reflexivity|].
    rewrite E. exact IH.
Qed.

Lemma lookupName_assign_ne k k0 v m :
  k <> k0 -> lookupName k (VertexVaryingInTraverser.assign k0 v m) = lookupName k m.
Proof.
  intros Hne. induction m as [|[k' v'] m IH]; simpl.
  - rewrite (proj2 (String.eqb_neq k k0) Hne). reflexivity.
  - destruct (String.eqb k0 k') eqn:E; simpl.
    + apply String.eqb_eq in E. subst k'.
      rewrite (proj2 (String.eqb_neq k k0) Hne). reflexivity.
    + rewrite IH. reflexivity.
Qed.

(** X10: the name table the binder returns.  When the new names handed out
    are pairwise distinct, looking up the new name of the [k]-th cached
    varying in [replacementToOriginalName] after the loop gives the original
    name of that varying, and a key that is no new name keeps the binding it
    had before. *)
Theorem binder_name_table apple :
  forall vs ls h asg,
    Forall (symbolNamed (cells h)) vs ->
    assignments apple (VertexVaryingInTraverser.count ls) (StdMap.keys vs) = Some asg ->
    NoDup (map snd asg) ->
    exists ls' h',
      VertexVaryingInTraverser.createSymbols apple vs ls h = Ok (ls', h')
      /\ (forall k loc newName name,
            asg !! k = Some (loc, newName) -> StdMap.keys vs !! k = Some name ->
            lookupName newName (VertexVaryingInTraverser.replacementToOriginalName ls') = Some name)
      /\ (forall key, ~ In key (map snd asg) ->
            lookupName key (VertexVaryingInTraverser.replacementToOriginalName ls') =
              lookupName key (VertexVaryingInTraverser.replacementToOriginalName ls)).
Proof.
  induction vs as [|[name0 symbol0] vs IH]; intros ls h asg Hlive Hasg Hnd.
  - exists ls, h. simpl in Hasg. injection Hasg as <-. split; [reflexivity|]. split.
    + intros k loc nn name Hk. rewrite lookup_nil in Hk. discriminate.
    + reflexivity.
  - apply Forall_cons in Hlive as [(a & id0 & type0 & Ha & Hsym) Hlive].
    simpl in Ha, Hsym. subst symbol0. simpl in Hasg.
    destruct (VertexVaryingInTraverser.GetVaryingLocationAndNewNameForName apple
                (VertexVaryingInTraverser.count ls) name0)
      as [[[location newName] count']|] eqn:Hget; [|discriminate].
    destruct (assignments apple count' (StdMap.keys vs)) as [asg'|] eqn:Hasg'; [|discriminate].
    injection Hasg as <-. simpl in Hnd. apply NoDup_cons in Hnd as [Hfresh Hnd].
    simpl. rewrite (bind_of_Ok _ _ _ _ _ (getSymbolType_of_lookup _ _ _ _ _ Hsym)).
    rewrite Hget. unfold Next, addSymbol. unfold bind at 1. unfold alloc.
    match goal with
    | |- context [VertexVaryingInTraverser.createSymbols apple vs ?ls1 ?h1] =>
        destruct (IH ls1 h1 asg') as (ls' & h' & Hrun & Hnew & Hold);
          [ simpl; eapply Forall_impl; [exact Hlive|]; intros b Hb; apply symbolNamed_app, Hb
          | exact Hasg'
          | exact Hnd
          | ]
    end.
    simpl in Hrun, Hold. rewrite Hrun. exists ls', h'. split; [reflexivity|]. split.
    + intros [|k] loc nn name Hk Hname; simpl in Hk, Hname.
      * injection Hk as <- <-. injection Hname as <-.
        rewrite Hold by (intros Hin; apply Hfresh, list_elem_of_In, Hin).
        apply lookupName_assign_eq.
      * exact (Hnew k loc nn name Hk Hname).
    + intros key Hnin. rewrite Hold by (intros Hin; apply Hnin; right; exact Hin).
      apply lookupName_assign_ne. intros ->. apply Hnin. left. reflexivity.
Qed.

Lemma binder_name_table_witness :
  exists ls' h',
    VertexVaryingInTraverser.createSymbols true [("normal", Some 0); ("weight", Some 1)]
      (VertexVaryingInTraverser.mkLoop
         (p_set_qualifier (clearLayout TQualifier_zero) TPublicType_zero) 0 7%N StdMap.empty
         [("a_normal", "stale")])
      shapePool = Ok (ls', h')
    /\ lookupName "a_position" (VertexVaryingInTraverser.replacementToOriginalName ls') = Some "normal"
    /\ lookupName "a_normal" (VertexVaryingInTraverser.replacementToOriginalName ls') = Some "weight".
Proof.
  destruct (binder_name_table true [("normal", Some 0); ("weight", Some 1)]
              (VertexVaryingInTraverser.mkLoop
                 (p_set_qualifier (clearLayout TQualifier_zero) TPublicType_zero) 0 7%N
                 StdMap.empty [("a_normal", "stale")])
              shapePool [(0%N, "a_position"); (1%N, "a_normal")])
    as (ls' & h' & Hrun & Hnew & _).
  - repeat constructor; eexists _, _, _; split; reflexivity.
  - reflexivity.
  - apply NoDup_cons. split; [|apply NoDup_singleton].
    intros H. apply list_elem_of_In in H. destruct H as [H|[]]. discriminate H.
  - exists ls', h'. split; [exact Hrun|]. split.
    + exact (Hnew 0 0%N "a_position" "normal" eq_refl eq_refl).
    + exact (Hnew 1 1%N "a_normal" "weight" eq_refl eq_refl).
Defined.

Lemma createSymbols_overflow :
  forall vs ls h,
    N.to_nat (VertexVaryingInTraverser.count ls) <= 18 ->
    18 < N.to_nat (VertexVaryingInTraverser.count ls) + length vs ->
    VertexVaryingInTraverser.createSymbols true vs ls h = Fault.
Proof.
  induction vs as [|[name symbol] vs IH]; intros ls h Hle Hgt.
  - simpl in Hgt. lia.
  - simpl. unfold bind at 1.
    destruct (getSymbolType symbol h) as [[type h1]| | |] eqn:Hty; try reflexivity.
    2:{ exfalso. unfold getSymbolType, bind in Hty.
        destruct (deref symbol h) as [[n h2]| | |] eqn:Hd; try discriminate.
        - destruct n; discriminate.
        - unfold deref in Hd. destruct symbol; [destruct (cells h !! n)|]; discriminate. }
    2:{ exfalso. unfold getSymbolType, bind in Hty.
        destruct (deref symbol h) as [[n h2]| | |] eqn:Hd; try discriminate.
        - destruct n; discriminate.
        - unfold deref in Hd. destruct symbol; [destruct (cells h !! n)|]; discriminate. }
    unfold VertexVaryingInTraverser.GetVaryingLocationAndNewNameForName.
    destruct (VertexVaryingInTraverser.s_attribName !! N.to_nat (VertexVaryingInTraverser.count ls))
      as [newName|] eqn:E; [|reflexivity].
    apply lookup_lt_Some in E. simpl in E.
    unfold Next, addSymbol. unfold bind at 1. unfold alloc.
    apply IH; simpl.
    + rewrite uint_small by lia. lia.
    + rewrite uint_small by lia. simpl in Hgt. lia.
Qed.

(** X11: the capacity-constrained variant has room for eighteen vertex
    inputs.  It indexes the eighteen names of [s_attribName] with the running
    count without a bound check: as long as the names suffice the loop
    allocates one symbol per varying, and when the cache holds more varyings
    than there are names left, the loop reads past the end of the table, which
    has no defined result. *)
Theorem binder_capacity vs ls h :
  N.to_nat (VertexVaryingInTraverser.count ls) <= 18 ->
  Forall (symbolNamed (cells h)) vs ->
  (N.to_nat (VertexVaryingInTraverser.count ls) + length vs <= 18 ->
     exists ls' new,
       VertexVaryingInTraverser.createSymbols true vs ls h =
         Ok (ls', mkPool (cells h ++ new) (removed h))
       /\ length new = length vs)
  /\ (18 < N.to_nat (VertexVaryingInTraverser.count ls) + length vs ->
      VertexVaryingInTraverser.createSymbols true vs ls h = Fault).
Proof.
  intros Hle Hlive. split.
  - intros Hfit.
    destruct (assignments_capacity (StdMap.keys vs) (VertexVaryingInTraverser.count ls))
      as (asg & Hasg & _).
    { unfold StdMap.keys. rewrite length_map. exact Hfit. }
    destruct (createSymbols_completes true vs ls h asg Hlive Hasg) as (ls' & new & Hrun & Hlen).
    exists ls', new. split; assumption.
  - exact (createSymbols_overflow vs ls h Hle).
Qed.

Lemma binder_capacity_witness :
  (exists ls' new,
     VertexVaryingInTraverser.createSymbols true [("normal", Some 0); ("weight", Some 1)]
       (VertexVaryingInTraverser.mkLoop TPublicType_zero 16 7%N StdMap.empty []) shapePool =
       Ok (ls', mkPool (cells shapePool ++ new) [])
     /\ length new = 2)
  /\ VertexVaryingInTraverser.createSymbols true [("normal", Some 0); ("weight", Some 1)]
       (VertexVaryingInTraverser.mkLoop TPublicType_zero 17 7%N StdMap.empty []) shapePool = Fault.
Proof.
  split.
  - apply (proj1 (binder_capacity [("normal", Some 0); ("weight", Some 1)]
                    (VertexVaryingInTraverser.mkLoop TPublicType_zero 16 7%N StdMap.empty [])
                    shapePool ltac:(simpl; lia)
                    ltac:(repeat constructor; eexists _, _, _; split; reflexivity))).
    simpl. lia.
  - apply (proj2 (binder_capacity [("normal", Some 0); ("weight", Some 1)]
                    (VertexVaryingInTraverser.mkLoop TPublicType_zero 17 7%N StdMap.empty [])
                    shapePool ltac:(simpl; lia)
                    ltac:(repeat constructor; eexists _, _, _; split; reflexivity))).
    simpl. lia.
Defined.

(** ** The records of a stage, read on the graph *)

Lemma symbolAt_Some cs s d :
  symbolAt cs s = Some d <-> exists id, cs !! s = Some (TIntermSymbol id (fst d) (snd d)).
Proof.
  unfold symbolAt. split.
  - destruct (cs !! s) as [[id name type| | | | | | | |]|]; try discriminate.
    intros [= <-]. exists id. reflexivity.
  - intros (id & ->). destruct d. reflexivity.
Qed.

(** A symbol below a node of a tree is one of its occurrences. *)
Lemma occurrence_of_edge cs :
  forall t path0 p s d,
    shape cs t -> In p (addresses t) -> edge cs p s -> symbolAt cs s = Some d ->
    exists path, In (path, s) (occurrences cs path0 t) /\ getParentNode path = Some p.
Proof.
  induction t as [a kids IH] using tree_ind'. intros path0 p s d Hshape Hp He Hs.
  pose proof Hshape as Hshape0.
  apply shape_inv in Hshape as (n & Ha & Hkids & Hshapes).
  rewrite Forall_forall in IH, Hshapes.
  assert (Hinner : forall q, In q (addresses (Node a kids)) -> edge cs q s ->
            exists n, cs !! a = Some n /\ classOf n <> CSymbol).
  { intros q _ _. exists n. split; [exact Ha|]. intros Hc.
    destruct n; try discriminate Hc. rewrite kidsOf_symbol in Hkids.
    injection Hkids as Hkids. symmetry in Hkids. apply map_eq_nil in Hkids. subst kids.
    destruct Hp as [<-|[]]. unfold edge, childrenAt in He. rewrite Ha in He. destruct He. }
  destruct (Hinner p Hp He) as (n' & Hn' & Hclass). rewrite Ha in Hn'. injection Hn' as <-.
  rewrite (occurrences_inner cs path0 a kids n Ha Hclass).
  destruct Hp as [<-|Hp].
  - apply (shape_edge cs a kids s Hshape0) in He.
    apply in_map_iff in He as (k & Hk & Hin).
    exists (path0 ++ [Some a]). split; [|apply getParentNode_snoc].
    apply in_flat_map. exists k. split; [exact Hin|].
    destruct k as [b kk]. simpl in Hk. subst b.
    apply symbolAt_Some in Hs as (id & Hs). simpl. rewrite Hs. left. reflexivity.
  - apply in_flat_map in Hp as (k & Hk & Hp).
    destruct (IH k (proj2 (list_elem_of_In _ _) Hk) (path0 ++ [Some a]) p s d
                (Hshapes k (proj2 (list_elem_of_In _ _) Hk)) Hp He Hs) as (path & Hin & Hpar).
    exists path. split; [|exact Hpar]. apply in_flat_map. exists k. split; assumption.
Qed.

Section Records.
Context (cs : list TIntermNode) (r : nat) (body : list tree) (lk : tree).
Context (candidate : TType -> bool) (also : bool) (la : nat) (recs : list (ptr * ptr)).
Hypothesis Hstage : stage cs r body lk.
Hypothesis Hla : la = rootOf lk.
Hypothesis Hrecs :
  recs = useSitesOf cs candidate also (occurrences cs [] (Node r (body ++ [lk]))).

Lemma record_symbol c p :
  In (c, p) recs -> exists s d, c = Some s /\ symbolAt cs s = Some d /\ candidate (snd d) = true.
Proof.
  intros Hin. rewrite Hrecs in Hin.
  apply useSitesOf_In in Hin as (path & s & [= -> _] & _ & Hsel).
  unfold isUseSite in Hsel. simpl in Hsel.
  destruct (symbolAt cs s) as [[name type]|] eqn:Hs; [|discriminate].
  apply andb_true_iff in Hsel as [Hc _]. exists s, (name, type). auto.
Qed.

Lemma record_body p s d :
  reachAvoid cs la r p -> edge cs p s -> symbolAt cs s = Some d -> candidate (snd d) = true ->
  In (Some s, Some p) recs.
Proof.
  intros Hp He Hs Hc. rewrite Hla in Hp. rewrite Hrecs.
  assert (Hocc : exists path, In (path, s) (flat_map (occurrences cs [Some r]) body)
                              /\ getParentNode path = Some p).
  { apply (stage_reach cs r body lk Hstage) in Hp as [->|Hp].
    - pose proof He as He0.
      apply (shape_edge cs r _ s (stage_shape _ _ _ _ Hstage)) in He.
      rewrite map_app in He. apply in_app_or in He as [He|[He|[]]].
      + apply in_map_iff in He as ([b kk] & Hb & Hk). simpl in Hb. subst b.
        exists [Some r]. split; [|reflexivity].
        apply in_flat_map. exists (Node s kk). split; [exact Hk|].
        apply symbolAt_Some in Hs as (id & Hs). simpl. rewrite Hs. left. reflexivity.
      + exfalso. destruct (stage_linker _ _ _ _ Hstage) as (lseq & ltype & Hlc).
        apply symbolAt_Some in Hs as (id & Hs). rewrite <- He in Hs. congruence.
    - apply in_flat_map in Hp as (k & Hk & Hp).
      destruct (stage_kid_shape cs r body lk Hstage k) as [Hks _];
        [apply in_or_app; left; exact Hk|].
      destruct (occurrence_of_edge cs k [Some r] p s d Hks Hp He Hs) as (path & Hin & Hpar).
      exists path. split; [|exact Hpar]. apply in_flat_map. exists k. split; assumption. }
  destruct Hocc as (path & Hin & Hpar).
  apply useSitesOf_In. exists path, s. split; [rewrite Hpar; reflexivity|].
  split.
  - rewrite (stage_occurrences cs r body lk Hstage). apply in_or_app. left. exact Hin.
  - destruct (stage_body_occurrence cs r body lk Hstage path s Hin) as (Hlp & _).
    unfold isUseSite. simpl. rewrite Hs. destruct d as [name type]. simpl in Hc.
    rewrite Hc, Hlp. simpl. rewrite orb_true_r. reflexivity.
Qed.

Lemma record_linker e d :
  also = true ->
  In (Some e) (childrenAt cs la) -> symbolAt cs e = Some d -> candidate (snd d) = true ->
  In (Some e, Some la) recs.
Proof.
  intros Halso He Hs Hc. rewrite Hrecs.
  destruct (stage_kid_shape cs r body lk Hstage lk) as [Hks _];
    [apply in_or_app; right; left; reflexivity|].
  assert (He' : edge cs (rootOf lk) e) by (rewrite <- Hla; exact He).
  destruct (occurrence_of_edge cs lk [Some r] (rootOf lk) e d Hks (rootOf_addresses lk) He' Hs)
    as (path & Hin & Hpar).
  rewrite <- Hla in Hpar.
  apply useSitesOf_In. exists path, e. split; [rewrite Hpar; reflexivity|].
  split.
  - rewrite (stage_occurrences cs r body lk Hstage). apply in_or_app. right. exact Hin.
  - unfold isUseSite. simpl. rewrite Hs. destruct d as [name type]. simpl in Hc.
    rewrite Hc, Halso. reflexivity.
Qed.

End Records.

(** ** The vertex attribute binder on a stage *)

(** The run of the binder over a stage: it completes when every name gets a
    location, and the resulting cells are the old ones, followed by one new
    symbol per cached varying, with every recorded symbol replaced. *)
Lemma binder_run apple fuel h r body lk ids r2o asg :
  let cs := cells h in
  let t := Node r (body ++ [lk]) in
  stage cs r body lk ->
  height t <= fuel ->
  editable cs (binderUseSites cs t) ->
  assignments apple
    (if apple then 0%N else VertexVaryingInTraverser.precountUVs (binderVaryings cs t) 0)
    (StdMap.keys (binderVaryings cs t)) = Some asg ->
  exists r2o' new M rm,
    VertexVaryingInTraverser.Traverse apple fuel (Some r) ids r2o h =
      Ok ((ids + N.of_nat (length (binderVaryings cs t)))%N, r2o',
          mkPool (replacedCells (cs ++ new) M (binderUseSites cs t)) rm)
    /\ length new = length (binderVaryings cs t)
    /\ (forall k loc newName, asg !! k = Some (loc, newName) ->
          exists type, new !! k = Some (TIntermSymbol (ids + N.of_nat k) newName type)
                       /\ layoutLocation (qualifier type) = (loc mod 4096)%N)
    /\ (forall k name, StdMap.keys (binderVaryings cs t) !! k = Some name ->
          StdMap.find name M = Some (Some (length cs + k)))
    /\ (forall name, ~ In name (StdMap.keys (binderVaryings cs t)) -> StdMap.find name M = None).
Proof.
  intros cs t Hstage Hfuel Hedit Hasg.
  pose proof (stage_shape _ _ _ _ Hstage) as Hshape.
  pose proof (stage_nodup _ _ _ _ Hstage) as Hnd.
  destruct (stage_root_sequence cs r body lk Hstage) as (rop & rtype & Hr).
  pose proof (binder_traverse_tree h t fuel Hshape Hfuel) as Htrav.
  pose proof (binder_traverse_sound _ _ _ _ _ _ Htrav) as (_ & Hsorted & Hlive & _).
  rewrite collected_caches in Htrav, Hsorted, Hlive.
  cbn [m_nameToSymbol m_symbolsToParents] in Hsorted, Hlive. fold cs in Htrav, Hsorted, Hlive.
  change (declaredOf cs isVaryingIn (occurrences cs [] t) StdMap.empty)
    with (binderVaryings cs t) in *.
  change (useSitesOf cs isVaryingIn true (occurrences cs [] t)) with (binderUseSites cs t) in *.
  set (start := VertexVaryingInTraverser.mkLoop
                  (p_set_qualifier (clearLayout TQualifier_zero) TPublicType_zero)
                  (if apple then 0%N
                   else VertexVaryingInTraverser.precountUVs (binderVaryings cs t) 0)
                  ids StdMap.empty r2o).
  destruct (createSymbols_spec apple (binderVaryings cs t) start h asg Hlive
              (sortedKeys_NoDup _ Hsorted) Hasg)
    as (ls & new & Hrun & Hlen & Hids & Hnew & Hmap & Hother).
  cbn [VertexVaryingInTraverser.ids VertexVaryingInTraverser.originalNameToReplacement start]
    in Hids, Hnew, Hother.
  fold cs in Hrun, Hmap.
  set (M := VertexVaryingInTraverser.originalNameToReplacement ls) in *.
  assert (Hroot : forall id name type, cs !! rootOf t <> Some (TIntermSymbol id name type)).
  { intros id name type. simpl. rewrite Hr. discriminate. }
  destruct (tree_useSites cs isVaryingIn true t Hshape Hnd Hroot Hedit) as [Huse Hndrecs].
  fold (binderUseSites cs t) in Huse, Hndrecs.
  assert (HM : forall name v, StdMap.find name M = Some v ->
            exists k, v = Some (length cs + k)).
  { intros name v Hv.
    destruct (in_dec String.string_dec name (StdMap.keys (binderVaryings cs t))) as [Hin|Hnin].
    - apply list_elem_of_In, list_elem_of_lookup_1 in Hin as (k & Hk).
      rewrite (Hmap k name Hk) in Hv. injection Hv as <-. eauto.
    - rewrite (Hother name Hnin) in Hv. discriminate. }
  destruct (makeReplacements_spec M (binderUseSites cs t) (mkPool (cs ++ new) (removed h)))
    as (rm & Hmake).
  - apply Forall_forall. intros rec Hrec. rewrite Forall_forall in Huse.
    apply (useSite_transfer cs); [apply Huse, Hrec|].
    intros s pa ->. destruct (Huse _ Hrec) as (s0 & pa0 & id & nm & ty & n & ks & [= <- <-] & Hs & Hpa & _).
    cbn [cells]. split; apply lookup_app_l; eapply lookup_lt_Some; eassumption.
  - exact Hndrecs.
  - intros name v Hv Hin. destruct (HM name v Hv) as (k & ->).
    apply list_elem_of_In, in_map_iff in Hin as ([s pa] & Hfst & Hin). simpl in Hfst. subst s.
    rewrite Forall_forall in Huse.
    destruct (Huse _ (proj2 (list_elem_of_In _ _) Hin))
      as (s & pa' & id & nm & ty & n & ks & [= Hs1 _] & Hs & _).
    apply lookup_lt_Some in Hs. lia.
  - exists (VertexVaryingInTraverser.replacementToOriginalName ls), new, M, rm.
    split; [|split; [exact Hlen|split; [exact Hnew|split; [exact Hmap|]]]].
    + unfold VertexVaryingInTraverser.Traverse.
      rewrite (bind_of_Ok _ _ _ _ _ Htrav). cbn [m_nameToSymbol m_symbolsToParents].
      fold start. rewrite (bind_of_Ok _ _ _ _ _ Hrun).
      fold M. rewrite (bind_of_Ok _ _ _ _ _ Hmake). unfold ret. rewrite Hids. reflexivity.
    + intros name Hnin. rewrite (Hother name Hnin). reflexivity.
Qed.

Lemma children_mapChildren f n : children (mapChildren f n) = map f (children n).
Proof. destruct n; reflexivity. Qed.

Lemma childrenAt_replaced cs M recs a :
  childrenAt (replacedCells cs M recs) a = map (substFor cs M recs a) (childrenAt cs a).
Proof.
  unfold childrenAt. rewrite replacedCells_lookup.
  destruct (cs !! a) as [n|]; [|reflexivity]. simpl. apply children_mapChildren.
Qed.

Lemma uvPool_stage : stage (cells uvPool) 0 uvBody uvLinker.
Proof.
  split.
  - repeat (econstructor; try reflexivity).
  - apply (bool_decide_unpack _). vm_compute. exact I.
  - simpl. eauto.
  - simpl. eauto.
  - repeat constructor.
Qed.

Lemma uvPool_editable :
  editable (cells uvPool) (binderUseSites (cells uvPool) (Node 0 (uvBody ++ [uvLinker]))).
Proof.
  intros s pa n Hin Hpa. vm_compute in Hin.
  destruct Hin as [[= <- <-]|[[= <- <-]|[]]]; injection Hpa as <-; reflexivity.
Qed.

(** X12: the binder gives the declaration and the uses of a vertex input
    one and the same new symbol.  On a stage the pass completes when every
    cached name gets a location; it draws one identifier per cached varying;
    the symbol made for the [k]-th cached name is the [k]-th new node; and
    wherever a varying-in symbol of that name was a child, among the linker
    objects or anywhere else in the stage, the parent now holds that new node
    and no longer the old symbol. *)
Theorem binder_replaces_declarations_and_uses apple fuel h r body lk ids r2o asg :
  let cs := cells h in
  let t := Node r (body ++ [lk]) in
  stage cs r body lk ->
  height t <= fuel ->
  editable cs (binderUseSites cs t) ->
  assignments apple
    (if apple then 0%N else VertexVaryingInTraverser.precountUVs (binderVaryings cs t) 0)
    (StdMap.keys (binderVaryings cs t)) = Some asg ->
  exists res h',
    VertexVaryingInTraverser.Traverse apple fuel (Some r) ids r2o h = Ok (res, h')
    /\ fst res = (ids + N.of_nat (length (binderVaryings cs t)))%N
    /\ forall k loc newName name,
         asg !! k = Some (loc, newName) ->
         StdMap.keys (binderVaryings cs t) !! k = Some name ->
         (exists type,
            cells h' !! (length cs + k) = Some (TIntermSymbol (ids + N.of_nat k) newName type))
         /\ forall pa s type,
              reachAvoid cs (rootOf lk) r pa \/ pa = rootOf lk ->
              edge cs pa s ->
              symbolAt cs s = Some (name, type) ->
              isVaryingIn type = true ->
              In (Some (length cs + k)) (childrenAt (cells h') pa)
              /\ ~ In (Some s) (childrenAt (cells h') pa).
Proof.
  intros cs t Hstage Hfuel Hedit Hasg.
  destruct (binder_run apple fuel h r body lk ids r2o asg Hstage Hfuel Hedit Hasg)
    as (r2o' & new & M & rm & Hrun & Hlen & Hnew & Hmap & Hother).
  fold cs t in Hrun, Hlen, Hnew, Hmap, Hother.
  eexists _, _. split; [exact Hrun|]. split; [reflexivity|]. cbn [cells].
  set (L := cs ++ new). set (recs := binderUseSites cs t).
  assert (Hold : forall a, a < length cs -> L !! a = cs !! a)
    by (intros a Ha; apply lookup_app_l; exact Ha).
  assert (Hsym : forall a d, symbolAt cs a = Some d -> symbolAt L a = Some d).
  { intros a d Hd. unfold symbolAt. rewrite Hold; [exact Hd|].
    unfold symbolAt in Hd. destruct (cs !! a) eqn:E; [|discriminate].
    eapply lookup_lt_Some. exact E. }
  assert (Hrep : forall c pa, (c, Some pa) ∈ recs ->
            forall x, replacementFor L M c = Some x -> length cs <= x).
  { intros c pa Hin x Hx. apply list_elem_of_In in Hin.
    destruct (record_symbol cs r body lk isVaryingIn true recs eq_refl c (Some pa) Hin)
      as (a & [nm ty] & -> & Ha & _).
    unfold replacementFor in Hx. rewrite (Hsym a _ Ha) in Hx.
    destruct (in_dec String.string_dec nm (StdMap.keys (binderVaryings cs t))) as [Hk|Hk].
    - apply list_elem_of_In, list_elem_of_lookup_1 in Hk as (k & Hk).
      rewrite (Hmap k nm Hk) in Hx. simpl in Hx. injection Hx as <-. lia.
    - rewrite (Hother nm Hk) in Hx. discriminate. }
  intros k loc newName name Hk Hname. split.
  - destruct (Hnew k loc newName Hk) as (type & Hty & _). exists type.
    rewrite replacedCells_lookup. unfold L. rewrite lookup_app_r by lia.
    replace (length cs + k - length cs) with k by lia. rewrite Hty. reflexivity.
  - intros pa s type Hpa He Hs Hv.
    assert (Hin : (Some s, Some pa) ∈ recs).
    { apply list_elem_of_In. destruct Hpa as [Hpa| ->].
      - exact (record_body cs r body lk isVaryingIn true (rootOf lk) recs Hstage eq_refl eq_refl
                 pa s (name, type) Hpa He Hs Hv).
      - exact (record_linker cs r body lk isVaryingIn true (rootOf lk) recs Hstage eq_refl eq_refl
                 s (name, type) eq_refl He Hs Hv). }
    assert (Hpalt : pa < length cs) by exact (edge_lt _ _ _ He).
    assert (Hslt : s < length cs).
    { unfold symbolAt in Hs. destruct (cs !! s) eqn:E; [|discriminate].
      eapply lookup_lt_Some. exact E. }
    rewrite childrenAt_replaced.
    assert (Hch : childrenAt L pa = childrenAt cs pa) by (unfold childrenAt; rewrite Hold by exact Hpalt; reflexivity).
    rewrite Hch. split.
    + apply in_map_iff. exists (Some s). split; [|exact He].
      unfold substFor. rewrite bool_decide_eq_true_2 by exact Hin.
      unfold replacementFor. rewrite (Hsym s _ Hs). rewrite (Hmap k name Hname). reflexivity.
    + intros Hafter. apply in_map_iff in Hafter as (c & Hc & _).
      unfold substFor in Hc. destruct (bool_decide ((c, Some pa) ∈ recs)) eqn:E.
      * apply bool_decide_eq_true in E. specialize (Hrep c pa E s Hc). lia.
      * apply bool_decide_eq_false in E. subst c. exact (E Hin).
Qed.

Lemma binder_replaces_declarations_and_uses_witness :
  exists res h',
    VertexVaryingInTraverser.Traverse true 5 (Some 0) 7%N [] uvPool = Ok (res, h')
    /\ fst res = 8%N
    /\ (exists type, cells h' !! 5 = Some (TIntermSymbol 7 "a_position" type))
    /\ In (Some 5) (childrenAt (cells h') 1) /\ ~ In (Some 2) (childrenAt (cells h') 1)
    /\ In (Some 5) (childrenAt (cells h') 3) /\ ~ In (Some 4) (childrenAt (cells h') 3).
Proof.
  destruct (binder_replaces_declarations_and_uses true 5 uvPool 0 uvBody uvLinker 7%N []
              [(0%N, "a_position")] uvPool_stage)
    as (res & h' & Hrun & Hids & Hat).
  - simpl. lia.
  - exact uvPool_editable.
  - reflexivity.
  - destruct (Hat 0 0%N "a_position" "uv" eq_refl eq_refl) as [Hsym Huse].
    exists res, h'. split; [exact Hrun|]. split; [exact Hids|]. split; [exact Hsym|].
    destruct (Huse 1 2 (exampleFloat EvqVaryingIn 2)) as [H1 H2];
      [left; apply (stage_reach _ _ _ _ uvPool_stage); right; simpl; auto
      |left; reflexivity|reflexivity|reflexivity|].
    destruct (Huse 3 4 (exampleFloat EvqVaryingIn 2)) as [H3 H4];
      [right; reflexivity|left; reflexivity|reflexivity|reflexivity|].
    auto.
Defined.

(** ** Further properties of the sampler splitter *)

Lemma stage_no_linker_record cs r body lk candidate s :
  stage cs r body lk ->
  ~ In (s, Some (rootOf lk))
       (useSitesOf cs candidate false (occurrences cs [] (Node r (body ++ [lk])))).
Proof.
  intros Hstage Hin. pose proof Hin as Hin0.
  apply useSitesOf_In in Hin0 as (p0 & s0 & [= -> _] & _).
  destruct (stage_useSite cs r body lk candidate s0 (rootOf lk) Hstage Hin) as (Hne & _).
  exact (Hne eq_refl).
Qed.

Lemma stage_new_record cs r body lk candidate s a :
  stage cs r body lk -> length cs <= a ->
  ~ In (s, Some a)
       (useSitesOf cs candidate false (occurrences cs [] (Node r (body ++ [lk])))).
Proof.
  intros Hstage Ha Hin. pose proof Hin as Hin0.
  apply useSitesOf_In in Hin0 as (p0 & s0 & [= -> _] & _).
  destruct (stage_useSite cs r body lk candidate s0 a Hstage Hin) as (_ & Hlt & _). lia.
Qed.

(** X13: what the splitter leaves of the linker objects.  The pass draws two
    identifiers per cached sampler.  For the [k]-th cached sampler in name
    order it allocates a texture symbol named after the sampler with the
    suffix "Texture", then a sampler symbol with the old name; in the
    linker-object sequence every entry that is a symbol with a cached name
    gives way, at its position, to that texture symbol followed by that sampler
    symbol, and every other entry stays, in the old order. *)
Theorem splitter_linker_objects fuel h r body lk ids lseq ltype :
  let cs := cells h in
  let t := Node r (body ++ [lk]) in
  let pairs := snd (splitterMaps cs t) in
  stage cs r body lk ->
  height t <= fuel ->
  editable cs (splitterUseSites cs t) ->
  cs !! rootOf lk = Some (TIntermAggregate EOpLinkerObjects lseq ltype) ->
  exists h',
    SamplerSplitterTraverser.Traverse fuel (Some r) ids h =
      Ok ((ids + 2 * N.of_nat (length (splitterSamplers cs t)))%N, h')
    /\ cells h' !! rootOf lk =
         Some (TIntermAggregate EOpLinkerObjects (flat_map (splitEntry cs pairs) lseq) ltype)
    /\ (forall k name symbol,
          splitterSamplers cs t !! k = Some (name, symbol) ->
          (forall a id type, cs !! a = Some (TIntermSymbol id name type) ->
             splitEntry cs pairs (Some a) = [Some (length cs + 3 * k); Some (length cs + 3 * k + 1)])
          /\ forall type, symbolTypeAt cs symbol = Some type ->
               cells h' !! (length cs + 3 * k) =
                 Some (TIntermSymbol (ids + 2 * N.of_nat k) (name ++ "Texture")
                         (SamplerSplitterTraverser.textureType type (slotAfter k 0)))
               /\ cells h' !! (length cs + 3 * k + 1) =
                    Some (TIntermSymbol (ids + 2 * N.of_nat k + 1) name
                            (SamplerSplitterTraverser.samplerType type (slotAfter k 0))))
    /\ (forall e,
          (forall a id name type, e = Some a -> cs !! a = Some (TIntermSymbol id name type) ->
             ~ In name (StdMap.keys (splitterSamplers cs t))) ->
          splitEntry cs pairs e = [e]).
Proof.
  intros cs t pairs Hstage Hfuel Hedit Hla.
  destruct (splitter_run fuel h r body lk ids Hstage Hfuel Hedit) as (Hsorted & Hlive & rm & Hrun).
  fold cs t in Hsorted, Hlive, Hrun.
  assert (Hlalt : rootOf lk < length cs) by (eapply lookup_lt_Some; exact Hla).
  pose proof (sortedKeys_NoDup _ Hsorted) as Hnd.
  eexists. split; [exact Hrun|]. cbn [cells]. split; [|split].
  - apply replacedCells_other; [|intros s; apply stage_no_linker_record, Hstage].
    unfold splitterLinked. fold cs. rewrite Hla. apply list_lookup_insert_eq.
    rewrite length_app. lia.
  - intros k name symbol Hk.
    destruct (replacerMaps_find (splitterSamplers cs t) (length cs) StdMap.empty StdMap.empty
                k name symbol Hnd Hk) as [_ Hpair].
    split.
    + intros a id type Ha. unfold splitEntry. rewrite Ha. unfold pairs, splitterMaps.
      rewrite Hpair. reflexivity.
    + intros type Hty.
      destruct (replacerNodes_lookup cs (splitterSamplers cs t) (length cs) 0 ids k name symbol
                  type Hlive Hk Hty) as (Htex & Hsam & _).
      split.
      * rewrite replacedCells_lookup.
        replace (length cs + 3 * k) with (length cs + (3 * k)) by lia.
        rewrite (splitterLinked_new cs t (rootOf lk) ids _ Hlalt), Htex. reflexivity.
      * rewrite replacedCells_lookup.
        replace (length cs + 3 * k + 1) with (length cs + (3 * k + 1)) by lia.
        rewrite (splitterLinked_new cs t (rootOf lk) ids _ Hlalt), Hsam. reflexivity.
  - intros e He. unfold splitEntry. destruct e as [a|]; [|reflexivity].
    destruct (cs !! a) as [[id name type| | | | | | | |]|] eqn:Ha; try reflexivity.
    destruct (replacerMaps_other (splitterSamplers cs t) (length cs) StdMap.empty StdMap.empty
                name (He a id name type eq_refl Ha)) as [_ Hnone].
    unfold pairs, splitterMaps. rewrite Hnone. reflexivity.
Qed.

Lemma splitter_linker_objects_witness :
  exists h',
    SamplerSplitterTraverser.Traverse 5 (Some 0) 30%N splitPool = Ok (32%N, h')
    /\ cells h' !! 2 =
         Some (TIntermAggregate EOpLinkerObjects [Some 7; Some 8; Some 6]
                 (TType_basic EbtVoid EvqTemporary))
    /\ (exists type, cells h' !! 7 = Some (TIntermSymbol 30 "texTexture" type))
    /\ (exists type, cells h' !! 8 = Some (TIntermSymbol 31 "tex" type)).
Proof.
  destruct (splitter_linker_objects 5 splitPool 0 splitBody splitLinker 30%N
              [Some 5; Some 6] (TType_basic EbtVoid EvqTemporary) splitPool_stage)
    as (h' & Hrun & Hlk & Hat & _).
  - simpl. lia.
  - exact splitPool_editable.
  - reflexivity.
  - exists h'. split; [exact Hrun|]. split; [exact Hlk|].
    destruct (Hat 0 "tex" (Some 5) eq_refl) as [_ Hsym].
    destruct (Hsym exampleSampler eq_refl) as [Htex Hsam].
    split; eexists; [exact Htex|exact Hsam].
Defined.

(** X14: a stage without a sampler uniform is left as it is by the
    splitter: no node is added or changed, and no identifier is drawn. *)
Theorem splitter_without_samplers fuel h r body lk ids :
  let cs := cells h in
  let t := Node r (body ++ [lk]) in
  stage cs r body lk ->
  height t <= fuel ->
  (forall s name type, In s (addresses t) -> symbolAt cs s = Some (name, type) ->
     isSplit type = false) ->
  exists rm,
    SamplerSplitterTraverser.Traverse fuel (Some r) ids h = Ok (ids, mkPool cs rm).
Proof.
  intros cs t Hstage Hfuel Hnone.
  destruct (no_candidate_caches cs isSplit false t Hnone) as [Huse Hdecl].
  fold (splitterUseSites cs t) in Huse. fold (splitterSamplers cs t) in Hdecl.
  destruct (splitter_run fuel h r body lk ids Hstage Hfuel) as (_ & _ & rm & Hrun).
  { fold cs t. rewrite Huse. intros s pa n []. }
  fold cs t in Hrun. exists rm. rewrite Hrun. f_equal. f_equal.
  - rewrite Hdecl. simpl. lia.
  - f_equal. rewrite Huse, replacedCells_nil. unfold splitterLinked, splitterMaps.
    rewrite Hdecl. simpl. rewrite app_nil_r.
    destruct (cs !! rootOf lk) as [[| |op sequence type| | | | | |]|] eqn:Hla; try reflexivity.
    replace (flat_map (splitEntry cs StdMap.empty) sequence) with sequence.
    + apply list_insert_id. exact Hla.
    + clear. induction sequence as [|e l IH]; [reflexivity|].
      simpl. rewrite <- IH. f_equal.
      unfold splitEntry. destruct e as [a|]; [|reflexivity].
      destruct (cs !! a) as [[]|]; reflexivity.
Qed.

Lemma splitter_without_samplers_witness :
  exists rm,
    SamplerSplitterTraverser.Traverse 5 (Some 0) 30%N packPool =
      Ok (30%N, mkPool (cells packPool) rm).
Proof.
  apply (splitter_without_samplers 5 packPool 0 packBody packLinker 30%N packPool_stage).
  - simpl. lia.
  - intros s name type Hin Hs. simpl in Hin.
    destruct Hin as [<-|[<-|[<-|[<-|[<-|[<-|[<-|[]]]]]]]]; try discriminate Hs;
      injection Hs as <- <-; reflexivity.
Defined.

(** ** Further properties of the uniform vector promoter *)

Lemma isLinkerObject_after_retype path h s id name type newType b :
  cells h !! s = Some (TIntermSymbol id name type) ->
  isLinkerObject path h = Ok (b, h) ->
  isLinkerObject path (mkPool (<[s := TIntermSymbol id name newType]> (cells h)) (removed h)) =
    Ok (b, mkPool (<[s := TIntermSymbol id name newType]> (cells h)) (removed h)).
Proof.
  intros Hs Hlinker.
  assert (Hslt : s < length (cells h)) by (eapply lookup_lt_Some; exact Hs).
  apply (isLinkerObject_frame path h _ b); [|exact Hlinker].
  intros a na Ha. simpl. destruct (decide (s = a)) as [<-|Hne].
  - rewrite list_lookup_insert_eq by exact Hslt. rewrite Hs in Ha. injection Ha as <-.
    eexists. split; [reflexivity|exact I].
  - rewrite list_lookup_insert_ne by exact Hne. exists na. split; [exact Ha|].
    destruct na; auto.
Qed.

(** X15: at a use site of a promoted uniform that is no array, the promoter
    retypes the symbol in place to a four-component float vector with the old
    qualifier, appends one constructor aggregate of the old type over the
    symbol, and puts that aggregate in the slot of the parent that held the
    symbol; nothing else changes. *)
Theorem promoter_use_site h path scope s p id name stype pn :
  cells h !! s = Some (TIntermSymbol id name stype) ->
  isPromoted stype = true ->
  isArray stype = false ->
  isLinkerObject path h = Ok (false, h) ->
  last path = Some (Some p) ->
  cells h !! p = Some pn ->
  replaceable pn = true ->
  In (Some s) (children pn) ->
  let newType := UniformTypeChangeTraverser.promotedType stype in
  let conv := length (cells h) in
  exists scope',
    UniformTypeChangeTraverser.visitSymbol path (Some s) scope h =
      Ok (scope',
          mkPool (<[p := replaceChild (Some s) (Some conv) pn]>
                    (<[s := TIntermSymbol id name newType]> (cells h)
                     ++ [TIntermAggregate (mapTypeToConstructorOp stype) [Some s] stype]))
                 (removed h))
    /\ ArraySizes scope' = ArraySizes scope
    /\ basicType newType = EbtFloat
    /\ vectorSize newType = 4
    /\ qualifier newType = qualifier stype
    /\ p <> s
    /\ In (Some conv) (children (replaceChild (Some s) (Some conv) pn)).
Proof.
  intros Hs Hprom Harr Hlinker Hlast Hp Hrep Hchild newType conv.
  assert (Hps : p <> s).
  { intros ->. rewrite Hs in Hp. injection Hp as <-. discriminate. }
  assert (Hslt : s < length (cells h)) by (eapply lookup_lt_Some; exact Hs).
  assert (Hplt : p < length (cells h)) by (eapply lookup_lt_Some; exact Hp).
  assert (Hnone : arraySizes stype = None).
  { unfold isArray in Harr. apply bool_decide_eq_false in Harr.
    destruct (arraySizes stype); [exfalso; apply Harr; eauto|reflexivity]. }
  unfold UniformTypeChangeTraverser.visitSymbol.
  rewrite (bind_of_Ok _ _ _ _ _ (deref_of_lookup _ _ _ Hs)).
  unfold isPromoted in Hprom. rewrite Hprom. fold newType. rewrite Hnone.
  set (scope' := mkScope _ _ _).
  set (h1 := mkPool (<[s := TIntermSymbol id name newType]> (cells h)) (removed h)).
  rewrite (bind_of_Ok _ _ _ tt h1) by (apply (store_of_lookup s h _ _ Hs)).
  rewrite (bind_of_Ok _ _ _ false h1)
    by (exact (isLinkerObject_after_retype path h s id name stype newType false Hs Hlinker)).
  rewrite (getParentNode_last _ _ Hlast).
  replace (isArray newType) with (isArray stype) by reflexivity. rewrite Harr.
  unfold addShapeConversion. unfold bind at 1. unfold alloc.
  set (h2 := mkPool _ _).
  assert (Hp2 : cells h2 !! p = Some pn).
  { unfold h2. simpl. rewrite lookup_app_l by (rewrite length_insert; exact Hplt).
    rewrite list_lookup_insert_ne by (intros ->; apply Hps; reflexivity). exact Hp. }
  rewrite (bind_of_Ok _ _ _ tt _ (injectShapeConversion_spec _ p _ h2 pn Hp2 Hrep)).
  exists scope'. unfold ret, h2, h1. simpl. rewrite length_insert. fold conv.
  split; [reflexivity|]. split; [reflexivity|]. split; [reflexivity|].
  split; [reflexivity|]. split; [reflexivity|]. split; [exact Hps|].
  apply children_replaceChild_In; assumption.
Qed.

Lemma promoter_use_site_witness :
  exists scope',
    UniformTypeChangeTraverser.visitSymbol [Some 0; Some 1] (Some 3) emptyScope packPool =
      Ok (scope',
          mkPool (<[1 := TIntermBinary EOpAdd (Some 7) (Some 4) (exampleFloat EvqTemporary 1)]>
                    (<[3 := TIntermSymbol 10 "b"
                              (UniformTypeChangeTraverser.promotedType (exampleFloat EvqUniform 1))]>
                       (cells packPool)
                     ++ [TIntermAggregate EOpConstructFloat [Some 3] (exampleFloat EvqUniform 1)]))
                 [])
    /\ vectorSize (UniformTypeChangeTraverser.promotedType (exampleFloat EvqUniform 1)) = 4.
Proof.
  destruct (promoter_use_site packPool [Some 0; Some 1] emptyScope 3 1 10%N "b"
              (exampleFloat EvqUniform 1)
              (TIntermBinary EOpAdd (Some 3) (Some 4) (exampleFloat EvqTemporary 1)))
    as (scope' & Hrun & _ & _ & Hv & _);
    try reflexivity; [left; reflexivity|].
  exists scope'. split; [exact Hrun|exact Hv].
Defined.

(** X16: where the promoter inserts no conversion.  A symbol that is no
    uniform or buffer, or is a sampler or a matrix, is left alone; a promoted
    symbol among the linker objects is retyped in place, and no node is
    allocated and no other node touched. *)
Theorem promoter_without_conversion h path scope s id name stype :
  cells h !! s = Some (TIntermSymbol id name stype) ->
  (isPromoted stype = false ->
     UniformTypeChangeTraverser.visitSymbol path (Some s) scope h = Ok (scope, h))
  /\ (isPromoted stype = true ->
      isLinkerObject path h = Ok (true, h) ->
      exists scope',
        UniformTypeChangeTraverser.visitSymbol path (Some s) scope h =
          Ok (scope',
              mkPool (<[s := TIntermSymbol id name
                               (UniformTypeChangeTraverser.promotedType stype)]> (cells h))
                     (removed h))
        /\ Types scope' = Types scope /\ TypeLists scope' = TypeLists scope).
Proof.
  intros Hs. split.
  - intros Hprom. unfold UniformTypeChangeTraverser.visitSymbol.
    rewrite (bind_of_Ok _ _ _ _ _ (deref_of_lookup _ _ _ Hs)).
    unfold isPromoted in Hprom. rewrite Hprom. reflexivity.
  - intros Hprom Hlinker. unfold UniformTypeChangeTraverser.visitSymbol.
    rewrite (bind_of_Ok _ _ _ _ _ (deref_of_lookup _ _ _ Hs)).
    unfold isPromoted in Hprom. rewrite Hprom.
    set (scope' := mkScope _ _ _).
    set (h1 := mkPool _ (removed h)).
    rewrite (bind_of_Ok _ _ _ tt h1) by (apply (store_of_lookup s h _ _ Hs)).
    rewrite (bind_of_Ok _ _ _ true h1)
      by (exact (isLinkerObject_after_retype path h s id name stype _ true Hs Hlinker)).
    exists scope'. repeat split.
Qed.

Lemma promoter_without_conversion_witness :
  UniformTypeChangeTraverser.visitSymbol [Some 0; Some 1] (Some 2) emptyScope uvPool =
    Ok (emptyScope, uvPool)
  /\ exists scope',
       UniformTypeChangeTraverser.visitSymbol [Some 0; Some 2] (Some 5) emptyScope packPool =
         Ok (scope',
             mkPool (<[5 := TIntermSymbol 10 "b"
                              (UniformTypeChangeTraverser.promotedType
                                 (exampleFloat EvqUniform 1))]> (cells packPool)) []).
Proof.
  split.
  - apply (proj1 (promoter_without_conversion uvPool [Some 0; Some 1] emptyScope 2 7%N "uv"
                    (exampleFloat EvqVaryingIn 2) eq_refl)).
    reflexivity.
  - destruct (proj2 (promoter_without_conversion packPool [Some 0; Some 2] emptyScope 5 10%N "b"
                       (exampleFloat EvqUniform 1) eq_refl) eq_refl eq_refl)
      as (scope' & Hrun & _).
    exists scope'. exact Hrun.
Defined.

(** X17: a promoted array uniform must stand below a binary (indexing)
    node.  At a use site of a promoted array whose parent is of any other
    class the promoter raises "Cannot replace symbol: array indexing handler
    unimplemented". *)
Theorem promoter_array_needs_binary_parent h path scope s p id name stype pn :
  cells h !! s = Some (TIntermSymbol id name stype) ->
  isPromoted stype = true ->
  isArray stype = true ->
  isLinkerObject path h = Ok (false, h) ->
  last path = Some (Some p) ->
  cells h !! p = Some pn ->
  getAsBinaryNode pn = false ->
  UniformTypeChangeTraverser.visitSymbol path (Some s) scope h =
    Throw UniformTypeChangeTraverser.unimplemented_array_handler.
Proof.
  intros Hs Hprom Harr Hlinker Hlast Hp Hbin.
  assert (Hslt : s < length (cells h)) by (eapply lookup_lt_Some; exact Hs).
  unfold UniformTypeChangeTraverser.visitSymbol.
  rewrite (bind_of_Ok _ _ _ _ _ (deref_of_lookup _ _ _ Hs)).
  unfold isPromoted in Hprom. rewrite Hprom.
  set (newType := UniformTypeChangeTraverser.promotedType stype).
  set (h1 := mkPool (<[s := TIntermSymbol id name newType]> (cells h)) (removed h)).
  rewrite (bind_of_Ok _ _ _ tt h1) by (apply (store_of_lookup s h _ _ Hs)).
  rewrite (bind_of_Ok _ _ _ false h1)
    by (exact (isLinkerObject_after_retype path h s id name stype newType false Hs Hlinker)).
  rewrite (getParentNode_last _ _ Hlast).
  replace (isArray newType) with (isArray stype) by reflexivity. rewrite Harr.
  destruct (decide (p = s)) as [->|Hps].
  - assert (Hp1 : cells h1 !! s = Some (TIntermSymbol id name newType))
      by (apply list_lookup_insert_eq; exact Hslt).
    rewrite (bind_of_Ok _ _ _ _ _ (deref_of_lookup _ _ _ Hp1)). reflexivity.
  - assert (Hp1 : cells h1 !! p = Some pn).
    { simpl. rewrite list_lookup_insert_ne by (intros ->; apply Hps; reflexivity). exact Hp. }
    rewrite (bind_of_Ok _ _ _ _ _ (deref_of_lookup _ _ _ Hp1)).
    destruct pn; try reflexivity. discriminate Hbin.
Qed.

Lemma promoter_array_needs_binary_parent_witness :
  UniformTypeChangeTraverser.visitSymbol [Some 0; Some 1] (Some 3) emptyScope arrayPool =
    Throw UniformTypeChangeTraverser.unimplemented_array_handler.
Proof.
  apply (promoter_array_needs_binary_parent arrayPool [Some 0; Some 1] emptyScope 3 1 7%N "arr"
           (exampleArray EvqUniform 2 3)
           (TIntermUnary EOpNegative (Some 2) (exampleFloat EvqTemporary 2)));
    reflexivity.
Defined.

(** ** The collecting traversals *)

(** X18: the traversals of the packer, the binder and the splitter only
    collect.  Whatever they are run on, when one of them completes the pool is
    the one it started with; the names it cached ascend strictly, each is
    bound to a live symbol node of that name, and every record it kept starts
    with a live symbol node. *)
Theorem collecting_traversals_keep_the_tree fuel path node h st h' :
  traverse NonSamplerUniformToStructTraverser.traverser fuel path node emptyCaches h = Ok (st, h')
  \/ traverse VertexVaryingInTraverser.traverser fuel path node emptyCaches h = Ok (st, h')
  \/ traverse SamplerSplitterTraverser.traverser fuel path node emptyCaches h = Ok (st, h') ->
  h' = h
  /\ sortedKeys (m_nameToSymbol st)
  /\ Forall (symbolNamed (cells h)) (m_nameToSymbol st)
  /\ Forall (fun r => exists s id name type,
               fst r = Some s /\ cells h !! s = Some (TIntermSymbol id name type))
            (m_symbolsToParents st).
Proof.
  intros [Hrun|[Hrun|Hrun]].
  - exact (packer_traverse_sound _ _ _ _ _ _ Hrun).
  - exact (binder_traverse_sound _ _ _ _ _ _ Hrun).
  - exact (splitter_traverse_sound _ _ _ _ _ _ Hrun).
Qed.

Lemma collecting_traversals_keep_the_tree_witness :
  exists st,
    traverse VertexVaryingInTraverser.traverser 5 [] (Some 0) emptyCaches uvPool = Ok (st, uvPool)
    /\ m_symbolsToParents st = [(Some 2, Some 1); (Some 4, Some 3)]
    /\ sortedKeys (m_nameToSymbol st)
    /\ Forall (symbolNamed (cells uvPool)) (m_nameToSymbol st).
Proof.
  eexists. split; [reflexivity|]. split; [reflexivity|].
  refine (let H := collecting_traversals_keep_the_tree 5 [] (Some 0) uvPool _ uvPool
                     (or_intror (or_introl eq_refl)) in _).
  destruct H as (_ & Hsorted & Hlive & _). split; assumption.
Defined.

(** ** A pass and the stage it does not run on *)

Lemma occurrences_ext cs cs' :
  forall t path, (forall a, In a (addresses t) -> cs' !! a = cs !! a) ->
                 occurrences cs' path t = occurrences cs path t.
Proof.
  induction t as [a kids IH] using tree_ind'. intros path Hsame. simpl.
  rewrite (Hsame a) by (left; reflexivity).
  assert (Hkids : flat_map (occurrences cs' (path ++ [Some a])) kids =
                  flat_map (occurrences cs (path ++ [Some a])) kids).
  { apply flat_map_ext_Forall. rewrite Forall_forall in IH. apply Forall_forall.
    intros k Hk. apply IH; [exact Hk|]. intros x Hx. apply Hsame. right.
    apply in_flat_map. exists k. split; [apply list_elem_of_In, Hk|exact Hx]. }
  rewrite Hkids. reflexivity.
Qed.

Lemma stage_ext cs cs' r body lk :
  (forall a, In a (addresses (Node r (body ++ [lk]))) -> cs' !! a = cs !! a) ->
  stage cs r body lk -> stage cs' r body lk.
Proof.
  intros Hsame Hstage.
  assert (Hkid : forall k, In k (body ++ [lk]) -> cs' !! rootOf k = cs !! rootOf k).
  { intros k Hk. apply Hsame. right. apply in_flat_map. exists k.
    split; [exact Hk|apply rootOf_addresses]. }
  split.
  - exact (shape_ext cs cs' _ Hsame (stage_shape _ _ _ _ Hstage)).
  - exact (stage_nodup _ _ _ _ Hstage).
  - rewrite Hsame by (left; reflexivity). exact (stage_root _ _ _ _ Hstage).
  - rewrite Hkid by (apply in_or_app; right; left; reflexivity).
    exact (stage_linker _ _ _ _ Hstage).
  - pose proof (stage_body _ _ _ _ Hstage) as Hbody. rewrite Forall_forall in Hbody.
    apply Forall_forall. intros k Hk. rewrite <- (Hbody k Hk).
    unfold linkerPath. simpl. rewrite Hkid; [reflexivity|].
    apply in_or_app. left. apply list_elem_of_In, Hk.
Qed.

(** Where the occurrences of a stage lie: the symbol, the second element of
    its path and its parent are nodes of the stage. *)
Lemma stage_occurrence_in_tree cs r body lk p s :
  stage cs r body lk ->
  In (p, s) (occurrences cs [] (Node r (body ++ [lk]))) ->
  In s (addresses (Node r (body ++ [lk])))
  /\ (forall a, p !! 1 = Some (Some a) -> In a (addresses (Node r (body ++ [lk]))))
  /\ exists pa, getParentNode p = Some pa /\ In pa (addresses (Node r (body ++ [lk]))).
Proof.
  intros Hstage Hin.
  rewrite (stage_occurrences cs r body lk Hstage) in Hin.
  assert (Hk : exists k, In k (body ++ [lk]) /\ In (p, s) (occurrences cs [Some r] k)).
  { apply in_app_or in Hin as [Hin|Hin].
    - apply in_flat_map in Hin as (k & Hk & Hin). exists k. split; [|exact Hin].
      apply in_or_app. left. exact Hk.
    - exists lk. split; [|exact Hin]. apply in_or_app. right. left. reflexivity. }
  destruct Hk as (k & Hk & Hocc).
  destruct (stage_kid_shape cs r body lk Hstage k Hk) as [Hks Hnd].
  destruct (occurrences_spec cs k [Some r] p s Hks Hnd Hocc) as (_ & Hs & Hcase).
  assert (Hsub : forall x, In x (addresses k) -> In x (addresses (Node r (body ++ [lk])))).
  { intros x Hx. right. apply in_flat_map. exists k. split; assumption. }
  split; [apply Hsub, Hs|].
  destruct Hcase as [[-> _]|(rest & pa & n & ks & -> & Hpar & Hpa & _)].
  - split; [intros a Ha; discriminate Ha|]. exists r. split; [reflexivity|left; reflexivity].
  - split.
    + intros a Ha. simpl in Ha. injection Ha as <-. apply Hsub, rootOf_addresses.
    + exists pa. split; [exact Hpar|apply Hsub, Hpa].
Qed.

Lemma fold_left_ext_in {A B} (f g : A -> B -> A) (l : list B) :
  (forall a x, In x l -> f a x = g a x) -> forall a, fold_left f l a = fold_left g l a.
Proof.
  induction l as [|x l IH]; intros Hfg a; [reflexivity|].
  simpl. rewrite (Hfg a x) by (left; reflexivity).
  apply IH. intros a' x' Hx'. apply Hfg. right. exact Hx'.
Qed.

(** The caches of a stage depend on the cells of the stage only. *)
Lemma stage_collected_ext cs cs' r body lk candidate also :
  stage cs r body lk ->
  (forall a, In a (addresses (Node r (body ++ [lk]))) -> cs' !! a = cs !! a) ->
  collected cs' candidate also (Node r (body ++ [lk])) =
    collected cs candidate also (Node r (body ++ [lk])).
Proof.
  intros Hstage Hsame. unfold collected.
  rewrite (occurrences_ext cs cs' _ [] Hsame).
  apply fold_left_ext_in. intros st [p s] Ho.
  destruct (stage_occurrence_in_tree cs r body lk p s Hstage Ho) as (Hs & Hp & _).
  unfold collectAt. cbn [fst snd]. rewrite (Hsame s Hs).
  rewrite (linkerPath_ext cs cs' p); [reflexivity|].
  intros a Ha. rewrite (Hsame a (Hp a Ha)). reflexivity.
Qed.

Lemma stage_caches_ext cs cs' r body lk candidate also :
  stage cs r body lk ->
  (forall a, In a (addresses (Node r (body ++ [lk]))) -> cs' !! a = cs !! a) ->
  useSitesOf cs' candidate also (occurrences cs' [] (Node r (body ++ [lk]))) =
    useSitesOf cs candidate also (occurrences cs [] (Node r (body ++ [lk])))
  /\ declaredOf cs' candidate (occurrences cs' [] (Node r (body ++ [lk]))) StdMap.empty =
       declaredOf cs candidate (occurrences cs [] (Node r (body ++ [lk]))) StdMap.empty.
Proof.
  intros Hstage Hsame.
  pose proof (stage_collected_ext cs cs' r body lk candidate also Hstage Hsame) as Heq.
  rewrite !collected_caches in Heq. injection Heq as Hd Hu. split; assumption.
Qed.

Lemma cacheName_values cs (X : list nat) :
  forall l m,
    Forall (fun b : string * ptr => exists s, snd b = Some s /\ In s X) m ->
    (forall o : list ptr * nat, In o l -> In (snd o) X) ->
    Forall (fun b : string * ptr => exists s, snd b = Some s /\ In s X)
           (fold_left (cacheName cs) l m).
Proof.
  induction l as [|o l IH]; intros m Hm Hl; [exact Hm|].
  simpl. apply IH; [|intros o' Ho'; apply Hl; right; exact Ho'].
  unfold cacheName. destruct (symbolAt cs (snd o)) as [[name type]|]; [|exact Hm].
  apply StdMap_insert_Forall; [|exact Hm].
  exists (snd o). split; [reflexivity|]. apply Hl. left. reflexivity.
Qed.

Lemma stage_declared_in_tree cs r body lk candidate :
  stage cs r body lk ->
  Forall (fun b : string * ptr =>
            exists s, snd b = Some s /\ In s (addresses (Node r (body ++ [lk]))))
         (declaredOf cs candidate (occurrences cs [] (Node r (body ++ [lk]))) StdMap.empty).
Proof.
  intros Hstage. unfold declaredOf. apply cacheName_values; [constructor|].
  intros [p s] Ho. apply list_elem_of_In, list_elem_of_filter in Ho as [_ Ho].
  apply list_elem_of_In in Ho.
  exact (proj1 (stage_occurrence_in_tree cs r body lk p s Hstage Ho)).
Qed.

Lemma memberTypes_ext cs cs' :
  forall uniforms publicType,
    Forall (fun b : string * ptr => symbolTypeAt cs' (snd b) = symbolTypeAt cs (snd b)) uniforms ->
    memberTypes cs' uniforms publicType = memberTypes cs uniforms publicType.
Proof.
  induction uniforms as [|[name symbol] uniforms IH]; intros publicType Hall; [reflexivity|].
  apply Forall_cons in Hall as [Hhead Hall]. simpl in Hhead.
  cbn [memberTypes]. rewrite Hhead.
  destruct (symbolTypeAt cs symbol) as [type|]; [|reflexivity].
  destruct (NonSamplerUniformToStructTraverser.memberType publicType name type) as [p' newType].
  f_equal. exact (IH p' Hall).
Qed.

Lemma record_parent_in_tree cs r body lk candidate also c pa :
  stage cs r body lk ->
  In (c, Some pa) (useSitesOf cs candidate also (occurrences cs [] (Node r (body ++ [lk])))) ->
  In pa (addresses (Node r (body ++ [lk]))).
Proof.
  intros Hstage Hin. apply useSitesOf_In in Hin as (p & s & [= -> Hpar] & Hin & _).
  destruct (stage_occurrence_in_tree cs r body lk p s Hstage Hin) as (_ & _ & pa' & Hpa & Hin').
  rewrite Hpa in Hpar. injection Hpar as ->. exact Hin'.
Qed.

(** A replacement pass of a stage leaves the cells outside the stage as the
    linker-object surgery left them. *)
Lemma replaced_outside cs L M r body lk candidate also a :
  stage cs r body lk ->
  ~ In a (addresses (Node r (body ++ [lk]))) ->
  replacedCells L M (useSitesOf cs candidate also (occurrences cs [] (Node r (body ++ [lk])))) !! a
    = L !! a.
Proof.
  intros Hstage Hout. destruct (L !! a) as [n|] eqn:Ha.
  - apply replacedCells_other; [exact Ha|]. intros s Hin. apply Hout.
    exact (record_parent_in_tree cs r body lk candidate also s a Hstage Hin).
  - rewrite replacedCells_lookup, Ha. reflexivity.
Qed.

Lemma stage_linker_in_tree (r : nat) (body : list tree) (lk : tree) :
  In (rootOf lk) (addresses (Node r (body ++ [lk]))).
Proof.
  right. apply in_flat_map. exists lk. split; [|apply rootOf_addresses].
  apply in_or_app. right. left. reflexivity.
Qed.

Lemma replacedCells_length cs M recs : length (replacedCells cs M recs) = length cs.
Proof. unfold replacedCells. apply length_imap. Qed.

Lemma packerLinked_length cs t la ids :
  length (packerLinked cs t la ids) = length cs + 1 + 2 * length (packerMembers cs t).
Proof.
  unfold packerLinked.
  destruct (cs !! la) as [[| |op sequence type| | | | | |]|];
    rewrite ?length_insert, length_app; cbn [length]; rewrite replacementNodes_length; lia.
Qed.

(** What the packer leaves of a second stage of the pool: its cells, hence
    its caches and its members. *)
Lemma packer_other_stage cs r body lk ids M r2 body2 lk2 :
  stage cs r body lk -> stage cs r2 body2 lk2 ->
  apart (Node r (body ++ [lk])) (Node r2 (body2 ++ [lk2])) ->
  let cs1 := replacedCells (packerLinked cs (Node r (body ++ [lk])) (rootOf lk) ids) M
               (packerUseSites cs (Node r (body ++ [lk]))) in
  forall a, In a (addresses (Node r2 (body2 ++ [lk2]))) -> cs1 !! a = cs !! a.
Proof.
  intros Hv Hf Hapart cs1 a Ha. unfold cs1, packerUseSites.
  assert (Hout : ~ In a (addresses (Node r (body ++ [lk])))).
  { intros Hin. exact (Hapart a Hin Ha). }
  rewrite (replaced_outside cs _ M r body lk isPacked false a Hv Hout).
  apply packerLinked_old.
  - intros ->. apply Hout, stage_linker_in_tree.
  - exact (shape_addresses cs _ a (stage_shape _ _ _ _ Hf) Ha).
Qed.

Lemma packer_caches_ext cs cs' r body lk :
  stage cs r body lk ->
  (forall a, In a (addresses (Node r (body ++ [lk]))) -> cs' !! a = cs !! a) ->
  packerUseSites cs' (Node r (body ++ [lk])) = packerUseSites cs (Node r (body ++ [lk]))
  /\ packerUniforms cs' (Node r (body ++ [lk])) = packerUniforms cs (Node r (body ++ [lk]))
  /\ packerMembers cs' (Node r (body ++ [lk])) = packerMembers cs (Node r (body ++ [lk])).
Proof.
  intros Hstage Hsame.
  destruct (stage_caches_ext cs cs' r body lk isPacked false Hstage Hsame) as [Hu Hd].
  split; [exact Hu|]. split; [exact Hd|].
  unfold packerMembers, packerUniforms. rewrite Hd. apply memberTypes_ext.
  eapply Forall_impl; [exact (stage_declared_in_tree cs r body lk isPacked Hstage)|].
  intros [name symbol] (s & Hs & Hin). simpl in Hs. subst symbol.
  cbn [snd symbolTypeAt]. rewrite (Hsame s Hin). reflexivity.
Qed.

Lemma editable_ext cs cs' r body lk candidate also :
  stage cs r body lk ->
  (forall a, In a (addresses (Node r (body ++ [lk]))) -> cs' !! a = cs !! a) ->
  editable cs (useSitesOf cs candidate also (occurrences cs [] (Node r (body ++ [lk])))) ->
  editable cs' (useSitesOf cs candidate also (occurrences cs [] (Node r (body ++ [lk])))).
Proof.
  intros Hstage Hsame Hedit s pa n Hin Hn.
  rewrite (Hsame pa (record_parent_in_tree cs r body lk candidate also s pa Hstage Hin)) in Hn.
  exact (Hedit s pa n Hin Hn).
Qed.

(** X21: the struct packer on a whole program.  When the vertex and the
    fragment stage share no node, [MoveNonSamplerUniformsIntoStruct] runs the
    packer on both, draws two identifiers, keeps the two member lists in the
    scope it returns, vertex first, and leaves two struct symbols named
    [anon@0]: the vertex one at the first new address, with the first
    identifier, and the fragment one right after the nodes made for the
    vertex stage, with the second.  The members of the fragment struct are
    those of the fragment stage as it was before the vertex stage was
    rewritten. *)
Theorem packer_program fuel h rv bodyv lkv rf bodyf lkf ids :
  let cs := cells h in
  let tv := Node rv (bodyv ++ [lkv]) in
  let tf := Node rf (bodyf ++ [lkf]) in
  stage cs rv bodyv lkv -> stage cs rf bodyf lkf -> apart tv tf ->
  height tv <= fuel -> height tf <= fuel ->
  editable cs (packerUseSites cs tv) -> editable cs (packerUseSites cs tf) ->
  exists scope h',
    MoveNonSamplerUniformsIntoStruct fuel (mkProgram (Some rv) (Some rf)) ids h =
      Ok ((ids + 2)%N, scope, h')
    /\ TypeLists scope = [packerMembers cs tv; packerMembers cs tf]
    /\ cells h' !! length cs =
         Some (TIntermSymbol ids "anon@0"
                 (TType_block (packerMembers cs tv) "Frame"
                    NonSamplerUniformToStructTraverser.structQualifier))
    /\ cells h' !! (length cs + 1 + 2 * length (packerMembers cs tv)) =
         Some (TIntermSymbol (ids + 1) "anon@0"
                 (TType_block (packerMembers cs tf) "Frame"
                    NonSamplerUniformToStructTraverser.structQualifier)).
Proof.
  intros cs tv tf Hv Hf Hapart Hfv Hff Hev Hef.
  destruct (packer_run fuel h rv bodyv lkv ids emptyScope Hv Hfv Hev)
    as (scope1 & Mv & rm1 & Hrun1 & Hlists1 & _).
  fold cs tv in Hrun1, Hlists1.
  set (cs1 := replacedCells (packerLinked cs tv (rootOf lkv) ids) Mv (packerUseSites cs tv)) in *.
  pose proof (packer_other_stage cs rv bodyv lkv ids Mv rf bodyf lkf Hv Hf Hapart) as Hsame.
  cbv zeta in Hsame. fold tv tf cs1 in Hsame.
  pose proof (stage_ext cs cs1 rf bodyf lkf Hsame Hf) as Hf1.
  destruct (packer_caches_ext cs cs1 rf bodyf lkf Hf Hsame) as (Hu & Hd & Hm). fold tf in Hu, Hd, Hm.
  assert (Hef1 : editable cs1 (packerUseSites cs1 tf)).
  { rewrite Hu. exact (editable_ext cs cs1 rf bodyf lkf isPacked false Hf Hsame Hef). }
  destruct (packer_run fuel (mkPool cs1 rm1) rf bodyf lkf (ids + 1)%N scope1 Hf1 Hff Hef1)
    as (scope2 & Mf & rm2 & Hrun2 & Hlists2 & _).
  cbn [cells] in Hrun2, Hlists2. fold tf in Hrun2, Hlists2.
  assert (Hlen1 : length cs1 = length cs + 1 + 2 * length (packerMembers cs tv)).
  { unfold cs1. rewrite replacedCells_length. apply packerLinked_length. }
  assert (Hlf : rootOf lkf < length cs).
  { exact (shape_addresses cs tf _ (stage_shape _ _ _ _ Hf) (stage_linker_in_tree rf bodyf lkf)). }
  assert (Hlv : rootOf lkv < length cs).
  { exact (shape_addresses cs tv _ (stage_shape _ _ _ _ Hv) (stage_linker_in_tree rv bodyv lkv)). }
  assert (Hnew : forall a, length cs <= a -> ~ In a (addresses tf)).
  { intros a Hge Hin. pose proof (shape_addresses cs tf a (stage_shape _ _ _ _ Hf) Hin). lia. }
  assert (Hnewv : forall a, length cs <= a -> ~ In a (addresses tv)).
  { intros a Hge Hin. pose proof (shape_addresses cs tv a (stage_shape _ _ _ _ Hv) Hin). lia. }
  eexists scope2, _. split; [|split; [|split]].
  - unfold MoveNonSamplerUniformsIntoStruct, bind. cbn [vertexRoot fragmentRoot].
    rewrite Hrun1. replace (ids + 2)%N with (ids + 1 + 1)%N by lia. exact Hrun2.
  - rewrite Hlists2, Hlists1, Hm. reflexivity.
  - cbn [cells]. unfold packerUseSites at 1.
    rewrite (replaced_outside cs1 _ Mf rf bodyf lkf isPacked false (length cs) Hf1
               (Hnew _ (Nat.le_refl _))).
    rewrite packerLinked_old by lia.
    unfold cs1, packerUseSites.
    rewrite (replaced_outside cs _ Mv rv bodyv lkv isPacked false (length cs) Hv
               (Hnewv _ (Nat.le_refl _))).
    replace (length cs) with (length cs + 0) at 1 by lia.
    rewrite (packerLinked_new cs tv (rootOf lkv) ids 0 Hlv). reflexivity.
  - cbn [cells]. unfold packerUseSites at 1.
    rewrite (replaced_outside cs1 _ Mf rf bodyf lkf isPacked false _ Hf1
               (Hnew (length cs + 1 + 2 * length (packerMembers cs tv)) ltac:(lia))).
    rewrite <- Hlen1. replace (length cs1) with (length cs1 + 0) at 1 by lia.
    rewrite (packerLinked_new cs1 tf (rootOf lkf) (ids + 1)%N 0) by lia.
    cbn [lookup list_lookup]. unfold packerStruct. rewrite Hm. reflexivity.
Qed.

Lemma programPool_vertex : stage (cells programPool) 0 vertexBody vertexLinker.
Proof.
  split.
  - repeat (econstructor; try reflexivity).
  - apply (bool_decide_unpack _). vm_compute. exact I.
  - simpl. eauto.
  - simpl. eauto.
  - repeat constructor.
Qed.

Lemma programPool_fragment : stage (cells programPool) 7 fragmentBody fragmentLinker.
Proof.
  split.
  - repeat (econstructor; try reflexivity).
  - apply (bool_decide_unpack _). vm_compute. exact I.
  - simpl. eauto.
  - simpl. eauto.
  - repeat constructor.
Qed.

Lemma programPool_apart :
  apart (Node 0 (vertexBody ++ [vertexLinker])) (Node 7 (fragmentBody ++ [fragmentLinker])).
Proof. intros a Hv Hf. simpl in Hv, Hf. lia. Qed.

Lemma programPool_editable candidate also r body lk :
  Forall (fun rec => match snd rec with
                     | Some pa => match cells programPool !! pa with
                                  | Some n => replaceable n = true
                                  | None => True
                                  end
                     | None => True
                     end)
         (useSitesOf (cells programPool) candidate also
            (occurrences (cells programPool) [] (Node r (body ++ [lk])))) ->
  editable (cells programPool)
    (useSitesOf (cells programPool) candidate also
       (occurrences (cells programPool) [] (Node r (body ++ [lk])))).
Proof.
  intros Hall s pa n Hin Hn. rewrite Forall_forall in Hall.
  specialize (Hall _ (proj2 (list_elem_of_In _ _) Hin)). cbn [snd] in Hall.
  rewrite Hn in Hall. exact Hall.
Qed.

Lemma packer_program_witness :
  exists scope h',
    MoveNonSamplerUniformsIntoStruct 5 twoStageProgram 30%N programPool = Ok (32%N, scope, h')
    /\ map (map fieldName) (TypeLists scope) = [[Some "world"]; [Some "tint"]]
    /\ (exists type, cells h' !! 15 = Some (TIntermSymbol 30 "anon@0" type))
    /\ (exists type, cells h' !! 18 = Some (TIntermSymbol 31 "anon@0" type)).
Proof.
  destruct (packer_program 5 programPool 0 vertexBody vertexLinker 7 fragmentBody fragmentLinker
              30%N programPool_vertex programPool_fragment programPool_apart)
    as (scope & h' & Hrun & Hlists & Hv & Hf).
  - simpl. lia.
  - simpl. lia.
  - apply programPool_editable. vm_compute. repeat constructor.
  - apply programPool_editable. vm_compute. repeat constructor.
  - exists scope, h'. split; [exact Hrun|]. split; [rewrite Hlists; reflexivity|].
    split; eexists; [exact Hv|exact Hf].
Defined.

(** X22: the sampler splitter on a whole program.  When the vertex and the
    fragment stage share no node, [SplitSamplersIntoSamplersAndTextures]
    completes on both, draws two identifiers for every sampler either stage
    caches - the samplers of the fragment stage counted as they were before
    the vertex stage was rewritten - and changes no node of the pool that
    lies outside the two stages. *)
Theorem splitter_program fuel h rv bodyv lkv rf bodyf lkf ids :
  let cs := cells h in
  let tv := Node rv (bodyv ++ [lkv]) in
  let tf := Node rf (bodyf ++ [lkf]) in
  stage cs rv bodyv lkv -> stage cs rf bodyf lkf -> apart tv tf ->
  height tv <= fuel -> height tf <= fuel ->
  editable cs (splitterUseSites cs tv) -> editable cs (splitterUseSites cs tf) ->
  exists h',
    SplitSamplersIntoSamplersAndTextures fuel (mkProgram (Some rv) (Some rf)) ids h =
      Ok ((ids + 2 * N.of_nat (length (splitterSamplers cs tv) + length (splitterSamplers cs tf)))%N,
          h')
    /\ (forall a, a < length cs -> ~ In a (addresses tv) -> ~ In a (addresses tf) ->
          cells h' !! a = cs !! a).
Proof.
  intros cs tv tf Hv Hf Hapart Hfv Hff Hev Hef.
  destruct (splitter_run fuel h rv bodyv lkv ids Hv Hfv Hev) as (_ & _ & rm1 & Hrun1).
  fold cs tv in Hrun1.
  set (cs1 := replacedCells (splitterLinked cs tv (rootOf lkv) ids) (fst (splitterMaps cs tv))
                (splitterUseSites cs tv)) in *.
  assert (Hout : forall a, a < length cs -> ~ In a (addresses tv) -> cs1 !! a = cs !! a).
  { intros a Hlt Hnot. unfold cs1, splitterUseSites.
    rewrite (replaced_outside cs _ _ rv bodyv lkv isSplit false a Hv Hnot).
    apply splitterLinked_old; [|exact Hlt].
    intros ->. apply Hnot, stage_linker_in_tree. }
  assert (Hsame : forall a, In a (addresses tf) -> cs1 !! a = cs !! a).
  { intros a Ha. apply Hout.
    - exact (shape_addresses cs tf a (stage_shape _ _ _ _ Hf) Ha).
    - intros Hin. exact (Hapart a Hin Ha). }
  pose proof (stage_ext cs cs1 rf bodyf lkf Hsame Hf) as Hf1.
  destruct (stage_caches_ext cs cs1 rf bodyf lkf isSplit false Hf Hsame) as [Hu Hd].
  fold tf in Hu, Hd.
  change (splitterUseSites cs1 tf = splitterUseSites cs tf) in Hu.
  change (splitterSamplers cs1 tf = splitterSamplers cs tf) in Hd.
  assert (Hef1 : editable cs1 (splitterUseSites cs1 tf)).
  { rewrite Hu. exact (editable_ext cs cs1 rf bodyf lkf isSplit false Hf Hsame Hef). }
  destruct (splitter_run fuel (mkPool cs1 rm1) rf bodyf lkf
              (ids + 2 * N.of_nat (length (splitterSamplers cs tv)))%N Hf1 Hff Hef1)
    as (_ & _ & rm2 & Hrun2).
  cbn [cells] in Hrun2. fold tf in Hrun2.
  eexists. split.
  - unfold SplitSamplersIntoSamplersAndTextures, bind. cbn [vertexRoot fragmentRoot].
    rewrite Hrun1, Hrun2, Hd. f_equal. f_equal. lia.
  - cbn [cells]. intros a Hlt Hnv Hnf. unfold splitterUseSites at 1.
    rewrite (replaced_outside cs1 _ _ rf bodyf lkf isSplit false a Hf1 Hnf).
    rewrite splitterLinked_old.
    + exact (Hout a Hlt Hnv).
    + intros ->. apply Hnf, stage_linker_in_tree.
    + apply lookup_lt_is_Some. rewrite (Hout a Hlt Hnv). apply lookup_lt_is_Some. exact Hlt.
Qed.

Lemma splitter_program_witness :
  exists h',
    SplitSamplersIntoSamplersAndTextures 5 twoStageProgram 30%N programPool = Ok (32%N, h').
Proof.
  destruct (splitter_program 5 programPool 0 vertexBody vertexLinker 7 fragmentBody fragmentLinker
              30%N programPool_vertex programPool_fragment programPool_apart)
    as (h' & Hrun & _).
  - simpl. lia.
  - simpl. lia.
  - apply programPool_editable. vm_compute. repeat constructor.
  - apply programPool_editable. vm_compute. repeat constructor.
  - exists h'. exact Hrun.
Defined.

(** X23: the vertex attribute binder never leaves the vertex stage.
    [AssignLocationsAndNamesToVertexVaryings] reads the vertex root of the
    program only: when it completes, every node of the pool outside the
    vertex stage is as it was, and any other stage of the pool that shares no
    node with the vertex stage - the fragment stage of the program - is still
    a stage over the same tree. *)
Theorem binder_program_frame apple fuel h rv bodyv lkv fragment ids r2o asg :
  let cs := cells h in
  let tv := Node rv (bodyv ++ [lkv]) in
  stage cs rv bodyv lkv ->
  height tv <= fuel ->
  editable cs (binderUseSites cs tv) ->
  assignments apple
    (if apple then 0%N else VertexVaryingInTraverser.precountUVs (binderVaryings cs tv) 0)
    (StdMap.keys (binderVaryings cs tv)) = Some asg ->
  exists res h',
    AssignLocationsAndNamesToVertexVaryings apple fuel (mkProgram (Some rv) fragment) ids r2o h =
      Ok (res, h')
    /\ (forall a, a < length cs -> ~ In a (addresses tv) -> cells h' !! a = cs !! a)
    /\ (forall rf bodyf lkf,
          stage cs rf bodyf lkf -> apart tv (Node rf (bodyf ++ [lkf])) ->
          stage (cells h') rf bodyf lkf).
Proof.
  intros cs tv Hv Hfv Hev Hasg.
  destruct (binder_run apple fuel h rv bodyv lkv ids r2o asg Hv Hfv Hev Hasg)
    as (r2o' & new & M & rm & Hrun & _).
  fold cs tv in Hrun.
  assert (Hout : forall a, a < length cs -> ~ In a (addresses tv) ->
            replacedCells (cs ++ new) M (binderUseSites cs tv) !! a = cs !! a).
  { intros a Hlt Hnot. unfold binderUseSites.
    rewrite (replaced_outside cs _ _ rv bodyv lkv isVaryingIn true a Hv Hnot).
    apply lookup_app_l. exact Hlt. }
  eexists _, _. split; [exact Hrun|]. cbn [cells]. split; [exact Hout|].
  intros rf bodyf lkf Hf Hapart. apply (stage_ext cs); [|exact Hf].
  intros a Ha. apply Hout.
  - exact (shape_addresses cs _ a (stage_shape _ _ _ _ Hf) Ha).
  - intros Hin. exact (Hapart a Hin Ha).
Qed.

Lemma binder_program_frame_witness :
  exists res h',
    AssignLocationsAndNamesToVertexVaryings true 5 twoStageProgram 30%N [] programPool = Ok (res, h')
    /\ stage (cells h') 7 fragmentBody fragmentLinker
    /\ cells h' !! 12 = Some (TIntermSymbol 21 "tint" (exampleFloat EvqUniform 2)).
Proof.
  destruct (binder_program_frame true 5 programPool 0 vertexBody vertexLinker (Some 7) 30%N []
              [(0%N, "a_position")] programPool_vertex)
    as (res & h' & Hrun & Hout & Hstage).
  - simpl. lia.
  - apply programPool_editable. vm_compute. repeat constructor.
  - reflexivity.
  - exists res, h'. split; [exact Hrun|]. split.
    + exact (Hstage 7 fragmentBody fragmentLinker programPool_fragment programPool_apart).
    + apply Hout; simpl; lia.
Defined.

(** ** The names a stage caches *)

(** Every symbol node of a tree is one of its occurrences. *)
Lemma occurrences_complete cs :
  forall t path s,
    shape cs t -> In s (addresses t) ->
    (exists id name type, cs !! s = Some (TIntermSymbol id name type)) ->
    exists p, In (p, s) (occurrences cs path t).
Proof.
  induction t as [a kids IH] using tree_ind'. intros path s Hshape Hs Hsym.
  apply shape_inv in Hshape as (n & Ha & Hkids & Hshapes).
  destruct (decide (classOf n = CSymbol)) as [Hc|Hc].
  - destruct n as [id name type| | | | | | | |]; try discriminate Hc.
    rewrite kidsOf_symbol in Hkids. injection Hkids as Hkids. symmetry in Hkids.
    apply map_eq_nil in Hkids. subst kids.
    destruct Hs as [<-|[]]. exists path. simpl. rewrite Ha. left. reflexivity.
  - destruct Hs as [<-|Hs].
    + destruct Hsym as (id & name & type & Hsym). rewrite Ha in Hsym.
      injection Hsym as ->. exfalso. apply Hc. reflexivity.
    + rewrite (occurrences_inner cs path a kids n Ha Hc).
      apply in_flat_map in Hs as (k & Hk & Hs).
      rewrite Forall_forall in IH, Hshapes.
      destruct (IH k (proj2 (list_elem_of_In _ _) Hk) (path ++ [Some a]) s
                  (Hshapes k (proj2 (list_elem_of_In _ _) Hk)) Hs Hsym) as (p & Hp).
      exists p. apply in_flat_map. exists k. split; assumption.
Qed.

(** The keys of the name cache are the names of the declarations met. *)
Lemma declaredOf_keys cs candidate :
  forall occs m name,
    In name (StdMap.keys (declaredOf cs candidate occs m)) <->
      In name (StdMap.keys m)
      \/ exists o type, In o occs /\ isDeclaration cs candidate o = true
                        /\ symbolAt cs (snd o) = Some (name, type).
Proof.
  unfold declaredOf.
  induction occs as [|o occs IH]; intros m name.
  - simpl. split; [auto|]. intros [H|(o & type & [] & _)]. exact H.
  - destruct (isDeclaration cs candidate o) eqn:Hdecl.
    + rewrite filter_cons_True by exact Hdecl. cbn [fold_left]. rewrite IH.
      assert (Hsym : exists nm ty, symbolAt cs (snd o) = Some (nm, ty)).
      { unfold isDeclaration in Hdecl. destruct (symbolAt cs (snd o)) as [[nm ty]|]; [eauto|discriminate]. }
      destruct Hsym as (nm & ty & Hsym). unfold cacheName. rewrite Hsym.
      rewrite StdMap_keys_insert. split.
      * intros [[->|H]|(o' & type & Hin & Hd & Hs)].
        -- right. exists o, ty. split; [left; reflexivity|]. split; assumption.
        -- left. exact H.
        -- right. exists o', type. split; [right; exact Hin|]. split; assumption.
      * intros [H|(o' & type & [<-|Hin] & Hd & Hs)].
        -- left. right. exact H.
        -- left. left. congruence.
        -- right. exists o', type. split; [exact Hin|]. split; assumption.
    + rewrite filter_cons_False by (rewrite Hdecl; discriminate). rewrite IH. split.
      * intros [H|(o' & type & Hin & Hd & Hs)]; [left; exact H|].
        right. exists o', type. split; [right; exact Hin|]. split; assumption.
      * intros [H|(o' & type & [<-|Hin] & Hd & Hs)]; [left; exact H|congruence|].
        right. exists o', type. split; [exact Hin|]. split; assumption.
Qed.

(** On a stage the cached names are the names of the candidate symbols below
    the linker-object aggregate. *)
Lemma stage_declared_names cs r body lk candidate name :
  stage cs r body lk ->
  In name (StdMap.keys (declaredOf cs candidate (occurrences cs [] (Node r (body ++ [lk])))
                          StdMap.empty))
  <-> exists s id type,
        In s (addresses lk) /\ s <> rootOf lk
        /\ cs !! s = Some (TIntermSymbol id name type) /\ candidate type = true.
Proof.
  intros Hstage. rewrite declaredOf_keys.
  destruct (stage_kid_shape cs r body lk Hstage lk) as [Hlks Hlnd];
    [apply in_or_app; right; left; reflexivity|].
  destruct (stage_linker _ _ _ _ Hstage) as (lseq & ltype & Hla).
  split.
  - intros [[]|([p s] & type & Hin & Hdecl & Hsym)]. cbn [snd] in Hsym.
    unfold isDeclaration in Hdecl. cbn [fst snd] in Hdecl. rewrite Hsym in Hdecl.
    apply andb_true_iff in Hdecl as [Hcand Hpath].
    rewrite (stage_occurrences cs r body lk Hstage) in Hin.
    apply in_app_or in Hin as [Hin|Hin].
    + destruct (stage_body_occurrence cs r body lk Hstage p s Hin) as [Hfalse _]. congruence.
    + destruct (occurrences_spec cs lk [Some r] p s Hlks Hlnd Hin) as (_ & Hs & _).
      apply (symbolAt_Some cs s (name, type)) in Hsym as (id & Hsym). cbn [fst snd] in Hsym.
      exists s, id, type. split; [exact Hs|]. split; [|split; assumption].
      intros ->. rewrite Hla in Hsym. discriminate.
  - intros (s & id & type & Hs & _ & Hsym & Hcand). right.
    destruct (occurrences_complete cs lk [Some r] s Hlks Hs) as (p & Hp); [eauto|].
    exists (p, s), type. split; [|split].
    + rewrite (stage_occurrences cs r body lk Hstage). apply in_or_app. right. exact Hp.
    + unfold isDeclaration. cbn [fst snd]. rewrite (symbolAt_lookup _ _ _ _ _ Hsym), Hcand.
      rewrite (stage_linker_occurrence cs r body lk Hstage p s Hp). reflexivity.
    + exact (symbolAt_lookup _ _ _ _ _ Hsym).
Qed.

(** C3 (amended): on a stage the packer completes, and the struct it builds
    has exactly one field per distinct name of a packed uniform (a
    uniform-or-buffer symbol that is no sampler) among the linker objects:
    the field names are strictly ascending in the order of [std::string],
    whatever the order in which the traversal met the uniforms, and a name is
    a field exactly when a packed uniform of that name stands below the
    linker-object aggregate. *)
Theorem struct_fields_in_name_order fuel h r body lk ids scope :
  let cs := cells h in
  let t := Node r (body ++ [lk]) in
  stage cs r body lk ->
  height t <= fuel ->
  editable cs (packerUseSites cs t) ->
  exists names members res h',
    NonSamplerUniformToStructTraverser.Traverse fuel (Some r) ids scope h = Ok (res, h')
    /\ TypeLists (snd res) = TypeLists scope ++ [members]
    /\ cells h' !! length cs =
         Some (TIntermSymbol ids "anon@0"
                 (TType_block members "Frame" NonSamplerUniformToStructTraverser.structQualifier))
    /\ map fieldName members = map Some names
    /\ StronglySorted string_lt names
    /\ (forall name,
          In name names <->
          exists s id type,
            In s (addresses lk) /\ s <> rootOf lk
            /\ cs !! s = Some (TIntermSymbol id name type) /\ isPacked type = true).
Proof.
  intros cs t Hstage Hfuel Hedit.
  destruct (packer_run fuel h r body lk ids scope Hstage Hfuel Hedit)
    as (scope' & M & rm & Hrun & Hlists & Hnames & _).
  fold cs t in Hrun, Hlists, Hnames.
  pose proof (packer_traverse_tree h t fuel (stage_shape _ _ _ _ Hstage) Hfuel) as Htrav.
  pose proof (packer_traverse_sound _ _ _ _ _ _ Htrav) as (_ & Hsorted & _).
  rewrite collected_caches in Hsorted. cbn [m_nameToSymbol] in Hsorted. fold cs in Hsorted.
  exists (StdMap.keys (packerUniforms cs t)), (packerMembers cs t).
  eexists _, _. split; [exact Hrun|]. cbn [snd cells].
  split; [exact Hlists|]. split; [|split; [exact Hnames|split; [exact Hsorted|]]].
  - unfold packerUseSites.
    rewrite (replaced_outside cs _ M r body lk isPacked false (length cs) Hstage).
    + replace (length cs) with (length cs + 0) at 1 by lia.
      rewrite packerLinked_new; [reflexivity|].
      exact (shape_addresses cs t _ (stage_shape _ _ _ _ Hstage) (stage_linker_in_tree r body lk)).
    + intros Hin. pose proof (shape_addresses cs t _ (stage_shape _ _ _ _ Hstage) Hin). lia.
  - intros name. exact (stage_declared_names cs r body lk isPacked name Hstage).
Qed.

Lemma struct_fields_in_name_order_witness :
  exists members res h',
    NonSamplerUniformToStructTraverser.Traverse 5 (Some 0) 100%N emptyScope packPool = Ok (res, h')
    /\ cells h' !! 7 =
         Some (TIntermSymbol 100 "anon@0"
                 (TType_block members "Frame" NonSamplerUniformToStructTraverser.structQualifier))
    /\ map fieldName members = [Some "a"; Some "b"].
Proof.
  destruct (struct_fields_in_name_order 5 packPool 0 packBody packLinker 100%N emptyScope
              packPool_stage)
    as (names & members & res & h' & Hrun & _ & Hcell & Hfields & Hsorted & Hin).
  - simpl. lia.
  - exact packPool_editable.
  - exists members, res, h'. split; [exact Hrun|]. split; [exact Hcell|].
    vm_compute in Hrun. injection Hrun as _ <-. vm_compute in Hcell.
    injection Hcell as <-. reflexivity.
Defined.

(** ** The pairs of the sampler splitter *)

(** Every binding of the name cache is a candidate symbol of that name. *)
Lemma declaredOf_candidates cs candidate :
  forall occs m,
    Forall (fun b : string * ptr =>
              exists a type, snd b = Some a /\ symbolAt cs a = Some (fst b, type)
                             /\ candidate type = true) m ->
    Forall (fun b : string * ptr =>
              exists a type, snd b = Some a /\ symbolAt cs a = Some (fst b, type)
                             /\ candidate type = true)
           (declaredOf cs candidate occs m).
Proof.
  unfold declaredOf. induction occs as [|o occs IH]; intros m Hm; [exact Hm|].
  destruct (isDeclaration cs candidate o) eqn:Hdecl.
  - rewrite filter_cons_True by exact Hdecl. cbn [fold_left]. apply IH.
    unfold isDeclaration in Hdecl. unfold cacheName.
    destruct (symbolAt cs (snd o)) as [[name type]|] eqn:Hsym; [|discriminate].
    apply andb_true_iff in Hdecl as [Hcand _].
    apply StdMap_insert_Forall; [|exact Hm].
    exists (snd o), type. auto.
  - rewrite filter_cons_False by (rewrite Hdecl; discriminate). apply IH, Hm.
Qed.

(** C6: on a stage the splitter completes, and for every sampler uniform it
    has cached - the names of the sampler uniforms among the linker objects,
    used in the stage or not - the texture symbol and the sampler symbol it
    creates for the [k]-th of them both carry the binding slot [k] (as the
    16-bit field holds it), so the counter advances once per candidate; the
    aggregate built over the two symbols is [EOpConstructTextureSampler], of
    a combined sampler type with the sampler of the original symbol when
    that is a combined sampler; and the parent's slot of every recorded use
    of the sampler holds that aggregate. *)
Theorem splitter_pairing fuel h r body lk ids :
  let cs := cells h in
  let t := Node r (body ++ [lk]) in
  let base := length cs in
  stage cs r body lk ->
  height t <= fuel ->
  editable cs (splitterUseSites cs t) ->
  exists ids' h',
    SamplerSplitterTraverser.Traverse fuel (Some r) ids h = Ok (ids', h')
    /\ (forall name,
          In name (StdMap.keys (splitterSamplers cs t)) <->
          exists s id type,
            In s (addresses lk) /\ s <> rootOf lk
            /\ cs !! s = Some (TIntermSymbol id name type) /\ isSplit type = true)
    /\ forall k name symbol,
         splitterSamplers cs t !! k = Some (name, symbol) ->
         (N.of_nat k < 2 ^ 32)%N ->
         exists d did type texType sampType aggType,
           symbol = Some d
           /\ cs !! d = Some (TIntermSymbol did name type)
           /\ isSplit type = true
           /\ cells h' !! (base + 3 * k) =
                Some (TIntermSymbol (ids + 2 * N.of_nat k)%N (name ++ "Texture")%string texType)
           /\ cells h' !! (base + 3 * k + 1) =
                Some (TIntermSymbol (ids + 2 * N.of_nat k + 1)%N name sampType)
           /\ layoutBinding (qualifier texType) = (N.of_nat k mod 65536)%N
           /\ layoutBinding (qualifier sampType) = (N.of_nat k mod 65536)%N
           /\ cells h' !! (base + 3 * k + 2) =
                Some (TIntermAggregate EOpConstructTextureSampler
                        [Some (base + 3 * k); Some (base + 3 * k + 1)] aggType)
           /\ basicType aggType = EbtSampler
           /\ combined (sampler aggType) = true
           /\ (combined (sampler type) = true -> sampler aggType = sampler type)
           /\ forall s pa id stype n,
                In (Some s, Some pa) (splitterUseSites cs t) ->
                cs !! s = Some (TIntermSymbol id name stype) ->
                cs !! pa = Some n ->
                exists f,
                  cells h' !! pa = Some (mapChildren f n)
                  /\ f (Some s) = Some (base + 3 * k + 2).
Proof.
  intros cs t base Hstage Hfuel Hedit.
  destruct (splitter_run fuel h r body lk ids Hstage Hfuel Hedit)
    as (Hsorted & Hlive & rm & Hrun).
  fold cs t in Hsorted, Hlive, Hrun.
  destruct (stage_linker _ _ _ _ Hstage) as (lseq & ltype & Hla).
  assert (Hlt : rootOf lk < length cs) by (eapply lookup_lt_Some; exact Hla).
  assert (Hparents : forall c a, In (c, Some a) (splitterUseSites cs t) -> a < length cs).
  { intros c a Hin. pose proof Hin as Hin0.
    apply useSitesOf_In in Hin0 as (p & s' & [= -> _] & _).
    apply (stage_useSite cs r body lk isSplit s' a Hstage Hin). }
  set (L := splitterLinked cs t (rootOf lk) ids) in *.
  set (M := fst (splitterMaps cs t)) in *.
  assert (Hnew : forall j x,
            replacerNodes cs base 0 ids (splitterSamplers cs t) !! j = Some x ->
            replacedCells L M (splitterUseSites cs t) !! (base + j) = Some x).
  { intros j x Hj. apply replacedCells_other.
    - unfold L, base. rewrite splitterLinked_new by exact Hlt. exact Hj.
    - intros c Hin. apply Hparents in Hin. unfold base in Hin. lia. }
  eexists _, _. split; [exact Hrun|]. cbn [cells]. split.
  { intros name. exact (stage_declared_names cs r body lk isSplit name Hstage). }
  intros k name symbol Hk Hsmall.
  pose proof (declaredOf_candidates cs isSplit (occurrences cs [] t) StdMap.empty
                (List.Forall_nil _)) as Hcands.
  rewrite Forall_forall in Hcands.
  destruct (Hcands (name, symbol) (list_elem_of_lookup_2 _ _ _ Hk))
    as (d & type & Hsym & Hd & Hsplit).
  cbn [fst snd] in Hsym, Hd. subst symbol.
  apply (symbolAt_Some cs d (name, type)) in Hd as (did & Hd). cbn [fst snd] in Hd.
  assert (Hty : symbolTypeAt cs (Some d) = Some type) by (unfold symbolTypeAt; rewrite Hd; reflexivity).
  destruct (replacerNodes_lookup cs (splitterSamplers cs t) base 0 ids k name (Some d) type
              Hlive Hk Hty) as (Htex & Hsamp & Hagg).
  change 0%N with (uint 0) in Htex, Hsamp. rewrite slotAfter_uint, N.add_0_l in Htex, Hsamp.
  rewrite (uint_small _ Hsmall) in Htex, Hsamp.
  destruct (replacerMaps_find (splitterSamplers cs t) base StdMap.empty StdMap.empty k name (Some d)
              (sortedKeys_NoDup _ Hsorted) Hk) as [HM _].
  fold (splitterMaps cs t) in HM.
  pose proof Hsplit as Hsplit0.
  unfold isSplit in Hsplit0. apply andb_true_iff in Hsplit0 as [_ Hbasic].
  apply bool_decide_eq_true_1 in Hbasic.
  exists d, did, type,
         (SamplerSplitterTraverser.textureType type (N.of_nat k)),
         (SamplerSplitterTraverser.samplerType type (N.of_nat k)),
         (SamplerSplitterTraverser.aggregateType type).
  split; [reflexivity|]. split; [exact Hd|]. split; [exact Hsplit|].
  split; [apply Hnew, Htex|].
  split; [rewrite <- Nat.add_assoc; apply Hnew, Hsamp|].
  split; [reflexivity|]. split; [reflexivity|].
  split; [rewrite <- Nat.add_assoc; apply Hnew, Hagg|].
  split; [simpl; exact Hbasic|].
  assert (Hsampler : sampler (SamplerSplitterTraverser.aggregateType type) =
                     set_combined true (sampler type)).
  { unfold SamplerSplitterTraverser.aggregateType, TType_of_public. simpl. rewrite Hbasic.
    reflexivity. }
  split; [rewrite Hsampler; reflexivity|].
  split; [intros Hcombined; rewrite Hsampler, <- Hcombined at 1; apply set_combined_same|].
  intros s pa id stype n Hrec Hs Hpa.
  destruct (stage_useSite cs r body lk isSplit s pa Hstage Hrec) as (Hpne & Hplt & Hsne & Hslt).
  exists (substFor L M (splitterUseSites cs t) pa). split.
  - rewrite replacedCells_lookup. unfold L. rewrite splitterLinked_old by assumption.
    fold L. rewrite Hpa. reflexivity.
  - unfold substFor. rewrite bool_decide_eq_true_2 by (apply list_elem_of_In; exact Hrec).
    unfold replacementFor, symbolAt, L. rewrite splitterLinked_old by assumption. rewrite Hs.
    exact (f_equal (default None) HM).
Qed.

Lemma splitter_pairing_witness :
  exists ids' h' texType sampType aggType f,
    SamplerSplitterTraverser.Traverse 5 (Some 0) 100%N splitPool = Ok (ids', h')
    /\ cells h' !! 7 = Some (TIntermSymbol 100 "texTexture" texType)
    /\ cells h' !! 8 = Some (TIntermSymbol 101 "tex" sampType)
    /\ layoutBinding (qualifier texType) = 0%N
    /\ layoutBinding (qualifier sampType) = 0%N
    /\ cells h' !! 9 =
         Some (TIntermAggregate EOpConstructTextureSampler [Some 7; Some 8] aggType)
    /\ basicType aggType = EbtSampler
    /\ sampler aggType = sampler exampleSampler
    /\ cells h' !! 1 =
         Some (mapChildren f (TIntermAggregate EOpTexture [Some 3; Some 4]
                                (exampleFloat EvqTemporary 4)))
    /\ f (Some 3) = Some 9.
Proof.
  destruct (splitter_pairing 5 splitPool 0 splitBody splitLinker 100%N splitPool_stage)
    as (ids' & h' & Hrun & _ & Hpairs).
  - simpl. lia.
  - exact splitPool_editable.
  - destruct (Hpairs 0 "tex" (Some 5) eq_refl)
      as (d & did & type & texType & sampType & aggType & Hd & Hsym & _ & Htex & Hsamp & Hbt
          & Hbs & Hagg & Hbasic & _ & Hsame & Huse).
    + vm_compute. reflexivity.
    + injection Hd as <-. injection Hsym as _ <-.
      destruct (Huse 3 1 20%N exampleSampler
                  (TIntermAggregate EOpTexture [Some 3; Some 4] (exampleFloat EvqTemporary 4)))
        as (f & Hpa & Hf); [vm_compute; left; reflexivity|reflexivity|reflexivity|].
      exists ids', h', texType, sampType, aggType, f.
      split; [exact Hrun|]. split; [exact Htex|]. split; [exact Hsamp|].
      split; [exact Hbt|]. split; [exact Hbs|]. split; [exact Hagg|]. split; [exact Hbasic|].
      split; [exact (Hsame eq_refl)|]. split; [exact Hpa|exact Hf].
Defined.

(** ** The slots of the vertex attribute binder on a stage *)

Lemma binder_new_cells cs new M r body lk k :
  stage cs r body lk ->
  replacedCells (cs ++ new) M (binderUseSites cs (Node r (body ++ [lk]))) !! (length cs + k)
    = new !! k.
Proof.
  intros Hstage. unfold binderUseSites.
  rewrite (replaced_outside cs _ M r body lk isVaryingIn true (length cs + k) Hstage).
  - rewrite lookup_app_r by lia. f_equal. lia.
  - intros Hin. pose proof (shape_addresses cs _ _ (stage_shape _ _ _ _ Hstage) Hin). lia.
Qed.

(** C8 (amended): the capacity-constrained variant of the binder does not
    pre-scan.  On a stage with at most 18 vertex inputs it completes, and the
    [k]-th cached input in ascending name order, whatever its name, gets the
    slot [k] and the [k]-th name of [s_attribName]: the counter starts at 0
    and advances once per input, so no two inputs get the same slot.  The
    pre-scan belongs to the fixed-table variant: there the run completes with
    the slots and names [GetVaryingLocationAndNewNameForName] hands out, in
    ascending name order, from a counter that has been advanced once per
    cached name beginning with "uv" before the first slot is assigned. *)
Theorem prescan_is_in_fixed_table_variant fuel h r body lk ids r2o :
  let cs := cells h in
  let t := Node r (body ++ [lk]) in
  let names := StdMap.keys (binderVaryings cs t) in
  stage cs r body lk ->
  height t <= fuel ->
  editable cs (binderUseSites cs t) ->
  (length names <= 18 ->
     exists res h',
       VertexVaryingInTraverser.Traverse true fuel (Some r) ids r2o h = Ok (res, h')
       /\ (forall k name, names !! k = Some name ->
             exists newName,
               VertexVaryingInTraverser.s_attribName !! k = Some newName
               /\ exists type,
                    cells h' !! (length cs + k) =
                      Some (TIntermSymbol (ids + N.of_nat k) newName type)
                    /\ layoutLocation (qualifier type) = N.of_nat k)
       /\ (forall k k' nm nm' loc loc',
             k < length names -> k' < length names -> k <> k' ->
             symbolLocation <$> cells h' !! (length cs + k) = Some (Some (nm, loc)) ->
             symbolLocation <$> cells h' !! (length cs + k') = Some (Some (nm', loc')) ->
             loc <> loc'))
  /\ ((2 * N.of_nat (length names) + 10 < 2 ^ 32)%N ->
        exists asg res h',
          assignments false (N.of_nat (length (uvNames names))) names = Some asg
          /\ length asg = length names
          /\ VertexVaryingInTraverser.Traverse false fuel (Some r) ids r2o h = Ok (res, h')
          /\ forall k loc newName, asg !! k = Some (loc, newName) ->
               exists type,
                 cells h' !! (length cs + k) =
                   Some (TIntermSymbol (ids + N.of_nat k) newName type)
                 /\ layoutLocation (qualifier type) = (loc mod 4096)%N).
Proof.
  intros cs t names Hstage Hfuel Hedit. split.
  - intros Hlen.
    destruct (assignments_capacity names 0%N) as (asg & Hasg & Hslots); [simpl; lia|].
    destruct (binder_run true fuel h r body lk ids r2o asg Hstage Hfuel Hedit Hasg)
      as (r2o' & new & M & rm & Hrun & Hnewlen & Hnew & _).
    fold cs t in Hrun, Hnew.
    assert (Hcell : forall k, k < length names ->
              exists newName type,
                VertexVaryingInTraverser.s_attribName !! k = Some newName
                /\ replacedCells (cs ++ new) M (binderUseSites cs t) !! (length cs + k) =
                     Some (TIntermSymbol (ids + N.of_nat k) newName type)
                /\ layoutLocation (qualifier type) = N.of_nat k).
    { intros k Hk. destruct (Hslots k Hk) as (newName & Hname & Hk').
      rewrite N.add_0_l in Hk'. simpl in Hname.
      destruct (Hnew k (N.of_nat k) newName Hk') as (type & Hcell & Hloc).
      exists newName, type. split; [exact Hname|]. split.
      - unfold t. rewrite (binder_new_cells cs new M r body lk k Hstage). exact Hcell.
      - rewrite Hloc. apply N.mod_small. lia. }
    eexists _, _. split; [exact Hrun|]. cbn [cells]. split.
    + intros k name Hk. apply lookup_lt_Some in Hk.
      destruct (Hcell k Hk) as (newName & type & Hn & Hc & Hl). eauto.
    + intros k k' nm nm' loc loc' Hk Hk' Hne Hc Hc'.
      destruct (Hcell k Hk) as (n1 & t1 & _ & Hc1 & Hl1).
      destruct (Hcell k' Hk') as (n2 & t2 & _ & Hc2 & Hl2).
      rewrite Hc1 in Hc. rewrite Hc2 in Hc'. simpl in Hc, Hc'.
      injection Hc as _ <-. injection Hc' as _ <-. rewrite Hl1, Hl2. lia.
  - intros Hsmall.
    assert (Huvs : (N.of_nat (length (uvNames names)) <= N.of_nat (length names))%N).
    { unfold uvNames.
      pose proof (length_filter (fun name => VertexVaryingInTraverser.isUVName name = true) names).
      lia. }
    destruct (assignments_fixed names (N.of_nat (length (uvNames names)))) as (asg & Hasg & _);
      [lia|].
    assert (Hcount : VertexVaryingInTraverser.precountUVs (binderVaryings cs t) 0 =
                     N.of_nat (length (uvNames names))).
    { change 0%N with (uint 0) at 1. rewrite precountUVs_spec, N.add_0_l.
      apply uint_small. lia. }
    assert (Hasg' : assignments false
                      (if false then 0%N
                       else VertexVaryingInTraverser.precountUVs (binderVaryings cs t) 0)
                      (StdMap.keys (binderVaryings cs t)) = Some asg).
    { cbv iota. rewrite Hcount. exact Hasg. }
    destruct (binder_run false fuel h r body lk ids r2o asg Hstage Hfuel Hedit Hasg')
      as (r2o' & new & M & rm & Hrun & Hnewlen & Hnew & _).
    fold cs t in Hrun, Hnew.
    exists asg. eexists _, _. split; [exact Hasg|]. split; [|split; [exact Hrun|]].
    + clear -Hasg. revert Hasg. generalize (N.of_nat (length (uvNames names))).
      revert asg. induction names as [|name names IH]; intros asg c Hasg.
      * injection Hasg as <-. reflexivity.
      * cbn [assignments] in Hasg.
        destruct (VertexVaryingInTraverser.GetVaryingLocationAndNewNameForName false c name)
          as [[[loc nn] c']|]; [|discriminate].
        destruct (assignments false c' names) as [l|] eqn:E; [|discriminate].
        injection Hasg as <-. simpl. f_equal. exact (IH l c' E).
    + cbn [cells]. intros k loc newName Hk.
      destruct (Hnew k loc newName Hk) as (type & Hcell & Hloc).
      exists type. split; [|exact Hloc].
      unfold t. rewrite (binder_new_cells cs new M r body lk k Hstage). exact Hcell.
Qed.

Lemma attribPool_stage : stage (cells attribPool) 0 attribBody attribLinker.
Proof.
  split.
  - repeat (econstructor; try reflexivity).
  - apply (bool_decide_unpack _). vm_compute. exact I.
  - simpl. eauto.
  - simpl. eauto.
  - repeat constructor.
Qed.

Lemma attribPool_editable :
  editable (cells attribPool)
    (binderUseSites (cells attribPool) (Node 0 (attribBody ++ [attribLinker]))).
Proof.
  intros s pa n Hin Hpa. vm_compute in Hin.
  repeat (destruct Hin as [[= <- <-]|Hin]; [injection Hpa as <-; reflexivity|]).
  destruct Hin.
Qed.

Lemma prescan_is_in_fixed_table_variant_witness :
  exists res h' uvType xType,
    VertexVaryingInTraverser.Traverse true 5 (Some 0) 30%N [] attribPool = Ok (res, h')
    /\ cells h' !! 7 = Some (TIntermSymbol 30 "a_position" uvType)
    /\ layoutLocation (qualifier uvType) = 0%N
    /\ cells h' !! 8 = Some (TIntermSymbol 31 "a_normal" xType)
    /\ layoutLocation (qualifier xType) = 1%N.
Proof.
  destruct (prescan_is_in_fixed_table_variant 5 attribPool 0 attribBody attribLinker 30%N []
              attribPool_stage) as [Hcapacity _].
  - simpl. lia.
  - exact attribPool_editable.
  - destruct Hcapacity as (res & h' & Hrun & Hslots & _); [vm_compute; lia|].
    destruct (Hslots 0 "uv2" eq_refl) as (n0 & Hn0 & t0 & Hc0 & Hl0).
    destruct (Hslots 1 "x" eq_refl) as (n1 & Hn1 & t1 & Hc1 & Hl1).
    injection Hn0 as <-. injection Hn1 as <-.
    exists res, h', t0, t1. split; [exact Hrun|].
    split; [exact Hc0|]. split; [exact Hl0|]. split; [exact Hc1|exact Hl1].
Defined.

(** The pre-count does not keep every later slot clear of the
    texture-coordinate slots: in the fixed-table variant the input [uv2] of
    [attribPool] gets the slot of TexCoord1 from the table, and [x], the
    first name the table does not know, gets
    FIRST_GENERIC_ATTRIBUTE_LOCATION + 1, the same slot. *)
Remark fixed_table_slots_can_coincide :
  match VertexVaryingInTraverser.Traverse false 5 (Some 0) 30%N [] attribPool with
  | Ok (_, h') =>
      symbolLocation <$> cells h' !! 7 = Some (Some ("a_texcoord1", 11%N))
      /\ symbolLocation <$> cells h' !! 8 = Some (Some ("x", 11%N))
  | _ => False
  end.
Proof. split; reflexivity. Qed.
